(** * Static-analysis pipeline of the Next.js/TypeScript analyzer

    A shallow embedding of the backend analyzers (dependency graph and cycle
    detection, component graph, SOLID heuristics and scores, source scanner)
    together with the properties stated about them.

    Conventions of the embedding:
    - a JavaScript [Set<string>] is the list of its members in insertion
      order, a [Map<string, V>] the list of its entries in insertion order;
    - JavaScript numbers that only ever hold integers are [Z] or [nat];
      the scores, which go through [Math.log10] and a division, are
      binary64 numbers ([float]), and [Math.log10], whose precision is the
      engine's, is a parameter;
    - a JavaScript string is held as the bytes of its UTF-8 encoding; where
      the code works on the UTF-16 code units of a string, these are
      computed from the bytes;
    - an exception caught by a [try]/[catch] is an [option];
    - the Node [path] module and [String.prototype.localeCompare] are
      library code: the analyzers are parameterised by them. *)

From Stdlib Require Import Lia ZArith QArith Qpower Lqa String Ascii List
  OrdersEx Floats.
From stdpp Require Import base option list sets strings pretty sorting.

Open Scope string_scope.
Open Scope list_scope.

(* ================================================================== *)
(** * Part I: the embedding                                            *)
(* ================================================================== *)

(** ** JavaScript built-ins used by the analyzers *)
Module Js.

(** [s.startsWith(p)] *)
Definition startsWith (s p : string) : bool := String.prefix p s.

(** [s.includes(sub)] *)
Fixpoint includes (s sub : string) : bool :=
  String.prefix sub s ||
  match s with
  | EmptyString => false
  | String _ s' => includes s' sub
  end.

(** [/^[A-Z]/.test(s)] *)
Definition startsUpper (s : string) : bool :=
  match s with
  | EmptyString => false
  | String c _ => (65 <=? nat_of_ascii c)%nat && (nat_of_ascii c <=? 90)%nat
  end.

(** Truthiness of a string: only the empty string is falsy. *)
Definition truthy (s : string) : bool :=
  match s with EmptyString => false | _ => true end.

(** [Set<string>]: members in insertion order. *)
Definition has (x : string) (s : list string) : bool := bool_decide (x ∈ s).

Definition add (x : string) (s : list string) : list string :=
  if has x s then s else s ++ [x].

Definition delete (x : string) (s : list string) : list string :=
  filter (λ y, y ≠ x) s.

(** [Map<string, V>]: entries in insertion order. *)
Fixpoint map_get {V} (k : string) (m : list (string * V)) : option V :=
  match m with
  | [] => None
  | (k', v) :: m' => if bool_decide (k' = k) then Some v else map_get k m'
  end.

Fixpoint map_set {V} (k : string) (v : V) (m : list (string * V))
  : list (string * V) :=
  match m with
  | [] => [(k, v)]
  | (k', v') :: m' =>
      if bool_decide (k' = k) then (k', v) :: m' else (k', v') :: map_set k v m'
  end.

Definition map_keys {V} (m : list (string * V)) : list string := m.*1.

(** A [for ... of] loop whose body may throw: the state is threaded
    through the iterations and the first failure aborts the loop. *)
Fixpoint forOf {A S} (body : A → S → option S) (l : list A) (s : S)
  : option S :=
  match l with
  | [] => Some s
  | x :: l' =>
      match body x s with
      | Some s' => forOf body l' s'
      | None => None
      end
  end.

(** [arr.findIndex(p => p === x)]; [None] stands for [-1]. *)
Definition findIndex (x : string) (l : list string) : option nat :=
  fst <$> list_find (λ p, p = x) l.

End Js.

(** ** The interface of Node's [path] module

    [basename_ext p ext] is the two-argument call [path.basename(p, ext)]. *)
Record PathModule := {
  dirname : string → string;
  basename : string → string;
  basename_ext : string → string → string;
  extname : string → string;
  resolve : string → string → string;
  join : string → string → string;
}.

Inductive Severity := info | warning | critical.

#[global] Instance Severity_eq_dec : EqDecision Severity.
Proof. solve_decision. Defined.


(** ** JavaScript numbers

    A JavaScript number is an IEEE 754 binary64 value, the primitive
    [float] of Rocq, whose [+], [-], [*] and [/] round to the nearest
    value, ties to even, as JavaScript's do. *)
Module Number.

(** The number holding a count or a length: exact below 2^53, and the
    length of an array is below 2^32. *)
Definition ofNat (n : nat) : float :=
  PrimFloat.of_uint63 (Uint63.of_Z (Z.of_nat n)).

(** [Math.max(x, y)]: [NaN] when an argument is [NaN]; [+0] is larger
    than [-0]. *)
Definition Math_max (x y : float) : float :=
  if PrimFloat.is_nan x || PrimFloat.is_nan y then nan
  else if (x <? y)%float then y
  else if (y <? x)%float then x
  else if get_sign x then y else x.

(** [Math.round(x)]: [x] itself when it is not finite or is an integer,
    else the integer [floor(x + 1/2)], computed exactly; the zero that
    comes from a negative [x] is [-0]. *)
Definition Math_round (x : float) : float :=
  match Prim2SF x with
  | S754_finite s m e =>
      if (0 <=? e)%Z then x
      else
        let n := cond_Zopp s (Z.pos m) in
        let r := Z.shiftr (2 * n + 2 ^ (- e)) (1 - e) in
        if (r =? 0)%Z then (if s then neg_zero else zero)
        else if (r <? 0)%Z then (- PrimFloat.of_uint63 (Uint63.of_Z (- r)))%float
        else PrimFloat.of_uint63 (Uint63.of_Z r)
  | _ => x
  end.

(** The dyadic number [m * 2^e]. *)
Definition dyadic (m e : Z) : Q := (inject_Z m * 2 ^ e)%Q.

(** The rational number that a finite number stands for. *)
Definition valueOf (x : float) : Q :=
  match Prim2SF x with
  | S754_finite s m e => dyadic (cond_Zopp s (Z.pos m)) e
  | _ => 0%Q
  end.

(** Whether bits were lost while shifting a mantissa. *)
Definition inexact (mrs : shr_record) : bool := shr_r mrs || shr_s mrs.

(** [b] is [a] shifted to the right by [k] bits: what remains is the
    quotient, and a lost bit is remembered. *)
Definition shifted (k : Z) (a b : shr_record) : Prop :=
  (0 ≤ shr_m a)%Z →
  shr_m b = (shr_m a / 2 ^ k)%Z ∧
  (inexact b = true → inexact a = true ∨ (shr_m a mod 2 ^ k ≠ 0)%Z).

(** The shapes of a number that is zero or positive. *)
Definition nonneg (x : spec_float) : Prop :=
  (∃ s, x = S754_zero s) ∨ x = S754_infinity false ∨
  ∃ m e, x = S754_finite false m e.

End Number.
(** ** Syntax trees

    A node of the parser's tree is a JavaScript object.  The embedding
    keeps what the analyzers read: its [type] tag, its location, the types
    of its ancestors (the [parent] chain), and its properties.  A property
    that the parser always fills with an array is read through [arr]; any
    other property is read through [prop] and may be absent, a string, a
    node, or an array of nodes. *)
Module K.
(** Property names.  [argument], [left] and [right] stand for the
    properties that no analyzer reads. *)
Inductive t :=
  | body | consequent | alternate | block | init | test | update
  | expression | id | callee | object | property | superClass
  | openingElement | name | local | exported | source | value | key
  | argument | left | right.

Definition all : list t :=
  [body; consequent; alternate; block; init; test; update; expression; id;
   callee; object; property; superClass; openingElement; name; local;
   exported; source; value; key; argument; left; right].

(** Properties that always hold an array. *)
Inductive a :=
  | cases | declarations | arguments | properties | elements | children
  | specifiers | extends | params | parameters.

Definition all_arrays : list a :=
  [cases; declarations; arguments; properties; elements; children;
   specifiers; extends; params; parameters].
End K.

Module Ast.

Record Loc := { start_line : Z; end_line : Z }.

Inductive Prop_ (N : Type) :=
  | Absent
  | Str (s : string)
  | One (n : N)
  | Arr (l : list N).
Arguments Absent {N}.
Arguments Str {N} s.
Arguments One {N} n.
Arguments Arr {N} l.

#[local] Unset Elimination Schemes.
Inductive Node := mkNode {
  type : string;
  loc : option Loc;
  parent : list string;
  prop : K.t → Prop_ Node;
  arr : K.a → list Node;
}.
#[local] Set Elimination Schemes.

(** [node.k1?.k2?. ...]: [Absent] as soon as a step is not a node. *)
Fixpoint getPath (n : Node) (ks : list K.t) : Prop_ Node :=
  match ks with
  | [] => One n
  | [k] => prop n k
  | k :: ks' =>
      match prop n k with
      | One n' => getPath n' ks'
      | _ => Absent
      end
  end.

Definition strOf (v : Prop_ Node) : option string :=
  match v with Str s => Some s | _ => None end.

Definition nodeOf (v : Prop_ Node) : option Node :=
  match v with One n => Some n | _ => None end.

(** [v === s] for a property value and a string literal. *)
Definition isStr (v : Prop_ Node) (s : string) : bool :=
  match v with Str s' => bool_decide (s' = s) | _ => false end.

(** Truthiness of a property value. *)
Definition present (v : Prop_ Node) : bool :=
  match v with
  | Absent => false
  | Str s => Js.truthy s
  | One _ | Arr _ => true
  end.

(** [parser.simpleTraverse(ast, {enter})]: the nodes of the tree in the
    order in which [enter] sees them (parents before children).  The order
    among the children of a node is the library's; it is taken to be the
    order of [K.all] followed by [K.all_arrays]. *)
Fixpoint simpleTraverse (n : Node) : list Node :=
  n ::
  flat_map (λ k, match prop n k with
                 | One c => simpleTraverse c
                 | Arr l => flat_map simpleTraverse l
                 | _ => []
                 end) K.all ++
  flat_map (λ k, flat_map simpleTraverse (arr n k)) K.all_arrays.

(** The children of a node, under any property. *)
Definition childNodes (n : Node) : list Node :=
  flat_map (λ k, match prop n k with
                 | One c => [c]
                 | Arr l => l
                 | _ => []
                 end) K.all ++
  flat_map (arr n) K.all_arrays.

(** The [parent] chains below [n] are those of the tree. *)
Fixpoint parentsOk (n : Node) : bool :=
  forallb (λ k, match prop n k with
                | One c => bool_decide (parent c = type n :: parent n) &&
                           parentsOk c
                | Arr l => forallb (λ c, bool_decide
                                           (parent c = type n :: parent n) &&
                                         parentsOk c) l
                | _ => true
                end) K.all &&
  forallb (λ k, forallb (λ c, bool_decide (parent c = type n :: parent n) &&
                              parentsOk c) (arr n k)) K.all_arrays.

(** A leaf: no location, no properties. *)
Definition leaf (ty : string) (parents : list string) : Node :=
  {| type := ty; loc := None; parent := parents;
     prop := λ _, Absent; arr := λ _, [] |}.

End Ast.

(** ** File nodes and the parsed project *)
Module Files.

(** [FileNode] of [utils/fileSystem.ts]; an absent optional field or
    flag is the empty string or [false]. *)
Record FileNode := {
  file_name : string;
  file_path : string;
  file_size : Z;
  file_extension : string;
  isPage : bool;
  isComponent : bool;
  isLayout : bool;
}.

(** [parseFileFromPath]: the tree of the file stored at a path, or [None]
    when reading or parsing throws. *)
Definition World := string → option Ast.Node.

(** The filter that opens every analyzer. *)
Definition isScriptFile (file : FileNode) : bool :=
  bool_decide (file_extension file ∈ [".ts"; ".tsx"; ".js"; ".jsx"]).

End Files.

(** ** Extraction utilities ([utils/parser]) *)
Module Parser.
Import Js Ast.

Definition typeIs (n : Node) (ty : string) : bool := bool_decide (type n = ty).

Definition typeIn (n : Node) (tys : list string) : bool :=
  bool_decide (type n ∈ tys).

(** [node.k1?.k2?. ... ?.type] *)
Definition typeAt (n : Node) (ks : list K.t) : option string :=
  type <$> nodeOf (getPath n ks).

Definition typeAtIs (n : Node) (ks : list K.t) (ty : string) : bool :=
  bool_decide (typeAt n ks = Some ty).

(** What [parser.parse] of typescript-estree hands to the analyzers, as
    far as they can tell: a string or a numeric literal is a node of type
    [Literal] (the types [StringLiteral] and [NumericLiteral] are those of
    another parser), and no node has a [parent], since neither [parse] nor
    [simpleTraverse] called without its third argument sets one. *)
Definition fromParser (n : Node) : bool :=
  bool_decide (parent n = []) &&
  negb (typeIn n ["StringLiteral"; "NumericLiteral"]).

Definition extractImports (ast : Node) : list Node :=
  filter (λ n, type n = "ImportDeclaration") (simpleTraverse ast).

Definition extractExports (ast : Node) : list Node :=
  filter (λ n, type n ∈ ["ExportNamedDeclaration"; "ExportDefaultDeclaration";
                         "ExportAllDeclaration"]) (simpleTraverse ast).

(** [node.id?.name && /^[A-Z]/.test(node.id.name)] *)
Definition idIsUpper (n : Node) : bool :=
  match strOf (getPath n [K.id; K.name]) with
  | Some s => startsUpper s
  | None => false
  end.

(** The three tests of [extractReactComponents]. *)
Definition looksLikeComponent (n : Node) : bool :=
  (typeIs n "FunctionDeclaration" && idIsUpper n) ||
  (typeIs n "VariableDeclarator" &&
   typeAtIs n [K.id] "Identifier" && idIsUpper n &&
   (typeAtIs n [K.init] "ArrowFunctionExpression" ||
    typeAtIs n [K.init] "FunctionExpression")) ||
  (typeIs n "ClassDeclaration" && idIsUpper n && present (prop n K.superClass)).

Definition extractReactComponents (ast : Node) : list Node :=
  filter (λ n, looksLikeComponent n = true) (simpleTraverse ast).

Definition extractTypeDefinitions (ast : Node) : list Node :=
  filter (λ n, type n ∈ ["TSInterfaceDeclaration"; "TSTypeAliasDeclaration";
                         "TSEnumDeclaration"]) (simpleTraverse ast).

(** The names bound by an object pattern. *)
Definition propertyNames (pattern : Node) : list string :=
  omap (λ p, if typeIs p "Property" && typeAtIs p [K.key] "Identifier"
             then strOf (getPath p [K.key; K.name]) else None)
       (arr pattern K.properties).

Definition extractComponentProps (component : Node) : list string :=
  if typeIs component "FunctionDeclaration" then
    match head (arr component K.params) with
    | Some firstParam =>
        if typeIs firstParam "ObjectPattern" then propertyNames firstParam
        else []
    | None => []
    end
  else if typeIs component "VariableDeclarator" then
    match nodeOf (prop component K.init) with
    | Some init =>
        if typeIn init ["ArrowFunctionExpression"; "FunctionExpression"] then
          match head (arr init K.params) with
          | Some firstParam =>
              if typeIs firstParam "ObjectPattern"
              then propertyNames firstParam else []
          | None => []
          end
        else []
    | None => []
    end
  else [].

End Parser.

(** ** Dependency analyzer: import resolution and cycle detection *)
Module Dependency.
Import Js Ast Files Parser.

Record CircularDependency := {
  cd_path : list string;
  cd_severity : Severity;
}.

Inductive DependencyType :=
  | t_component | t_page | t_api | t_util | t_hook | t_lib | t_config.

Record DependencyNode := {
  dep_id : string;
  dep_label : string;
  dep_filePath : string;
  dep_type : DependencyType;
  dep_imports : list string;
  dep_exports : list string;
}.

Record DependencyGraph := {
  dependencies : list DependencyNode;
  graph_circularDependencies : list CircularDependency;
}.

#[global] Instance CircularDependency_eq_dec : EqDecision CircularDependency.
Proof. solve_decision. Defined.

Section WithPath.
Variable path : PathModule.

Definition extensions : list string := [".ts"; ".tsx"; ".js"; ".jsx"].

(** [resolveImportPath]: both [for] loops return in their first
    iteration, so only the head of [extensions] is ever used; the second
    loop is reached only if the first did not run at all.  [None] is the
    [null] of the [catch] branch. *)
Definition resolveImportPath (sourcePath importPath : string)
  : option string :=
  let sourceDir := dirname path sourcePath in
  let resolvedPath := resolve path sourceDir importPath in
  if negb (truthy (extname path resolvedPath)) then
    match extensions with
    | ext :: _ => Some (resolvedPath +:+ ext)
    | [] =>
        match extensions with
        | ext :: _ => Some (join path resolvedPath ("index" +:+ ext))
        | [] => Some resolvedPath
        end
    end
  else Some resolvedPath.

(** The candidates that the specification lists for an import whose
    resolved path has no extension, in order. *)
Definition candidates (resolvedPath : string) : list string :=
  ((λ ext, resolvedPath +:+ ext) <$> extensions) ++
  ((λ ext, join path resolvedPath ("index" +:+ ext)) <$> extensions).

(** The inner loop of [analyzeDependencies] over the import declarations
    of one file: [importPaths] is the set of resolved local imports. *)
Definition isLocalImport (importPath : string) : bool :=
  startsWith importPath "." || startsWith importPath "/".

Definition collectImport (filePath importPath : string)
  (importPaths : list string) : list string :=
  if negb (isLocalImport importPath) then importPaths
  else
    match resolveImportPath filePath importPath with
    | Some resolvedPath =>
        if truthy resolvedPath then add resolvedPath importPaths
        else importPaths
    | None => importPaths
    end.

Definition collectImports (filePath : string) (specifiers : list string)
  : list string :=
  fold_left (λ acc importPath, collectImport filePath importPath acc)
    specifiers [].

End WithPath.

(** State of [detectCircularDependencies]: the two sets and the result
    array that the nested [dfs] closes over. *)
Record DfsState := {
  visited : list string;
  stack : list string;
  circularDependencies : list CircularDependency;
}.

Definition moduleName (filePathToModuleName : list (string * string))
  (p : string) : string :=
  match map_get p filePathToModuleName with
  | Some n => if truthy n then n else p
  | None => p
  end.

Definition severityOf (cycle : list string) : Severity :=
  if (3 <? length cycle)%nat then critical else warning.

Definition mkCycle (filePathToModuleName : list (string * string))
  (nodes : list string) : CircularDependency :=
  let cycle := moduleName filePathToModuleName <$> nodes in
  {| cd_path := cycle; cd_severity := severityOf cycle |}.

Definition dependenciesOf (dependencyMap : list (string * list string))
  (node : string) : list string :=
  default [] (map_get node dependencyMap).

(** [dfs]: the recursion is bounded by [fuel], [None] meaning that the
    bound was reached; [path] is the copy [[...path]] handed to the call. *)
Fixpoint dfs (dependencyMap : list (string * list string))
  (filePathToModuleName : list (string * string))
  (fuel : nat) (node : string) (path : list string) (st : DfsState)
  : option DfsState :=
  match fuel with
  | O => None
  | S fuel' =>
      if has node (visited st) then Some st
      else if has node (stack st) then
        match findIndex node path with
        | Some cycleStart =>
            Some {| visited := visited st;
                    stack := stack st;
                    circularDependencies :=
                      circularDependencies st ++
                      [mkCycle filePathToModuleName (drop cycleStart path)] |}
        | None => Some st
        end
      else
        let st1 := {| visited := visited st;
                      stack := add node (stack st);
                      circularDependencies := circularDependencies st |} in
        let path1 := path ++ [node] in
        match forOf (λ dependency s,
                       dfs dependencyMap filePathToModuleName fuel'
                         dependency path1 s)
                (dependenciesOf dependencyMap node) st1 with
        | Some st2 =>
            Some {| visited := add node (visited st2);
                    stack := delete node (stack st2);
                    circularDependencies := circularDependencies st2 |}
        | None => None
        end
  end.

(** Every node that can ever be handed to [dfs]. *)
Definition allNodes (dependencyMap : list (string * list string))
  : list string :=
  map_keys dependencyMap ++ concat (dependencyMap.*2).

Definition initialState : DfsState :=
  {| visited := []; stack := []; circularDependencies := [] |}.

Definition detectCircularDependencies
  (dependencyMap : list (string * list string))
  (filePathToModuleName : list (string * string))
  : option (list CircularDependency) :=
  let fuel := S (length (allNodes dependencyMap)) in
  circularDependencies <$>
    forOf (λ node s, dfs dependencyMap filePathToModuleName fuel node [] s)
      (map_keys dependencyMap) initialState.

(** *** [analyzeDependencies] *)
Section Analyze.
Variable path : PathModule.

(** [importDecl.source.value] *)
Definition sourceValue (importDecl : Node) : string :=
  default "" (strOf (getPath importDecl [K.source; K.value])).

Definition exportNamesOf (exportDecl : Node) : list string :=
  if typeIs exportDecl "ExportNamedDeclaration" then
    omap (λ specifier, strOf (getPath specifier [K.exported; K.name]))
      (arr exportDecl K.specifiers)
  else if typeIs exportDecl "ExportDefaultDeclaration" then ["default"]
  else [].

Definition dependencyTypeOf (file : FileNode) : DependencyType :=
  if isPage file then t_page
  else if isComponent file then t_component
  else if includes (file_path file) "/api/" then t_api
  else if includes (file_path file) "/hooks/" ||
          startsWith (basename_ext path (file_path file)
                        (extname path (file_path file))) "use"
  then t_hook
  else if includes (file_path file) "/lib/" then t_lib
  else if includes (file_path file) "/config/" then t_config
  else t_util.

(** What the first pass accumulates: the nodes and the two maps. *)
Record Pass := {
  dependencyNodes : list DependencyNode;
  filePathToModuleName : list (string * string);
  dependencyMap : list (string * list string);
}.

(** Body of the first pass for one file; a file that cannot be parsed is
    skipped. *)
Definition analyzeFile (world : World) (file : FileNode) (acc : Pass) : Pass :=
  match world (file_path file) with
  | None => acc
  | Some ast =>
      let importPaths :=
        collectImports path (file_path file)
          (sourceValue <$> extractImports ast) in
      let exportNames := flat_map exportNamesOf (extractExports ast) in
      let fileName := basename path (file_path file) in
      {| dependencyNodes :=
           dependencyNodes acc ++
           [{| dep_id := file_path file;
               dep_label := fileName;
               dep_filePath := file_path file;
               dep_type := dependencyTypeOf file;
               dep_imports := importPaths;
               dep_exports := exportNames |}];
         filePathToModuleName :=
           map_set (file_path file) fileName (filePathToModuleName acc);
         dependencyMap :=
           map_set (file_path file) importPaths (dependencyMap acc) |}
  end.

Definition firstPass (world : World) (fileData : list FileNode) : Pass :=
  fold_left (λ acc file, analyzeFile world file acc)
    (filter (λ f, isScriptFile f = true) fileData)
    {| dependencyNodes := []; filePathToModuleName := [];
       dependencyMap := [] |}.

(** [None] only if the traversal ran out of fuel. *)
Definition analyzeDependencies (world : World) (fileData : list FileNode)
  : option DependencyGraph :=
  let pass := firstPass world fileData in
  circular ← detectCircularDependencies (dependencyMap pass)
               (filePathToModuleName pass);
  Some {| dependencies := dependencyNodes pass;
          graph_circularDependencies := circular |}.

End Analyze.

End Dependency.

(** ** Graph notions used to state the behaviour of the cycle detector *)
Module Graph.
Import Js Dependency.

Section WithMap.
Variable dependencyMap : list (string * list string).

(** [x] imports [y]. *)
Definition edge (x y : string) : Prop := y ∈ dependenciesOf dependencyMap x.

(** Consecutive members of [l] are joined by an edge. *)
Definition is_walk (l : list string) : Prop :=
  ∀ i x y, l !! i = Some x → l !! S i = Some y → edge x y.

(** The last member of [l] imports the first one. *)
Definition closes (l : list string) : Prop :=
  ∀ x y, last l = Some x → head l = Some y → edge x y.

(** [l] lists the members of a simple cycle, in import order. *)
Definition simple_cycle (l : list string) : Prop :=
  l ≠ [] ∧ NoDup l ∧ is_walk l ∧ closes l.

Definition acyclic : Prop := ∀ l, ¬ simple_cycle l.

(** [r] lists the same cycle as [c], from another starting point. *)
Definition is_rotation (c r : list string) : Prop :=
  ∃ l1 l2, c = l1 ++ l2 ∧ r = l2 ++ l1.

(** [c] is the only simple cycle of the graph. *)
Definition only_cycle (c : list string) : Prop :=
  simple_cycle c ∧ ∀ r, simple_cycle r → is_rotation c r.

(** The values of the map are sets: no import is listed twice. *)
Definition sets_ok : Prop := Forall (λ kv, NoDup kv.2) dependencyMap.

Definition same_members (r r' : list string) : Prop := ∀ z, z ∈ r ↔ z ∈ r'.

(** Invariant of the traversal. [raw] lists, for every record pushed so
    far, the file paths behind its labels. *)
Record Inv (filePathToModuleName : list (string * string))
  (path : list string) (st : DfsState) (raw : list (list string)) : Prop := {
  inv_stack : stack st = path;
  inv_nodup : NoDup path;
  inv_walk : is_walk path;
  inv_disjoint : ∀ x, x ∈ visited st → x ∉ path;
  inv_out : circularDependencies st = mkCycle filePathToModuleName <$> raw;
  inv_sound : ∀ r, r ∈ raw → simple_cycle r;
  inv_closed : ∀ l1 x l2, visited st = l1 ++ x :: l2 →
    ∀ y, edge x y →
      y ∈ l1 ∨ ∃ r, r ∈ raw ∧ head r = Some y ∧ last r = Some x;
  inv_resident : ∀ r, r ∈ raw →
    ∃ r1 r2 p q, r = r1 ++ r2 ∧ (∀ z, z ∈ r2 → z ∈ visited st) ∧
                 path = p ++ r1 ++ q;
  inv_distinct : ∀ l1 r l2, raw = l1 ++ r :: l2 →
    ∀ r', r' ∈ l1 → ¬ same_members r' r;
}.

End WithMap.
End Graph.


(** ** Component analyzer ([analyzeComponents]) *)
Module Components.
Import Js Ast Files Parser.

Inductive ComponentType := component | page | layout | utils | hook.

Record ComponentNodeData := {
  cid : string;
  label : string;
  filePath : string;
  ctype : ComponentType;
  props : option (list string);
  imports : nat;
  exports : nat;
  position : option (nat * nat);
}.

Record ComponentRelationship := {
  rid : string;
  rsource : string;
  rtarget : string;
}.

Record ComponentGraph := {
  components : list ComponentNodeData;
  relationships : list ComponentRelationship;
}.

(** The name under which a declaration is registered; the empty string
    when there is none. *)
Definition componentNameOf (c : Node) : string :=
  if typeIs c "FunctionDeclaration" || typeIs c "ClassDeclaration" then
    default "" (strOf (getPath c [K.id; K.name]))
  else if typeIs c "VariableDeclarator" && typeAtIs c [K.id] "Identifier" then
    default "" (strOf (getPath c [K.id; K.name]))
  else "".

Definition componentTypeOf (file : FileNode) (componentName : string)
  : ComponentType :=
  if isPage file then page
  else if isLayout file then layout
  else if includes (file_path file) "/hooks/" || startsWith componentName "use"
  then hook
  else if includes (file_path file) "/utils/" ||
          includes (file_path file) "/lib/" ||
          includes (file_path file) "/helpers/"
  then utils
  else component.

(** Body of the loop over the components of one file. *)
Definition addComponent (file : FileNode) (c : Node)
  (componentNodes : list ComponentNodeData) : list ComponentNodeData :=
  let componentName := componentNameOf c in
  if truthy componentName then
    let props := extractComponentProps c in
    componentNodes ++
    [{| cid := file_path file +:+ ":" +:+ componentName;
        label := componentName;
        filePath := file_path file;
        ctype := componentTypeOf file componentName;
        props := if (0 <? length props)%nat then Some props else None;
        imports := 0;
        exports := 0;
        position := None |}]
  else componentNodes.

(** The capitalised names that an import declaration of a local module
    binds. *)
Definition importedNames (importDecl : Node) : list string :=
  if negb (startsWith (default "" (strOf (getPath importDecl [K.source; K.value]))) ".")
  then []
  else
    omap (λ specifier,
            if typeIs specifier "ImportSpecifier" ||
               typeIs specifier "ImportDefaultSpecifier" then
              match strOf (getPath specifier [K.local; K.name]) with
              | Some importedName =>
                  if startsUpper importedName then Some importedName else None
              | None => None
              end
            else None)
         (arr importDecl K.specifiers).

(** First pass, one file: a file that cannot be parsed is skipped. *)
Definition firstPass (world : World) (file : FileNode)
  (acc : list ComponentNodeData * list (string * list string))
  : list ComponentNodeData * list (string * list string) :=
  match world (file_path file) with
  | None => acc
  | Some ast =>
      let componentNodes :=
        fold_left (λ nodes c, addComponent file c nodes)
          (extractReactComponents ast) acc.1 in
      let importedComponents := flat_map importedNames (extractImports ast) in
      (componentNodes,
       if (0 <? length importedComponents)%nat
       then map_set (file_path file) importedComponents acc.2
       else acc.2)
  end.

(** [componentNodes.filter(p)]: the array of references to the nodes
    that satisfy [p], as their indices in [componentNodes]. *)
Definition indicesWhere (p : ComponentNodeData → bool)
  (componentNodes : list ComponentNodeData) : list nat :=
  (filter (λ ix, p ix.2 = true) (imap pair componentNodes)).*1.

Definition bumpImports (c : ComponentNodeData) : ComponentNodeData :=
  {| cid := cid c; label := label c; filePath := filePath c; ctype := ctype c;
     props := props c; imports := imports c + 1; exports := exports c;
     position := position c |}.

Definition bumpExports (c : ComponentNodeData) : ComponentNodeData :=
  {| cid := cid c; label := label c; filePath := filePath c; ctype := ctype c;
     props := props c; imports := imports c; exports := exports c + 1;
     position := position c |}.

(** Innermost body of the second pass, for the source node at index [s]
    and the target node at index [t]. *)
Definition relate (s t : nat)
  (acc : list ComponentNodeData * list ComponentRelationship)
  : list ComponentNodeData * list ComponentRelationship :=
  match acc.1 !! s, acc.1 !! t with
  | Some sourceComponent, Some targetComponent =>
      if bool_decide (cid sourceComponent = cid targetComponent) then acc
      else
        (alter bumpExports t (alter bumpImports s acc.1),
         acc.2 ++
         [{| rid := cid sourceComponent +:+ "->" +:+ cid targetComponent;
             rsource := cid sourceComponent;
             rtarget := cid targetComponent |}])
  | _, _ => acc
  end.

(** Second pass, one entry of [importMap]. *)
Definition secondPass (entry : string * list string)
  (acc : list ComponentNodeData * list ComponentRelationship)
  : list ComponentNodeData * list ComponentRelationship :=
  let '(path, importedComponents) := entry in
  let sourceComponents :=
    indicesWhere (λ node, bool_decide (filePath node = path)) acc.1 in
  if bool_decide (length sourceComponents = 0%nat) then acc
  else
    fold_left (λ acc importedName,
      let targetComponents :=
        indicesWhere (λ node, bool_decide (label node = importedName)) acc.1 in
      fold_left (λ acc s,
        fold_left (λ acc t, relate s t acc) targetComponents acc)
        sourceComponents acc)
      importedComponents acc.

(** [Math.ceil(Math.sqrt(n))] on a length. *)
Definition ceilSqrt (n : nat) : nat :=
  let r := Nat.sqrt n in if (r * r =? n)%nat then r else S r.

Definition place (gridSize : nat) (index : nat) (c : ComponentNodeData)
  : ComponentNodeData :=
  let row := (index / gridSize)%nat in
  let col := (index mod gridSize)%nat in
  {| cid := cid c; label := label c; filePath := filePath c; ctype := ctype c;
     props := props c; imports := imports c; exports := exports c;
     position := Some ((col * 150)%nat, (row * 150)%nat) |}.

Definition analyzeComponents (world : World) (fileData : list FileNode)
  : ComponentGraph :=
  let tsxFiles := filter (λ f, isScriptFile f = true) fileData in
  let '(componentNodes, importMap) :=
    fold_left (λ acc file, firstPass world file acc) tsxFiles ([], []) in
  let '(componentNodes, relationships) :=
    fold_left (λ acc entry, secondPass entry acc) importMap
      (componentNodes, []) in
  let gridSize := ceilSqrt (length componentNodes) in
  {| components := imap (place gridSize) componentNodes;
     relationships := relationships |}.

End Components.

(** ** SOLID analyzer ([analyzeSolid]) *)
Module Solid.
Import Js Ast Files Parser Number.

Inductive Principle := SRP | OCP | LSP | ISP | DIP.

#[global] Instance Principle_eq_dec : EqDecision Principle.
Proof. solve_decision. Defined.

Record SolidIssue := {
  issue_id : string;
  principle : Principle;
  severity : Severity;
  description : string;
  issue_filePath : string;
  recommendation : string;
}.

Record Score := {
  srp : float; ocp : float; lsp : float; isp : float; dip : float;
  overall : float;
}.

Record Stats := {
  filesAnalyzed : nat;
  totalComponents : nat;
  totalIssues : nat;
  criticalIssues : nat;
}.

Record SolidReport := {
  score : Score;
  issues : list SolidIssue;
  stats : Stats;
}.

(** *** Walking the children of a node *)

(** [if (node.k) traverse(node.k)]: a string or an array has none of the
    properties that [traverse] reads, so only a node is walked. *)
Definition visit {S} (traverse : Node → S → S) (v : Prop_ Node) (s : S) : S :=
  match v with
  | One n => traverse n s
  | _ => s
  end.

(** [node.k.forEach(traverse)] *)
Definition visitEach {S} (traverse : Node → S → S) (l : list Node) (s : S)
  : S :=
  fold_left (λ s n, traverse n s) l s.

(** [node.body]: [forEach] on an array, a plain call otherwise. *)
Definition visitBody {S} (traverse : Node → S → S) (v : Prop_ Node) (s : S)
  : S :=
  match v with
  | Arr l => visitEach traverse l s
  | _ => visit traverse v s
  end.

(** *** Component size *)

Definition lines (l : Loc) : Z := end_line l - start_line l + 1.

Definition locAt (v : Prop_ Node) : option Loc :=
  match v with One n => loc n | _ => None end.

Definition getComponentSize (component : Node) : Z :=
  match
    (if typeIn component ["FunctionDeclaration"; "ArrowFunctionExpression";
                          "FunctionExpression"]
     then loc component else None)
  with
  | Some l => lines l
  | None =>
      match
        (if typeIs component "ClassDeclaration"
         then locAt (prop component K.body) else None)
      with
      | Some l => lines l
      | None =>
          match
            (if typeIs component "VariableDeclarator"
             then locAt (prop component K.init) else None)
          with
          | Some l => lines l
          | None => 50
          end
      end
  end.

(** The location that the size estimate of a component reads, if any. *)
Definition usableLoc (component : Node) : option Loc :=
  if typeIn component ["FunctionDeclaration"; "ArrowFunctionExpression";
                       "FunctionExpression"] then loc component
  else if typeIs component "ClassDeclaration"
  then locAt (prop component K.body)
  else if typeIs component "VariableDeclarator"
  then locAt (prop component K.init)
  else None.

(** *** Single responsibility *)

Record Concerns := {
  hasApiCalls : bool;
  hasStateManagement : bool;
  hasComplexLogic : bool;
}.

Definition calleeName (n : Node) (s : string) : bool :=
  isStr (getPath n [K.callee; K.name]) s.
Definition calleeObject (n : Node) (s : string) : bool :=
  isStr (getPath n [K.callee; K.object; K.name]) s.
Definition calleeProperty (n : Node) (s : string) : bool :=
  isStr (getPath n [K.callee; K.property; K.name]) s.

Definition isApiCall (n : Node) : bool :=
  typeIs n "CallExpression" &&
  (calleeName n "fetch" || calleeObject n "axios" || calleeObject n "http" ||
   (calleeProperty n "get" || calleeProperty n "post" ||
    calleeProperty n "put" || calleeProperty n "delete")).

Definition isStateCall (n : Node) : bool :=
  typeIs n "CallExpression" &&
  (calleeName n "useState" || calleeName n "useReducer" ||
   calleeProperty n "setState").

Definition isBranching (n : Node) : bool :=
  typeIn n ["IfStatement"; "ForStatement"; "WhileStatement"; "SwitchStatement"].

Fixpoint mixedConcerns_traverse (node : Node) (s : Concerns) : Concerns :=
  let s := {| hasApiCalls := hasApiCalls s || isApiCall node;
              hasStateManagement := hasStateManagement s || isStateCall node;
              hasComplexLogic := hasComplexLogic s || isBranching node |} in
  let s := visitBody mixedConcerns_traverse (prop node K.body) s in
  let s := visit mixedConcerns_traverse (prop node K.consequent) s in
  let s := visit mixedConcerns_traverse (prop node K.alternate) s in
  let s := visit mixedConcerns_traverse (prop node K.block) s in
  let s := visitEach mixedConcerns_traverse (arr node K.declarations) s in
  let s := visit mixedConcerns_traverse (prop node K.init) s in
  let s := visit mixedConcerns_traverse (prop node K.expression) s in
  visitEach mixedConcerns_traverse (arr node K.arguments) s.

Definition hasMixedConcerns (component : Node) : bool :=
  let s := mixedConcerns_traverse component
             {| hasApiCalls := false; hasStateManagement := false;
                hasComplexLogic := false |} in
  (hasApiCalls s && hasStateManagement s) ||
  (hasApiCalls s && hasComplexLogic s) ||
  (hasStateManagement s && hasComplexLogic s).

Definition componentName (component : Node) : string :=
  match strOf (getPath component [K.id; K.name]) with
  | Some s => if truthy s then s else "UnnamedComponent"
  | None => "UnnamedComponent"
  end.

(** Body of the loop of [analyzeSRP] for one component: the size check,
    then the mixed-concerns check. *)
Definition sizeIssues (file : FileNode) (component : Node) : list SolidIssue :=
  let componentName := componentName component in
  let componentSize := getComponentSize component in
  if (200 <? componentSize)%Z then
    [{| issue_id := "srp-large-component-" +:+ file_path file +:+ "-" +:+
                    componentName;
        principle := SRP;
        severity := critical;
        description := "Component " +:+ componentName +:+ " is too large (" +:+
                       pretty componentSize +:+
                       " lines) and likely has multiple responsibilities";
        issue_filePath := file_path file;
        recommendation := "Split this component into smaller, focused components each with a single responsibility" |}]
  else if (100 <? componentSize)%Z then
    [{| issue_id := "srp-medium-component-" +:+ file_path file +:+ "-" +:+
                    componentName;
        principle := SRP;
        severity := warning;
        description := "Component " +:+ componentName +:+
                       " is moderately large (" +:+ pretty componentSize +:+
                       " lines) and may have multiple responsibilities";
        issue_filePath := file_path file;
        recommendation := "Consider splitting this component into smaller, focused components" |}]
  else [].

Definition mixedConcernsIssues (file : FileNode) (component : Node)
  : list SolidIssue :=
  let componentName := componentName component in
  if hasMixedConcerns component then
    [{| issue_id := "srp-mixed-concerns-" +:+ file_path file +:+ "-" +:+
                    componentName;
        principle := SRP;
        severity := warning;
        description := "Component " +:+ componentName +:+
                       " mixes multiple concerns (e.g., data fetching, state management, and UI rendering)";
        issue_filePath := file_path file;
        recommendation := "Separate concerns by moving data fetching to custom hooks, business logic to separate utilities, and keep components focused on UI rendering" |}]
  else [].

Definition srpIssues (file : FileNode) (component : Node) : list SolidIssue :=
  sizeIssues file component ++ mixedConcernsIssues file component.

Definition analyzeSRP (file : FileNode) (components : list Node)
  : list SolidIssue :=
  flat_map (srpIssues file) components.

(** *** Open-closed *)

Definition isConditional (n : Node) : bool :=
  typeIn n ["IfStatement"; "SwitchStatement"; "ConditionalExpression"].

Definition EXCESSIVE_THRESHOLD : nat := 5.

Fixpoint conditionals_traverse (node : Node) (conditionalCount : nat) : nat :=
  let c := if isConditional node then S conditionalCount
           else conditionalCount in
  let c := visitBody conditionals_traverse (prop node K.body) c in
  let c := visit conditionals_traverse (prop node K.consequent) c in
  let c := visit conditionals_traverse (prop node K.alternate) c in
  let c := visitEach conditionals_traverse (arr node K.cases) c in
  let c := visit conditionals_traverse (prop node K.block) c in
  let c := visitEach conditionals_traverse (arr node K.declarations) c in
  let c := visit conditionals_traverse (prop node K.init) c in
  let c := visit conditionals_traverse (prop node K.test) c in
  let c := visit conditionals_traverse (prop node K.update) c in
  let c := visit conditionals_traverse (prop node K.expression) c in
  visitEach conditionals_traverse (arr node K.arguments) c.

Definition hasExcessiveConditionals (component : Node) : bool :=
  (EXCESSIVE_THRESHOLD <? conditionals_traverse component 0)%nat.

(** The [while] loops over [current.parent]. *)
Definition isInImportExport (node : Node) : bool :=
  existsb (λ ty, bool_decide (ty ∈ ["ImportDeclaration";
                                    "ExportNamedDeclaration";
                                    "ExportDefaultDeclaration"]))
    (parent node).

Definition isInVariableDeclaration (node : Node) : bool :=
  existsb (λ ty, bool_decide (ty = "VariableDeclaration")) (parent node).

Definition isLiteral (n : Node) : bool :=
  typeIn n ["StringLiteral"; "NumericLiteral"; "ArrayExpression";
            "ObjectExpression"].

Definition isHardcoded (n : Node) : bool :=
  isLiteral n && negb (isInImportExport n) && negb (isInVariableDeclaration n).

Definition THRESHOLD : nat := 3.

Fixpoint hardcoded_traverse (node : Node) (hardcodedValueCount : nat) : nat :=
  let c := if isHardcoded node then S hardcodedValueCount
           else hardcodedValueCount in
  let c := visitBody hardcoded_traverse (prop node K.body) c in
  let c := visit hardcoded_traverse (prop node K.consequent) c in
  let c := visit hardcoded_traverse (prop node K.alternate) c in
  let c := visit hardcoded_traverse (prop node K.block) c in
  let c := visitEach hardcoded_traverse (arr node K.declarations) c in
  let c := visit hardcoded_traverse (prop node K.init) c in
  let c := visit hardcoded_traverse (prop node K.expression) c in
  let c := visitEach hardcoded_traverse (arr node K.arguments) c in
  let c := visitEach hardcoded_traverse (arr node K.properties) c in
  visitEach hardcoded_traverse (arr node K.elements) c.

Definition hasHardcodedValues (component : Node) : bool :=
  (THRESHOLD <? hardcoded_traverse component 0)%nat.

Definition conditionalIssues (file : FileNode) (component : Node)
  : list SolidIssue :=
  let componentName := componentName component in
  if hasExcessiveConditionals component then
    [{| issue_id := "ocp-excessive-conditionals-" +:+ file_path file +:+ "-" +:+
                    componentName;
        principle := OCP;
        severity := warning;
        description := "Component " +:+ componentName +:+
                       " contains excessive conditionals (switch statements or long if-else chains)";
        issue_filePath := file_path file;
        recommendation := "Replace conditionals with polymorphism or strategy pattern. Consider using a component map or render props pattern." |}]
  else [].

Definition hardcodedIssues (file : FileNode) (component : Node)
  : list SolidIssue :=
  let componentName := componentName component in
  if hasHardcodedValues component then
    [{| issue_id := "ocp-hardcoded-values-" +:+ file_path file +:+ "-" +:+
                    componentName;
        principle := OCP;
        severity := info;
        description := "Component " +:+ componentName +:+
                       " contains hardcoded values that should be configurable";
        issue_filePath := file_path file;
        recommendation := "Extract hardcoded values to props or configuration to make the component more extensible" |}]
  else [].

(** Body of the loop of [analyzeOCP] for one component. *)
Definition ocpIssues (file : FileNode) (component : Node) : list SolidIssue :=
  conditionalIssues file component ++ hardcodedIssues file component.

Definition analyzeOCP (file : FileNode) (components typeDefinitions : list Node)
  : list SolidIssue :=
  flat_map (ocpIssues file) components.


(** The nodes that a walk reaches from a node, in the order of the calls
    to [traverse], when it follows the given properties. *)
Inductive Field :=
  | FBody
  | FOne (k : K.t)
  | FEach (k : K.a).

Fixpoint reached (fields : list Field) (n : Node) : list Node :=
  n ::
  flat_map (λ f,
    match f with
    | FBody =>
        match prop n K.body with
        | One c => reached fields c
        | Arr l => flat_map (reached fields) l
        | _ => []
        end
    | FOne k =>
        match prop n k with
        | One c => reached fields c
        | _ => []
        end
    | FEach k => flat_map (reached fields) (arr n k)
    end) fields.

Definition conditionalFields : list Field :=
  [FBody; FOne K.consequent; FOne K.alternate; FEach K.cases; FOne K.block;
   FEach K.declarations; FOne K.init; FOne K.test; FOne K.update;
   FOne K.expression; FEach K.arguments].

Definition hardcodedFields : list Field :=
  [FBody; FOne K.consequent; FOne K.alternate; FOne K.block;
   FEach K.declarations; FOne K.init; FOne K.expression; FEach K.arguments;
   FEach K.properties; FEach K.elements].

(** *** Liskov substitution *)

(** [typeDefinition.body.body] *)
Definition members (typeDefinition : Node) : list Node :=
  match getPath typeDefinition [K.body; K.body] with
  | Arr l => l
  | _ => []
  end.

Definition hasLSPViolation (typeDefinition : Node) : bool :=
  if bool_decide (length (arr typeDefinition K.extends) = 0%nat) then false
  else
    existsb (λ member, typeIs member "TSMethodSignature" &&
                       (2 <? length (arr member K.parameters))%nat)
      (members typeDefinition).

Definition interfaceName (typeDefinition : Node) : string :=
  default "" (strOf (getPath typeDefinition [K.id; K.name])).

Definition lspIssues (file : FileNode) (typeDefinition : Node)
  : list SolidIssue :=
  if typeIs typeDefinition "TSInterfaceDeclaration" then
    let interfaceName := interfaceName typeDefinition in
    if hasLSPViolation typeDefinition then
      [{| issue_id := "lsp-interface-violation-" +:+ file_path file +:+ "-" +:+
                      interfaceName;
          principle := LSP;
          severity := warning;
          description := "Interface " +:+ interfaceName +:+
                         " extends a base interface but may violate substitutability";
          issue_filePath := file_path file;
          recommendation := "Ensure derived interfaces maintain the contract of their base interfaces without strengthening preconditions or weakening postconditions" |}]
    else []
  else [].

Definition analyzeLSP (file : FileNode) (components typeDefinitions : list Node)
  : list SolidIssue :=
  flat_map (lspIssues file) typeDefinitions.

(** *** Interface segregation *)

(** [prop.key && typeof prop.key.name === 'string' && (one of the
    patterns occurs in prop.key.name)] *)
Definition keyIncludes (patterns : list string) (member : Node) : bool :=
  match strOf (getPath member [K.key; K.name]) with
  | Some name => existsb (includes name) patterns
  | None => false
  end.

Definition uiPatterns : list string :=
  ["style"; "class"; "color"; "size"; "width"; "height"].
Definition dataPatterns : list string := ["data"; "value"; "item"; "list"].
Definition eventPatterns : list string := ["on"; "handler"; "callback"].

Definition hasUnrelatedProps (typeDefinition : Node) : bool :=
  let properties := members typeDefinition in
  if (length properties <=? 5)%nat then false
  else
    let uiProps := filter (λ p, keyIncludes uiPatterns p = true) properties in
    let dataProps :=
      filter (λ p, keyIncludes dataPatterns p = true) properties in
    let eventProps :=
      filter (λ p, keyIncludes eventPatterns p = true) properties in
    ((2 <=? length uiProps)%nat && (2 <=? length dataProps)%nat) ||
    ((2 <=? length uiProps)%nat && (2 <=? length eventProps)%nat) ||
    ((2 <=? length dataProps)%nat && (2 <=? length eventProps)%nat).

(** The number of naming buckets that hold at least two members. *)
Definition significantBuckets (typeDefinition : Node) : nat :=
  length (filter (λ patterns : list string,
                    (2 ≤ length (filter (λ p, keyIncludes patterns p = true)
                                   (members typeDefinition)))%nat)
            [uiPatterns; dataPatterns; eventPatterns]).

Definition ispIssues (file : FileNode) (typeDefinition : Node)
  : list SolidIssue :=
  if typeIs typeDefinition "TSInterfaceDeclaration" then
    let interfaceName := interfaceName typeDefinition in
    let propertyCount := length (members typeDefinition) in
    (if (10 <? propertyCount)%nat then
       [{| issue_id := "isp-large-interface-" +:+ file_path file +:+ "-" +:+
                       interfaceName;
           principle := ISP;
           severity := warning;
           description := "Interface " +:+ interfaceName +:+ " has " +:+
                          pretty propertyCount +:+
                          " properties which may be too many for a single interface";
           issue_filePath := file_path file;
           recommendation := "Split large interfaces into smaller, more focused interfaces based on client needs" |}]
     else []) ++
    (if hasUnrelatedProps typeDefinition then
       [{| issue_id := "isp-unrelated-props-" +:+ file_path file +:+ "-" +:+
                       interfaceName;
           principle := ISP;
           severity := info;
           description := "Interface " +:+ interfaceName +:+
                          " contains properties that seem unrelated and may not be used together";
           issue_filePath := file_path file;
           recommendation := "Group related properties into separate interfaces and compose them where needed" |}]
     else [])
  else [].

Definition analyzeISP (file : FileNode) (typeDefinitions : list Node)
  : list SolidIssue :=
  flat_map (ispIssues file) typeDefinitions.

(** *** Dependency inversion *)

Definition isExternalAccess (n : Node) : bool :=
  (typeIs n "CallExpression" &&
   (calleeName n "fetch" || calleeObject n "axios" ||
    (calleeProperty n "get" || calleeProperty n "post" ||
     calleeProperty n "put" || calleeProperty n "delete"))) ||
  (typeIs n "MemberExpression" &&
   existsb (isStr (getPath n [K.object; K.name]))
     ["firebase"; "db"; "database"; "mongoose"; "prisma"]).

Fixpoint externalDependencies_traverse (node : Node)
  (hasDirectDependency : bool) : bool :=
  let s := hasDirectDependency || isExternalAccess node in
  let s := visitBody externalDependencies_traverse (prop node K.body) s in
  let s := visit externalDependencies_traverse (prop node K.consequent) s in
  let s := visit externalDependencies_traverse (prop node K.alternate) s in
  let s := visit externalDependencies_traverse (prop node K.block) s in
  let s := visitEach externalDependencies_traverse (arr node K.declarations) s in
  let s := visit externalDependencies_traverse (prop node K.init) s in
  let s := visit externalDependencies_traverse (prop node K.expression) s in
  visitEach externalDependencies_traverse (arr node K.arguments) s.

Definition hasDirectExternalDependencies (component : Node) : bool :=
  externalDependencies_traverse component false.

(** [name && /^[A-Z]/.test(name)] on a property that holds a string. *)
Definition upperName (v : Prop_ Node) : bool :=
  match strOf v with
  | Some s => truthy s && startsUpper s
  | None => false
  end.

Definition isComponentElement (n : Node) : bool :=
  typeIs n "JSXElement" &&
  upperName (getPath n [K.openingElement; K.name; K.name]).

Definition componentImports (n : Node) : nat :=
  if typeIs n "ImportDeclaration" then
    length (filter (λ specifier,
                      upperName (getPath specifier [K.local; K.name]) = true)
              (arr n K.specifiers))
  else 0%nat.

(** The two counters of [hasTightCoupling]:
    [(importCount, directReferenceCount)]. *)
Fixpoint tightCoupling_traverse (node : Node) (s : nat * nat) : nat * nat :=
  let s := (s.1, if isComponentElement node then S s.2 else s.2) in
  let s := ((s.1 + componentImports node)%nat, s.2) in
  let s := visitBody tightCoupling_traverse (prop node K.body) s in
  let s := visit tightCoupling_traverse (prop node K.consequent) s in
  let s := visit tightCoupling_traverse (prop node K.alternate) s in
  let s := visit tightCoupling_traverse (prop node K.block) s in
  let s := visitEach tightCoupling_traverse (arr node K.declarations) s in
  let s := visit tightCoupling_traverse (prop node K.init) s in
  let s := visit tightCoupling_traverse (prop node K.expression) s in
  visitEach tightCoupling_traverse (arr node K.children) s.

Definition hasTightCoupling (component : Node) : bool :=
  let s := tightCoupling_traverse component (0%nat, 0%nat) in
  (5 <? s.1)%nat || (7 <? s.2)%nat.

Definition dipIssues (file : FileNode) (component : Node) : list SolidIssue :=
  let componentName := componentName component in
  (if hasDirectExternalDependencies component then
     [{| issue_id := "dip-direct-dependencies-" +:+ file_path file +:+ "-" +:+
                     componentName;
         principle := DIP;
         severity := warning;
         description := "Component " +:+ componentName +:+
                        " directly depends on external services or APIs";
         issue_filePath := file_path file;
         recommendation := "Use dependency injection and abstractions (interfaces) instead of concrete implementations. Consider using custom hooks or context for external dependencies." |}]
   else []) ++
  (if hasTightCoupling component then
     [{| issue_id := "dip-tight-coupling-" +:+ file_path file +:+ "-" +:+
                     componentName;
         principle := DIP;
         severity := warning;
         description := "Component " +:+ componentName +:+
                        " is tightly coupled to other components or services";
         issue_filePath := file_path file;
         recommendation := "Reduce coupling by depending on interfaces rather than concrete implementations. Use composition over inheritance." |}]
   else []).

Definition analyzeDIP (file : FileNode) (components : list Node)
  : list SolidIssue :=
  flat_map (dipIssues file) components.

(** *** Scores *)

Record Counts := { c_info : nat; c_warning : nat; c_critical : nat }.

(** The object [counts], one entry per principle. *)
Record CountsTable := {
  n_srp : Counts; n_ocp : Counts; n_lsp : Counts; n_isp : Counts;
  n_dip : Counts;
}.

Definition noCounts : Counts := {| c_info := 0; c_warning := 0; c_critical := 0 |}.

Definition noIssues : CountsTable :=
  {| n_srp := noCounts; n_ocp := noCounts; n_lsp := noCounts;
     n_isp := noCounts; n_dip := noCounts |}.

(** [counts[sev]++] *)
Definition bump (sev : Severity) (c : Counts) : Counts :=
  match sev with
  | info => {| c_info := S (c_info c); c_warning := c_warning c;
               c_critical := c_critical c |}
  | warning => {| c_info := c_info c; c_warning := S (c_warning c);
                  c_critical := c_critical c |}
  | critical => {| c_info := c_info c; c_warning := c_warning c;
                   c_critical := S (c_critical c) |}
  end.

(** [counts[issue.principle.toLowerCase()][issue.severity]++] *)
Definition countIssue (issue : SolidIssue) (t : CountsTable) : CountsTable :=
  let sev := severity issue in
  match principle issue with
  | SRP => {| n_srp := bump sev (n_srp t); n_ocp := n_ocp t; n_lsp := n_lsp t;
              n_isp := n_isp t; n_dip := n_dip t |}
  | OCP => {| n_srp := n_srp t; n_ocp := bump sev (n_ocp t); n_lsp := n_lsp t;
              n_isp := n_isp t; n_dip := n_dip t |}
  | LSP => {| n_srp := n_srp t; n_ocp := n_ocp t; n_lsp := bump sev (n_lsp t);
              n_isp := n_isp t; n_dip := n_dip t |}
  | ISP => {| n_srp := n_srp t; n_ocp := n_ocp t; n_lsp := n_lsp t;
              n_isp := bump sev (n_isp t); n_dip := n_dip t |}
  | DIP => {| n_srp := n_srp t; n_ocp := n_ocp t; n_lsp := n_lsp t;
              n_isp := n_isp t; n_dip := bump sev (n_dip t) |}
  end.

(** [counts[p]] and [counts[p][sev]] *)
Definition countsFor (p : Principle) (t : CountsTable) : Counts :=
  match p with
  | SRP => n_srp t | OCP => n_ocp t | LSP => n_lsp t
  | ISP => n_isp t | DIP => n_dip t
  end.

Definition countAt (sev : Severity) (c : Counts) : nat :=
  match sev with
  | info => c_info c | warning => c_warning c | critical => c_critical c
  end.

Definition countIssues (issues : list SolidIssue) : CountsTable :=
  fold_left (λ t issue, countIssue issue t) issues noIssues.

(** *** Scores

    [Math.log10] is the engine's: the scores are computed from the
    function [log10] that stands for it. *)
Section WithLog10.
Variable log10 : float → float.

(** [Math.max(1, Math.log10(totalFiles))] *)
Definition normalizationFactor (totalFiles : nat) : float :=
  Math_max 1 (log10 (ofNat totalFiles)).

Definition penalty_info : float := 1.
Definition penalty_warning : float := 3.
Definition penalty_critical : float := 10.

Definition calculatePenalty (counts : Counts) (totalFiles : nat) : float :=
  (ofNat (c_info counts) * penalty_info +
   ofNat (c_warning counts) * penalty_warning +
   ofNat (c_critical counts) * penalty_critical) /
  normalizationFactor totalFiles.

Definition baseScore : float := 100.

Definition scoreOf (counts : Counts) (totalFiles : nat) : float :=
  Math_max 0 (baseScore - calculatePenalty counts totalFiles).

Definition calculateScores (issues : list SolidIssue) (totalFiles : nat)
  : Score :=
  let counts := countIssues issues in
  let srp := scoreOf (n_srp counts) totalFiles in
  let ocp := scoreOf (n_ocp counts) totalFiles in
  let lsp := scoreOf (n_lsp counts) totalFiles in
  let isp := scoreOf (n_isp counts) totalFiles in
  let dip := scoreOf (n_dip counts) totalFiles in
  {| srp := srp; ocp := ocp; lsp := lsp; isp := isp; dip := dip;
     overall := Math_round ((srp + ocp + lsp + isp + dip) / 5) |}.

(** The formula of the specification: the number of issues of a
    principle with a given severity, and the score it prescribes. *)
Definition countOf (p : Principle) (sev : Severity) (issues : list SolidIssue)
  : nat :=
  length (filter (λ i, principle i = p ∧ severity i = sev) issues).

Definition specScore (p : Principle) (issues : list SolidIssue)
  (filesAnalyzed : nat) : float :=
  Math_max 0 (100 - (ofNat (countOf p info issues) * 1 +
                     ofNat (countOf p warning issues) * 3 +
                     ofNat (countOf p critical issues) * 10)
                    / Math_max 1 (log10 (ofNat filesAnalyzed))).

(** *** The report *)

(** Body of the loop of [analyzeSolid] for one file; a file that cannot
    be parsed contributes nothing. *)
Definition analyzeFile (world : World) (file : FileNode)
  (acc : list SolidIssue * nat) : list SolidIssue * nat :=
  match world (file_path file) with
  | None => acc
  | Some ast =>
      let components := extractReactComponents ast in
      let typeDefinitions := extractTypeDefinitions ast in
      (acc.1 ++ analyzeSRP file components
             ++ analyzeOCP file components typeDefinitions
             ++ analyzeLSP file components typeDefinitions
             ++ analyzeISP file typeDefinitions
             ++ analyzeDIP file components,
       (acc.2 + length components)%nat)
  end.

Definition analyzeSolid (world : World) (fileData : list FileNode)
  : SolidReport :=
  let tsFiles := filter (λ f, isScriptFile f = true) fileData in
  let '(issues, totalComponents) :=
    fold_left (λ acc file, analyzeFile world file acc) tsFiles ([], 0%nat) in
  {| score := calculateScores issues (length tsFiles);
     issues := issues;
     stats := {| filesAnalyzed := length tsFiles;
                 totalComponents := totalComponents;
                 totalIssues := length issues;
                 criticalIssues :=
                   length (filter (λ i, severity i = critical) issues) |} |}.

End WithLog10.

End Solid.

(** ** Source scanner ([utils/fileSystem.ts]) *)
Module FileSystem.
Import Js Files.

(** What [fs.promises.readdir(dir, {withFileTypes: true})] and
    [fs.promises.stat] report.  A directory whose listing is [None] cannot
    be read, a file whose size is [None] cannot be stat'ed: both calls
    throw.  [Other] is an entry that is neither a file nor a directory. *)
#[local] Unset Elimination Schemes.
Inductive Dirent :=
  | File (name : string) (size : option Z)
  | Dir (name : string) (entries : option (list Dirent))
  | Other (name : string).

Record DirectoryMetadata := {
  fileCount : option nat;
  isPages : bool;
  isApp : bool;
  isComponents : bool;
}.

Inductive TreeNode :=
  | FileN (file : FileNode)
  | DirectoryN (name path : string) (children : list TreeNode)
      (metadata : option DirectoryMetadata).
#[local] Set Elimination Schemes.

Definition nodeName (n : TreeNode) : string :=
  match n with
  | FileN f => file_name f
  | DirectoryN name _ _ _ => name
  end.

Definition isDirectory (n : TreeNode) : bool :=
  match n with DirectoryN _ _ _ _ => true | FileN _ => false end.

Definition INCLUDE_EXTENSIONS : list string :=
  [".ts"; ".tsx"; ".js"; ".jsx"; ".json"; ".md"].

Definition EXCLUDE_DIRS : list string :=
  ["node_modules"; ".git"; "dist"; "build"; ".next"; "out"].

(** [Array.prototype.sort(compare)]: the sort is stable, so for a
    consistent comparator its result is the one of the insertion sort
    below, which puts each element after the elements that do not compare
    greater. *)
Fixpoint insert {A} (compare : A → A → Z) (x : A) (l : list A) : list A :=
  match l with
  | [] => [x]
  | y :: l' =>
      if (compare x y <? 0)%Z then x :: y :: l' else y :: insert compare x l'
  end.

Definition sort {A} (compare : A → A → Z) (l : list A) : list A :=
  fold_left (λ sorted x, insert compare x sorted) l [].

(** [filePath.replace(/\\/g, '/')] *)
Fixpoint normalizeSlashes (s : string) : string :=
  match s with
  | EmptyString => EmptyString
  | String c s' =>
      String (if bool_decide (c = "\"%char) then "/"%char else c)
             (normalizeSlashes s')
  end.

Fixpoint countFiles (node : TreeNode) : nat :=
  match node with
  | FileN _ => 0
  | DirectoryN _ _ children _ =>
      fold_left (λ count child,
                   match child with
                   | FileN _ => S count
                   | DirectoryN _ _ _ _ => (count + countFiles child)%nat
                   end) children 0%nat
  end.

Section WithLibraries.
Variable path : PathModule.
Variable localeCompare : string → string → Z.

Definition isNextPage (filePath : string) : bool :=
  let ext := extname path filePath in
  if negb (bool_decide (ext ∈ [".tsx"; ".jsx"; ".js"; ".ts"])) then false
  else
    let normalizedPath := normalizeSlashes filePath in
    includes normalizedPath "/pages/" ||
    (includes normalizedPath "/app/" &&
     negb (includes normalizedPath "/components/")).

Definition isReactComponent (filePath : string) : bool :=
  let ext := extname path filePath in
  if negb (bool_decide (ext ∈ [".tsx"; ".jsx"])) then false
  else
    let fileName := basename_ext path filePath ext in
    startsUpper fileName || bool_decide (fileName = "index").

(** [createFileNode], given the size that [stat] reports. *)
Definition createFileNode (filePath : string) (size : Z) : FileNode :=
  let fileName := basename path filePath in
  {| file_name := fileName;
     file_path := filePath;
     file_size := size;
     file_extension := extname path filePath;
     isPage := isNextPage filePath;
     isComponent := isReactComponent filePath;
     isLayout := bool_decide (fileName = "layout.tsx") ||
                 bool_decide (fileName = "layout.jsx") |}.

(** The comparator handed to [node.children.sort]. *)
Definition compareChildren (a b : TreeNode) : Z :=
  if isDirectory a && negb (isDirectory b) then (-1)%Z
  else if negb (isDirectory a) && isDirectory b then 1%Z
  else localeCompare (nodeName a) (nodeName b).

(** The loop of [buildDirectoryTree] over the entries of a directory:
    [processEntry] is its body and returns the nodes that it pushes;
    [None] when a call throws. *)
Definition processAll (processEntry : Dirent → option (list TreeNode))
  : list Dirent → option (list TreeNode) :=
  fix loop entries :=
    match entries with
    | [] => Some []
    | e :: rest =>
        match processEntry e with
        | Some pushed =>
            match loop rest with
            | Some others => Some (pushed ++ others)
            | None => None
            end
        | None => None
        end
    end.

Fixpoint processEntry (dirPath : string) (entry : Dirent)
  : option (list TreeNode) :=
  match entry with
  | Dir name listing =>
      if bool_decide (name ∈ EXCLUDE_DIRS) then Some []
      else
        let entryPath := join path dirPath name in
        match listing with
        | None => None
        | Some entries =>
            match processAll (processEntry entryPath) entries with
            | Some children =>
                let children := sort compareChildren children in
                Some [DirectoryN name entryPath children
                        (Some {| fileCount :=
                                   Some (countFiles
                                           (DirectoryN name entryPath children
                                              None));
                                 isPages := bool_decide (name = "pages");
                                 isApp := bool_decide (name = "app");
                                 isComponents :=
                                   bool_decide (name = "components") |})]
            | None => None
            end
        end
  | File name size =>
      let entryPath := join path dirPath name in
      if bool_decide (extname path name ∈ INCLUDE_EXTENSIONS) then
        match size with
        | Some size => Some [FileN (createFileNode entryPath size)]
        | None => None
        end
      else Some []
  | Other _ => Some []
  end.

Definition processEntries (dirPath : string) (entries : list Dirent)
  : option (list TreeNode) :=
  processAll (processEntry dirPath) entries.

Definition buildDirectoryTree (dirPath : string)
  (listing : option (list Dirent)) : option (list TreeNode) :=
  match listing with
  | None => None
  | Some entries => sort compareChildren <$> processEntries dirPath entries
  end.

Definition scanProjectDirectory (projectRoot : string)
  (listing : option (list Dirent)) : option TreeNode :=
  children ← buildDirectoryTree projectRoot listing;
  Some (DirectoryN (basename path projectRoot) projectRoot children None).

End WithLibraries.

(** The directory nodes of a tree, the root included. *)
Fixpoint directories (n : TreeNode) : list TreeNode :=
  match n with
  | FileN _ => []
  | DirectoryN _ _ children _ => n :: flat_map directories children
  end.

Definition childrenOf (n : TreeNode) : list TreeNode :=
  match n with
  | FileN _ => []
  | DirectoryN _ _ children _ => children
  end.

(** [children] lists directories before files, each group in the order
    of the names under [localeCompare]. *)
Definition ordered (localeCompare : string → string → Z)
  (children : list TreeNode) : Prop :=
  ∃ dirs files,
    children = dirs ++ files ∧
    Forall (λ n, isDirectory n = true) dirs ∧
    Forall (λ n, isDirectory n = false) files ∧
    StronglySorted (λ a b, (localeCompare (nodeName a) (nodeName b) ≤ 0)%Z)
      dirs ∧
    StronglySorted (λ a b, (localeCompare (nodeName a) (nodeName b) ≤ 0)%Z)
      files.

End FileSystem.

(** ** The analyses run on one set of file data *)
Module Pipeline.
Import Files.

Record Results := {
  componentGraph : Components.ComponentGraph;
  dependencyGraph : option Dependency.DependencyGraph;
  solidReport : Solid.SolidReport;
}.

(** One run: the component, dependency and SOLID analyses of
    [fileData], the files being read through [world]; [path] and [log10]
    stand for the [path] module and for [Math.log10]. *)
Definition run (path : PathModule) (log10 : float → float) (world : World)
  (fileData : list FileNode) : Results :=
  {| componentGraph := Components.analyzeComponents world fileData;
     dependencyGraph := Dependency.analyzeDependencies path world fileData;
     solidReport := Solid.analyzeSolid log10 world fileData |}.

End Pipeline.

(** ** A POSIX instance of the [path] interface, for worked examples *)
Module Posix.

Fixpoint splitOn (sep : ascii) (s : string) : list string :=
  match s with
  | EmptyString => [EmptyString]
  | String c s' =>
      if bool_decide (c = sep) then EmptyString :: splitOn sep s'
      else
        match splitOn sep s' with
        | [] => [String c EmptyString]
        | w :: ws => String c w :: ws
        end
  end.

Fixpoint joinWith (sep : string) (l : list string) : string :=
  match l with
  | [] => EmptyString
  | [w] => w
  | w :: ws => w +:+ sep +:+ joinWith sep ws
  end.

(** Drops empty and [.] segments and resolves [..] against what
    precedes; the segments are handled in reverse order. *)
Fixpoint normalizeRev (segments : list string) (skip : nat) : list string :=
  match segments with
  | [] => []
  | w :: ws =>
      if bool_decide (w = "") || bool_decide (w = ".") then normalizeRev ws skip
      else if bool_decide (w = "..") then normalizeRev ws (S skip)
      else
        match skip with
        | O => w :: normalizeRev ws 0
        | S skip' => normalizeRev ws skip'
        end
  end.

Definition normalize (p : string) : string :=
  "/" +:+ joinWith "/" (rev (normalizeRev (rev (splitOn "/"%char p)) 0)).

Definition basename (p : string) : string :=
  default "" (head (filter (λ w, w ≠ "") (rev (splitOn "/"%char p)))).

Definition dirname (p : string) : string :=
  match rev (splitOn "/"%char p) with
  | _ :: (_ :: _) as ws => 
      let d := joinWith "/" (rev ws) in if bool_decide (d = "") then "/" else d
  | _ => "."
  end.

Definition extname (p : string) : string :=
  match rev (splitOn "."%char (basename p)) with
  | ext :: first :: more =>
      if bool_decide (first = "") && bool_decide (more = []) then ""
      else "." +:+ ext
  | _ => ""
  end.

Definition basename_ext (p ext : string) : string :=
  let b := basename p in
  let n := (String.length b - String.length ext)%nat in
  if bool_decide (ext ≠ "") && bool_decide (b ≠ ext) &&
     bool_decide (String.substring n (String.length ext) b = ext)
  then String.substring 0 n b else b.

Definition resolve (dir p : string) : string :=
  if Js.startsWith p "/" then normalize p else normalize (dir +:+ "/" +:+ p).

Definition join (a b : string) : string :=
  let joined := a +:+ "/" +:+ b in
  if Js.startsWith joined "/" then normalize joined
  else String.substring 1 (String.length (normalize joined)) (normalize joined).

Definition path : PathModule :=
  Build_PathModule dirname basename basename_ext extname resolve join.

End Posix.

(** ** Notions used to state further properties of the dependency graph *)
Module GraphMore.
Import Js Dependency Graph.

(** [y] follows [x] on the cycle [c]. *)
Definition follows (c : list string) (x y : string) : Prop :=
  ∃ i, c !! i = Some x ∧
       (c !! S i = Some y ∨ (S i = length c ∧ head c = Some y)).


Section WithPath.
Variable path : PathModule.

(** What the two maps hold once the pass is over. *)
Record pass_ok (acc : Pass) : Prop := {
  ok_sets : sets_ok (dependencyMap acc);
  ok_keys : NoDup (map_keys (dependencyMap acc));
  ok_nodes : ∀ k, k ∈ map_keys (dependencyMap acc) ↔
                  k ∈ dep_id <$> dependencyNodes acc;
  ok_names : ∀ k, k ∈ map_keys (dependencyMap acc) →
                  map_get k (filePathToModuleName acc) =
                  Some (basename path k);
  ok_imports : ∀ k v, map_get k (dependencyMap acc) = Some v →
                 ∃ n, n ∈ dependencyNodes acc ∧ dep_id n = k ∧
                      dep_imports n = v;
  ok_each : ∀ n, n ∈ dependencyNodes acc → NoDup (dep_imports n);
}.


End WithPath.

End GraphMore.

(** ** The Mermaid diagram of the dependency graph
    ([generateDependencyDiagram]) *)
Module Diagram.
Import Js Dependency.

Definition quote : string := String (ascii_of_nat 34) EmptyString.
Definition newline : string := String (ascii_of_nat 10) EmptyString.

(** A JavaScript string is a sequence of UTF-16 code units, and a
    regular expression without the [u] flag works on these.  A [string]
    of this development holds the UTF-8 bytes of the text; [codeUnits]
    gives the code units of the text: one for a character of one, two or
    three bytes, two (a surrogate pair) for a character of four bytes. *)
Fixpoint payload (s : string) (k : nat) (acc : N) : N :=
  match k, s with
  | S k', String c s' => payload s' k' (acc * 64 + N_of_ascii c mod 64)%N
  | _, _ => acc
  end.

Fixpoint codeUnits (s : string) : list N :=
  match s with
  | EmptyString => []
  | String c s' =>
      let n := N_of_ascii c in
      if (n <? 128)%N then n :: codeUnits s'
      else if (n <? 192)%N then codeUnits s'
      else if (n <? 224)%N then payload s' 1 (n mod 32)%N :: codeUnits s'
      else if (n <? 240)%N then payload s' 2 (n mod 16)%N :: codeUnits s'
      else
        let point := (payload s' 3 (n mod 8) - 65536)%N in
        (55296 + point / 1024)%N :: (56320 + point mod 1024)%N :: codeUnits s'
  end.

(** The character class [[a-zA-Z0-9]]. *)
Definition isAlphanumeric (u : N) : bool :=
  ((97 <=? u)%N && (u <=? 122)%N) ||
  ((65 <=? u)%N && (u <=? 90)%N) ||
  ((48 <=? u)%N && (u <=? 57)%N).

(** What [replace] leaves of one code unit. *)
Definition sanitizeUnit (u : N) : ascii :=
  if isAlphanumeric u then ascii_of_N u else "_"%char.

(** [id.replace(/[^a-zA-Z0-9]/g, '_')] *)
Definition sanitize (s : string) : string :=
  string_of_list_ascii (sanitizeUnit <$> codeUnits s).

Definition nodeIdOf (id : string) : string := "node_" +:+ sanitize id.

Definition getNodeStyle (type : DependencyType) : string :=
  match type with
  | t_component => " class=" +:+ quote +:+ "component" +:+ quote
  | t_page => " class=" +:+ quote +:+ "page" +:+ quote
  | t_api => " class=" +:+ quote +:+ "api" +:+ quote
  | t_hook => " class=" +:+ quote +:+ "hook" +:+ quote
  | t_lib => " class=" +:+ quote +:+ "lib" +:+ quote
  | t_config => " class=" +:+ quote +:+ "config" +:+ quote
  | t_util => " class=" +:+ quote +:+ "util" +:+ quote
  end.

(** The line added for a node. *)
Definition nodeLine (node : DependencyNode) : string :=
  "  " +:+ nodeIdOf (dep_id node) +:+ "[" +:+ quote +:+ dep_label node +:+
  quote +:+ "]" +:+ getNodeStyle (dep_type node) +:+ ";" +:+ newline.

(** [arr.indexOf(x)] *)
Definition indexOf (x : string) (l : list string) : Z :=
  match findIndex x l with
  | Some i => Z.of_nat i
  | None => (-1)%Z
  end.

(** The test made on one recorded cycle: both names are on its path, at
    neighbouring positions (the last position neighbouring the first). *)
Definition onCycle (cycle : CircularDependency) (nodeName targetName : string)
  : bool :=
  let path := cd_path cycle in
  has nodeName path && has targetName path &&
  (bool_decide (indexOf nodeName path =
                Z.rem (indexOf targetName path + 1) (Z.of_nat (length path))) ||
   bool_decide (indexOf targetName path =
                Z.rem (indexOf nodeName path + 1) (Z.of_nat (length path)))).

Definition red : string :=
  " style=" +:+ quote +:+ "stroke: red; stroke-width: 2px;" +:+ quote.
Definition orange : string :=
  " style=" +:+ quote +:+ "stroke: orange; stroke-width: 1.5px;" +:+ quote.

(** The loop over the recorded cycles, left at the first match. *)
Definition edgeStyleOf (circularDependencies : list CircularDependency)
  (nodeName targetName : string) : string :=
  match find (λ cycle, onCycle cycle nodeName targetName)
          circularDependencies with
  | Some cycle =>
      if bool_decide (cd_severity cycle = critical) then red else orange
  | None => ""
  end.

Record DiagramState := {
  diagram : string;
  processedEdges : list string;
}.

Definition edgeIdOf (node targetNode : DependencyNode) : string :=
  nodeIdOf (dep_id node) +:+ "->" +:+ nodeIdOf (dep_id targetNode).

(** The line added for an edge. *)
Definition edgeLine (graph : DependencyGraph) (node targetNode : DependencyNode)
  : string :=
  "  " +:+ nodeIdOf (dep_id node) +:+ " --> " +:+
  nodeIdOf (dep_id targetNode) +:+
  edgeStyleOf (graph_circularDependencies graph) (dep_label node)
    (dep_label targetNode) +:+
  ";" +:+ newline.

(** Body of the inner loop over [node.imports]. *)
Definition addEdge (graph : DependencyGraph) (node : DependencyNode)
  (importPath : string) (st : DiagramState) : DiagramState :=
  match find (λ d, bool_decide (dep_id d = importPath))
          (dependencies graph) with
  | Some targetNode =>
      let edgeId := edgeIdOf node targetNode in
      if has edgeId (processedEdges st) then st
      else
        {| diagram := diagram st +:+ edgeLine graph node targetNode;
           processedEdges := add edgeId (processedEdges st) |}
  | None => st
  end.

Definition header : string := "graph TD;" +:+ newline.

Definition generateDependencyDiagram (graph : DependencyGraph) : string :=
  let diagram0 :=
    fold_left (λ d node, d +:+ nodeLine node) (dependencies graph) header in
  diagram
    (fold_left (λ st node,
       fold_left (λ st importPath, addEdge graph node importPath st)
         (dep_imports node) st)
       (dependencies graph)
       {| diagram := diagram0; processedEdges := [] |}).

(** The characters of a string, and the concatenation of strings. *)
Definition chars (s : string) : list ascii := list_ascii_of_string s.

Definition concatAll (l : list string) : string :=
  foldr String.append EmptyString l.

End Diagram.

(** ** The walks of the other SOLID detectors *)
Module Walks.
Import Ast Solid.

(** The properties followed by [hasMixedConcerns] and by
    [hasDirectExternalDependencies]. *)
Definition mixedFields : list Field :=
  [FBody; FOne K.consequent; FOne K.alternate; FOne K.block;
   FEach K.declarations; FOne K.init; FOne K.expression; FEach K.arguments].

(** The properties followed by [hasTightCoupling]. *)
Definition couplingFields : list Field :=
  [FBody; FOne K.consequent; FOne K.alternate; FOne K.block;
   FEach K.declarations; FOne K.init; FOne K.expression; FEach K.children].

(** What a walk accumulates over a list of nodes. *)
Definition big {S} (op : S → S → S) (e : S) (f : Node → S) (l : list Node)
  : S :=
  foldr (λ x acc, op (f x) acc) e l.

(** The flags raised by one node, and by two sets of nodes together. *)
Definition concernsOf (n : Node) : Concerns :=
  {| hasApiCalls := isApiCall n; hasStateManagement := isStateCall n;
     hasComplexLogic := isBranching n |}.

Definition bothConcerns (a b : Concerns) : Concerns :=
  {| hasApiCalls := hasApiCalls a || hasApiCalls b;
     hasStateManagement := hasStateManagement a || hasStateManagement b;
     hasComplexLogic := hasComplexLogic a || hasComplexLogic b |}.

Definition noConcerns : Concerns :=
  {| hasApiCalls := false; hasStateManagement := false;
     hasComplexLogic := false |}.

(** What one node adds to the two counters of [hasTightCoupling]. *)
Definition couplingOf (n : Node) : nat * nat :=
  (componentImports n, if isComponentElement n then 1%nat else 0%nat).

Definition addPair (a b : nat * nat) : nat * nat :=
  ((a.1 + b.1)%nat, (a.2 + b.2)%nat).

End Walks.

(** ** What the scanner reads and keeps *)
Module ScannerSpec.
Import Js Files FileSystem.

(** The file nodes of a tree, in the order of the tree. *)
Fixpoint files (n : TreeNode) : list FileNode :=
  match n with
  | FileN f => [f]
  | DirectoryN _ _ children _ => flat_map files children
  end.

Definition metadataOf (n : TreeNode) : option DirectoryMetadata :=
  match n with
  | FileN _ => None
  | DirectoryN _ _ _ metadata => metadata
  end.

Section WithPath.
Variable path : PathModule.

(** Every listing and size that the scanner asks for below an entry is
    there: excluded directories are not listed, files of other
    extensions are not measured. *)
Fixpoint readable (entry : Dirent) : bool :=
  match entry with
  | Dir name listing =>
      bool_decide (name ∈ EXCLUDE_DIRS) ||
      match listing with
      | Some entries => forallb readable entries
      | None => false
      end
  | File name size =>
      negb (bool_decide (extname path name ∈ INCLUDE_EXTENSIONS)) ||
      bool_decide (is_Some size)
  | Other _ => true
  end.

(** The files that the scanner keeps below an entry of the directory at
    [dirPath], with their paths and sizes. *)
Fixpoint kept (dirPath : string) (entry : Dirent) : list (string * Z) :=
  match entry with
  | Dir name listing =>
      if bool_decide (name ∈ EXCLUDE_DIRS) then []
      else
        match listing with
        | Some entries => flat_map (kept (join path dirPath name)) entries
        | None => []
        end
  | File name size =>
      if bool_decide (extname path name ∈ INCLUDE_EXTENSIONS) then
        match size with
        | Some size => [(join path dirPath name, size)]
        | None => []
        end
      else []
  | Other _ => []
  end.

End WithPath.

End ScannerSpec.

(** ** Usage statistics of the component graph ([getComponentStats]) *)
Module ComponentStats.
Import Js Components.

#[global] Instance ComponentType_eq_dec : EqDecision ComponentType.
Proof. solve_decision. Defined.

(** The object [byType], one counter per component type. *)
Record ByType := {
  n_component : nat; n_page : nat; n_layout : nat; n_utils : nat;
  n_hook : nat;
}.

Definition noTypes : ByType :=
  {| n_component := 0; n_page := 0; n_layout := 0; n_utils := 0;
     n_hook := 0 |}.

(** [byType[t] = (byType[t] || 0) + 1] *)
Definition bumpType (t : ComponentType) (b : ByType) : ByType :=
  match t with
  | component =>
      {| n_component := n_component b + 1; n_page := n_page b;
         n_layout := n_layout b; n_utils := n_utils b; n_hook := n_hook b |}
  | page =>
      {| n_component := n_component b; n_page := n_page b + 1;
         n_layout := n_layout b; n_utils := n_utils b; n_hook := n_hook b |}
  | layout =>
      {| n_component := n_component b; n_page := n_page b;
         n_layout := n_layout b + 1; n_utils := n_utils b;
         n_hook := n_hook b |}
  | utils =>
      {| n_component := n_component b; n_page := n_page b;
         n_layout := n_layout b; n_utils := n_utils b + 1;
         n_hook := n_hook b |}
  | hook =>
      {| n_component := n_component b; n_page := n_page b;
         n_layout := n_layout b; n_utils := n_utils b;
         n_hook := n_hook b + 1 |}
  end.

(** [byType[t]] *)
Definition typeCount (t : ComponentType) (b : ByType) : nat :=
  match t with
  | component => n_component b
  | page => n_page b
  | layout => n_layout b
  | utils => n_utils b
  | hook => n_hook b
  end.

Record Usage := { usage_name : string; usageCount : nat }.
Record PropCount := { prop_name : string; propCount : nat }.

Record Stats := {
  totalComponents : nat;
  byType : ByType;
  mostUsed : list Usage;
  mostProps : list PropCount;
}.

(** The map [componentUsage]: for every target of a relationship, the
    number of relationships that point to it. *)
Definition countUsage (relationships : list ComponentRelationship)
  : list (string * nat) :=
  fold_left (λ componentUsage rel,
               let targetId := rtarget rel in
               map_set targetId
                 (default 0%nat (map_get targetId componentUsage) + 1)%nat
                 componentUsage)
    relationships [].

(** An entry of the map as shown: under the label of the first component
    with that identifier, or under the identifier itself. *)
Definition usageOf (components : list ComponentNodeData)
  (entry : string * nat) : Usage :=
  {| usage_name :=
       match find (λ c, bool_decide (cid c = entry.1)) components with
       | Some found => if truthy (label found) then label found else entry.1
       | None => entry.1
       end;
     usageCount := entry.2 |}.

(** [c.props && c.props.length > 0] and [c.props?.length || 0] *)
Definition hasProps (c : ComponentNodeData) : bool :=
  match props c with
  | Some l => (0 <? length l)%nat
  | None => false
  end.

Definition propsLength (c : ComponentNodeData) : nat :=
  match props c with
  | Some l => length l
  | None => 0%nat
  end.

Definition propCountOf (c : ComponentNodeData) : PropCount :=
  {| prop_name := label c; propCount := propsLength c |}.

(** The comparators [(a, b) => b.usageCount - a.usageCount] and
    [(a, b) => b.propCount - a.propCount]. *)
Definition byUsage (a b : Usage) : Z :=
  (Z.of_nat (usageCount b) - Z.of_nat (usageCount a))%Z.

Definition byPropCount (a b : PropCount) : Z :=
  (Z.of_nat (propCount b) - Z.of_nat (propCount a))%Z.

Definition getComponentStats (graph : ComponentGraph) : Stats :=
  let components := components graph in
  let byType := fold_left (λ b c, bumpType (ctype c) b) components noTypes in
  let componentUsage := countUsage (relationships graph) in
  let mostUsed :=
    take 5 (FileSystem.sort byUsage (usageOf components <$> componentUsage)) in
  let mostProps :=
    take 5 (FileSystem.sort byPropCount
              (propCountOf <$> filter (λ c, hasProps c = true) components)) in
  {| totalComponents := length components;
     byType := byType;
     mostUsed := mostUsed;
     mostProps := mostProps |}.

End ComponentStats.

(** ** Counting the files of a scan by kind ([countFilesByType]) *)
Module Structure.
Import Js Files FileSystem.

Record TypeCounts := {
  tc_components : nat;
  tc_pages : nat;
  tc_apis : nat;
  tc_layouts : nat;
  tc_styles : nat;
  tc_utils : nat;
  tc_total : nat;
}.

Definition noFiles : TypeCounts :=
  {| tc_components := 0; tc_pages := 0; tc_apis := 0; tc_layouts := 0;
     tc_styles := 0; tc_utils := 0; tc_total := 0 |}.

(** [s.endsWith(suffix)] *)
Definition endsWith (s suffix : string) : bool :=
  (String.length suffix <=? String.length s)%nat &&
  bool_decide (String.substring (String.length s - String.length suffix)
                 (String.length suffix) s = suffix).

Definition isApiFile (child : FileNode) : bool :=
  includes (file_path child) "/api/".

Definition isStyleFile (child : FileNode) : bool :=
  existsb (endsWith (file_path child))
    [".css"; ".scss"; ".less"; ".styled.ts"; ".styled.tsx"].

Definition isUtilFile (child : FileNode) : bool :=
  includes (file_path child) "/utils/" || includes (file_path child) "/lib/" ||
  includes (file_path child) "/helpers/".

(** [if (test) counter++] *)
Definition countIf (test : bool) (counter : nat) : nat :=
  if test then S counter else counter.

(** Body of the loop of [countRecursive] for a file. *)
Definition countFile (child : FileNode) (counts : TypeCounts) : TypeCounts :=
  {| tc_total := S (tc_total counts);
     tc_components := countIf (isComponent child) (tc_components counts);
     tc_pages := countIf (isPage child) (tc_pages counts);
     tc_apis := countIf (isApiFile child) (tc_apis counts);
     tc_layouts := countIf (isLayout child) (tc_layouts counts);
     tc_styles := countIf (isStyleFile child) (tc_styles counts);
     tc_utils := countIf (isUtilFile child) (tc_utils counts) |}.

(** [countRecursive], the object [counts] being threaded through. *)
Fixpoint countRecursive (node : TreeNode) (counts : TypeCounts) : TypeCounts :=
  match node with
  | FileN _ => counts
  | DirectoryN _ _ children _ =>
      fold_left (λ counts child,
                   match child with
                   | FileN file => countFile file counts
                   | DirectoryN _ _ _ _ => countRecursive child counts
                   end) children counts
  end.

Definition countFilesByType (structure : TreeNode) : TypeCounts :=
  countRecursive structure noFiles.

(** The counters once the files [l] have been counted on top of
    [counts]. *)
Definition after (counts : TypeCounts) (l : list FileNode) : TypeCounts :=
  {| tc_components :=
       (tc_components counts +
        length (filter (λ f, isComponent f = true) l))%nat;
     tc_pages :=
       (tc_pages counts + length (filter (λ f, isPage f = true) l))%nat;
     tc_apis :=
       (tc_apis counts + length (filter (λ f, isApiFile f = true) l))%nat;
     tc_layouts :=
       (tc_layouts counts + length (filter (λ f, isLayout f = true) l))%nat;
     tc_styles :=
       (tc_styles counts + length (filter (λ f, isStyleFile f = true) l))%nat;
     tc_utils :=
       (tc_utils counts + length (filter (λ f, isUtilFile f = true) l))%nat;
     tc_total := (tc_total counts + length l)%nat |}.

End Structure.

(** ** Refactoring suggestions ([generateRefactorSuggestions])

    The optional fields [line] and [codeSnippet] of an issue, which no
    analyzer sets, and the fields of a suggestion copied from them, are
    left out. *)
Module Refactor.
Import Js Files Solid Dependency.

Inductive Priority := low | medium | high.
Inductive Effort := easy | moderate | hard.
Inductive SuggestionType :=
  | performance | maintainability | security | accessibility | best_practice.

#[global] Instance Priority_eq_dec : EqDecision Priority.
Proof. solve_decision. Defined.
#[global] Instance SuggestionType_eq_dec : EqDecision SuggestionType.
Proof. solve_decision. Defined.

Record RefactorSuggestion := {
  s_id : string;
  s_title : string;
  s_description : string;
  s_filePath : string;
  s_priority : Priority;
  s_effort : Effort;
  s_impact : Priority;
  s_type : SuggestionType;
  s_suggestedFix : string;
}.

Record ByPriority := { n_high : nat; n_medium : nat; n_low : nat }.

Record ByType := {
  n_performance : nat; n_maintainability : nat; n_security : nat;
  n_accessibility : nat; n_best_practice : nat;
}.

Record RefactorStats := {
  totalSuggestions : nat;
  byPriority : ByPriority;
  byType : ByType;
}.

Record RefactorReport := {
  suggestions : list RefactorSuggestion;
  stats : RefactorStats;
}.

Definition principleName (p : Principle) : string :=
  match p with
  | SRP => "SRP" | OCP => "OCP" | LSP => "LSP" | ISP => "ISP" | DIP => "DIP"
  end.

Definition priorityOf (sev : Severity) : Priority :=
  match sev with
  | critical => high
  | warning => medium
  | info => low
  end.

(** The [switch] on the principle. *)
Definition typeOf (p : Principle) : SuggestionType :=
  match p with
  | SRP | OCP | DIP => maintainability
  | LSP | ISP => best_practice
  end.

Definition effortOf (p : Principle) (sev : Severity) : Effort :=
  match p with
  | SRP => if bool_decide (sev = critical) then hard else moderate
  | OCP | LSP => moderate
  | ISP => easy
  | DIP => hard
  end.

(** [s.split(':')[0]] *)
Definition beforeColon (s : string) : string :=
  default "" (head (Posix.splitOn ":"%char s)).

Definition convertIssue (issue : SolidIssue) : RefactorSuggestion :=
  let priority := priorityOf (severity issue) in
  {| s_id := "refactor-" +:+ issue_id issue;
     s_title := "Fix " +:+ principleName (principle issue) +:+ " Issue: " +:+
                beforeColon (description issue);
     s_description := description issue;
     s_filePath := issue_filePath issue;
     s_priority := priority;
     s_effort := effortOf (principle issue) (severity issue);
     s_impact := priority;
     s_type := typeOf (principle issue);
     s_suggestedFix := recommendation issue |}.

Definition convertSolidIssuesToSuggestions (solidIssues : list SolidIssue)
  : list RefactorSuggestion :=
  convertIssue <$> solidIssues.

Definition circularSuggestion (index : nat) (dependency : CircularDependency)
  : RefactorSuggestion :=
  let pathString := Posix.joinWith " â†’ " (cd_path dependency) in
  {| s_id := "refactor-circular-dependency-" +:+ pretty index;
     s_title := "Break Circular Dependency: " +:+ pathString;
     s_description :=
       "Circular dependency detected between modules: " +:+ pathString;
     s_filePath := "";
     s_priority :=
       if bool_decide (cd_severity dependency = critical) then high
       else medium;
     s_effort := moderate;
     s_impact := high;
     s_type := maintainability;
     s_suggestedFix := "Consider introducing an abstraction layer or restructuring the modules to break the circular dependency. Extract common functionality to a shared module that both can depend on." |}.

Definition generateCircularDependencySuggestions
  (circularDependencies : list CircularDependency) : list RefactorSuggestion :=
  imap circularSuggestion circularDependencies.

(** [Math.round(size / 1024)] for a size in bytes. *)
Definition kilobytes (size : Z) : Z := ((size + 512) / 1024)%Z.

Definition isLargeFile (file : FileNode) : bool :=
  isScriptFile file && (10000 <? file_size file)%Z.

Definition largeFileSuggestion (file : FileNode) : RefactorSuggestion :=
  {| s_id := "refactor-large-file-" +:+ file_path file;
     s_title := "Split Large File: " +:+ file_name file;
     s_description := "File " +:+ file_name file +:+ " is too large (" +:+
                      pretty (kilobytes (file_size file)) +:+
                      " KB) and may be difficult to maintain.";
     s_filePath := file_path file;
     s_priority := medium;
     s_effort := moderate;
     s_impact := medium;
     s_type := maintainability;
     s_suggestedFix := "Consider splitting this file into smaller, more focused modules. Look for logical groupings of functionality that can be extracted." |}.

Definition analyzeLargeFiles (fileData : list FileNode)
  : list RefactorSuggestion :=
  largeFileSuggestion <$> filter (λ f, isLargeFile f = true) fileData.

Definition isStrayComponent (file : FileNode) : bool :=
  (bool_decide (file_extension file = ".tsx") ||
   bool_decide (file_extension file = ".jsx")) &&
  isComponent file &&
  negb (includes (file_path file) "/components/") &&
  negb (includes (file_path file) "/pages/") &&
  negb (includes (file_path file) "/app/").

Definition isStrayUtility (file : FileNode) : bool :=
  (bool_decide (file_extension file = ".ts") ||
   bool_decide (file_extension file = ".js")) &&
  negb (isComponent file) &&
  negb (isPage file) &&
  negb (includes (file_path file) "/utils/") &&
  negb (includes (file_path file) "/helpers/") &&
  negb (includes (file_path file) "/lib/").

Definition organizeComponents (count : nat) : RefactorSuggestion :=
  {| s_id := "refactor-organize-components";
     s_title := "Organize Components";
     s_description := "Found " +:+ pretty count +:+
                      " component files outside of a components directory.";
     s_filePath := "";
     s_priority := low;
     s_effort := easy;
     s_impact := medium;
     s_type := best_practice;
     s_suggestedFix := "Move component files to a dedicated components directory to improve code organization and discoverability." |}.

Definition organizeUtilities (count : nat) : RefactorSuggestion :=
  {| s_id := "refactor-organize-utilities";
     s_title := "Organize Utility Functions";
     s_description := "Found " +:+ pretty count +:+
                      " utility files outside of a utils directory.";
     s_filePath := "";
     s_priority := low;
     s_effort := easy;
     s_impact := medium;
     s_type := best_practice;
     s_suggestedFix := "Move utility functions to a dedicated utils or helpers directory to improve code organization and reusability." |}.

Definition analyzeFileOrganization (fileData : list FileNode)
  : list RefactorSuggestion :=
  let componentFiles := filter (λ f, isStrayComponent f = true) fileData in
  let utilityFiles := filter (λ f, isStrayUtility f = true) fileData in
  (if (0 <? length componentFiles)%nat
   then [organizeComponents (length componentFiles)] else []) ++
  (if (3 <? length utilityFiles)%nat
   then [organizeUtilities (length utilityFiles)] else []).

(** [byPriority[suggestion.priority]++; byType[suggestion.type]++] *)
Definition bumpPriority (p : Priority) (b : ByPriority) : ByPriority :=
  match p with
  | high => {| n_high := S (n_high b); n_medium := n_medium b;
               n_low := n_low b |}
  | medium => {| n_high := n_high b; n_medium := S (n_medium b);
                 n_low := n_low b |}
  | low => {| n_high := n_high b; n_medium := n_medium b;
              n_low := S (n_low b) |}
  end.

Definition bumpType (t : SuggestionType) (b : ByType) : ByType :=
  match t with
  | performance =>
      {| n_performance := S (n_performance b);
         n_maintainability := n_maintainability b;
         n_security := n_security b; n_accessibility := n_accessibility b;
         n_best_practice := n_best_practice b |}
  | maintainability =>
      {| n_performance := n_performance b;
         n_maintainability := S (n_maintainability b);
         n_security := n_security b; n_accessibility := n_accessibility b;
         n_best_practice := n_best_practice b |}
  | security =>
      {| n_performance := n_performance b;
         n_maintainability := n_maintainability b;
         n_security := S (n_security b); n_accessibility := n_accessibility b;
         n_best_practice := n_best_practice b |}
  | accessibility =>
      {| n_performance := n_performance b;
         n_maintainability := n_maintainability b;
         n_security := n_security b;
         n_accessibility := S (n_accessibility b);
         n_best_practice := n_best_practice b |}
  | best_practice =>
      {| n_performance := n_performance b;
         n_maintainability := n_maintainability b;
         n_security := n_security b; n_accessibility := n_accessibility b;
         n_best_practice := S (n_best_practice b) |}
  end.

Definition calculateStats (suggestions : list RefactorSuggestion)
  : RefactorStats :=
  let '(byPriority, byType) :=
    fold_left (λ acc suggestion,
                 (bumpPriority (s_priority suggestion) acc.1,
                  bumpType (s_type suggestion) acc.2))
      suggestions
      ({| n_high := 0; n_medium := 0; n_low := 0 |},
       {| n_performance := 0; n_maintainability := 0; n_security := 0;
          n_accessibility := 0; n_best_practice := 0 |}) in
  {| totalSuggestions := length suggestions;
     byPriority := byPriority;
     byType := byType |}.

Definition generateRefactorSuggestions (fileData : list FileNode)
  (solidIssues : list SolidIssue)
  (circularDependencies : list CircularDependency) : RefactorReport :=
  let suggestions :=
    convertSolidIssuesToSuggestions solidIssues ++
    generateCircularDependencySuggestions circularDependencies ++
    analyzeLargeFiles fileData ++
    analyzeFileOrganization fileData in
  {| suggestions := suggestions; stats := calculateStats suggestions |}.

(** [byPriority[p]] and [byType[t]] *)
Definition priorityCount (p : Priority) (b : ByPriority) : nat :=
  match p with high => n_high b | medium => n_medium b | low => n_low b end.

Definition typeCount (t : SuggestionType) (b : ByType) : nat :=
  match t with
  | performance => n_performance b
  | maintainability => n_maintainability b
  | security => n_security b
  | accessibility => n_accessibility b
  | best_practice => n_best_practice b
  end.

End Refactor.

(** ** Routes of a scanned project ([analyzers/routeAnalyzer.ts]) *)
Module Routes.
Import Js Files FileSystem.

Inductive RouterType := pages | app.

#[global] Instance RouterType_eq_dec : EqDecision RouterType.
Proof. solve_decision. Defined.

(** [RouteInfo]; the optional fields [componentName] and [children],
    which are never set, are left out. *)
Record RouteInfo := {
  route_id : string;
  route_path : string;
  route_filePath : string;
  isDynamic : bool;
  isApi : bool;
  route_isPage : bool;
  routerType : RouterType;
  params : option (list string);
}.

Record RouteStats := {
  totalRoutes : nat;
  pageRoutes : nat;
  apiRoutes : nat;
  dynamicRoutes : nat;
  pagesRouter : nat;
  appRouter : nat;
}.

Record RouteMap := {
  routes : list RouteInfo;
  route_stats : RouteStats;
}.

Definition nodePath (n : TreeNode) : string :=
  match n with
  | FileN f => file_path f
  | DirectoryN _ path _ _ => path
  end.

(** [findDirectory]: [None] is [null]. *)
Fixpoint findDirectory (node : TreeNode) (name : string) : option TreeNode :=
  match node with
  | FileN _ => None
  | DirectoryN nodeName _ children _ =>
      if bool_decide (nodeName = name) then Some node
      else
        (fix loop (children : list TreeNode) : option TreeNode :=
           match children with
           | [] => None
           | child :: rest =>
               match child with
               | DirectoryN _ _ _ _ =>
                   match findDirectory child name with
                   | Some found => Some found
                   | None => loop rest
                   end
               | FileN _ => loop rest
               end
           end) children
  end.

(** [segment.slice(start, -fromEnd)] *)
Definition slice (start fromEnd : nat) (s : string) : string :=
  String.substring start (String.length s - fromEnd - start) s.

(** The callback of [segments.map] in [processPageDirectory]: the
    segment as shown in the URL and the parameter that it binds. *)
Definition pageSegment (segment : string) : string * option string :=
  if startsWith segment "[..." && Structure.endsWith segment "]" then
    ("*", Some (slice 4 1 segment))
  else if startsWith segment "[[..." && Structure.endsWith segment "]]" then
    ("*?", Some (slice 5 2 segment))
  else if startsWith segment "[" && Structure.endsWith segment "]" then
    (":" +:+ slice 1 1 segment, Some (slice 1 1 segment))
  else (segment, None).

(** The callback of [segments.map] in [processAppDirectory]. *)
Definition appSegment (segment : string) : string * option string :=
  if startsWith segment "(...)" then ("*", Some (slice 5 1 segment))
  else if startsWith segment "(" && Structure.endsWith segment ")" then
    ("", None)
  else if startsWith segment "[" && Structure.endsWith segment "]" then
    (":" +:+ slice 1 1 segment, Some (slice 1 1 segment))
  else (segment, None).

(** [params.length > 0 ? params : undefined] *)
Definition someParams (params : list string) : option (list string) :=
  if (0 <? length params)%nat then Some params else None.

Definition scriptExtensions : list string := [".js"; ".jsx"; ".ts"; ".tsx"].

Section WithPath.
Variable path : PathModule.

(** The files of a pages directory that give a route. *)
Definition isRouteFile (child : FileNode) : bool :=
  let ext := extname path (file_name child) in
  bool_decide (ext ∈ scriptExtensions) &&
  negb (startsWith (basename_ext path (file_name child) ext) "_").

(** Body of the loop of [processPageDirectory] for a file that is not
    skipped. *)
Definition pageRoute (basePath : string) (child : FileNode) : RouteInfo :=
  let relativePath := join path basePath (file_name child) in
  let ext := extname path (file_name child) in
  let baseName := basename_ext path (file_name child) ext in
  let routePath :=
    if bool_decide (baseName = "index") then basePath else relativePath in
  let isApi :=
    startsWith relativePath "api/" || includes relativePath "/api/" in
  let segments := pageSegment <$> Posix.splitOn "/"%char routePath in
  let params := omap snd segments in
  {| route_id := "pages:" +:+ routePath;
     route_path := "/" +:+ Posix.joinWith "/" (fst <$> segments);
     route_filePath := file_path child;
     isDynamic := (0 <? length params)%nat;
     isApi := isApi;
     route_isPage := negb isApi;
     routerType := pages;
     params := someParams params |}.

Fixpoint processPageDirectory (dir : TreeNode) (basePath : string)
  : list RouteInfo :=
  match dir with
  | FileN _ => []
  | DirectoryN _ _ children _ =>
      flat_map (λ child,
        match child with
        | FileN file =>
            if isRouteFile file then [pageRoute basePath file] else []
        | DirectoryN name _ _ _ =>
            processPageDirectory child (join path basePath name)
        end) children
  end.

(** The first pass of [processAppDirectory]: is there a file whose name
    without extension is [fileName]? *)
Definition hasFile (fileName : string) (children : list TreeNode) : bool :=
  existsb (λ child,
    match child with
    | FileN file =>
        bool_decide (basename_ext path (file_name file)
                       (extname path (file_name file)) = fileName)
    | DirectoryN _ _ _ _ => false
    end) children.

Definition appRoute (dirPath basePath : string) (hasRoute : bool)
  : RouteInfo :=
  let segments := appSegment <$> Posix.splitOn "/"%char basePath in
  let params := omap snd segments in
  let processedSegments := filter (λ s, truthy s = true) (fst <$> segments) in
  {| route_id := "app:" +:+ basePath;
     route_path := "/" +:+ Posix.joinWith "/" processedSegments;
     route_filePath := dirPath;
     isDynamic := (0 <? length params)%nat;
     isApi := hasRoute;
     route_isPage := negb hasRoute;
     routerType := app;
     params := someParams params |}.

Fixpoint processAppDirectory (dir : TreeNode) (basePath : string)
  : list RouteInfo :=
  match dir with
  | FileN _ => []
  | DirectoryN _ dirPath children _ =>
      (if hasFile "page" children || hasFile "route" children
       then [appRoute dirPath basePath (hasFile "route" children)] else []) ++
      flat_map (λ child,
        match child with
        | FileN _ => []
        | DirectoryN name _ _ _ =>
            processAppDirectory child (join path basePath name)
        end) children
  end.

(** The statistics after the routes of one router were added. *)
Definition addRoutes (found : list RouteInfo) (st : RouteStats)
  (router : RouterType) : RouteStats :=
  {| totalRoutes := (totalRoutes st + length found)%nat;
     pageRoutes :=
       (pageRoutes st + length (filter (λ r, isApi r = false) found))%nat;
     apiRoutes :=
       (apiRoutes st + length (filter (λ r, isApi r = true) found))%nat;
     dynamicRoutes :=
       (dynamicRoutes st + length (filter (λ r, isDynamic r = true) found))%nat;
     pagesRouter :=
       match router with pages => length found | app => pagesRouter st end;
     appRouter :=
       match router with app => length found | pages => appRouter st end |}.

Definition analyzeRoutes (structure : TreeNode) : RouteMap :=
  let st0 := {| totalRoutes := 0; pageRoutes := 0; apiRoutes := 0;
                dynamicRoutes := 0; pagesRouter := 0; appRouter := 0 |} in
  let '(routes1, st1) :=
    match findDirectory structure "pages" with
    | Some pagesDir =>
        let pagesRoutes := processPageDirectory pagesDir "" in
        (pagesRoutes, addRoutes pagesRoutes st0 pages)
    | None => ([], st0)
    end in
  let '(routes2, st2) :=
    match findDirectory structure "app" with
    | Some appDir =>
        let appRoutes := processAppDirectory appDir "" in
        (routes1 ++ appRoutes, addRoutes appRoutes st1 app)
    | None => (routes1, st1)
    end in
  {| routes := routes2; route_stats := st2 |}.

(** The test of [findPageFiles] on a file. *)
Definition isPageFile (child : FileNode) : bool :=
  let ext := extname path (file_name child) in
  bool_decide (ext ∈ scriptExtensions) &&
  (isPage child || includes (file_path child) "/pages/" ||
   (includes (file_path child) "/app/" &&
    bool_decide (basename_ext path (file_name child) ext = "page"))).

(** [findPageFiles]: [traverse] pushes onto [pageFiles]. *)
Fixpoint pageFiles_traverse (node : TreeNode) (pageFiles : list FileNode)
  : list FileNode :=
  match node with
  | FileN _ => pageFiles
  | DirectoryN _ _ children _ =>
      fold_left (λ pageFiles child,
                   match child with
                   | FileN file =>
                       if isPageFile file then pageFiles ++ [file]
                       else pageFiles
                   | DirectoryN _ _ _ _ => pageFiles_traverse child pageFiles
                   end) children pageFiles
  end.

Definition findPageFiles (structure : TreeNode) : list FileNode :=
  pageFiles_traverse structure [].

End WithPath.

End Routes.

(** ** Notions used to state what a run produces *)
Module PipelineSpec.
Import Js Ast Files Parser.

(** The identifiers of the components that one file declares: the path
    of the file, a colon and the name of the component. *)
Definition componentIdsOf (world : World) (file : FileNode) : list string :=
  match world (file_path file) with
  | Some ast =>
      (λ c, file_path file +:+ ":" +:+ Components.componentNameOf c) <$>
        filter (λ c, truthy (Components.componentNameOf c) = true)
          (extractReactComponents ast)
  | None => []
  end.

(** The script files of the file data that can be read and parsed. *)
Definition parsedScripts (world : World) (fileData : list FileNode)
  : list FileNode :=
  filter (λ f, is_Some (world (file_path f)))
    (filter (λ f, isScriptFile f = true) fileData).

End PipelineSpec.

(** ** Worked examples *)
Module Examples.
Import Ast Files.

Definition identifier (nm : string) (parents : list string) : Node :=
  {| type := "Identifier"; loc := None; parent := parents;
     prop := λ k, match k with K.name => Str nm | _ => Absent end;
     arr := λ _, [] |}.

(** [function <nm>() { <statements> }] at the top level of a file, the
    declaration spanning the given lines. *)
Definition functionDeclaration (nm : string) (lines : option Loc)
  (statements : list Node) : Node :=
  {| type := "FunctionDeclaration"; loc := lines; parent := ["Program"];
     prop := λ k,
       match k with
       | K.id => One (identifier nm ["FunctionDeclaration"; "Program"])
       | K.body =>
           One {| type := "BlockStatement"; loc := None;
                  parent := ["FunctionDeclaration"; "Program"];
                  prop := λ k, match k with
                               | K.body => Arr statements
                               | _ => Absent
                               end;
                  arr := λ _, [] |}
       | _ => Absent
       end;
     arr := λ _, [] |}.

Definition bigFile : FileNode :=
  {| file_name := "Big.tsx"; file_path := "/src/components/Big.tsx";
     file_size := 9000; file_extension := ".tsx";
     isPage := false; isComponent := true; isLayout := false |}.

(** A component declared on lines 1 to 201. *)
Definition component201 : Node :=
  functionDeclaration "Big" (Some {| start_line := 1; end_line := 201 |}) [].

(** A component declared on lines 10 to 259: 250 lines. *)
Definition component250 : Node :=
  functionDeclaration "Big" (Some {| start_line := 10; end_line := 259 |}) [].

(** A component without location. *)
Definition componentNoLoc : Node := functionDeclaration "Big" None [].

(** Trees as the parser returns them: no node has a [parent]. *)
Definition parsedNode (ty : string) (one : K.t → Prop_ Node)
  (each : K.a → list Node) : Node :=
  {| type := ty; loc := None; parent := []; prop := one; arr := each |}.

(** The literal ["<value>"]. *)
Definition stringLiteral (value : string) : Node :=
  parsedNode "Literal"
    (λ k, match k with K.value => Str value | _ => Absent end) (λ _, []).

Definition arrayExpression (elements : list Node) : Node :=
  parsedNode "ArrayExpression" (λ _, Absent)
    (λ k, match k with K.elements => elements | _ => [] end).

(** [<callee>(<args>);] *)
Definition callStatement (callee : string) (args : list Node) : Node :=
  parsedNode "ExpressionStatement"
    (λ k, match k with
          | K.expression =>
              One (parsedNode "CallExpression"
                     (λ k, match k with
                           | K.callee => One (identifier callee [])
                           | _ => Absent
                           end)
                     (λ k, match k with K.arguments => args | _ => [] end))
          | _ => Absent
          end)
    (λ _, []).

(** [const <nm> = <init>;] *)
Definition constStatement (nm : string) (init : Node) : Node :=
  parsedNode "VariableDeclaration" (λ _, Absent)
    (λ k, match k with
          | K.declarations =>
              [parsedNode "VariableDeclarator"
                 (λ k, match k with
                       | K.id => One (identifier nm [])
                       | K.init => One init
                       | _ => Absent
                       end)
                 (λ _, [])]
          | _ => []
          end).

(** [function <nm>() { <statements> }] *)
Definition parsedFunction (nm : string) (statements : list Node) : Node :=
  parsedNode "FunctionDeclaration"
    (λ k, match k with
          | K.id => One (identifier nm [])
          | K.body =>
              One (parsedNode "BlockStatement"
                     (λ k, match k with
                           | K.body => Arr statements
                           | _ => Absent
                           end)
                     (λ _, []))
          | _ => Absent
          end)
    (λ _, []).

(** [function Panel() { track("a", "b", "c", "d"); }] *)
Definition panelWithStrings : Node :=
  parsedFunction "Panel"
    [callStatement "track" (stringLiteral <$> ["a"; "b"; "c"; "d"])].

(** [function Table() { const rows = [[], [], []]; }] *)
Definition tableWithRows : Node :=
  parsedFunction "Table"
    [constStatement "rows"
       (arrayExpression (replicate 3 (arrayExpression [])))].

(** [interface <nm> { <names>: ... }] *)
Definition propertySignature (nm : string) : Node :=
  let parents := ["TSInterfaceBody"; "TSInterfaceDeclaration"; "Program"] in
  {| type := "TSPropertySignature"; loc := None; parent := parents;
     prop := λ k,
       match k with
       | K.key => One (identifier nm ("TSPropertySignature" :: parents))
       | _ => Absent
       end;
     arr := λ _, [] |}.

Definition interfaceDeclaration (nm : string) (names : list string) : Node :=
  {| type := "TSInterfaceDeclaration"; loc := None; parent := ["Program"];
     prop := λ k,
       match k with
       | K.id => One (identifier nm ["TSInterfaceDeclaration"; "Program"])
       | K.body =>
           One {| type := "TSInterfaceBody"; loc := None;
                  parent := ["TSInterfaceDeclaration"; "Program"];
                  prop := λ k, match k with
                               | K.body => Arr (propertySignature <$> names)
                               | _ => Absent
                               end;
                  arr := λ _, [] |}
       | _ => Absent
       end;
     arr := λ _, [] |}.

(** Two presentation members and two data members. *)
Definition cardProps : Node :=
  interfaceDeclaration "CardProps" ["style"; "color"; "data"; "value"].

(** The same with two more members. *)
Definition wideCardProps : Node :=
  interfaceDeclaration "WideCardProps"
    ["style"; "color"; "data"; "value"; "id"; "title"].

(** Three files importing each other in a cycle, a.ts -> b.ts -> c.ts
    -> a.ts; the map lists b.ts first. *)
Definition cycleMap : list (string * list string) :=
  [("/src/b.ts", ["/src/c.ts"]); ("/src/c.ts", ["/src/a.ts"]);
   ("/src/a.ts", ["/src/b.ts"])].

Definition cycleNames : list (string * string) :=
  [("/src/b.ts", "b.ts"); ("/src/c.ts", "c.ts"); ("/src/a.ts", "a.ts")].

(** Two source files: [App.tsx] imports and renders [Button]. *)
Definition importDefault (nm source : string) : Node :=
  {| type := "ImportDeclaration"; loc := None; parent := ["Program"];
     prop := λ k,
       match k with
       | K.source =>
           One {| type := "Literal"; loc := None;
                  parent := ["ImportDeclaration"; "Program"];
                  prop := λ k, match k with
                               | K.value => Str source
                               | _ => Absent
                               end;
                  arr := λ _, [] |}
       | _ => Absent
       end;
     arr := λ k,
       match k with
       | K.specifiers =>
           [{| type := "ImportDefaultSpecifier"; loc := None;
               parent := ["ImportDeclaration"; "Program"];
               prop := λ k,
                 match k with
                 | K.local =>
                     One (identifier nm ["ImportDefaultSpecifier";
                                         "ImportDeclaration"; "Program"])
                 | _ => Absent
                 end;
               arr := λ _, [] |}]
       | _ => []
       end |}.

Definition program (statements : list Node) : Node :=
  {| type := "Program"; loc := None; parent := [];
     prop := λ k, match k with K.body => Arr statements | _ => Absent end;
     arr := λ _, [] |}.

Definition appProgram : Node :=
  program [importDefault "Button" "./Button";
           functionDeclaration "App"
             (Some {| start_line := 3; end_line := 12 |}) []].

Definition buttonProgram : Node :=
  program [functionDeclaration "Button"
             (Some {| start_line := 1; end_line := 8 |}) []].

Definition appFile : FileNode :=
  {| file_name := "App.tsx"; file_path := "/src/App.tsx";
     file_size := 2500; file_extension := ".tsx";
     isPage := false; isComponent := true; isLayout := false |}.

Definition buttonFile : FileNode :=
  {| file_name := "Button.tsx"; file_path := "/src/Button.tsx";
     file_size := 800; file_extension := ".tsx";
     isPage := false; isComponent := true; isLayout := false |}.

Definition sources : list FileNode := [appFile; buttonFile].

(** What is on disk; [other] is read at every other path. *)
Definition disk (other : option Node) : World :=
  λ p, if bool_decide (p = "/src/App.tsx") then Some appProgram
       else if bool_decide (p = "/src/Button.tsx") then Some buttonProgram
       else other.

(** A comparator for names: the order of the code units. *)
Definition lexCompare (a b : string) : Z :=
  match String_as_OT.compare a b with
  | Lt => (-1)%Z
  | Eq => 0%Z
  | Gt => 1%Z
  end.

(** A small project on disk. *)
Definition projectListing : list FileSystem.Dirent :=
  [FileSystem.File "next.config.js" (Some 120%Z);
   FileSystem.Dir "src"
     (Some [FileSystem.File "index.tsx" (Some 300%Z);
            FileSystem.Dir "components"
              (Some [FileSystem.File "Button.tsx" (Some 800%Z);
                     FileSystem.File "logo.png" (Some 4000%Z)]);
            FileSystem.File "App.tsx" (Some 2500%Z)]);
   FileSystem.Dir "node_modules" (Some [FileSystem.File "x.js" (Some 1%Z)]);
   FileSystem.File "README.md" (Some 900%Z);
   FileSystem.Other "dev.sock";
   FileSystem.Dir "docs" (Some [])].

(** Issues worth 13 points against SRP and 1 point against OCP and
    against ISP. *)
Definition issueOf (p : Solid.Principle) (sev : Severity) : Solid.SolidIssue :=
  {| Solid.issue_id := "example";
     Solid.principle := p;
     Solid.severity := sev;
     Solid.description := "";
     Solid.issue_filePath := "/src/App.tsx";
     Solid.recommendation := "" |}.

Definition someIssues : list Solid.SolidIssue :=
  [issueOf Solid.SRP critical; issueOf Solid.SRP warning;
   issueOf Solid.OCP info; issueOf Solid.ISP info].

End Examples.
(* ================================================================== *)
(** * Part II: properties                                              *)
(* ================================================================== *)

(** ** Sets and maps *)
Module JsFacts.
Import Js.

Lemma has_true x s : has x s = true ↔ x ∈ s.
Proof. unfold has. apply bool_decide_eq_true. Qed.

Lemma has_false x s : has x s = false ↔ x ∉ s.
Proof. unfold has. apply bool_decide_eq_false. Qed.

Lemma add_fresh x s : x ∉ s → add x s = s ++ [x].
Proof. intros H. unfold add. apply has_false in H. by rewrite H. Qed.

Lemma elem_of_add x y s : y ∈ add x s ↔ y = x ∨ y ∈ s.
Proof.
  unfold add. destruct (has x s) eqn:E.
  - apply has_true in E. set_solver.
  - set_solver.
Qed.

Lemma delete_last x s : x ∉ s → delete x (s ++ [x]) = s.
Proof.
  intros H. unfold delete. rewrite filter_app.
  rewrite (filter_cons_False (λ y, y ≠ x)) by tauto. 
  rewrite filter_nil, app_nil_r.
  induction s as [|a s IH]; [done|].
  rewrite filter_cons_True by set_solver.
  f_equal. apply IH. set_solver.
Qed.

Lemma findIndex_Some x l : x ∈ l →
  ∃ i, findIndex x l = Some i ∧ l !! i = Some x ∧ ∀ j, (j < i)%nat → l !! j ≠ Some x.
Proof.
  intros H. unfold findIndex.
  destruct (list_find (λ p, p = x) l) as [[i y]|] eqn:E.
  - apply list_find_Some in E as (Hi & -> & Hlt). exists i. split; [done|].
    split; [done|]. intros j Hj Hjx. by eapply Hlt.
  - apply list_find_None in E. rewrite Forall_forall in E. 
    exfalso. by eapply E.
Qed.

Lemma forOf_app {A S} (body : A → S → option S) l1 l2 s :
  forOf body (l1 ++ l2) s = forOf body l1 s ≫= forOf body l2.
Proof.
  revert s. induction l1 as [|a l1 IH]; intros s; simpl; [done|].
  destruct (body a s); simpl; [apply IH|done].
Qed.

End JsFacts.

(** ** Walks and cycles *)
Module GraphFacts.
Import Js Dependency Graph.

Section WithMap.
Variable m : list (string * list string).

Lemma is_walk_nil : is_walk m [].
Proof. intros i x y H. by rewrite lookup_nil in H. Qed.

Lemma is_walk_snoc l n :
  is_walk m l → (∀ x, last l = Some x → edge m x n) → is_walk m (l ++ [n]).
Proof.
  intros Hw He i x y Hx Hy.
  apply lookup_snoc_Some in Hy as [[Hlt Hy]|[Hlen ->]].
  - rewrite lookup_app_l in Hx by lia. eauto.
  - apply He. rewrite last_lookup, <-Hlen. simpl.
    rewrite lookup_app_l in Hx by lia. done.
Qed.

Lemma is_walk_drop l k : is_walk m l → is_walk m (drop k l).
Proof.
  intros Hw i x y Hx Hy. rewrite lookup_drop in Hx, Hy.
  apply (Hw (k + i)%nat); [done|]. by rewrite <-Nat.add_succ_r.
Qed.

Lemma is_walk_app_l l1 l2 : is_walk m (l1 ++ l2) → is_walk m l1.
Proof.
  intros Hw i x y Hx Hy. apply (Hw i); by apply lookup_app_l_Some.
Qed.

Lemma sets_ok_NoDup x : sets_ok m → NoDup (dependenciesOf m x).
Proof.
  unfold sets_ok, dependenciesOf. induction m as [|[k v] m' IH]; simpl.
  - intros _. constructor.
  - intros H. apply Forall_cons in H as [Hv H].
    case_bool_decide; simpl; [done|]. by apply IH.
Qed.

(** Two suffixes of a duplicate-free list with the same members are equal. *)
Lemma same_members_suffix (p p' r c : list string) :
  NoDup (p ++ r) → p ++ r = p' ++ c → same_members r c → r = c.
Proof.
  intros Hnd Heq Hsame.
  apply app_eq_inv in Heq as [(k & -> & ->)|(k & -> & ->)].
  - destruct k as [|z k]; [done|]. exfalso.
    rewrite <-(assoc_L (++)) in Hnd. apply NoDup_app in Hnd as (_ & _ & Hnd).
    apply NoDup_app in Hnd as (_ & Hd & _).
    apply (Hd z); [by left|]. apply Hsame. by left.
  - destruct k as [|z k]; [done|]. exfalso.
    apply NoDup_app in Hnd as (_ & _ & Hnd).
    apply NoDup_app in Hnd as (_ & Hd & _).
    apply (Hd z); [by left|]. apply Hsame. set_solver.
Qed.

(** A segment of a duplicate-free list that has the members of one of its
    suffixes is that suffix. *)
Lemma same_members_segment (p q p' r c : list string) :
  NoDup (p ++ r ++ q) → r ≠ [] → p ++ r ++ q = p' ++ c →
  same_members r c → q = [] ∧ r = c.
Proof.
  intros Hnd Hne Heq Hsame.
  assert (q = []) as ->.
  { destruct q as [|z q]; [done|]. exfalso.
    destruct r as [|h r]; [done|].
    pose proof Hnd as Hnd'.
    apply NoDup_app in Hnd' as (_ & _ & Hrq).
    apply NoDup_app in Hrq as (_ & Hd & _).
    assert (z ∉ c) as Hzc.
    { intros Hz. apply Hsame in Hz. by apply (Hd z); [|left]. }
    assert (h ∈ c) as Hhc by (apply Hsame; by left).
    rewrite Heq in Hnd. apply NoDup_app in Hnd as (_ & Hpc & _).
    assert (z ∈ p') as Hzp.
    { assert (z ∈ p' ++ c) as Hz by (rewrite <-Heq; set_solver).
      apply elem_of_app in Hz as [|]; done. }
    rewrite (assoc_L (++)) in Heq.
    apply app_eq_inv in Heq as [(k & Hk1 & Hk2)|(k & Hk1 & Hk2)].
    - apply Hzc. rewrite Hk2. set_solver.
    - apply (Hpc h); [|done]. rewrite Hk1. set_solver. }
  split; [done|]. rewrite app_nil_r in *.
  by eapply same_members_suffix.
Qed.

Lemma is_rotation_members c r z : is_rotation c r → z ∈ r ↔ z ∈ c.
Proof. intros (l1 & l2 & -> & ->). set_solver. Qed.

Lemma is_rotation_same_head c r :
  NoDup c → is_rotation c r → head r = head c → r = c.
Proof.
  intros Hnd (l1 & l2 & -> & ->) Hh.
  destruct l1 as [|a l1]; [by rewrite app_nil_r|].
  destruct l2 as [|b l2]; [by rewrite app_nil_r|].
  simpl in Hh. injection Hh as ->. exfalso.
  apply NoDup_app in Hnd as (_ & Hd & _). apply (Hd a); by left.
Qed.

End WithMap.
End GraphFacts.

(** ** The depth-first traversal of [detectCircularDependencies] *)
Module DfsFacts.
Import Js JsFacts Dependency Graph GraphFacts.

Section WithMap.
Variable m : list (string * list string).
Variable names : list (string * string).
Hypothesis Hsets : sets_ok m.

(** What one call [dfs node path] does to the state. [new] lists the
    cycles it pushes and [vnew] the nodes it marks as explored. *)
Local Abbreviation call_spec fuel := (∀ node path st raw st',
  Inv m names path st raw →
  (∀ x, last path = Some x → edge m x node) →
  (∀ r x, r ∈ raw → last r = Some x → last path = Some x →
          head r ≠ Some node) →
  dfs m names fuel node path st = Some st' →
  ∃ new vnew,
    Inv m names path st' (raw ++ new) ∧
    visited st' = visited st ++ vnew ∧
    (node ∈ visited st' ∨
     ∃ r, r ∈ raw ++ new ∧ head r = Some node ∧ last r = last path) ∧
    (∀ r x, r ∈ new → last r = Some x → x ∈ path →
            last path = Some x ∧ head r = Some node) ∧
    (∀ r, r ∈ new → ∃ ext, r `suffix_of` (path ++ ext) ∧
            NoDup (path ++ ext) ∧ (ext = [] ∨ head ext = Some node))).

Lemma Inv_raw_last path st raw r x :
  Inv m names path st raw → r ∈ raw → last r = Some x →
  x ∈ visited st ∨ x ∈ path.
Proof.
  intros HI Hr Hl.
  destruct (inv_resident _ _ _ _ _ HI r Hr) as (r1 & r2 & p & q & -> & Hv & ->).
  apply last_Some_elem_of in Hl. apply elem_of_app in Hl as [Hl|Hl].
  - right. set_solver.
  - left. by apply Hv.
Qed.

Lemma loop_spec fuel x path1 :
  call_spec fuel → last path1 = Some x →
  ∀ todo done st raw st',
  NoDup (done ++ todo) → (∀ d, d ∈ todo → edge m x d) →
  Inv m names path1 st raw →
  (∀ r, r ∈ raw → last r = Some x → ∃ d, d ∈ done ∧ head r = Some d) →
  forOf (λ d s, dfs m names fuel d path1 s) todo st = Some st' →
  ∃ new vnew,
    Inv m names path1 st' (raw ++ new) ∧
    visited st' = visited st ++ vnew ∧
    (∀ d, d ∈ todo → d ∈ visited st' ∨
       ∃ r, r ∈ raw ++ new ∧ head r = Some d ∧ last r = Some x) ∧
    (∀ r z, r ∈ new → last r = Some z → z ∈ path1 → z = x) ∧
    (∀ r, r ∈ new → ∃ ext, r `suffix_of` (path1 ++ ext) ∧
            NoDup (path1 ++ ext)).
Proof.
  intros Hcall Hlast todo.
  induction todo as [|d todo IH]; intros done st raw st' Hnd Hedge HI Hraw Hrun.
  - simpl in Hrun. injection Hrun as <-. exists [], [].
    rewrite !app_nil_r. split; [done|]. split; [done|]. split; [|split].
    + intros d Hd. by apply elem_of_nil in Hd.
    + intros r z Hr. by apply elem_of_nil in Hr.
    + intros r Hr. by apply elem_of_nil in Hr.
  - simpl in Hrun.
    destruct (dfs m names fuel d path1 st) as [st1|] eqn:Hd; [|done].
    assert (d ∉ done) as Hdone.
    { apply NoDup_app in Hnd as (_ & Hdis & _). intros Hin.
      apply (Hdis d Hin). by left. }
    apply (Hcall _ _ _ raw) in Hd as (new1 & vnew1 & HI1 & Hv1 & Hk1 & Hn1 & He1);
      [|done| |].
    2:{ intros x' Hx'. rewrite Hlast in Hx'. injection Hx' as <-.
        apply Hedge. by left. }
    2:{ intros r x' Hr Hl Hx' Hh. rewrite Hlast in Hx'. injection Hx' as <-.
        destruct (Hraw r Hr Hl) as (d' & Hd' & Hh'). congruence. }
    apply (IH (done ++ [d]) st1 (raw ++ new1)) in Hrun
      as (new2 & vnew2 & HI2 & Hv2 & Hk2 & Hn2 & He2); [| | |done|].
    2:{ by rewrite <-(assoc_L (++)). }
    2:{ intros d' Hd'. apply Hedge. by right. }
    2:{ intros r Hr Hl. apply elem_of_app in Hr as [Hr|Hr].
        - destruct (Hraw r Hr Hl) as (d' & Hd' & Hh'). exists d'. set_solver.
        - exists d. split; [set_solver|].
          apply (Hn1 r x Hr Hl). by apply last_Some_elem_of. }
    exists (new1 ++ new2), (vnew1 ++ vnew2).
    rewrite !(assoc_L (++)). split; [done|]. split.
    { by rewrite Hv2, Hv1. }
    split; [|split].
    + intros d' Hd'. apply elem_of_cons in Hd' as [->|Hd'].
      * destruct Hk1 as [Hk1|(r & Hr & Hh & Hl)].
        -- left. rewrite Hv2. set_solver.
        -- right. exists r. rewrite Hl. split; [set_solver|done].
      * by apply Hk2.
    + intros r z Hr Hl Hz. apply elem_of_app in Hr as [Hr|Hr].
      * destruct (Hn1 r z Hr Hl Hz) as [Hz' _]. congruence.
      * by eapply Hn2.
    + intros r Hr. apply elem_of_app in Hr as [Hr|Hr].
      * destruct (He1 r Hr) as (ext & ? & ? & _). by exists ext.
      * by apply He2.
Qed.

Lemma Inv_push path st raw node :
  Inv m names path st raw → node ∉ visited st → node ∉ path →
  (∀ x, last path = Some x → edge m x node) →
  Inv m names (path ++ [node])
    {| visited := visited st; stack := add node (stack st);
       circularDependencies := circularDependencies st |} raw.
Proof.
  intros HI Hv Hp He. destruct HI as [I1 I2 I3 I4 I5 I6 I7 I8 I9].
  split; simpl; try done.
  - rewrite I1. by apply add_fresh.
  - apply NoDup_app. split; [done|]. split; [|apply NoDup_singleton].
    intros x Hx Hx'. apply list_elem_of_singleton in Hx'. by subst.
  - by apply is_walk_snoc.
  - intros x Hx Hx'. apply elem_of_app in Hx' as [Hx'|Hx'].
    + by apply (I4 x).
    + apply list_elem_of_singleton in Hx'. by subst.
  - intros r Hr. destruct (I8 r Hr) as (r1 & r2 & p & q & -> & Hr2 & ->).
    exists r1, r2, p, (q ++ [node]). by rewrite <-!(assoc_L (++)).
Qed.

Lemma Inv_pop path st raw node (deps : list string) :
  Inv m names (path ++ [node]) st raw → node ∉ path →
  (∀ y, edge m node y → y ∈ deps) →
  (∀ d, d ∈ deps → d ∈ visited st ∨
     ∃ r, r ∈ raw ∧ head r = Some d ∧ last r = Some node) →
  Inv m names path
    {| visited := add node (visited st); stack := delete node (stack st);
       circularDependencies := circularDependencies st |} raw ∧
  add node (visited st) = visited st ++ [node].
Proof.
  intros HI Hp Hdeps Hk. destruct HI as [I1 I2 I3 I4 I5 I6 I7 I8 I9].
  assert (node ∉ visited st) as Hnv.
  { intros Hv. apply (I4 node Hv). set_solver. }
  split; [|by apply add_fresh].
  split; simpl; try done.
  - rewrite I1. by apply delete_last.
  - by apply NoDup_app in I2 as (? & _ & _).
  - by eapply is_walk_app_l.
  - intros x Hx Hx'. apply elem_of_add in Hx as [->|Hx]; [done|].
    apply (I4 x Hx). set_solver.
  - rewrite add_fresh by done. intros l1 x l2 Heq y Hy.
    destruct l2 as [|z l2 _] using rev_ind.
    + apply app_inj_tail in Heq as [<- <-]. apply Hk. by apply Hdeps.
    + rewrite app_comm_cons, (assoc_L (++)) in Heq.
      apply app_inj_tail in Heq as [Heq _]. by eapply I7.
  - intros r Hr. destruct (I8 r Hr) as (r1 & r2 & p & q & -> & Hr2 & Hpq).
    destruct q as [|z q _] using rev_ind.
    + rewrite app_nil_r in Hpq. destruct r1 as [|z r1 _] using rev_ind.
      * exists [], r2, path, []. rewrite app_nil_r. split; [done|].
        split; [|done]. intros w Hw. apply elem_of_add. right. by apply Hr2.
      * rewrite (assoc_L (++)) in Hpq. apply app_inj_tail in Hpq as [-> <-].
        exists r1, (node :: r2), p, []. rewrite app_nil_r.
        split; [by rewrite <-(assoc_L (++))|]. split; [|done].
        intros w Hw. apply elem_of_add. apply elem_of_cons in Hw as [->|Hw].
        -- by left.
        -- right. by apply Hr2.
    + rewrite !(assoc_L (++)) in Hpq. apply app_inj_tail in Hpq as [-> <-].
      exists r1, r2, p, q. split; [done|]. split; [|by rewrite (assoc_L (++))].
      intros w Hw. apply elem_of_add. right. by apply Hr2.
Qed.

Lemma Inv_emit path st raw node i :
  Inv m names path st raw → path !! i = Some node →
  (∀ x, last path = Some x → edge m x node) →
  (∀ r x, r ∈ raw → last r = Some x → last path = Some x →
          head r ≠ Some node) →
  Inv m names path
    {| visited := visited st; stack := stack st;
       circularDependencies :=
         circularDependencies st ++ [mkCycle names (drop i path)] |}
    (raw ++ [drop i path]) ∧
  head (drop i path) = Some node ∧ last (drop i path) = last path.
Proof.
  intros HI Hi He Hn. destruct HI as [I1 I2 I3 I4 I5 I6 I7 I8 I9].
  assert (head (drop i path) = Some node) as Hhead.
  { by rewrite head_lookup, lookup_drop, Nat.add_0_r. }
  assert (last (drop i path) = last path) as Hlast.
  { rewrite <-(take_drop i path) at 2. rewrite last_app.
    destruct (last (drop i path)) eqn:E; [done|].
    apply last_None in E. by rewrite E in Hhead. }
  split; [|done].
  split; simpl; try done.
  - by rewrite I5, fmap_app.
  - intros r Hr. apply elem_of_app in Hr as [Hr|Hr]; [by apply I6|].
    apply list_elem_of_singleton in Hr as ->. split; [|split; [|split]].
    + intros E. by rewrite E in Hhead.
    + eapply sublist_NoDup; [done|apply sublist_drop].
    + by apply is_walk_drop.
    + intros x y Hx Hy. rewrite Hhead in Hy. injection Hy as <-.
      apply He. by rewrite <-Hlast.
  - intros l1 x l2 Heq y Hy. destruct (I7 l1 x l2 Heq y Hy) as [?|(r & ? & ?)].
    + by left.
    + right. exists r. split; [set_solver|done].
  - intros r Hr. apply elem_of_app in Hr as [Hr|Hr]; [by apply I8|].
    apply list_elem_of_singleton in Hr as ->.
    exists (drop i path), [], (take i path), [].
    rewrite !app_nil_r, take_drop. split; [done|]. split; [|done].
    intros z Hz. by apply elem_of_nil in Hz.
  - intros l1 r l2 Heq r' Hr' Hsame.
    destruct l2 as [|z l2 _] using rev_ind.
    + apply app_inj_tail in Heq as [<- <-].
      destruct (I8 r' Hr') as (r1 & r2 & p & q & -> & Hr2 & Hpq).
      assert (r2 = []) as ->.
      { destruct r2 as [|z r2]; [done|]. exfalso.
        apply (I4 z); [apply Hr2; by left|].
        eapply subseteq_drop. apply Hsame. set_solver. }
      rewrite app_nil_r in *.
      assert (r1 ≠ []) as Hne by (by destruct (I6 r1 Hr') as [? _]).
      destruct (same_members_segment p q (take i path) r1 (drop i path))
        as [-> ->]; [by rewrite <-Hpq|done|by rewrite take_drop|done|].
      destruct (last path) as [x|] eqn:El.
      * by eapply (Hn (drop i path) x).
      * apply last_None in Hlast. by rewrite Hlast in Hhead.
    + rewrite app_comm_cons, (assoc_L (++)) in Heq.
      apply app_inj_tail in Heq as [Heq _]. by eapply I9.
Qed.

Lemma dfs_spec fuel : call_spec fuel.
Proof.
  induction fuel as [|fuel IH]; intros node path st raw st' HI He Hn Hrun;
    [done|].
  simpl in Hrun.
  destruct (has node (visited st)) eqn:Hvis.
  { injection Hrun as <-. apply has_true in Hvis. exists [], [].
    rewrite !app_nil_r. split; [done|]. split; [done|]. split; [by left|].
    split; intros r; [intros x|]; intros Hr; by apply elem_of_nil in Hr. }
  apply has_false in Hvis.
  destruct (has node (stack st)) eqn:Hst.
  { apply has_true in Hst. rewrite (inv_stack _ _ _ _ _ HI) in Hst.
    destruct (findIndex_Some _ _ Hst) as (i & Hi & Hi' & _).
    rewrite Hi in Hrun. injection Hrun as <-.
    destruct (Inv_emit _ _ _ _ _ HI Hi' He Hn) as (HI' & Hhead & Hlast).
    exists [drop i path], []. rewrite app_nil_r.
    split; [done|]. split; [done|]. split; [|split].
    - right. exists (drop i path). split; [set_solver|done].
    - intros r x Hr Hl Hx. apply list_elem_of_singleton in Hr as ->.
      by rewrite <-Hlast.
    - intros r Hr. apply list_elem_of_singleton in Hr as ->.
      exists []. rewrite app_nil_r. split; [apply suffix_drop|].
      split; [apply (inv_nodup _ _ _ _ _ HI)|by left]. }
  apply has_false in Hst. rewrite (inv_stack _ _ _ _ _ HI) in Hst.
  match type of Hrun with
  | match forOf ?f ?l ?s with _ => _ end = _ =>
      destruct (forOf f l s) as [st2|] eqn:Hloop; [|done]
  end.
  injection Hrun as <-.
  pose proof (Inv_push _ _ _ _ HI Hvis Hst He) as HI1.
  apply (loop_spec fuel node (path ++ [node]) IH (last_snoc _ _)
           _ [] _ raw) in Hloop
    as (new & vnew & HI2 & Hv2 & Hk2 & Hn2 & He2); [| | |done|].
  2:{ simpl. by apply sets_ok_NoDup. }
  2:{ by intros d Hd. }
  2:{ intros r Hr Hl. exfalso.
      destruct (Inv_raw_last _ _ _ _ _ HI Hr Hl); done. }
  destruct (Inv_pop _ _ _ _ _ HI2 Hst (λ y Hy, Hy) Hk2) as [HI3 Hadd].
  exists new, (vnew ++ [node]).
  split; [done|]. simpl. split; [by rewrite Hadd, Hv2, (assoc_L (++))|].
  split; [left; rewrite Hadd; set_solver|]. split.
  - intros r x Hr Hl Hx. exfalso.
    assert (x = node) as -> by (eapply Hn2; [done..|set_solver]). done.
  - intros r Hr. destruct (He2 r Hr) as (ext & Hsuf & Hnd).
    exists (node :: ext). rewrite <-(assoc_L (++)) in Hsuf, Hnd.
    split; [done|]. split; [done|by right].
Qed.

(** *** Termination: the fuel of [detectCircularDependencies] suffices *)

Lemma dependenciesOf_allNodes x y : edge m x y → y ∈ allNodes m.
Proof.
  unfold edge, dependenciesOf, allNodes. intros H.
  apply elem_of_app. right. clear Hsets.
  induction m as [|[k v] m' IH]; simpl in *; [by apply elem_of_nil in H|].
  apply elem_of_app. case_bool_decide; simpl in *; [by left|right; auto].
Qed.

Lemma dfs_total fuel : ∀ node path st,
  NoDup (stack st) → stack st ⊆ allNodes m → node ∈ allNodes m →
  (length (allNodes m) < fuel + length (stack st))%nat →
  ∃ st', dfs m names fuel node path st = Some st' ∧ stack st' = stack st.
Proof.
  clear Hsets.
  induction fuel as [|fuel IH]; intros node path st Hnd Hsub Hnode Hlen.
  { exfalso. apply NoDup_submseteq in Hsub; [|done].
    apply submseteq_length in Hsub. simpl in Hlen. lia. }
  simpl. destruct (has node (visited st)); [by eexists|].
  destruct (has node (stack st)) eqn:Hst.
  { destruct (findIndex node path); by eexists. }
  apply has_false in Hst.
  assert (∀ deps st1, (∀ d, d ∈ deps → d ∈ allNodes m) →
            stack st1 = stack st ++ [node] →
            ∃ st2, forOf (λ dependency s,
                     dfs m names fuel dependency (path ++ [node]) s) deps st1
                   = Some st2 ∧ stack st2 = stack st ++ [node]) as Hloop.
  { induction deps as [|d deps IHd]; intros st1 Hd Hs1; simpl; [by eexists|].
    destruct (IH d (path ++ [node]) st1) as (st2 & -> & Hs2).
    - rewrite Hs1. apply NoDup_app. split; [done|].
      split; [|apply NoDup_singleton]. intros x Hx Hx'.
      apply list_elem_of_singleton in Hx'. by subst.
    - rewrite Hs1. intros x Hx. apply elem_of_app in Hx as [Hx|Hx]; [auto|].
      apply list_elem_of_singleton in Hx. by subst.
    - apply Hd. by left.
    - rewrite Hs1, length_app. simpl. lia.
    - apply IHd; [|congruence]. intros d' Hd'. apply Hd. by right. }
  destruct (Hloop (dependenciesOf m node)
              {| visited := visited st; stack := add node (stack st);
                 circularDependencies := circularDependencies st |})
    as (st2 & -> & Hs2).
  - intros d Hd. by eapply dependenciesOf_allNodes.
  - simpl. by apply add_fresh.
  - eexists. split; [done|]. simpl. rewrite Hs2. by apply delete_last.
Qed.

Lemma toplevel_total fuel keys : ∀ st,
  keys ⊆ allNodes m → stack st = [] →
  (length (allNodes m) < fuel)%nat →
  ∃ st', forOf (λ node s, dfs m names fuel node [] s) keys st = Some st'.
Proof.
  clear Hsets.
  induction keys as [|k keys IH]; intros st Hk Hs Hlen; simpl; [by eexists|].
  destruct (dfs_total fuel k [] st) as (st1 & -> & Hs1).
  - rewrite Hs. constructor.
  - rewrite Hs. set_solver.
  - apply Hk. by left.
  - rewrite Hs. simpl. lia.
  - apply IH; [set_solver|congruence|done].
Qed.

Lemma detect_total : ∃ res, detectCircularDependencies m names = Some res.
Proof.
  clear Hsets.
  unfold detectCircularDependencies.
  destruct (toplevel_total (S (length (allNodes m))) (map_keys m) initialState)
    as (st' & ->); [|done|lia|by eexists].
  unfold allNodes. set_solver.
Qed.

(** *** The whole run *)

Lemma Inv_init : Inv m names [] initialState [].
Proof.
  split; simpl.
  - done.
  - constructor.
  - apply is_walk_nil.
  - intros x Hx. by apply elem_of_nil in Hx.
  - done.
  - intros r Hr. by apply elem_of_nil in Hr.
  - intros l1 x l2 Heq. by destruct l1.
  - intros r Hr. by apply elem_of_nil in Hr.
  - intros l1 r l2 Heq. by destruct l1.
Qed.

Lemma toplevel_call fuel k st raw st' :
  Inv m names [] st raw → dfs m names fuel k [] st = Some st' →
  ∃ new vnew,
    Inv m names [] st' (raw ++ new) ∧ visited st' = visited st ++ vnew ∧
    k ∈ visited st' ∧
    (∀ r, r ∈ new → ∃ ext, r `suffix_of` ext ∧ NoDup ext ∧
                          (ext = [] ∨ head ext = Some k)).
Proof.
  intros HI Hrun.
  apply (dfs_spec fuel _ _ _ raw) in Hrun
    as (new & vnew & HI' & Hv & Hk & _ & He); [|done| |]; [|done..].
  exists new, vnew. split; [done|]. split; [done|]. split; [|done].
  destruct Hk as [Hk|(r & Hr & _ & Hl)]; [done|]. exfalso.
  destruct (inv_sound _ _ _ _ _ HI' r Hr) as [Hne _].
  simpl in Hl. by apply last_None in Hl.
Qed.

Lemma toplevel_spec fuel keys : ∀ st raw st',
  Inv m names [] st raw →
  forOf (λ node s, dfs m names fuel node [] s) keys st = Some st' →
  ∃ new vnew,
    Inv m names [] st' (raw ++ new) ∧ visited st' = visited st ++ vnew ∧
    (∀ k, k ∈ keys → k ∈ visited st').
Proof.
  induction keys as [|k keys IH]; intros st raw st' HI Hrun; simpl in Hrun.
  - injection Hrun as <-. exists [], []. rewrite !app_nil_r.
    split; [done|]. split; [done|]. intros k Hk. by apply elem_of_nil in Hk.
  - destruct (dfs m names fuel k [] st) as [st1|] eqn:Hk; [|done].
    apply (toplevel_call _ _ _ raw) in Hk as (new1 & vnew1 & HI1 & Hv1 & Hk1 & _);
      [|done].
    apply (IH _ (raw ++ new1)) in Hrun as (new2 & vnew2 & HI2 & Hv2 & Hk2);
      [|done].
    exists (new1 ++ new2), (vnew1 ++ vnew2). rewrite !(assoc_L (++)).
    split; [done|]. split; [by rewrite Hv2, Hv1|].
    intros k' Hk'. apply elem_of_cons in Hk' as [->|Hk']; [|by apply Hk2].
    rewrite Hv2. set_solver.
Qed.

Lemma edge_key x y : edge m x y → x ∈ map_keys m.
Proof.
  unfold edge, dependenciesOf, map_keys. clear Hsets.
  induction m as [|[k v] m' IH]; simpl; [by intros ?%elem_of_nil|].
  case_bool_decide; simpl; [subst; by left|right; auto].
Qed.

Lemma cycle_member_edge c x :
  simple_cycle m c → x ∈ c → ∃ y, y ∈ c ∧ edge m x y.
Proof.
  intros (Hne & _ & Hw & Hc) Hx.
  apply list_elem_of_lookup in Hx as [i Hi].
  destruct (c !! S i) as [y|] eqn:Hy.
  - exists y. split; [by eapply list_elem_of_lookup_2|by eapply Hw].
  - destruct c as [|h c']; [done|]. exists h. split; [by left|].
    apply Hc; [|done]. rewrite last_lookup.
    apply lookup_ge_None in Hy. apply lookup_lt_Some in Hi as Hlt.
    replace (pred (length (h :: c'))) with i by lia. done.
Qed.

Lemma first_member (c l : list string) x :
  x ∈ l → x ∈ c →
  ∃ l1 z l2, l = l1 ++ z :: l2 ∧ z ∈ c ∧ ∀ w, w ∈ l1 → w ∉ c.
Proof.
  induction l as [|a l IH]; intros Hl Hc; [by apply elem_of_nil in Hl|].
  destruct (decide (a ∈ c)) as [Ha|Ha].
  - exists [], a, l. split; [done|]. split; [done|].
    intros w Hw. by apply elem_of_nil in Hw.
  - apply elem_of_cons in Hl as [->|Hl]; [done|].
    destruct (IH Hl Hc) as (l1 & z & l2 & -> & Hz & Hl1).
    exists (a :: l1), z, l2. split; [done|]. split; [done|].
    intros w Hw. apply elem_of_cons in Hw as [->|Hw]; auto.
Qed.

(** Once a member of a cycle has been explored, a cycle was reported. *)
Lemma cycle_reported st raw c x :
  Inv m names [] st raw → simple_cycle m c → x ∈ c → x ∈ visited st →
  ∃ r, r ∈ raw.
Proof.
  intros HI Hc Hx Hv.
  destruct (first_member c (visited st) x Hv Hx) as (l1 & z & l2 & Heq & Hz & Hl1).
  destruct (cycle_member_edge c z Hc Hz) as (y & Hy & He).
  destruct (inv_closed _ _ _ _ _ HI l1 z l2 Heq y He) as [Hin|(r & Hr & _)].
  - by apply Hl1 in Hin.
  - by exists r.
Qed.

(** With a single cycle in the graph, at most one record is pushed. *)
Lemma only_cycle_single path st raw c :
  Inv m names path st raw → only_cycle m c →
  raw = [] ∨ ∃ r, raw = [r] ∧ is_rotation c r.
Proof.
  intros HI [Hc Hall].
  destruct raw as [|r1 [|r2 raw]]; [by left|..].
  - right. exists r1. split; [done|].
    apply Hall, (inv_sound _ _ _ _ _ HI). by left.
  - exfalso. apply (inv_distinct _ _ _ _ _ HI [r1] r2 raw eq_refl r1); [by left|].
    assert (is_rotation c r1) as H1.
    { apply Hall, (inv_sound _ _ _ _ _ HI). by left. }
    assert (is_rotation c r2) as H2.
    { apply Hall, (inv_sound _ _ _ _ _ HI). right. by left. }
    intros z. by rewrite (is_rotation_members _ _ z H1),
      (is_rotation_members _ _ z H2).
Qed.

Lemma detect_acyclic :
  acyclic m → detectCircularDependencies m names = Some [].
Proof.
  intros Hacyc. destruct detect_total as [res Hres]. rewrite Hres.
  unfold detectCircularDependencies in Hres.
  destruct (forOf _ _ _) as [st'|] eqn:Hrun; [|done].
  simpl in Hres. injection Hres as <-.
  apply (toplevel_spec _ _ _ []) in Hrun as (new & vnew & HI & _);
    [|apply Inv_init].
  rewrite (inv_out _ _ _ _ _ HI). simpl. destruct new as [|r new]; [done|].
  exfalso. apply (Hacyc r), (inv_sound _ _ _ _ _ HI). by left.
Qed.

Lemma detect_only_cycle c :
  only_cycle m c →
  ∃ r, is_rotation c r ∧
       detectCircularDependencies m names = Some [mkCycle names r].
Proof.
  intros Honly. pose proof Honly as [Hc Hall].
  destruct detect_total as [res Hres]. rewrite Hres.
  unfold detectCircularDependencies in Hres.
  destruct (forOf _ _ _) as [st'|] eqn:Hrun; [|done].
  simpl in Hres. injection Hres as <-.
  apply (toplevel_spec _ _ _ []) in Hrun as (new & vnew & HI & _ & Hkeys);
    [|apply Inv_init].
  simpl in HI.
  assert (∃ x, x ∈ c) as [x Hx].
  { destruct Hc as [Hne _]. destruct c as [|x ?]; [done|]. exists x. by left. }
  assert (x ∈ visited st') as Hv.
  { destruct (cycle_member_edge c x Hc Hx) as (y & _ & He).
    by eapply Hkeys, edge_key. }
  destruct (cycle_reported _ _ _ _ HI Hc Hx Hv) as [r0 Hr0].
  destruct (only_cycle_single _ _ _ _ HI Honly) as [->|(r & -> & Hrot)];
    [by apply elem_of_nil in Hr0|].
  exists r. split; [done|]. by rewrite (inv_out _ _ _ _ _ HI).
Qed.

(** When the traversal starts at the first member of the cycle, the
    record lists the cycle from there. *)
Lemma detect_only_cycle_head c :
  only_cycle m c → head (map_keys m) = head c →
  detectCircularDependencies m names = Some [mkCycle names c].
Proof.
  intros Honly Hhead. pose proof Honly as [Hc Hall].
  destruct detect_total as [res Hres]. rewrite Hres.
  unfold detectCircularDependencies in Hres.
  set (fuel := S _) in Hres. clearbody fuel.
  destruct (forOf _ _ _) as [st'|] eqn:Hrun; [|done].
  simpl in Hres. injection Hres as <-.
  destruct c as [|k c'] eqn:Ec; [by destruct Hc|]. rewrite <-Ec in *.
  assert (head c = Some k) as Hck by (by rewrite Ec).
  assert (k ∈ c) as Hk by (rewrite Ec; by left).
  rewrite Hck in Hhead.
  destruct (map_keys m) as [|k' keys]; [done|].
  simpl in Hhead. injection Hhead as ->. simpl in Hrun.
  destruct (dfs m names fuel k [] initialState) as [st1|] eqn:Hk1; [|done].
  apply (toplevel_call _ _ _ []) in Hk1 as (new1 & vnew1 & HI1 & _ & Hkv & Hext);
    [|apply Inv_init].
  simpl in HI1.
  destruct (cycle_reported _ _ _ _ HI1 Hc Hk Hkv) as [r1 Hr1].
  apply (toplevel_spec _ _ _ new1) in Hrun as (new2 & vnew2 & HI2 & _);
    [|done].
  rewrite (inv_out _ _ _ _ _ HI2).
  destruct (only_cycle_single _ _ _ _ HI2 Honly) as [Heq|(r & Heq & Hrot)].
  { apply app_eq_nil in Heq as [-> _]. by apply elem_of_nil in Hr1. }
  rewrite Heq. simpl. do 3 f_equal.
  apply is_rotation_same_head; [by destruct Hc as (_ & ? & _)|done|].
  rewrite Hck.
  assert (r ∈ new1) as Hr.
  { destruct new1 as [|a new1]; [by apply elem_of_nil in Hr1|].
    simpl in Heq. injection Heq as -> _. by left. }
  destruct (Hext r Hr) as (ext & [pre ->] & Hnd & [Hnil|Hh]).
  { apply app_eq_nil in Hnil as [_ ->].
    apply (is_rotation_members _ _ k Hrot) in Hk. by apply elem_of_nil in Hk. }
  destruct pre as [|a pre]; [done|]. exfalso.
  simpl in Hh. injection Hh as ->.
  apply NoDup_cons in Hnd as [Hnd _]. apply Hnd.
  apply elem_of_app. right. by apply (is_rotation_members c r).
Qed.

End WithMap.
End DfsFacts.

(** ** The cycle detector: reported cycles *)
Module CycleDetector.
Import Js JsFacts Dependency Graph GraphFacts DfsFacts.

Lemma rotations_3 (A B C : string) r :
  is_rotation [A; B; C] r → r ∈ [[A; B; C]; [B; C; A]; [C; A; B]].
Proof.
  intros (l1 & l2 & Heq & ->).
  destruct l1 as [|a [|b [|c [|d l1]]]]; simplify_eq/=; set_solver.
Qed.

Lemma rotations_2 (A B : string) r :
  is_rotation [A; B] r → r ∈ [[A; B]; [B; A]].
Proof.
  intros (l1 & l2 & Heq & ->).
  destruct l1 as [|a [|b [|c l1]]]; simplify_eq/=; set_solver.
Qed.

Lemma detect_records m names res :
  sets_ok m → detectCircularDependencies m names = Some res →
  ∃ raw, res = mkCycle names <$> raw.
Proof.
  intros Hsets Hres. unfold detectCircularDependencies in Hres.
  destruct (forOf _ _ _) as [st'|] eqn:Hrun; [|done].
  simpl in Hres. injection Hres as <-.
  apply (toplevel_spec m names Hsets _ _ _ []) in Hrun as (new & _ & HI & _);
    [|apply Inv_init].
  exists new. apply (inv_out _ _ _ _ _ HI).
Qed.

Lemma example_edges x y :
  edge Examples.cycleMap x y →
  (x = "/src/a.ts" ∧ y = "/src/b.ts") ∨ (x = "/src/b.ts" ∧ y = "/src/c.ts") ∨
  (x = "/src/c.ts" ∧ y = "/src/a.ts").
Proof.
  unfold edge, dependenciesOf, Examples.cycleMap. simpl.
  repeat case_bool_decide; simpl; set_solver.
Qed.

Lemma example_only_cycle :
  only_cycle Examples.cycleMap ["/src/a.ts"; "/src/b.ts"; "/src/c.ts"].
Proof.
  split.
  - split; [done|]. split; [by apply (bool_decide_unpack _)|]. split.
    + intros [|[|[|i]]] x y Hx Hy; simplify_eq/=;
        unfold edge, dependenciesOf; by apply (bool_decide_unpack _).
    + intros x y Hx Hy. simplify_eq/=.
      unfold edge, dependenciesOf. by apply (bool_decide_unpack _).
  - intros r (Hne & Hnd & Hw & Hc).
    destruct r as [|x0 [|x1 [|x2 [|x3 r]]]]; [done|..].
    + specialize (Hc x0 x0 eq_refl eq_refl).
      apply example_edges in Hc. naive_solver.
    + pose proof (Hw 0%nat x0 x1 eq_refl eq_refl) as H0.
      specialize (Hc x1 x0 eq_refl eq_refl).
      apply example_edges in H0, Hc. naive_solver.
    + pose proof (Hw 0%nat x0 x1 eq_refl eq_refl) as H0.
      pose proof (Hw 1%nat x1 x2 eq_refl eq_refl) as H1.
      apply example_edges in H0, H1.
      destruct H0 as [[-> ->]|[[-> ->]|[-> ->]]];
        destruct H1 as [[? ->]|[[? ->]|[? ->]]]; try done.
      * by exists [], ["/src/a.ts"; "/src/b.ts"; "/src/c.ts"].
      * by exists ["/src/a.ts"], ["/src/b.ts"; "/src/c.ts"].
      * by exists ["/src/a.ts"; "/src/b.ts"], ["/src/c.ts"].
    + exfalso.
      pose proof (Hw 0%nat x0 x1 eq_refl eq_refl) as H0.
      pose proof (Hw 1%nat x1 x2 eq_refl eq_refl) as H1.
      pose proof (Hw 2%nat x2 x3 eq_refl eq_refl) as H2.
      apply example_edges in H0, H1, H2.
      apply NoDup_cons in Hnd as [Hnd _]. apply Hnd.
      destruct H0 as [[-> ->]|[[-> ->]|[-> ->]]];
        destruct H1 as [[? ->]|[[? ->]|[? ->]]]; try done;
        destruct H2 as [[? ->]|[[? ->]|[? ->]]]; try done; set_solver.
Qed.

Lemma example_sets_ok : sets_ok Examples.cycleMap.
Proof. by apply (bool_decide_unpack _). Qed.

(** On the example map, whose only cycle is
    a.ts -> b.ts -> c.ts -> a.ts and whose first key is b.ts, the single
    record lists the cycle from b.ts. *)
Lemma example_cycle_record :
  detectCircularDependencies Examples.cycleMap Examples.cycleNames =
    Some [{| cd_path := ["b.ts"; "c.ts"; "a.ts"]; cd_severity := warning |}].
Proof. by vm_compute. Qed.

(** C1. On a dependency map whose values are sets:
    - a map without cycle yields the empty list;
    - a map whose only cycle is A -> B -> C -> A yields exactly one record,
      of severity [warning], whose path is the labels of the three members
      in import order: the cycle read from one of its members, which is A
      when A is the first key of the map (a cycle has no first member of
      its own: A -> B -> C -> A is also B -> C -> A -> B);
    - a map whose only cycle is A -> B -> A yields exactly one record, of
      severity [warning];
    - every record returned has severity [critical] when its path has more
      than 3 members and [warning] otherwise;
    - the detector always returns. *)
Theorem C1_cycle_detector m names :
  sets_ok m →
  (acyclic m → detectCircularDependencies m names = Some []) ∧
  (∀ A B C, only_cycle m [A; B; C] →
     ∃ r, r ∈ [[A; B; C]; [B; C; A]; [C; A; B]] ∧
          detectCircularDependencies m names =
            Some [{| cd_path := moduleName names <$> r;
                     cd_severity := warning |}] ∧
          (head (map_keys m) = Some A → r = [A; B; C])) ∧
  (∀ A B, only_cycle m [A; B] →
     ∃ r, r ∈ [[A; B]; [B; A]] ∧
          detectCircularDependencies m names =
            Some [{| cd_path := moduleName names <$> r;
                     cd_severity := warning |}]) ∧
  (∀ res rec, detectCircularDependencies m names = Some res → rec ∈ res →
     ((3 < length (cd_path rec))%nat → cd_severity rec = critical) ∧
     ((length (cd_path rec) ≤ 3)%nat → cd_severity rec = warning)) ∧
  (∃ res, detectCircularDependencies m names = Some res).
Proof.
  intros Hsets. split; [by apply detect_acyclic|]. split; [|split; [|split]].
  - intros A B C Honly.
    destruct (decide (head (map_keys m) = Some A)) as [Hhead|Hhead].
    + exists [A; B; C]. split; [by left|]. split; [|done].
      by rewrite (detect_only_cycle_head m names Hsets _ Honly Hhead).
    + destruct (detect_only_cycle m names Hsets _ Honly) as (r & Hrot & Hres).
      assert (r ∈ [[A; B; C]; [B; C; A]; [C; A; B]]) as Hr
        by by apply rotations_3.
      exists r. split; [done|]. split; [|done].
      rewrite Hres. unfold mkCycle, severityOf. do 3 f_equal.
      rewrite length_fmap.
      repeat (apply elem_of_cons in Hr as [->|Hr]); try done.
      by apply elem_of_nil in Hr.
  - intros A B Honly.
    destruct (detect_only_cycle m names Hsets _ Honly) as (r & Hrot & Hres).
    exists r. assert (r ∈ [[A; B]; [B; A]]) as Hr by by apply rotations_2.
    split; [done|]. rewrite Hres. unfold mkCycle, severityOf. do 3 f_equal.
    rewrite length_fmap.
    repeat (apply elem_of_cons in Hr as [->|Hr]); try done.
    by apply elem_of_nil in Hr.
  - intros res rec Hres Hrec.
    destruct (detect_records m names res Hsets Hres) as [raw ->].
    apply list_elem_of_fmap in Hrec as (r & -> & _).
    unfold mkCycle, severityOf. simpl.
    destruct (3 <? _)%nat eqn:E.
    + apply Nat.ltb_lt in E. split; [done|lia].
    + apply Nat.ltb_ge in E. split; [lia|done].
  - apply detect_total.
Qed.

Lemma C1_cycle_detector_witness :
  ∃ r, r ∈ [["/src/a.ts"; "/src/b.ts"; "/src/c.ts"];
            ["/src/b.ts"; "/src/c.ts"; "/src/a.ts"];
            ["/src/c.ts"; "/src/a.ts"; "/src/b.ts"]] ∧
       detectCircularDependencies Examples.cycleMap Examples.cycleNames =
         Some [{| cd_path := moduleName Examples.cycleNames <$> r;
                  cd_severity := warning |}] ∧
       (head (map_keys Examples.cycleMap) = Some "/src/a.ts" →
        r = ["/src/a.ts"; "/src/b.ts"; "/src/c.ts"]).
Proof.
  apply (C1_cycle_detector Examples.cycleMap Examples.cycleNames).
  - apply (bool_decide_unpack _). vm_compute. exact I.
  - apply example_only_cycle.
Defined.

End CycleDetector.

(** ** Import resolution *)
Module ImportResolution.
Import Js JsFacts Dependency.

Section WithPath.
Variable path : PathModule.

Lemma collectImport_elem filePath spec acc p :
  p ∈ collectImport path filePath spec acc →
  p ∈ acc ∨
  (isLocalImport spec = true ∧ resolveImportPath path filePath spec = Some p).
Proof.
  unfold collectImport. destruct (isLocalImport spec); simpl; [|by left].
  destruct (resolveImportPath path filePath spec) as [q|]; [|by left].
  destruct (truthy q); [|by left].
  intros [->|H]%elem_of_add; [by right|by left].
Qed.

Lemma collectImports_elem filePath specs p :
  p ∈ collectImports path filePath specs →
  ∃ spec, spec ∈ specs ∧ isLocalImport spec = true ∧
          resolveImportPath path filePath spec = Some p.
Proof.
  unfold collectImports.
  assert (∀ acc, p ∈ fold_left (λ acc importPath,
                      collectImport path filePath importPath acc) specs acc →
            p ∈ acc ∨ ∃ spec, spec ∈ specs ∧ isLocalImport spec = true ∧
              resolveImportPath path filePath spec = Some p) as H.
  { induction specs as [|s specs IH]; intros acc Hp; simpl in Hp; [by left|].
    apply IH in Hp as [Hp|(spec & ? & ?)].
    - apply collectImport_elem in Hp as [?|[? ?]]; [by left|].
      right. exists s. split; [by left|done].
    - right. exists spec. split; [by right|done]. }
  intros Hp. apply H in Hp as [Hp|?]; [by apply elem_of_nil in Hp|done].
Qed.

End WithPath.

(** C9. [resolveImportPath] resolves the specifier against the directory
    of the importing file; when the resolved path has no extension it
    returns the first candidate of the sequence (the path with each of
    '.ts', '.tsx', '.js', '.jsx' appended, then the index files), that is
    the path with '.ts' appended, and otherwise the resolved path itself.
    It takes no file system: nothing that exists or not can change its
    result.  An import that does not start with '.' or '/' leaves the set
    of resolved imports unchanged, and every member of that set is the
    resolution of a local import. *)
Theorem C9_resolveImportPath (path : PathModule) (sourcePath importPath : string) :
  let resolvedPath := resolve path (dirname path sourcePath) importPath in
  resolveImportPath path sourcePath importPath =
    (if truthy (extname path resolvedPath) then Some resolvedPath
     else head (candidates path resolvedPath)) ∧
  head (candidates path resolvedPath) = Some (resolvedPath +:+ ".ts") ∧
  (∀ importPaths, isLocalImport importPath = false →
     collectImport path sourcePath importPath importPaths = importPaths) ∧
  (∀ specs p, p ∈ collectImports path sourcePath specs →
     ∃ spec, spec ∈ specs ∧ isLocalImport spec = true ∧
             resolveImportPath path sourcePath spec = Some p).
Proof.
  simpl. split; [|split; [done|split]].
  - unfold resolveImportPath. by destruct (truthy _).
  - intros acc H. unfold collectImport. by rewrite H.
  - apply collectImports_elem.
Qed.

End ImportResolution.

(** ** Induction on syntax trees *)
Module AstFacts.
Import Ast.

Lemma Node_ind' (P : Node → Prop) :
  (∀ n,
     (∀ k, match prop n k with
           | One c => P c
           | Arr l => Forall P l
           | _ => True
           end) →
     (∀ k, Forall P (arr n k)) → P n) →
  ∀ n, P n.
Proof.
  intros H. fix IH 1. intros [ty lo pa pr ar]. apply H; simpl.
  - intros k. destruct (pr k) as [| |c|l]; [done|done|apply IH|].
    induction l as [|c l IHl]; constructor; [apply IH|apply IHl].
  - intros k. induction (ar k) as [|c l IHl]; constructor; [apply IH|apply IHl].
Qed.

End AstFacts.

(** ** SOLID detectors *)
Module SolidFacts.
Import Js JsFacts Ast AstFacts Files Parser Solid.

(** *** Counting walks visit every reached node once *)
Section Counting.
Variable traverse : Node → nat → nat.
Variable count : Node → nat.

Local Abbreviation counts :=
  (λ n : Node, ∀ c : nat, traverse n c = (c + count n)%nat).

Lemma visit_count v c :
  match v with One x => counts x | Arr l => Forall counts l
          | _ => True end →
  visit traverse v c =
  (c + match v with One x => count x | _ => 0 end)%nat.
Proof. destruct v; simpl; intros H; rewrite ?H. all: lia. Qed.

Lemma visitEach_count l c :
  Forall counts l →
  visitEach traverse l c = (c + sum_list_with count l)%nat.
Proof.
  unfold visitEach. revert c.
  induction l as [|x l IH]; intros c Hl; simpl; [lia|].
  apply Forall_cons in Hl as [Hx Hl]. rewrite IH, Hx by done. lia.
Qed.

Lemma visitBody_count v c :
  match v with One x => counts x | Arr l => Forall counts l
          | _ => True end →
  visitBody traverse v c =
  (c + match v with One x => count x | Arr l => sum_list_with count l
               | _ => 0 end)%nat.
Proof.
  destruct v; simpl; intros H; rewrite ?H; try lia.
  by apply visitEach_count.
Qed.

End Counting.

Lemma count_flat_map (P : Node → bool) (f : Node → list Node) l :
  length (filter (λ x, P x = true) (flat_map f l)) =
  sum_list_with (λ x, length (filter (λ x, P x = true) (f x))) l.
Proof.
  induction l as [|x l IH]; simpl; [done|].
  by rewrite filter_app, length_app, IH.
Qed.

Lemma count_one (P : Node → bool) (f : Node → list Node) (v : Prop_ Node) :
  length (filter (λ x, P x = true)
            (match v with One c => f c | _ => [] end)) =
  match v with
  | One c => length (filter (λ x, P x = true) (f c))
  | _ => 0%nat
  end.
Proof. by destruct v. Qed.

Lemma count_body (P : Node → bool) (f : Node → list Node) (v : Prop_ Node) :
  length (filter (λ x, P x = true)
            (match v with
             | One c => f c
             | Arr l => flat_map f l
             | _ => []
             end)) =
  match v with
  | One c => length (filter (λ x, P x = true) (f c))
  | Arr l => sum_list_with (λ x, length (filter (λ x, P x = true) (f x))) l
  | _ => 0%nat
  end.
Proof. destruct v; try done. apply count_flat_map. Qed.

Local Ltac count_walk own cnt :=
  intros n; induction n as [n Hprop Harr] using Node_ind'; intros c;
  destruct n as [ty lo pa pr ar];
  cbn [conditionals_traverse hardcoded_traverse reached flat_map
       conditionalFields hardcodedFields prop arr app];
  cbn [prop arr] in Hprop, Harr;
  repeat first
    [ rewrite (visitEach_count _ cnt) by apply Harr
    | rewrite (visitBody_count _ cnt) by apply Hprop
    | rewrite (visit_count _ cnt) by apply Hprop ];
  rewrite filter_cons;
  match goal with
  | |- context [own ?nd] => destruct (own nd) eqn:E
  end;
  [ rewrite decide_True by done | rewrite decide_False by done ];
  cbn [length];
  rewrite ?filter_app, ?length_app, ?app_nil_r, ?count_flat_map, ?count_one,
    ?count_body;
  rewrite ?filter_nil; cbn [length]; cbv beta; lia.

Lemma conditionals_traverse_count : ∀ n c,
  conditionals_traverse n c =
  (c + length (filter (λ x, isConditional x = true)
                 (reached conditionalFields n)))%nat.
Proof.
  count_walk isConditional
    (λ n, length (filter (λ x, isConditional x = true)
                    (reached conditionalFields n))).
Qed.

Lemma hardcoded_traverse_count : ∀ n c,
  hardcoded_traverse n c =
  (c + length (filter (λ x, isHardcoded x = true)
                 (reached hardcodedFields n)))%nat.
Proof.
  count_walk isHardcoded
    (λ n, length (filter (λ x, isHardcoded x = true)
                    (reached hardcodedFields n))).
Qed.

(** *** Size of a component *)

Lemma getComponentSize_usable c :
  getComponentSize c =
  match usableLoc c with
  | Some l => (end_line l - start_line l + 1)%Z
  | None => 50%Z
  end.
Proof.
  unfold getComponentSize, usableLoc, lines.
  destruct (typeIn c _) eqn:Efn.
  - destruct (loc c); [done|].
    apply bool_decide_eq_true in Efn.
    assert (typeIs c "ClassDeclaration" = false) as ->.
    { apply bool_decide_eq_false. intros E. rewrite E in Efn. set_solver. }
    assert (typeIs c "VariableDeclarator" = false) as ->.
    { apply bool_decide_eq_false. intros E. rewrite E in Efn. set_solver. }
    done.
  - destruct (typeIs c "ClassDeclaration") eqn:Ecl.
    + destruct (locAt (prop c K.body)); [done|].
      apply bool_decide_eq_true in Ecl.
      assert (typeIs c "VariableDeclarator" = false) as ->; [|done].
      apply bool_decide_eq_false. by rewrite Ecl.
    + by destruct (typeIs c "VariableDeclarator"), (locAt (prop c K.init)).
Qed.

Lemma sizeIssues_critical file c :
  (∃ i, i ∈ sizeIssues file c ∧ severity i = critical) ↔
  (200 < getComponentSize c)%Z.
Proof.
  unfold sizeIssues. destruct (200 <? _)%Z eqn:E1.
  - apply Z.ltb_lt in E1. split; [done|]. intros _.
    eexists. split; [by left|done].
  - apply Z.ltb_ge in E1. split; [|lia].
    destruct (100 <? _)%Z; intros (i & Hi & Hs).
    + apply list_elem_of_singleton in Hi. by subst.
    + by apply elem_of_nil in Hi.
Qed.

Lemma sizeIssues_warning file c :
  (∃ i, i ∈ sizeIssues file c ∧ severity i = warning) ↔
  (100 < getComponentSize c ≤ 200)%Z.
Proof.
  unfold sizeIssues. destruct (200 <? _)%Z eqn:E1.
  - apply Z.ltb_lt in E1. split; [|lia]. intros (i & Hi & Hs).
    apply list_elem_of_singleton in Hi. by subst.
  - apply Z.ltb_ge in E1. destruct (100 <? _)%Z eqn:E2.
    + apply Z.ltb_lt in E2. split; [lia|]. intros _.
      eexists. split; [by left|done].
    + apply Z.ltb_ge in E2. split; [|lia]. intros (i & Hi & _).
      by apply elem_of_nil in Hi.
Qed.

Lemma mixedConcernsIssues_warning file c i :
  i ∈ mixedConcernsIssues file c → severity i = warning.
Proof.
  unfold mixedConcernsIssues. destruct (hasMixedConcerns c); intros Hi.
  - apply list_elem_of_singleton in Hi. by subst.
  - by apply elem_of_nil in Hi.
Qed.

(** C3, as stated, fails: the component of the example spans lines 1 to
    201, so
    that end line minus start line is 200, which does not exceed 200, and
    yet the detector reports it as [critical]. *)
Lemma C3_counterexample :
  usableLoc Examples.component201 =
    Some {| start_line := 1; end_line := 201 |} ∧
  ¬ (200 < 201 - 1)%Z ∧
  ∃ i, i ∈ analyzeSRP Examples.bigFile [Examples.component201] ∧
       severity i = critical.
Proof.
  split; [done|]. split; [lia|]. apply Exists_exists.
  apply (bool_decide_unpack _). by vm_compute.
Qed.

(** C3 (amended). The size estimate of a component is end line minus
    start line plus one, read from the location that the estimate uses.
    The SRP detector emits an issue of severity [critical] exactly when
    that size exceeds 200, and its size check emits an issue of severity
    [warning] exactly when the size exceeds 100 but not 200 (the separate
    mixed-concerns check may add a [warning] at any size).  A function
    declaration of 250 lines yields exactly one issue of severity
    [critical]. *)
Theorem C3_srp_size (file : FileNode) (c : Node) :
  (∀ l, usableLoc c = Some l →
        getComponentSize c = (end_line l - start_line l + 1)%Z) ∧
  ((∃ i, i ∈ analyzeSRP file [c] ∧ severity i = critical) ↔
   (200 < getComponentSize c)%Z) ∧
  ((∃ i, i ∈ sizeIssues file c ∧ severity i = warning) ↔
   (100 < getComponentSize c ≤ 200)%Z) ∧
  (∀ l, type c = "FunctionDeclaration" → loc c = Some l →
        (end_line l - start_line l + 1 = 250)%Z →
        length (filter (λ i, severity i = critical) (analyzeSRP file [c]))
        = 1%nat).
Proof.
  split; [|split; [|split]].
  - intros l Hl. by rewrite getComponentSize_usable, Hl.
  - unfold analyzeSRP. simpl. rewrite app_nil_r. unfold srpIssues.
    rewrite <-sizeIssues_critical. split.
    + intros (i & [Hi|Hi]%elem_of_app & Hs); [by exists i|].
      apply mixedConcernsIssues_warning in Hi. congruence.
    + intros (i & Hi & Hs). exists i. split; [set_solver|done].
  - apply sizeIssues_warning.
  - intros l Hty Hloc Hlen.
    assert (getComponentSize c = 250%Z) as Hsize.
    { rewrite getComponentSize_usable. unfold usableLoc, typeIn.
      rewrite Hty. rewrite bool_decide_eq_true_2 by set_solver.
      by rewrite Hloc. }
    unfold analyzeSRP. simpl. rewrite app_nil_r. unfold srpIssues.
    rewrite filter_app. rewrite length_app.
    replace (filter _ (mixedConcernsIssues file c)) with (@nil SolidIssue).
    2:{ unfold mixedConcernsIssues. by destruct (hasMixedConcerns c). }
    unfold sizeIssues. rewrite Hsize. done.
Qed.

(** C10. A component without usable location (no [loc] on the function,
    on the class body, or on the initializer of the variable) has the
    default size 50, and the size check of the SRP detector emits nothing
    for it. *)
Theorem C10_default_size (file : FileNode) (c : Node) :
  usableLoc c = None →
  getComponentSize c = 50%Z ∧ sizeIssues file c = [] ∧
  (∀ i, i ∈ analyzeSRP file [c] → i ∈ mixedConcernsIssues file c).
Proof.
  intros H.
  assert (getComponentSize c = 50%Z) as Hsize
    by by rewrite getComponentSize_usable, H.
  split; [done|].
  assert (sizeIssues file c = []) as Hno
    by (unfold sizeIssues; by rewrite Hsize).
  split; [done|].
  unfold analyzeSRP, srpIssues. simpl. rewrite Hno, app_nil_r. done.
Qed.

Lemma C10_default_size_witness :
  getComponentSize Examples.componentNoLoc = 50%Z ∧
  sizeIssues Examples.bigFile Examples.componentNoLoc = [] ∧
  (∀ i, i ∈ analyzeSRP Examples.bigFile [Examples.componentNoLoc] →
        i ∈ mixedConcernsIssues Examples.bigFile Examples.componentNoLoc).
Proof.
  apply (C10_default_size Examples.bigFile Examples.componentNoLoc).
  reflexivity.
Defined.

(** *** Interfaces *)

Lemma hasUnrelatedProps_spec td :
  hasUnrelatedProps td = true ↔
  (5 < length (members td))%nat ∧ (2 ≤ significantBuckets td)%nat.
Proof.
  unfold hasUnrelatedProps, significantBuckets.
  destruct (length (members td) <=? 5)%nat eqn:E5.
  { apply Nat.leb_le in E5. split; [done|lia]. }
  apply Nat.leb_gt in E5.
  repeat rewrite filter_cons. rewrite filter_nil.
  repeat case_decide;
    repeat match goal with
    | H : (2 ≤ ?n)%nat |- _ => rewrite (proj2 (Nat.leb_le 2 n) H); clear H
    | H : ¬ (2 ≤ ?n)%nat |- _ => rewrite (proj2 (Nat.leb_nle 2 n) H); clear H
    end; cbn;
    (split; [intros ?; first [done|split; [done|lia]]
            |intros [_ ?]; first [done|lia]]).
Qed.

(** C7, as stated, fails: the interface of the example has two presentation
    members and two data members, hence two buckets of two members, yet
    with its four members it is not flagged. *)
Lemma C7_counterexample :
  typeIs Examples.cardProps "TSInterfaceDeclaration" = true ∧
  length (filter (λ p, keyIncludes uiPatterns p = true)
            (members Examples.cardProps)) = 2%nat ∧
  length (filter (λ p, keyIncludes dataPatterns p = true)
            (members Examples.cardProps)) = 2%nat ∧
  hasUnrelatedProps Examples.cardProps = false ∧
  analyzeISP Examples.bigFile [Examples.cardProps] = [].
Proof. by vm_compute. Qed.

(** C7 (amended). For an interface declaration, the ISP detector emits
    a [warning] exactly when the interface has more than 10 members, and
    separately an [info] exactly when the interface has more than 5
    members and at least 2 of the three naming buckets (presentation, data,
    event handler) hold at least 2 members each. *)
Theorem C7_isp (file : FileNode) (td : Node) :
  typeIs td "TSInterfaceDeclaration" = true →
  ((∃ i, i ∈ analyzeISP file [td] ∧ severity i = warning) ↔
   (10 < length (members td))%nat) ∧
  ((∃ i, i ∈ analyzeISP file [td] ∧ severity i = info) ↔
   (5 < length (members td))%nat ∧ (2 ≤ significantBuckets td)%nat).
Proof.
  intros Hty. unfold analyzeISP. simpl. rewrite app_nil_r.
  unfold ispIssues. rewrite Hty. rewrite <-hasUnrelatedProps_spec.
  destruct (10 <? _)%nat eqn:E10; destruct (hasUnrelatedProps td); simpl.
  - apply Nat.ltb_lt in E10. split; (split; [done|intros _]).
    + eexists. split; [by left|done].
    + eexists. split; [right; by left|done].
  - apply Nat.ltb_lt in E10. split; split; try done.
    + intros _. eexists. split; [by left|done].
    + intros (i & Hi & Hs). apply list_elem_of_singleton in Hi. by subst.
  - apply Nat.ltb_ge in E10. split; split; try done; try lia.
    + intros (i & Hi & Hs). apply list_elem_of_singleton in Hi. by subst.
    + intros _. eexists. split; [by left|done].
  - apply Nat.ltb_ge in E10. split; split; try done; try lia.
    all: intros (i & Hi & _); by apply elem_of_nil in Hi.
Qed.

Lemma C7_isp_witness :
  ((∃ i, i ∈ analyzeISP Examples.bigFile [Examples.wideCardProps] ∧
         severity i = warning) ↔
   (10 < length (members Examples.wideCardProps))%nat) ∧
  ((∃ i, i ∈ analyzeISP Examples.bigFile [Examples.wideCardProps] ∧
         severity i = info) ↔
   (5 < length (members Examples.wideCardProps))%nat ∧
   (2 ≤ significantBuckets Examples.wideCardProps)%nat).
Proof.
  apply (C7_isp Examples.bigFile Examples.wideCardProps). reflexivity.
Defined.

(** *** Conditionals and literals *)

(** On a tree of the parser the literal check counts the array and
    object literals, whatever surrounds them, and nothing else. *)
Lemma isHardcoded_fromParser n :
  fromParser n = true →
  isHardcoded n = bool_decide (type n ∈ ["ArrayExpression"; "ObjectExpression"]).
Proof.
  unfold fromParser, isHardcoded, isLiteral, isInImportExport,
    isInVariableDeclaration, typeIn.
  intros [Hp Ht]%andb_prop. apply bool_decide_eq_true in Hp.
  apply negb_true_iff, bool_decide_eq_false in Ht.
  rewrite Hp. simpl. rewrite !andb_true_r.
  apply bool_decide_ext. set_solver.
Qed.

Lemma hardcoded_fromParser (l : list Node) :
  Forall (λ n, fromParser n = true) l →
  filter (λ n, isHardcoded n = true) l =
  filter (λ n, type n ∈ ["ArrayExpression"; "ObjectExpression"]) l.
Proof.
  induction 1 as [|n l Hn Hl IH]; [done|].
  rewrite !filter_cons, IH, (isHardcoded_fromParser n Hn).
  destruct (decide (type n ∈ _)) as [Hin|Hout].
  - by rewrite bool_decide_eq_true_2, decide_True.
  - by rewrite bool_decide_eq_false_2, decide_False.
Qed.

(** C8. The check for conditionals does what is claimed: a component is
    flagged exactly when its walk visits more than 5 [if], [switch] or
    conditional-expression nodes.  The check for literal values does not:
    it asks for the types [StringLiteral] and [NumericLiteral] and reads
    [parent], which the trees of the parser do not have.  On such a tree a
    component is flagged exactly when its walk visits more than 3 array or
    object literals, in a variable declaration or not, and string and
    numeric literals never count: [Panel], with four string literals
    outside any declaration, is not flagged, and [Table], whose four array
    literals are inside a variable declaration, is. *)
Theorem C8_literals_not_counted :
  (∀ file c,
     (∃ i, i ∈ conditionalIssues file c) ↔
     (5 < length (filter (λ n, type n ∈ ["IfStatement"; "SwitchStatement";
                                         "ConditionalExpression"])
                    (reached conditionalFields c)))%nat) ∧
  (∀ file c,
     Forall (λ n, fromParser n = true) (reached hardcodedFields c) →
     (∃ i, i ∈ hardcodedIssues file c) ↔
     (3 < length (filter (λ n, type n ∈ ["ArrayExpression";
                                         "ObjectExpression"])
                    (reached hardcodedFields c)))%nat) ∧
  (looksLikeComponent Examples.panelWithStrings = true ∧
   Forall (λ n, fromParser n = true)
     (simpleTraverse Examples.panelWithStrings) ∧
   length (filter (λ n, type n = "Literal")
             (reached hardcodedFields Examples.panelWithStrings)) = 4%nat ∧
   analyzeOCP Examples.bigFile [Examples.panelWithStrings] [] = []) ∧
  (looksLikeComponent Examples.tableWithRows = true ∧
   Forall (λ n, fromParser n = true) (simpleTraverse Examples.tableWithRows) ∧
   length (filter (λ n, type n ∈ ["ArrayExpression"; "ObjectExpression"])
             (reached hardcodedFields Examples.tableWithRows)) = 4%nat ∧
   ∃ i, analyzeOCP Examples.bigFile [Examples.tableWithRows] [] = [i] ∧
        principle i = OCP ∧ severity i = info).
Proof.
  split; [|split; [|split]].
  - intros file c.
    unfold conditionalIssues, hasExcessiveConditionals, EXCESSIVE_THRESHOLD.
    rewrite conditionals_traverse_count. simpl.
    assert (filter (λ n, isConditional n = true) (reached conditionalFields c) =
            filter (λ n, type n ∈ ["IfStatement"; "SwitchStatement";
                                   "ConditionalExpression"])
              (reached conditionalFields c)) as ->.
    { apply list_filter_iff. intros n. unfold isConditional, typeIn.
      by rewrite bool_decide_eq_true. }
    destruct (5 <? _)%nat eqn:E.
    + apply Nat.ltb_lt in E. split; [done|]. intros _. eexists. by left.
    + apply Nat.ltb_ge in E. split; [|lia].
      intros (i & Hi). by apply elem_of_nil in Hi.
  - intros file c Hc.
    unfold hardcodedIssues, hasHardcodedValues, THRESHOLD.
    rewrite hardcoded_traverse_count, (hardcoded_fromParser _ Hc). simpl.
    destruct (3 <? _)%nat eqn:E.
    + apply Nat.ltb_lt in E. split; [done|]. intros _. eexists. by left.
    + apply Nat.ltb_ge in E. split; [|lia].
      intros (i & Hi). by apply elem_of_nil in Hi.
  - split; [by vm_compute|]. split; [|split; by vm_compute].
    apply Forall_forall. intros n Hn.
    vm_compute in Hn. repeat (apply elem_of_cons in Hn as [->|Hn]; [done|]).
    by apply elem_of_nil in Hn.
  - split; [by vm_compute|]. split; [|split; [by vm_compute|]].
    + apply Forall_forall. intros n Hn.
      vm_compute in Hn. repeat (apply elem_of_cons in Hn as [->|Hn]; [done|]).
      by apply elem_of_nil in Hn.
    + eexists. split; [by vm_compute|]. by split.
Qed.

End SolidFacts.



(** ** Numbers: rounding and order *)
Module NumberFacts.
Import Number.

(** *** Mantissas and exponents as rational numbers *)

Lemma two_pow_pos e : (0 < 2 ^ e)%Q.
Proof. by apply Qpower_0_lt. Qed.

Lemma two_pow_add a b : (2 ^ (a + b) == 2 ^ a * 2 ^ b)%Q.
Proof. by apply Qpower_plus. Qed.

Lemma two_pow_Z k : (0 ≤ k)%Z → (inject_Z (2 ^ k) == 2 ^ k)%Q.
Proof. intros Hk. by rewrite Zpower_Qpower. Qed.

(** Moving a power of two from the mantissa to the exponent. *)
Lemma dyadic_shift m e k : (0 ≤ k)%Z → (dyadic (m * 2 ^ k) e == dyadic m (e + k))%Q.
Proof.
  intros Hk. unfold dyadic.
  rewrite inject_Z_mult, two_pow_Z, (Z.add_comm e k), two_pow_add by done.
  ring.
Qed.

Lemma dyadic_le m1 m2 e : (dyadic m1 e <= dyadic m2 e)%Q ↔ (m1 ≤ m2)%Z.
Proof.
  unfold dyadic. rewrite Qmult_le_r by apply two_pow_pos. by rewrite <-Zle_Qle.
Qed.

Lemma dyadic_lt m1 m2 e : (dyadic m1 e < dyadic m2 e)%Q ↔ (m1 < m2)%Z.
Proof.
  unfold dyadic. rewrite Qmult_lt_r by apply two_pow_pos. by rewrite <-Zlt_Qlt.
Qed.

(** Comparison across exponents, the smaller exponent on the left. *)
Lemma dyadic_le_l m1 e1 m2 e2 :
  (e1 ≤ e2)%Z → (dyadic m1 e1 <= dyadic m2 e2)%Q ↔ (m1 ≤ m2 * 2 ^ (e2 - e1))%Z.
Proof.
  intros He. rewrite <-(dyadic_le _ _ e1), dyadic_shift by lia.
  by replace (e1 + (e2 - e1))%Z with e2 by lia.
Qed.

Lemma dyadic_lt_l m1 e1 m2 e2 :
  (e1 ≤ e2)%Z → (dyadic m1 e1 < dyadic m2 e2)%Q ↔ (m1 < m2 * 2 ^ (e2 - e1))%Z.
Proof.
  intros He. rewrite <-(dyadic_lt _ _ e1), dyadic_shift by lia.
  by replace (e1 + (e2 - e1))%Z with e2 by lia.
Qed.

Lemma dyadic_le_r m1 e1 m2 e2 :
  (e2 ≤ e1)%Z → (dyadic m1 e1 <= dyadic m2 e2)%Q ↔ (m1 * 2 ^ (e1 - e2) ≤ m2)%Z.
Proof.
  intros He. rewrite <-(dyadic_le _ _ e2), dyadic_shift by lia.
  by replace (e2 + (e1 - e2))%Z with e1 by lia.
Qed.

Lemma dyadic_lt_r m1 e1 m2 e2 :
  (e2 ≤ e1)%Z → (dyadic m1 e1 < dyadic m2 e2)%Q ↔ (m1 * 2 ^ (e1 - e2) < m2)%Z.
Proof.
  intros He. rewrite <-(dyadic_lt _ _ e2), dyadic_shift by lia.
  by replace (e2 + (e1 - e2))%Z with e1 by lia.
Qed.

Lemma dyadic_add m1 m2 e : (dyadic (m1 + m2) e == dyadic m1 e + dyadic m2 e)%Q.
Proof. unfold dyadic. rewrite inject_Z_plus. ring. Qed.

Lemma dyadic_nonneg m e : (0 ≤ m)%Z → (0 <= dyadic m e)%Q.
Proof.
  intros Hm. unfold dyadic. apply Qmult_le_0_compat.
  - by rewrite <-(Zle_Qle 0).
  - apply Qlt_le_weak, two_pow_pos.
Qed.

(** *** Number of binary digits *)

Lemma digits2_pos_bounds p :
  (2 ^ (Z.pos (digits2_pos p) - 1) ≤ Z.pos p < 2 ^ Z.pos (digits2_pos p))%Z.
Proof.
  induction p as [p IH|p IH|]; simpl; [| |done].
  - rewrite Pos2Z.inj_succ.
    replace (Z.succ (Z.pos (digits2_pos p)) - 1)%Z
      with (Z.succ (Z.pos (digits2_pos p) - 1)) by lia.
    rewrite !Z.pow_succ_r by lia. lia.
  - rewrite Pos2Z.inj_succ.
    replace (Z.succ (Z.pos (digits2_pos p)) - 1)%Z
      with (Z.succ (Z.pos (digits2_pos p) - 1)) by lia.
    rewrite !Z.pow_succ_r by lia. lia.
Qed.

Lemma Zdigits2_bounds m :
  (0 < m)%Z → (2 ^ (Zdigits2 m - 1) ≤ m < 2 ^ Zdigits2 m)%Z.
Proof. destruct m as [|p|p]; [lia| |lia]. intros _. apply digits2_pos_bounds. Qed.

Lemma Zdigits2_nonneg m : (0 ≤ Zdigits2 m)%Z.
Proof. destruct m; simpl; lia. Qed.

Lemma Zdigits2_pos m : (0 < m)%Z → (0 < Zdigits2 m)%Z.
Proof. destruct m; simpl; lia. Qed.

Lemma Zdigits2_unique m d :
  (2 ^ (d - 1) ≤ m < 2 ^ d)%Z → (0 < m)%Z → Zdigits2 m = d.
Proof.
  intros [H1 H2] Hm. pose proof (Zdigits2_bounds m Hm) as [H3 H4].
  pose proof (Zdigits2_pos m Hm).
  assert (0 < d)%Z.
  { destruct (Z.le_gt_cases d 0) as [H0|H0]; [|done].
    assert (2 ^ d ≤ 2 ^ 0)%Z by (apply Z.pow_le_mono_r; lia).
    simpl in *. lia. }
  destruct (Z.lt_trichotomy (Zdigits2 m) d) as [Hlt|[Heq|Hgt]]; [|done|].
  - assert (2 ^ Zdigits2 m ≤ 2 ^ (d - 1))%Z by (apply Z.pow_le_mono_r; lia).
    lia.
  - assert (2 ^ d ≤ 2 ^ (Zdigits2 m - 1))%Z by (apply Z.pow_le_mono_r; lia).
    lia.
Qed.

Lemma Zdigits2_mono m1 m2 :
  (0 < m1 ≤ m2)%Z → (Zdigits2 m1 ≤ Zdigits2 m2)%Z.
Proof.
  intros [H1 H2].
  pose proof (Zdigits2_bounds m1 H1) as [H3 _].
  pose proof (Zdigits2_bounds m2 ltac:(lia)) as [_ H4].
  destruct (Z.le_gt_cases (Zdigits2 m1) (Zdigits2 m2)) as [|Hgt]; [done|].
  assert (2 ^ Zdigits2 m2 ≤ 2 ^ (Zdigits2 m1 - 1))%Z
    by (apply Z.pow_le_mono_r; lia).
  lia.
Qed.

(** The digits left by a division by a power of two. *)
Lemma Zdigits2_div m k :
  (0 ≤ k)%Z → (0 < m / 2 ^ k)%Z → Zdigits2 (m / 2 ^ k) = (Zdigits2 m - k)%Z.
Proof.
  intros Hk Hq.
  assert (0 < 2 ^ k)%Z by (apply Z.pow_pos_nonneg; lia).
  assert (0 < m)%Z as Hm.
  { destruct (Z.le_gt_cases m 0) as [H0|H0]; [|done].
    assert (m / 2 ^ k ≤ 0 / 2 ^ k)%Z by (apply Z.div_le_mono; lia).
    rewrite Z.div_0_l in * by lia. lia. }
  pose proof (Zdigits2_bounds m Hm) as [H1 H2].
  assert (k < Zdigits2 m)%Z as Hkd.
  { destruct (Z.le_gt_cases (Zdigits2 m) k) as [Hle|]; [|done].
    assert (2 ^ Zdigits2 m ≤ 2 ^ k)%Z by (apply Z.pow_le_mono_r; lia).
    rewrite Z.div_small in Hq by lia. lia. }
  apply Zdigits2_unique; [|done]. split.
  - apply Z.div_le_lower_bound; [done|].
    rewrite <-Z.pow_add_r by lia.
    by replace (k + (Zdigits2 m - k - 1))%Z with (Zdigits2 m - 1)%Z by lia.
  - apply Z.div_lt_upper_bound; [done|].
    rewrite <-Z.pow_add_r by lia.
    by replace (k + (Zdigits2 m - k))%Z with (Zdigits2 m) by lia.
Qed.

Lemma fexp_mono a b : (a ≤ b)%Z → (fexp prec emax a ≤ fexp prec emax b)%Z.
Proof. unfold fexp. lia. Qed.

Lemma fexp_ge a : (-1074 ≤ fexp prec emax a)%Z.
Proof. unfold fexp, SpecFloat.emin, prec, emax. lia. Qed.

Lemma fexp_cases a :
  (fexp prec emax a = a - 53 ∧ -1074 ≤ a - 53)%Z ∨
  (fexp prec emax a = -1074 ∧ a - 53 ≤ -1074)%Z.
Proof. unfold fexp, SpecFloat.emin, prec, emax. lia. Qed.

(** *** Shifting a mantissa to the right *)

Lemma shifted_1 a : shifted 1 a (shr_1 a).
Proof.
  destruct a as [m r s]. intros Hm. simpl in Hm. unfold inexact.
  rewrite Z.pow_1_r.
  destruct m as [|[p|p|]|p]; simpl shr_1; cbn [shr_m shr_r shr_s]; [| | | |lia].
  - split; [done|]. intros H. left. by destruct r, s.
  - split.
    + apply Z.div_unique with 1%Z; lia.
    + intros _. right.
      rewrite <-(Z.mod_unique (Z.pos p~1) 2 (Z.pos p) 1); lia.
  - split.
    + apply Z.div_unique with 0%Z; lia.
    + intros H. left. by destruct r, s.
  - split; [done|]. intros _. by right.
Qed.

Lemma shifted_trans j k a b c :
  (0 ≤ j)%Z → (0 ≤ k)%Z → shifted j a b → shifted k b c → shifted (j + k) a c.
Proof.
  intros Hj Hk Hab Hbc Ha.
  assert (0 < 2 ^ j)%Z by (apply Z.pow_pos_nonneg; lia).
  assert (0 < 2 ^ k)%Z by (apply Z.pow_pos_nonneg; lia).
  destruct (Hab Ha) as [Hb1 Hb2].
  assert (0 ≤ shr_m b)%Z as Hb by (rewrite Hb1; apply Z.div_pos; lia).
  destruct (Hbc Hb) as [Hc1 Hc2].
  rewrite Z.pow_add_r by lia. split.
  - rewrite Hc1, Hb1. rewrite Z.div_div by lia. done.
  - intros Hc. destruct (Hc2 Hc) as [Hib|Hmod].
    + destruct (Hb2 Hib) as [Hia|Hmod]; [by left|]. right.
      intros Hz. apply Hmod.
      rewrite Z.rem_mul_r in Hz by lia.
      pose proof (Z.mod_pos_bound (shr_m a) (2 ^ j) ltac:(lia)).
      pose proof (Z.mod_pos_bound (shr_m a / 2 ^ j) (2 ^ k) ltac:(lia)).
      nia.
    + right. intros Hz. apply Hmod. rewrite Hb1.
      rewrite Z.rem_mul_r in Hz by lia.
      pose proof (Z.mod_pos_bound (shr_m a) (2 ^ j) ltac:(lia)).
      pose proof (Z.mod_pos_bound (shr_m a / 2 ^ j) (2 ^ k) ltac:(lia)).
      nia.
Qed.

Lemma shifted_iter p : ∀ a, shifted (Z.pos p) a (SpecFloat.iter_pos shr_1 p a).
Proof.
  induction p as [p IH|p IH|]; intros a; simpl.
  - replace (Z.pos p~1) with (1 + (Z.pos p + Z.pos p))%Z by lia.
    eapply shifted_trans; [lia|lia|apply shifted_1|].
    eapply shifted_trans; [lia|lia|apply IH|apply IH].
  - replace (Z.pos p~0) with (Z.pos p + Z.pos p)%Z by lia.
    eapply shifted_trans; [lia|lia|apply IH|apply IH].
  - apply shifted_1.
Qed.

(** The first step of a rounding: the mantissa is cut down to the
    exponent that its magnitude calls for. *)
Lemma shr_fexp_spec m e l :
  (0 ≤ m)%Z → (e ≤ fexp prec emax (Zdigits2 m + e))%Z →
  let k := (fexp prec emax (Zdigits2 m + e) - e)%Z in
  let out := shr_fexp prec emax m e l in
  out.2 = fexp prec emax (Zdigits2 m + e) ∧
  shr_m out.1 = (m / 2 ^ k)%Z ∧
  (inexact out.1 = true → l ≠ loc_Exact ∨ (m mod 2 ^ k ≠ 0)%Z).
Proof.
  intros Hm He k out. unfold out, shr_fexp, shr. fold k.
  assert (shr_m (shr_record_of_loc m l) = m) as Hrec
    by by destruct l as [|[]].
  assert (inexact (shr_record_of_loc m l) = true → l ≠ loc_Exact) as Hin
    by by destruct l as [|[]].
  destruct k as [|p|p] eqn:Hk; [|simpl|lia].
  - simpl. split; [lia|]. split; [by rewrite Hrec, Z.div_1_r|].
    intros H. left. by apply Hin.
  - split; [lia|].
    destruct (shifted_iter p (shr_record_of_loc m l)) as [H1 H2];
      [by rewrite Hrec|].
    rewrite Hrec in H1, H2. split; [done|].
    intros H. destruct (H2 H) as [Ha|Hb]; [left; by apply Hin|by right].
Qed.

(** *** One rounding *)

Lemma round_nearest_even_spec mrs :
  let m2 := round_nearest_even (shr_m mrs) (loc_of_shr_record mrs) in
  (shr_m mrs ≤ m2 ≤ shr_m mrs + 1)%Z ∧
  (m2 = (shr_m mrs + 1)%Z → inexact mrs = true).
Proof.
  destruct mrs as [m [] []]; unfold inexact; simpl;
    try destruct (Z.even m); split; (lia || done).
Qed.

(** What [binary_round_aux] returns on a mantissa that is not negative
    and whose exponent is not above the one its magnitude calls for: the
    rounded mantissa [m3] and its exponent [e3], which are canonical and
    come from the mantissa [m2] that follows the cut. *)
Lemma round_aux_spec s m e l :
  (0 ≤ m)%Z → (e ≤ fexp prec emax (Zdigits2 m + e))%Z →
  let e1 := fexp prec emax (Zdigits2 m + e) in
  let k := (e1 - e)%Z in
  ∃ m2 m3 e3,
    (m / 2 ^ k ≤ m2 ≤ m / 2 ^ k + 1)%Z ∧
    (m2 = (m / 2 ^ k + 1)%Z → l ≠ loc_Exact ∨ (m mod 2 ^ k ≠ 0)%Z) ∧
    (0 ≤ m3)%Z ∧ (e1 ≤ e3)%Z ∧ (m3 * 2 ^ (e3 - e1) ≤ m2)%Z ∧
    (0 < m3 → fexp prec emax (Zdigits2 m3 + e3) = e3)%Z ∧
    binary_round_aux prec emax s m e l =
      match m3 with
      | 0%Z => S754_zero s
      | Z.pos p =>
          if (e3 <=? emax - prec)%Z then S754_finite s p e3
          else S754_infinity s
      | Z.neg _ => S754_nan
      end.
Proof.
  intros Hm He e1 k.
  assert (0 ≤ k)%Z as Hk by (unfold k, e1; lia).
  assert (0 < 2 ^ k)%Z as H2k by (apply Z.pow_pos_nonneg; lia).
  unfold binary_round_aux.
  pose proof (shr_fexp_spec m e l Hm He) as (E1 & M1 & I1).
  destruct (shr_fexp prec emax m e l) as [mrs1 e1'].
  simpl in E1, M1, I1. fold e1 in E1, M1, I1. fold k in M1, I1. subst e1'.
  pose proof (round_nearest_even_spec mrs1) as [R1 R2].
  set (m2 := round_nearest_even (shr_m mrs1) (loc_of_shr_record mrs1)) in *.
  rewrite M1 in R1, R2.
  assert (0 ≤ m / 2 ^ k)%Z as Hq by (apply Z.div_pos; lia).
  assert (e1 ≤ fexp prec emax (Zdigits2 m2 + e1))%Z as He2.
  { destruct (Z.eq_dec (m / 2 ^ k)%Z 0%Z) as [Hz|Hnz].
    - assert (e1 = -1074)%Z as ->; [|apply fexp_ge].
      destruct (Z.eq_dec m 0%Z) as [Hm0|Hm0].
      + subst m. unfold e1 in *. change (Zdigits2 0) with 0%Z in *.
        rewrite Z.add_0_l in *.
        destruct (fexp_cases e) as [[? ?]|[? ?]]; lia.
      + assert (m < 2 ^ k)%Z as Hlt.
        { apply Z.div_small_iff in Hz; lia. }
        pose proof (Zdigits2_bounds m ltac:(lia)) as [Hd _].
        assert (Zdigits2 m - 1 < k)%Z.
        { destruct (Z.le_gt_cases k (Zdigits2 m - 1)) as [Hle|]; [|lia].
          assert (2 ^ k ≤ 2 ^ (Zdigits2 m - 1))%Z
            by (apply Z.pow_le_mono_r; lia).
          lia. }
        unfold k, e1 in *.
        destruct (fexp_cases (Zdigits2 m + e)) as [[? ?]|[? ?]]; lia.
    - assert (Zdigits2 (m / 2 ^ k) = Zdigits2 m - k)%Z as Hd
        by (apply Zdigits2_div; lia).
      pose proof (Zdigits2_mono (m / 2 ^ k) m2 ltac:(lia)).
      replace e1 with (fexp prec emax (Zdigits2 (m / 2 ^ k) + e1)) at 1.
      + apply fexp_mono. lia.
      + rewrite Hd. unfold k. replace (Zdigits2 m - (e1 - e) + e1)%Z
          with (Zdigits2 m + e)%Z by lia. done. }
  pose proof (shr_fexp_spec m2 e1 loc_Exact ltac:(lia) He2) as (E3 & M3 & _).
  destruct (shr_fexp prec emax m2 e1 loc_Exact) as [mrs3 e3].
  simpl in E3, M3. subst e3.
  set (e3 := fexp prec emax (Zdigits2 m2 + e1)) in *.
  set (k2 := (e3 - e1)%Z) in *.
  assert (0 < 2 ^ k2)%Z as H2k2 by (apply Z.pow_pos_nonneg; lia).
  exists m2, (shr_m mrs3), e3.
  split; [done|]. split.
  { intros Heq. destruct (I1 (R2 Heq)); [by left|by right]. }
  split; [rewrite M3; apply Z.div_pos; lia|].
  split; [done|]. split.
  { rewrite M3. fold k2. rewrite Z.mul_comm. apply Z.mul_div_le. lia. }
  split; [|done].
  intros H3. rewrite M3 in H3 |- *.
  rewrite Zdigits2_div by lia.
  replace (Zdigits2 m2 - k2 + e3)%Z with (Zdigits2 m2 + e1)%Z by lia.
  done.
Qed.

Lemma bounded_spec m e :
  bounded prec emax m e = true →
  fexp prec emax (Zdigits2 (Z.pos m) + e) = e ∧ (e ≤ emax - prec)%Z.
Proof.
  unfold bounded, canonical_mantissa. intros [H1 H2]%andb_prop.
  apply Z.eqb_eq in H1. apply Z.leb_le in H2. done.
Qed.

(** A canonical mantissa has at most 53 digits, and exactly 53 above the
    least exponent. *)
Lemma canonical_digits m e :
  (0 < m)%Z → fexp prec emax (Zdigits2 m + e) = e →
  (m < 2 ^ 53)%Z ∧ (-1074 ≤ e)%Z ∧ ((-1074 < e)%Z → (2 ^ 52 ≤ m)%Z).
Proof.
  intros Hm Hc. pose proof (Zdigits2_bounds m Hm) as [H1 H2].
  destruct (fexp_cases (Zdigits2 m + e)) as [[Hf ?]|[Hf ?]].
  - assert (Zdigits2 m = 53)%Z as Hd by lia. rewrite Hd in H1, H2.
    simpl in H1. lia.
  - split; [|split; [lia|lia]].
    assert (2 ^ Zdigits2 m ≤ 2 ^ 53)%Z by (apply Z.pow_le_mono_r; lia). lia.
Qed.

(** The result of a rounding is not above a number of the format that the
    rounded quantity is not above. *)
Lemma round_aux_le m e l mB eB :
  (0 ≤ m)%Z → (e ≤ fexp prec emax (Zdigits2 m + e))%Z →
  bounded prec emax mB eB = true →
  (dyadic m e <= dyadic (Z.pos mB) eB)%Q →
  (l ≠ loc_Exact → (dyadic m e < dyadic (Z.pos mB) eB)%Q) →
  SFleb (binary_round_aux prec emax false m e l) (S754_finite false mB eB)
    = true.
Proof.
  intros Hm He HB Hle Hlt.
  apply bounded_spec in HB as [HB1 HB2].
  pose proof (canonical_digits (Z.pos mB) eB ltac:(lia) HB1)
    as (HmB & HeB & HnB).
  destruct (round_aux_spec false m e l Hm He)
    as (m2 & m3 & e3 & R1 & R2 & H3 & He3 & H32 & Hc3 & ->).
  set (e1 := fexp prec emax (Zdigits2 m + e)) in *.
  set (k := (e1 - e)%Z) in *.
  assert (0 ≤ k)%Z as Hk by (unfold k; lia).
  assert (0 < 2 ^ k)%Z as H2k by (apply Z.pow_pos_nonneg; lia).
  assert (0 < 2 ^ (e3 - e1))%Z as H2k3 by (apply Z.pow_pos_nonneg; lia).
  (* the mantissa that follows the cut is not above the bound *)
  assert (dyadic m2 e1 <= dyadic (Z.pos mB) eB)%Q as HA.
  { destruct (Z.le_gt_cases e1 eB) as [Hcase|Hcase].
    - apply dyadic_le_l; [done|].
      set (N := (Z.pos mB * 2 ^ (eB - e1))%Z).
      assert (m ≤ N * 2 ^ k)%Z as HmN.
      { apply dyadic_le_l in Hle; [|lia].
        replace (eB - e)%Z with ((eB - e1) + k)%Z in Hle by (unfold k; lia).
        rewrite Z.pow_add_r in Hle by lia. lia. }
      assert (m / 2 ^ k ≤ N)%Z as Hq.
      { apply Z.div_le_upper_bound; [done|]. lia. }
      destruct (Z.eq_dec m2 (m / 2 ^ k + 1)%Z) as [Hup|Hno]; [|lia].
      assert (m / 2 ^ k < N)%Z; [|lia].
      apply Z.div_lt_upper_bound; [done|].
      destruct (R2 Hup) as [Hl|Hmod].
      + apply Hlt in Hl. apply dyadic_lt_l in Hl; [|lia].
        replace (eB - e)%Z with ((eB - e1) + k)%Z in Hl by (unfold k; lia).
        rewrite Z.pow_add_r in Hl by lia. lia.
      + destruct (Z.eq_dec m (N * 2 ^ k)%Z) as [Heq|Hne]; [|lia].
        exfalso. apply Hmod. rewrite Heq. apply Z.mod_mul. lia.
    - exfalso.
      assert (Zdigits2 (Z.pos mB) + eB < Zdigits2 m + e)%Z as Hd.
      { destruct (Z.le_gt_cases (Zdigits2 m + e) (Zdigits2 (Z.pos mB) + eB))
          as [Hc|]; [|lia].
        apply fexp_mono in Hc. fold e1 in Hc. lia. }
      assert (0 < m)%Z as Hmpos.
      { destruct (Z.eq_dec m 0%Z) as [->|]; [|lia].
        change (Zdigits2 0) with 0%Z in *.
        unfold e1 in *. rewrite Z.add_0_l in *.
        destruct (fexp_cases e) as [[? ?]|[? ?]]; lia. }
      pose proof (Zdigits2_bounds m Hmpos) as [Hd1 _].
      pose proof (Zdigits2_bounds (Z.pos mB) ltac:(lia)) as [_ Hd2].
      pose proof (Zdigits2_pos m Hmpos).
      destruct (Z.le_gt_cases e eB) as [HeeB|HeeB].
      + apply dyadic_le_l in Hle; [|done].
        assert (Z.pos mB * 2 ^ (eB - e) < 2 ^ (Zdigits2 m - 1))%Z; [|lia].
        assert (2 ^ Zdigits2 (Z.pos mB) * 2 ^ (eB - e) ≤ 2 ^ (Zdigits2 m - 1))%Z.
        { rewrite <-Z.pow_add_r by (pose proof (Zdigits2_nonneg (Z.pos mB)); lia).
          apply Z.pow_le_mono_r; lia. }
        assert (0 < 2 ^ (eB - e))%Z by (apply Z.pow_pos_nonneg; lia).
        nia.
      + apply dyadic_le_r in Hle; [|lia].
        assert (0 < 2 ^ (e - eB))%Z by (apply Z.pow_pos_nonneg; lia).
        assert (2 ^ Zdigits2 (Z.pos mB) ≤ 2 ^ (Zdigits2 m - 1) * 2 ^ (e - eB))%Z.
        { rewrite <-Z.pow_add_r by lia. apply Z.pow_le_mono_r; lia. }
        nia. }
  (* so is the rounded mantissa *)
  assert (dyadic m3 e3 <= dyadic (Z.pos mB) eB)%Q as HC.
  { eapply Qle_trans; [|apply HA]. apply dyadic_le_r; [done|lia]. }
  destruct m3 as [|p|p]; [done| |lia].
  pose proof (canonical_digits (Z.pos p) e3 ltac:(lia) (Hc3 ltac:(lia)))
    as (Hp & _ & Hn3).
  assert (e3 ≤ eB)%Z as He3B.
  { destruct (Z.le_gt_cases e3 eB) as [|Hgt]; [done|]. exfalso.
    apply dyadic_le_r in HC; [|lia].
    assert (2 ^ 1 ≤ 2 ^ (e3 - eB))%Z by (apply Z.pow_le_mono_r; lia).
    specialize (Hn3 ltac:(lia)). simpl in *. nia. }
  rewrite (proj2 (Z.leb_le e3 (emax - prec)) ltac:(lia)).
  unfold SFleb, SFcompare.
  destruct (Z.compare_spec e3 eB) as [Heq|Hl|Hg]; [|done|lia].
  subst eB. apply dyadic_le in HC.
  change (PosDef.Pos.compare_cont Eq p mB) with (Pos.compare p mB).
  destruct (Pos.compare_spec p mB); [done|done|lia].
Qed.

(** The sign of a rounding is the one it is given. *)
Lemma round_aux_sign s m e l :
  (0 ≤ m)%Z → (e ≤ fexp prec emax (Zdigits2 m + e))%Z →
  let r := binary_round_aux prec emax s m e l in
  r = S754_zero s ∨ r = S754_infinity s ∨ ∃ p q, r = S754_finite s p q.
Proof.
  intros Hm He.
  destruct (round_aux_spec s m e l Hm He)
    as (m2 & m3 & e3 & _ & _ & H3 & _ & _ & _ & ->).
  destruct m3 as [|p|p]; [by left| |lia].
  destruct (_ <=? _)%Z; [right; right; by eexists _, _|right; by left].
Qed.

(** *** Order and value *)

(** On positive numbers of the format, the order of the numbers is the
    order of their values. *)
Lemma finite_leb_value p e mB eB :
  bounded prec emax p e = true → bounded prec emax mB eB = true →
  SFleb (S754_finite false p e) (S754_finite false mB eB) = true ↔
  (dyadic (Z.pos p) e <= dyadic (Z.pos mB) eB)%Q.
Proof.
  intros [Hc1 _]%bounded_spec [Hc2 _]%bounded_spec.
  pose proof (canonical_digits (Z.pos p) e ltac:(lia) Hc1) as (Hp & He & Hn).
  pose proof (canonical_digits (Z.pos mB) eB ltac:(lia) Hc2) as (HB & HeB & HnB).
  unfold SFleb, SFcompare.
  change (PosDef.Pos.compare_cont Eq p mB) with (Pos.compare p mB).
  destruct (Z.compare_spec e eB) as [Heq|Hl|Hg].
  - subst eB. rewrite dyadic_le.
    destruct (Pos.compare_spec p mB); split; (done || lia).
  - split; [intros _|done]. apply dyadic_le_l; [lia|].
    assert (2 ^ 1 ≤ 2 ^ (eB - e))%Z by (apply Z.pow_le_mono_r; lia).
    specialize (HnB ltac:(lia)). simpl in *. nia.
  - split; [done|]. intros Hle. exfalso. apply dyadic_le_r in Hle; [|lia].
    assert (2 ^ 1 ≤ 2 ^ (e - eB))%Z by (apply Z.pow_le_mono_r; lia).
    specialize (Hn ltac:(lia)). simpl in *. nia.
Qed.

(** *** Roundings that start from a whole mantissa *)

Lemma pos_iter_xO m d : Z.pos (Pos.iter xO m d) = (Z.pos m * 2 ^ Z.pos d)%Z.
Proof.
  induction d as [|d IH] using Pos.peano_ind.
  - simpl. lia.
  - rewrite Pos.iter_succ, Pos2Z.inj_xO, IH, Pos2Z.inj_succ, Z.pow_succ_r by lia.
    lia.
Qed.

Lemma Zdigits2_mul m k :
  (0 < m)%Z → (0 ≤ k)%Z → Zdigits2 (m * 2 ^ k) = (Zdigits2 m + k)%Z.
Proof.
  intros Hm Hk. pose proof (Zdigits2_bounds m Hm) as [H1 H2].
  pose proof (Zdigits2_pos m Hm).
  assert (0 < 2 ^ k)%Z by (apply Z.pow_pos_nonneg; lia).
  apply Zdigits2_unique; [|lia]. split.
  - replace (Zdigits2 m + k - 1)%Z with ((Zdigits2 m - 1) + k)%Z by lia.
    rewrite Z.pow_add_r by lia. nia.
  - rewrite Z.pow_add_r by lia. nia.
Qed.

Lemma shl_align_spec mx ex ex' :
  let out := shl_align mx ex ex' in
  out.2 = Z.min ex ex' ∧ Z.pos out.1 = (Z.pos mx * 2 ^ (ex - out.2))%Z.
Proof.
  unfold shl_align. destruct (ex' - ex)%Z as [|d|d] eqn:Hd; simpl.
  - split; [lia|]. rewrite Z.sub_diag. simpl. lia.
  - split; [lia|]. rewrite Z.sub_diag. simpl. lia.
  - split; [lia|]. rewrite pos_iter_xO. f_equal. f_equal. lia.
Qed.

(** [binary_round] is [binary_round_aux] on a mantissa of the same value
    whose exponent is not above the one its magnitude calls for. *)
Lemma binary_round_spec s mx ex :
  ∃ mz ez,
    binary_round prec emax s mx ex =
      binary_round_aux prec emax s (Z.pos mz) ez loc_Exact ∧
    (ez ≤ fexp prec emax (Zdigits2 (Z.pos mz) + ez))%Z ∧
    (dyadic (Z.pos mz) ez == dyadic (Z.pos mx) ex)%Q.
Proof.
  unfold binary_round.
  pose proof (shl_align_spec mx ex
                (fexp prec emax (Z.pos (digits2_pos mx) + ex))) as [H1 H2].
  destruct (shl_align _ _ _) as [mz ez]. simpl in H1, H2.
  exists mz, ez. split; [done|].
  assert (ez ≤ ex)%Z by lia. split.
  - rewrite H2, Zdigits2_mul by lia.
    change (Zdigits2 (Z.pos mx)) with (Z.pos (digits2_pos mx)).
    replace (Z.pos (digits2_pos mx) + (ex - ez) + ez)%Z
      with (Z.pos (digits2_pos mx) + ex)%Z by lia.
    lia.
  - rewrite H2, dyadic_shift by lia. by replace (ez + (ex - ez))%Z with ex by lia.
Qed.

Lemma binary_round_le mx ex mB eB :
  bounded prec emax mB eB = true →
  (dyadic (Z.pos mx) ex <= dyadic (Z.pos mB) eB)%Q →
  SFleb (binary_round prec emax false mx ex) (S754_finite false mB eB) = true.
Proof.
  intros HB Hle. destruct (binary_round_spec false mx ex)
    as (mz & ez & -> & Hn & Hv).
  apply round_aux_le; [lia|done|done|by rewrite Hv|done].
Qed.

Lemma binary_round_sign s mx ex :
  let r := binary_round prec emax s mx ex in
  r = S754_zero s ∨ r = S754_infinity s ∨ ∃ p q, r = S754_finite s p q.
Proof.
  destruct (binary_round_spec s mx ex) as (mz & ez & Hr & Hn & _).
  simpl. rewrite Hr. apply round_aux_sign; [lia|done].
Qed.


(** *** Numbers that are not negative *)

Lemma nonneg_leb x : (0 <=? x)%float = true ↔ nonneg (Prim2SF x).
Proof.
  rewrite leb_spec. change (Prim2SF 0) with (S754_zero false).
  unfold nonneg. destruct (Prim2SF x) as [s|[]| |[] m e]; simpl; split;
    try done; try naive_solver.
Qed.

Lemma shr_fexp_nonneg m e l :
  (0 ≤ m)%Z → (0 ≤ shr_m (shr_fexp prec emax m e l).1)%Z.
Proof.
  intros Hm. unfold shr_fexp, shr.
  assert (shr_m (shr_record_of_loc m l) = m) as Hrec
    by by destruct l as [|[]].
  destruct (_ - e)%Z as [|p|p]; simpl; [by rewrite Hrec| |by rewrite Hrec].
  destruct (shifted_iter p (shr_record_of_loc m l)) as [-> _];
    [by rewrite Hrec|].
  rewrite Hrec. apply Z.div_pos; [done|]. apply Z.pow_pos_nonneg; lia.
Qed.

(** A rounding of a mantissa that is not negative has the sign it is
    given. *)
Lemma round_aux_shape s m e l :
  (0 ≤ m)%Z →
  let r := binary_round_aux prec emax s m e l in
  r = S754_zero s ∨ r = S754_infinity s ∨ ∃ p q, r = S754_finite s p q.
Proof.
  intros Hm. unfold binary_round_aux.
  pose proof (shr_fexp_nonneg m e l Hm) as H1.
  destruct (shr_fexp prec emax m e l) as [mrs1 e1]. simpl in H1.
  pose proof (round_nearest_even_spec mrs1) as [[R1 _] _].
  pose proof (shr_fexp_nonneg
                (round_nearest_even (shr_m mrs1) (loc_of_shr_record mrs1))
                e1 loc_Exact ltac:(lia)) as H2.
  destruct (shr_fexp prec emax _ e1 loc_Exact) as [mrs2 e2]. simpl in *.
  destruct (shr_m mrs2) as [|p|p]; [by left| |lia].
  destruct (_ <=? _)%Z; [right; right; by eexists _, _|right; by left].
Qed.

Lemma nonneg_round_aux m e l :
  (0 ≤ m)%Z → nonneg (binary_round_aux prec emax false m e l).
Proof.
  intros Hm. destruct (round_aux_shape false m e l Hm) as [->|[->|(p&q&->)]];
    unfold nonneg; naive_solver.
Qed.

Lemma nonneg_binary_normalize m e :
  (0 ≤ m)%Z → nonneg (binary_normalize prec emax m e false).
Proof.
  intros Hm. destruct m as [|p|p]; [left; by exists false| |lia].
  simpl. destruct (binary_round_sign false p e) as [->|[->|(p'&q&->)]];
    unfold nonneg; naive_solver.
Qed.

Lemma ofNat_nonneg n : (0 <=? ofNat n)%float = true.
Proof.
  apply nonneg_leb. unfold ofNat. rewrite of_uint63_spec.
  apply nonneg_binary_normalize. apply Uint63.to_Z_bounded.
Qed.

Lemma add_nonneg a b :
  (0 <=? a)%float = true → (0 <=? b)%float = true →
  (0 <=? a + b)%float = true.
Proof.
  rewrite !nonneg_leb, add_spec.
  intros [[sa ->]|[->|(ma & ea & ->)]] [[sb ->]|[->|(mb & eb & ->)]];
    try (unfold nonneg; destruct sa; simpl; naive_solver);
    try (unfold nonneg; simpl; naive_solver).
  - unfold nonneg. destruct sa, sb; simpl; naive_solver.
  - unfold SF64add, SFadd. cbn [cond_Zopp]. apply nonneg_binary_normalize.
    apply Z.add_nonneg_nonneg; apply Pos2Z.is_nonneg.
Qed.

Lemma Zdigits2_mul_ge m1 m2 :
  (0 < m1)%Z → (0 < m2)%Z →
  (Zdigits2 m1 + Zdigits2 m2 - 1 ≤ Zdigits2 (m1 * m2))%Z.
Proof.
  intros H1 H2.
  pose proof (Zdigits2_bounds m1 H1) as [A1 _].
  pose proof (Zdigits2_bounds m2 H2) as [A2 _].
  pose proof (Zdigits2_bounds (m1 * m2) ltac:(lia)) as [_ A3].
  pose proof (Zdigits2_pos m1 H1). pose proof (Zdigits2_pos m2 H2).
  destruct (Z.le_gt_cases (Zdigits2 m1 + Zdigits2 m2 - 1) (Zdigits2 (m1 * m2)))
    as [|Hgt]; [done|]. exfalso.
  assert (2 ^ Zdigits2 (m1 * m2) ≤ 2 ^ ((Zdigits2 m1 - 1) + (Zdigits2 m2 - 1)))%Z
    as Hp.
  { apply Z.pow_le_mono_r; [lia|]. lia. }
  rewrite Z.pow_add_r in Hp by lia.
  assert (0 < 2 ^ (Zdigits2 m1 - 1))%Z by (apply Z.pow_pos_nonneg; lia).
  assert (0 < 2 ^ (Zdigits2 m2 - 1))%Z by (apply Z.pow_pos_nonneg; lia).
  nia.
Qed.

(** The product with a positive finite number. *)
Lemma mul_nonneg a b mb eb :
  Prim2SF b = S754_finite false mb eb →
  (0 <=? a)%float = true → (0 <=? a * b)%float = true.
Proof.
  intros Hb. rewrite !nonneg_leb, mul_spec, Hb.
  intros [[sa ->]|[->|(ma & ea & ->)]]; simpl.
  - left. by eexists.
  - right. by left.
  - apply nonneg_round_aux. lia.
Qed.

(** *** Bounds *)

(** A number between zero and a positive finite number is a zero or a
    positive number of the format whose value is not above the bound's. *)
Lemma le_cases x B mB eB :
  Prim2SF B = S754_finite false mB eB →
  (0 <=? x)%float = true → (x <=? B)%float = true →
  (∃ s, Prim2SF x = S754_zero s) ∨
  ∃ m e, Prim2SF x = S754_finite false m e ∧
         (dyadic (Z.pos m) e <= dyadic (Z.pos mB) eB)%Q.
Proof.
  intros HB H0 Hle. apply nonneg_leb in H0. rewrite leb_spec, HB in Hle.
  pose proof (Prim2SF_valid x) as Hvx. pose proof (Prim2SF_valid B) as HvB.
  rewrite HB in HvB.
  destruct H0 as [[s Hx]|[Hx|(m & e & Hx)]]; rewrite Hx in *.
  - left. by exists s.
  - done.
  - right. exists m, e. split; [done|]. by apply finite_leb_value.
Qed.

Lemma le_of_value x m e B mB eB :
  Prim2SF x = S754_finite false m e → Prim2SF B = S754_finite false mB eB →
  (dyadic (Z.pos m) e <= dyadic (Z.pos mB) eB)%Q → (x <=? B)%float = true.
Proof.
  intros Hx HB Hle. rewrite leb_spec, Hx, HB.
  pose proof (Prim2SF_valid x) as Hvx. pose proof (Prim2SF_valid B) as HvB.
  rewrite Hx in Hvx. rewrite HB in HvB. by apply finite_leb_value.
Qed.

Lemma le_of_zero x s B mB eB :
  Prim2SF x = S754_zero s → Prim2SF B = S754_finite false mB eB →
  (x <=? B)%float = true.
Proof. intros Hx HB. by rewrite leb_spec, Hx, HB. Qed.

Lemma binary_normalize_le m e mB eB :
  bounded prec emax mB eB = true →
  (dyadic m e <= dyadic (Z.pos mB) eB)%Q →
  SFleb (binary_normalize prec emax m e false) (S754_finite false mB eB)
    = true.
Proof.
  intros HB Hle. destruct m as [|p|p]; [done|by apply binary_round_le|].
  simpl. by destruct (binary_round_sign true p e) as [->|[->|(p'&q&->)]].
Qed.

Lemma align_value m e e' :
  (e' ≤ e)%Z →
  (dyadic (Z.pos (shl_align m e e').1) e' == dyadic (Z.pos m) e)%Q.
Proof.
  intros He. pose proof (shl_align_spec m e e') as [H1 H2].
  rewrite H2, dyadic_shift by lia.
  by replace (e' + (e - (shl_align m e e').2))%Z with e by lia.
Qed.

(** The sum of two numbers is not above a number of the format that the
    sum of their bounds is not above. *)
Lemma add_le a b A B C mA eA mB eB mC eC :
  Prim2SF A = S754_finite false mA eA →
  Prim2SF B = S754_finite false mB eB →
  Prim2SF C = S754_finite false mC eC →
  (dyadic (Z.pos mA) eA + dyadic (Z.pos mB) eB <= dyadic (Z.pos mC) eC)%Q →
  (0 <=? a)%float = true → (a <=? A)%float = true →
  (0 <=? b)%float = true → (b <=? B)%float = true →
  (a + b <=? C)%float = true.
Proof.
  intros HA HB HC Hsum Ha0 HaA Hb0 HbB.
  pose proof (dyadic_nonneg (Z.pos mA) eA ltac:(lia)).
  pose proof (dyadic_nonneg (Z.pos mB) eB ltac:(lia)).
  pose proof (Prim2SF_valid C) as HvC. rewrite HC in HvC.
  pose proof (Prim2SF_valid a) as Hva. pose proof (Prim2SF_valid b) as Hvb.
  destruct (le_cases a A mA eA HA Ha0 HaA) as [[sa Ea]|(ma & ea & Ea & Va)];
    destruct (le_cases b B mB eB HB Hb0 HbB) as [[sb Eb]|(mb & eb & Eb & Vb)];
    rewrite leb_spec, add_spec, Ea, Eb, HC; rewrite ?Ea in Hva;
    rewrite ?Eb in Hvb.
  - by destruct sa, sb.
  - cbn [SFadd]. apply finite_leb_value; [done|done|lra].
  - cbn [SFadd]. apply finite_leb_value; [done|done|lra].
  - unfold SF64add, SFadd. cbn [cond_Zopp]. apply binary_normalize_le; [done|].
    rewrite dyadic_add, !align_value by lia. lra.
Qed.

(** Taking a number that is not negative away from a positive finite
    number does not raise it. *)
Lemma sub_le B q mB eB :
  Prim2SF B = S754_finite false mB eB →
  (0 <=? q)%float = true → (B - q <=? B)%float = true.
Proof.
  intros HB Hq. apply nonneg_leb in Hq.
  pose proof (Prim2SF_valid B) as HvB. rewrite HB in HvB.
  rewrite leb_spec, sub_spec, HB.
  destruct Hq as [[s ->]|[->|(m & e & ->)]].
  - simpl. apply finite_leb_value; [done|done|lra].
  - done.
  - unfold SF64sub, SFsub. cbn [cond_Zopp]. apply binary_normalize_le; [done|].
    pose proof (dyadic_nonneg (Z.pos (shl_align m e (eB `min` e)).1) (eB `min` e)
                  ltac:(lia)).
    replace (Z.pos (shl_align mB eB (eB `min` e)).1 -
             Z.pos (shl_align m e (eB `min` e)).1)%Z
      with (Z.pos (shl_align mB eB (eB `min` e)).1 +
            - Z.pos (shl_align m e (eB `min` e)).1)%Z by lia.
    rewrite dyadic_add, align_value by lia.
    unfold dyadic at 2. rewrite inject_Z_opp. unfold dyadic in H. lra.
Qed.

(** *** Division *)

Lemma Zdigits2_quot_ge a b :
  (0 < a)%Z → (0 < b)%Z → (Zdigits2 a - Zdigits2 b ≤ Zdigits2 (a / b))%Z.
Proof.
  intros Ha Hb.
  pose proof (Zdigits2_bounds a Ha) as [A1 A2].
  pose proof (Zdigits2_bounds b Hb) as [B1 B2].
  pose proof (Zdigits2_nonneg (a / b)). pose proof (Zdigits2_pos b Hb).
  destruct (Z.le_gt_cases (Zdigits2 a - Zdigits2 b) 0) as [|Hpos]; [lia|].
  assert (2 ^ (Zdigits2 a - Zdigits2 b - 1) ≤ a / b)%Z as Hq.
  { apply Z.div_le_lower_bound; [done|].
    assert (0 < 2 ^ (Zdigits2 a - Zdigits2 b - 1))%Z
      by (apply Z.pow_pos_nonneg; lia).
    assert (2 ^ Zdigits2 b * 2 ^ (Zdigits2 a - Zdigits2 b - 1) =
            2 ^ (Zdigits2 a - 1))%Z as Heq.
    { rewrite <-Z.pow_add_r by lia. f_equal. lia. }
    nia. }
  assert (0 < a / b)%Z as Hqpos.
  { assert (0 < 2 ^ (Zdigits2 a - Zdigits2 b - 1))%Z
      by (apply Z.pow_pos_nonneg; lia). lia. }
  pose proof (Zdigits2_bounds (a / b) Hqpos) as [_ Q2].
  destruct (Z.le_gt_cases (Zdigits2 a - Zdigits2 b) (Zdigits2 (a / b)))
    as [|Hgt]; [done|].
  assert (2 ^ Zdigits2 (a / b) ≤ 2 ^ (Zdigits2 a - Zdigits2 b - 1))%Z
    by (apply Z.pow_le_mono_r; lia).
  lia.
Qed.

Lemma new_location_exact nb k : new_location nb k = loc_Exact → k = 0%Z.
Proof.
  unfold new_location, new_location_even, new_location_odd.
  destruct (Z.even nb); destruct (Z.eqb_spec k 0); done.
Qed.

(** The quotient that [SFdiv] rounds: a mantissa that is not negative,
    whose exponent is not above the one its magnitude calls for, and which
    stands for the quotient cut downwards. *)
Lemma div_core_spec m1 e1 m2 e2 :
  (0 < m1)%Z → (0 < m2)%Z →
  ∃ q e' l,
    SFdiv_core_binary prec emax m1 e1 m2 e2 = (q, e', l) ∧
    (0 ≤ q)%Z ∧ (e' ≤ fexp prec emax (Zdigits2 q + e'))%Z ∧
    (dyadic (q * m2) e' <= dyadic m1 (e1 - e2))%Q ∧
    (l ≠ loc_Exact → (dyadic (q * m2) e' < dyadic m1 (e1 - e2))%Q).
Proof.
  intros H1 H2. unfold SFdiv_core_binary.
  set (d1 := Zdigits2 m1). set (d2 := Zdigits2 m2).
  set (e' := (fexp prec emax (d1 + e1 - (d2 + e2)) `min` (e1 - e2))%Z).
  set (s := (e1 - e2 - e')%Z).
  assert (0 ≤ s)%Z as Hs by (unfold s, e'; lia).
  assert (0 < 2 ^ s)%Z as H2s by (apply Z.pow_pos_nonneg; lia).
  set (m' := match s with
             | 0%Z => m1
             | Z.pos _ => Z.shiftl m1 s
             | Z.neg _ => 0%Z
             end).
  assert (m' = (m1 * 2 ^ s)%Z) as Hm'.
  { unfold m'. destruct s as [|p|p] eqn:Es; [simpl; lia| |lia].
    by rewrite Z.shiftl_mul_pow2. }
  change (IntDef.Z.div_eucl m' m2) with (Z.div_eucl m' m2).
  pose proof (Z_div_mod m' m2 ltac:(lia)) as Hdm.
  destruct (Z.div_eucl m' m2) as [q r] eqn:Hqr.
  destruct Hdm as [Hdiv Hr].
  assert (q = m' / m2)%Z as Hq by (unfold Z.div; by rewrite Hqr).
  exists q, e', (new_location m2 r). split; [done|].
  assert (0 ≤ q)%Z as Hq0 by (rewrite Hq; apply Z.div_pos; lia).
  split; [done|]. split; [|split].
  - pose proof (Zdigits2_quot_ge m' m2 ltac:(lia) H2) as Hd.
    rewrite <-Hq in Hd. rewrite Hm', Zdigits2_mul in Hd by lia.
    fold d1 d2 in Hd.
    assert (e' ≤ fexp prec emax (d1 + e1 - (d2 + e2)))%Z as He' by (unfold e'; lia).
    etrans; [apply He'|]. apply fexp_mono. unfold s in Hd. lia.
  - replace (e1 - e2)%Z with (e' + s)%Z by (unfold s; lia).
    rewrite <-dyadic_shift by lia. apply dyadic_le. lia.
  - intros Hl.
    replace (e1 - e2)%Z with (e' + s)%Z by (unfold s; lia).
    rewrite <-dyadic_shift by lia. apply dyadic_lt.
    assert (r ≠ 0%Z); [|lia]. intros ->. apply Hl.
    unfold new_location, new_location_even, new_location_odd.
    by destruct (Z.even m2).
Qed.

(** The quotient by a positive finite number. *)
Lemma div_nonneg p d md ed :
  Prim2SF d = S754_finite false md ed →
  (0 <=? p)%float = true → (0 <=? p / d)%float = true.
Proof.
  intros Hd. rewrite !nonneg_leb, div_spec, Hd.
  intros [[s ->]|[->|(m & e & ->)]]; unfold SF64div, SFdiv.
  - left. by eexists.
  - right. by left.
  - destruct (div_core_spec (Z.pos m) e (Z.pos md) ed ltac:(lia) ltac:(lia))
      as (q & e' & l & -> & Hq & _).
    by apply nonneg_round_aux.
Qed.

Lemma div_le x X D C mX eX mD eD mC eC :
  Prim2SF X = S754_finite false mX eX →
  Prim2SF D = S754_finite false mD eD →
  Prim2SF C = S754_finite false mC eC →
  (dyadic (Z.pos mX) eX <= dyadic (Z.pos mC) eC * dyadic (Z.pos mD) eD)%Q →
  (0 <=? x)%float = true → (x <=? X)%float = true →
  (x / D <=? C)%float = true.
Proof.
  intros HX HD HC Hq Hx0 HxX.
  pose proof (Prim2SF_valid C) as HvC. rewrite HC in HvC.
  destruct (le_cases x X mX eX HX Hx0 HxX) as [[s Ex]|(m & e & Ex & Vx)];
    rewrite leb_spec, div_spec, Ex, HD, HC; unfold SF64div, SFdiv; [done|].
  destruct (div_core_spec (Z.pos m) e (Z.pos mD) eD ltac:(lia) ltac:(lia))
    as (q & e' & l & -> & Hq0 & Hn & Hle & Hlt).
  set (t := dyadic (Z.pos mD) eD).
  assert (0 < t)%Q as Ht.
  { unfold t, dyadic. apply Qmult_lt_0_compat; [done|apply two_pow_pos]. }
  assert (dyadic (q * Z.pos mD) e' * 2 ^ eD == dyadic q e' * t)%Q as E1.
  { unfold t, dyadic. rewrite inject_Z_mult. ring. }
  assert (dyadic (Z.pos m) (e - eD) * 2 ^ eD == dyadic (Z.pos m) e)%Q as E2.
  { unfold dyadic. rewrite <-Qmult_assoc, <-two_pow_add.
    by replace (e - eD + eD)%Z with e by lia. }
  pose proof (two_pow_pos eD) as HeD.
  apply round_aux_le; [done|done|done| |].
  - apply (Qmult_le_r _ _ t Ht). rewrite <-E1.
    eapply Qle_trans; [|apply Hq]. eapply Qle_trans; [|apply Vx].
    rewrite <-E2. apply Qmult_le_compat_r; [done|by apply Qlt_le_weak].
  - intros Hl. apply (Qmult_lt_r _ _ t Ht). rewrite <-E1.
    eapply Qlt_le_trans; [|apply Hq]. eapply Qlt_le_trans; [|apply Vx].
    rewrite <-E2. apply Qmult_lt_r; [done|]. by apply Hlt.
Qed.

(** *** [Math.max] and [Math.round] *)

Lemma leb_not_nan x y :
  (x <=? y)%float = true → is_nan x = false ∧ is_nan y = false.
Proof.
  unfold is_nan. rewrite leb_spec, !FloatAxioms.eqb_spec.
  destruct (Prim2SF x) as [[]|[]| |[] m e], (Prim2SF y) as [[]|[]| |[] m' e'];
    try done; intros _; unfold SFeqb, SFcompare;
    rewrite ?Z.compare_refl, ?Pos.compare_cont_refl; done.
Qed.

Lemma ltb_not_nan x y :
  (x <? y)%float = true → is_nan x = false ∧ is_nan y = false.
Proof.
  unfold is_nan. rewrite ltb_spec, !FloatAxioms.eqb_spec.
  destruct (Prim2SF x) as [[]|[]| |[] m e], (Prim2SF y) as [[]|[]| |[] m' e'];
    try done; intros _; unfold SFeqb, SFcompare;
    rewrite ?Z.compare_refl, ?Pos.compare_cont_refl; done.
Qed.

Lemma ltb_leb x y : (x <? y)%float = true → (x <=? y)%float = true.
Proof.
  rewrite ltb_spec, leb_spec. unfold SFltb, SFleb.
  by destruct (SFcompare _ _) as [[]|].
Qed.

(** [Math.max(0, y)] lies between 0 and any bound of [y] that is not
    negative. *)
Lemma max0_range y B :
  (0 <=? B)%float = true → (y <=? B)%float = true →
  (0 <=? Math_max 0 y)%float = true ∧ (Math_max 0 y <=? B)%float = true.
Proof.
  intros H0B HyB. unfold Math_max.
  destruct (leb_not_nan _ _ HyB) as [-> _].
  change (is_nan 0) with false. change (get_sign 0) with false. simpl.
  destruct (0 <? y)%float eqn:Hlt; [by split; [apply ltb_leb|]|].
  by destruct (y <? 0)%float.
Qed.

(** [Math.max(1, l)] is positive and finite when [l] is below
    [Infinity]. *)
Lemma max1_finite l :
  (l <? infinity)%float = true →
  ∃ m e, Prim2SF (Math_max 1 l) = S754_finite false m e.
Proof.
  intros Hl. unfold Math_max.
  destruct (ltb_not_nan _ _ Hl) as [-> _].
  change (is_nan 1) with false. change (get_sign 1) with false. simpl.
  destruct (1 <? l)%float eqn:Hlt.
  - rewrite ltb_spec in Hl, Hlt.
    change (Prim2SF 1) with (S754_finite false 4503599627370496 (-52)) in Hlt.
    change (Prim2SF infinity) with (S754_infinity false) in Hl.
    destruct (Prim2SF l) as [[]|[]| |[] m e]; try done. by exists m, e.
  - exists 4503599627370496%positive, (-52)%Z. by destruct (l <? 1)%float.
Qed.

(** The numbers that hold the integers from 0 to 100. *)
Lemma small_integer r :
  (0 ≤ r ≤ 100)%Z →
  let f := PrimFloat.of_uint63 (Uint63.of_Z r) in
  (0 <=? f)%float = true ∧ (f <=? 100)%float = true ∧
  (valueOf f == inject_Z r)%Q.
Proof.
  intros Hr.
  set (check := λ n : nat,
         let f := PrimFloat.of_uint63 (Uint63.of_Z (Z.of_nat n)) in
         (0 <=? f)%float && (f <=? 100)%float &&
         Qeq_bool (valueOf f) (inject_Z (Z.of_nat n))).
  assert (forallb check (seq 0 101) = true) as Hall by by vm_compute.
  rewrite forallb_forall in Hall.
  specialize (Hall (Z.to_nat r)). rewrite in_seq in Hall.
  specialize (Hall ltac:(lia)). unfold check in Hall.
  rewrite Z2Nat.id in Hall by lia.
  apply andb_prop in Hall as [[H1 H2]%andb_prop H3].
  split; [done|]. split; [done|]. by apply Qeq_bool_iff.
Qed.

(** [Math.round] on a number between 0 and 100: the result is an integer
    [z] between 0 and 100, the one with [z - 1/2 <= x < z + 1/2]. *)
Lemma round_range x :
  (0 <=? x)%float = true → (x <=? 100)%float = true →
  ∃ z : Z,
    (0 ≤ z ≤ 100)%Z ∧
    (valueOf (Math_round x) == inject_Z z)%Q ∧
    (inject_Z z - (1 # 2) <= valueOf x)%Q ∧
    (valueOf x < inject_Z z + (1 # 2))%Q ∧
    (0 <=? Math_round x)%float = true ∧ (Math_round x <=? 100)%float = true.
Proof.
  intros H0 H100. pose proof (Prim2SF_valid x) as Hv.
  destruct (le_cases x 100 7036874417766400 (-46) eq_refl H0 H100)
    as [[s Ex]|(m & e & Ex & Vx)].
  - exists 0%Z.
    assert (Math_round x = x) as -> by (unfold Math_round; by rewrite Ex).
    unfold valueOf. rewrite Ex.
    split; [lia|]. split; [reflexivity|]. split; [by vm_compute|].
    split; [by vm_compute|]. done.
  - rewrite Ex in Hv. apply bounded_spec in Hv as [Hc _].
    pose proof (canonical_digits (Z.pos m) e ltac:(lia) Hc) as (Hm & He & Hn).
    assert (e < 0)%Z as Hneg.
    { destruct (Z.le_gt_cases 0 e) as [Hpos|]; [|lia]. exfalso.
      apply dyadic_le_r in Vx; [|lia].
      assert (2 ^ 46 ≤ 2 ^ (e - -46))%Z as Hp
        by (apply Z.pow_le_mono_r; lia).
      change (2 ^ 46)%Z with 70368744177664%Z in Hp.
      specialize (Hn ltac:(lia)). simpl in Hn. nia. }
    set (k := (- e)%Z). assert (0 < k)%Z as Hk by (unfold k; lia).
    assert (0 < 2 ^ (k - 1))%Z as H2k by (apply Z.pow_pos_nonneg; lia).
    assert (2 ^ k = 2 * 2 ^ (k - 1))%Z as Ek.
    { rewrite <-Z.pow_succ_r by lia. f_equal. lia. }
    set (r := Z.shiftr (2 * Z.pos m + 2 ^ k) (1 - e)).
    assert (r = (2 * Z.pos m + 2 ^ k) / (2 * 2 ^ k))%Z as Er.
    { unfold r. rewrite Z.shiftr_div_pow2 by lia.
      replace (1 - e)%Z with (Z.succ k) by (unfold k; lia).
      by rewrite Z.pow_succ_r by lia. }
    assert (Z.pos m ≤ 100 * 2 ^ k)%Z as Hm100.
    { destruct (Z.le_gt_cases e (-46)) as [Hc1|Hc1].
      - apply dyadic_le_l in Vx; [|done].
        replace k with ((-46 - e) + 46)%Z by (unfold k; lia).
        rewrite Z.pow_add_r by lia.
        change (2 ^ 46)%Z with 70368744177664%Z. lia.
      - apply dyadic_le_r in Vx; [|lia].
        replace 46%Z with ((e - -46) + k)%Z in Vx by (unfold k; lia).
        assert (0 < 2 ^ (e - -46))%Z by (apply Z.pow_pos_nonneg; lia).
        assert (2 ^ 46 = 2 ^ (e - -46) * 2 ^ k)%Z as E46.
        { rewrite <-Z.pow_add_r by lia. f_equal. unfold k. lia. }
        change (2 ^ 46)%Z with 70368744177664%Z in E46. nia. }
    pose proof (Z.mul_div_le (2 * Z.pos m + 2 ^ k) (2 * 2 ^ k) ltac:(lia)) as D1.
    pose proof (Z.mul_succ_div_gt (2 * Z.pos m + 2 ^ k) (2 * 2 ^ k) ltac:(lia))
      as D2.
    rewrite <-Er in D1, D2.
    assert (0 ≤ r ≤ 100)%Z as Hr.
    { split; [rewrite Er; apply Z.div_pos; lia|]. nia. }
    exists r.
    assert (valueOf x == dyadic (Z.pos m) e)%Q as Evx
      by (unfold valueOf; by rewrite Ex).
    assert (inject_Z r - (1 # 2) == dyadic (2 * r - 1) (-1))%Q as Elo.
    { unfold dyadic. change (2 ^ (-1))%Q with (1 # 2)%Q.
      unfold Z.sub. rewrite inject_Z_plus, inject_Z_mult.
      rewrite inject_Z_opp.
      change (inject_Z 1) with 1%Q. change (inject_Z 2) with 2%Q.
      ring. }
    assert (inject_Z r + (1 # 2) == dyadic (2 * r + 1) (-1))%Q as Ehi.
    { unfold dyadic. change (2 ^ (-1))%Q with (1 # 2)%Q.
      rewrite inject_Z_plus, inject_Z_mult.
      change (inject_Z 1) with 1%Q. change (inject_Z 2) with 2%Q.
      ring. }
    split; [done|].
    assert (Math_round x =
            if (r =? 0)%Z then zero
            else PrimFloat.of_uint63 (Uint63.of_Z r)) as ->.
    { unfold Math_round. rewrite Ex.
      rewrite (proj2 (Z.leb_gt 0 e) Hneg). cbn [cond_Zopp]. fold k r.
      destruct (r =? 0)%Z; [done|].
      by rewrite (proj2 (Z.ltb_ge r 0) ltac:(lia)). }
    destruct (small_integer r Hr) as (S1 & S2 & S3).
    split; [|split; [|split; [|split]]].
    + destruct (Z.eqb_spec r 0) as [->|]; [done|done].
    + rewrite Evx, Elo. apply dyadic_le_r; [lia|].
      replace (-1 - e)%Z with (k - 1)%Z by (unfold k; lia). nia.
    + rewrite Evx, Ehi. apply dyadic_lt_l; [lia|].
      replace (-1 - e)%Z with (k - 1)%Z by (unfold k; lia). nia.
    + by destruct (r =? 0)%Z.
    + by destruct (r =? 0)%Z.
Qed.

End NumberFacts.

(** ** Scores *)
Module ScoreFacts.
Import Solid Number NumberFacts.

Lemma countIssue_countAt i p sev t :
  countAt sev (countsFor p (countIssue i t)) =
  (countAt sev (countsFor p t) +
   if decide (principle i = p ∧ severity i = sev) then 1 else 0)%nat.
Proof.
  unfold countIssue. case_decide as H.
  - destruct H as [<- <-]. destruct (principle i), (severity i); simpl; lia.
  - destruct (principle i), p, (severity i), sev; simpl; try lia;
      exfalso; by apply H.
Qed.

Lemma countIssues_countAt issues p sev :
  countAt sev (countsFor p (countIssues issues)) = countOf p sev issues.
Proof.
  unfold countIssues, countOf.
  assert (∀ t, countAt sev (countsFor p
                 (fold_left (λ t issue, countIssue issue t) issues t)) =
               (countAt sev (countsFor p t) +
                length (filter (λ i, principle i = p ∧ severity i = sev)
                          issues))%nat) as H.
  { induction issues as [|i issues IH]; intros t; simpl; [lia|].
    rewrite IH, countIssue_countAt, filter_cons.
    destruct (decide _); simpl; lia. }
  rewrite H. by destruct p, sev.
Qed.

Section WithLog10.
Variable log10 : float → float.

Lemma scoreOf_spec issues p n :
  scoreOf log10 (countsFor p (countIssues issues)) n =
  specScore log10 p issues n.
Proof.
  unfold scoreOf, specScore, calculatePenalty, normalizationFactor, baseScore,
    penalty_info, penalty_warning, penalty_critical.
  by rewrite <-!countIssues_countAt.
Qed.

(** The weighted number of issues is not negative. *)
Lemma penalty_nonneg i w c :
  (0 <=? ofNat i * 1 + ofNat w * 3 + ofNat c * 10)%float = true.
Proof.
  repeat apply add_nonneg;
    (eapply mul_nonneg; [reflexivity|apply ofNat_nonneg]).
Qed.

Lemma scoreOf_range counts n :
  (log10 (ofNat n) <? infinity)%float = true →
  (0 <=? scoreOf log10 counts n)%float = true ∧
  (scoreOf log10 counts n <=? 100)%float = true.
Proof.
  intros Hlog. unfold scoreOf, calculatePenalty, normalizationFactor,
    baseScore, penalty_info, penalty_warning, penalty_critical.
  destruct (max1_finite _ Hlog) as (m & e & Hnf).
  apply max0_range; [done|]. eapply sub_le; [reflexivity|].
  eapply div_nonneg; [apply Hnf|]. apply penalty_nonneg.
Qed.

(** The mean of five numbers between 0 and 100, as it is computed. *)
Lemma mean_range a b c d e :
  (0 <=? a)%float = true → (a <=? 100)%float = true →
  (0 <=? b)%float = true → (b <=? 100)%float = true →
  (0 <=? c)%float = true → (c <=? 100)%float = true →
  (0 <=? d)%float = true → (d <=? 100)%float = true →
  (0 <=? e)%float = true → (e <=? 100)%float = true →
  (0 <=? (a + b + c + d + e) / 5)%float = true ∧
  ((a + b + c + d + e) / 5 <=? 100)%float = true.
Proof.
  intros Ha0 Ha Hb0 Hb Hc0 Hc Hd0 Hd He0 He.
  assert ((0 <=? a + b)%float = true) as H20 by by apply add_nonneg.
  assert ((a + b <=? 200)%float = true) as H2.
  { eapply (add_le a b 100 100 200); first [done|reflexivity|by vm_compute]. }
  assert ((0 <=? a + b + c)%float = true) as H30 by by apply add_nonneg.
  assert ((a + b + c <=? 300)%float = true) as H3.
  { eapply (add_le (a + b) c 200 100 300);
      first [done|reflexivity|by vm_compute]. }
  assert ((0 <=? a + b + c + d)%float = true) as H40 by by apply add_nonneg.
  assert ((a + b + c + d <=? 400)%float = true) as H4.
  { eapply (add_le (a + b + c) d 300 100 400);
      first [done|reflexivity|by vm_compute]. }
  assert ((0 <=? a + b + c + d + e)%float = true) as H50 by by apply add_nonneg.
  assert ((a + b + c + d + e <=? 500)%float = true) as H5.
  { eapply (add_le (a + b + c + d) e 400 100 500);
      first [done|reflexivity|by vm_compute]. }
  split.
  - eapply div_nonneg; [reflexivity|done].
  - eapply (div_le _ 500 5 100); first [done|reflexivity|by vm_compute].
Qed.

(** Without issues a score is 100. *)
Lemma scoreOf_none n :
  (log10 (ofNat n) <? infinity)%float = true →
  scoreOf log10 noCounts n = 100%float.
Proof.
  intros Hlog. unfold scoreOf, calculatePenalty, normalizationFactor,
    baseScore, penalty_info, penalty_warning, penalty_critical.
  destruct (max1_finite _ Hlog) as (m & e & Hnf).
  change (ofNat (c_info noCounts) * 1 + ofNat (c_warning noCounts) * 3 +
          ofNat (c_critical noCounts) * 10)%float with 0%float.
  assert ((0 / Math_max 1 (log10 (ofNat n)))%float = 0%float) as ->; [|done].
  apply Prim2SF_inj. by rewrite div_spec, Hnf.
Qed.

(** C2. Each principle score is 100 minus
    (1 * infos + 3 * warnings + 10 * criticals) divided by
    max(1, log10(filesAnalyzed)), floored at 0, and the overall score is
    [Math.round] of the mean of the five scores, all of it in the
    arithmetic of JavaScript numbers.  When [Math.log10] of the number of
    files is below [Infinity] (it is [-Infinity] for no file and finite
    otherwise), the six scores lie between 0 and 100, the overall score is
    the integer [z] with [z - 1/2 <= mean < z + 1/2], and without issues
    the six scores are 100. *)
Theorem C2_calculateScores (issues : list SolidIssue) (filesAnalyzed : nat) :
  (log10 (ofNat filesAnalyzed) <? infinity)%float = true →
  let s := calculateScores log10 issues filesAnalyzed in
  let mean := ((srp s + ocp s + lsp s + isp s + dip s) / 5)%float in
  (srp s = specScore log10 SRP issues filesAnalyzed ∧
   ocp s = specScore log10 OCP issues filesAnalyzed ∧
   lsp s = specScore log10 LSP issues filesAnalyzed ∧
   isp s = specScore log10 ISP issues filesAnalyzed ∧
   dip s = specScore log10 DIP issues filesAnalyzed) ∧
  overall s = Math_round mean ∧
  (∃ z : Z, (0 ≤ z ≤ 100)%Z ∧ (valueOf (overall s) == inject_Z z)%Q ∧
            (inject_Z z - (1 # 2) <= valueOf mean)%Q ∧
            (valueOf mean < inject_Z z + (1 # 2))%Q) ∧
  Forall (λ x, (0 <=? x)%float = true ∧ (x <=? 100)%float = true)
    [srp s; ocp s; lsp s; isp s; dip s; overall s] ∧
  (issues = [] →
   srp s = 100%float ∧ ocp s = 100%float ∧ lsp s = 100%float ∧
   isp s = 100%float ∧ dip s = 100%float ∧ overall s = 100%float).
Proof.
  intros Hlog s mean.
  set (t := countIssues issues).
  destruct (scoreOf_range (n_srp t) filesAnalyzed Hlog) as [A0 A1].
  destruct (scoreOf_range (n_ocp t) filesAnalyzed Hlog) as [B0 B1].
  destruct (scoreOf_range (n_lsp t) filesAnalyzed Hlog) as [C0 C1].
  destruct (scoreOf_range (n_isp t) filesAnalyzed Hlog) as [D0 D1].
  destruct (scoreOf_range (n_dip t) filesAnalyzed Hlog) as [E0 E1].
  destruct (mean_range _ _ _ _ _ A0 A1 B0 B1 C0 C1 D0 D1 E0 E1) as [M0 M1].
  destruct (round_range _ M0 M1) as (z & Hz & Vz & Lo & Hi & R0 & R1).
  split; [|split; [done|split; [|split]]].
  - repeat split.
    + apply (scoreOf_spec issues SRP).
    + apply (scoreOf_spec issues OCP).
    + apply (scoreOf_spec issues LSP).
    + apply (scoreOf_spec issues ISP).
    + apply (scoreOf_spec issues DIP).
  - by exists z.
  - by repeat constructor.
  - intros ->. subst s mean. unfold calculateScores, countIssues. simpl.
    rewrite !(scoreOf_none _ Hlog). by repeat split.
Qed.

End WithLog10.

(** C2 at a project of a million files with 13 points of penalty for one
    principle and 1 point for two others, should [Math.log10] of a million
    be 6: the mean is computed as 99.499999999999986 and the overall score
    is 99. *)
Lemma C2_calculateScores_witness :
  let s := calculateScores (λ _, 6%float) Examples.someIssues (10 ^ 6) in
  let mean := ((srp s + ocp s + lsp s + isp s + dip s) / 5)%float in
  (srp s = specScore (λ _, 6%float) SRP Examples.someIssues (10 ^ 6) ∧
   ocp s = specScore (λ _, 6%float) OCP Examples.someIssues (10 ^ 6) ∧
   lsp s = specScore (λ _, 6%float) LSP Examples.someIssues (10 ^ 6) ∧
   isp s = specScore (λ _, 6%float) ISP Examples.someIssues (10 ^ 6) ∧
   dip s = specScore (λ _, 6%float) DIP Examples.someIssues (10 ^ 6)) ∧
  overall s = Math_round mean ∧
  (∃ z : Z, (0 ≤ z ≤ 100)%Z ∧ (valueOf (overall s) == inject_Z z)%Q ∧
            (inject_Z z - (1 # 2) <= valueOf mean)%Q ∧
            (valueOf mean < inject_Z z + (1 # 2))%Q) ∧
  Forall (λ x, (0 <=? x)%float = true ∧ (x <=? 100)%float = true)
    [srp s; ocp s; lsp s; isp s; dip s; overall s] ∧
  (Examples.someIssues = [] →
   srp s = 100%float ∧ ocp s = 100%float ∧ lsp s = 100%float ∧
   isp s = 100%float ∧ dip s = 100%float ∧ overall s = 100%float).
Proof.
  apply (C2_calculateScores (λ _, 6%float) Examples.someIssues (10 ^ 6)).
  reflexivity.
Defined.

(** At that project the mean is computed as 99.499999999999986 and the
    overall score is 99. *)
Lemma scores_at_a_million_files :
  let s := calculateScores (λ _, 6%float) Examples.someIssues (10 ^ 6) in
  ((srp s + ocp s + lsp s + isp s + dip s) / 5)%float =
    0x1.8dfffffffffffp+6%float ∧
  overall s = 99%float.
Proof. by vm_compute. Qed.

End ScoreFacts.

(** ** Component graph *)
Module ComponentFacts.
Import Js Files Components.

Lemma fold_left_invariant {A B} (P : A → Prop) (f : A → B → A) l a :
  (∀ a x, P a → P (f a x)) → P a → P (fold_left f l a).
Proof.
  intros Hf. revert a. induction l as [|x l IH]; intros a Ha; simpl; auto.
Qed.

Local Abbreviation no_self_edges :=
  (λ acc : list ComponentNodeData * list ComponentRelationship,
     ∀ r, r ∈ acc.2 → rsource r ≠ rtarget r).

Lemma relate_no_self_edges s t acc :
  no_self_edges acc → no_self_edges (relate s t acc).
Proof.
  intros H. unfold relate.
  destruct (acc.1 !! s) as [sc|]; [|done].
  destruct (acc.1 !! t) as [tc|]; [|done].
  case_bool_decide as Hid; [done|]. simpl.
  intros r [Hr|Hr]%elem_of_app; [by apply H|].
  apply list_elem_of_singleton in Hr as ->. done.
Qed.

Lemma secondPass_no_self_edges entry acc :
  no_self_edges acc → no_self_edges (secondPass entry acc).
Proof.
  intros H. destruct entry as [path importedComponents]. unfold secondPass.
  case_bool_decide; [done|].
  apply (fold_left_invariant no_self_edges); [|done].
  intros acc1 importedName H1.
  apply (fold_left_invariant no_self_edges); [|done].
  intros acc2 s H2.
  apply (fold_left_invariant no_self_edges); [|done].
  intros acc3 t H3. by apply relate_no_self_edges.
Qed.

(** C6. No relationship of a component graph joins a component to
    itself: its source and target identifiers differ. *)
Theorem C6_no_self_edges (world : World) (fileData : list FileNode)
  (r : ComponentRelationship) :
  r ∈ relationships (analyzeComponents world fileData) →
  rsource r ≠ rtarget r.
Proof.
  unfold analyzeComponents.
  destruct (fold_left _ _ ([], [])) as [componentNodes importMap].
  pose proof (fold_left_invariant no_self_edges
                (λ acc entry, secondPass entry acc) importMap
                (componentNodes, [])) as H.
  destruct (fold_left _ importMap _) as [nodes rels]. simpl in *.
  apply H.
  - intros acc entry. apply secondPass_no_self_edges.
  - intros r' Hr'. by apply elem_of_nil in Hr'.
Qed.

Lemma C6_no_self_edges_witness :
  let r := {| rid := "/src/App.tsx:App->/src/Button.tsx:Button";
              rsource := "/src/App.tsx:App";
              rtarget := "/src/Button.tsx:Button" |} in
  r ∈ relationships (analyzeComponents (Examples.disk None) Examples.sources) ∧
  rsource r ≠ rtarget r.
Proof.
  intros r.
  assert (r ∈ relationships
                (analyzeComponents (Examples.disk None) Examples.sources)) as H.
  { vm_compute. left. }
  split; [exact H|].
  exact (C6_no_self_edges (Examples.disk None) Examples.sources r H).
Defined.

End ComponentFacts.

(** ** Source scanner *)
Module ScannerFacts.
Import Js Files FileSystem.

Lemma Dirent_ind' (P : Dirent → Prop) :
  (∀ name size, P (File name size)) →
  (∀ name, P (Dir name None)) →
  (∀ name entries, Forall P entries → P (Dir name (Some entries))) →
  (∀ name, P (Other name)) →
  ∀ e, P e.
Proof.
  intros HF HN HD HO. fix IH 1. intros [name size|name [entries|]|name].
  - apply HF.
  - apply HD. induction entries as [|e entries IHe]; constructor;
      [apply IH|apply IHe].
  - apply HN.
  - apply HO.
Qed.

(** *** Insertion sort *)
Section Sort.
Context {A : Type} (compare : A → A → Z).
Hypothesis Hanti : ∀ a b, (0 ≤ compare a b → compare b a ≤ 0)%Z.
Hypothesis Htrans : ∀ a b c,
  (compare a b ≤ 0 → compare b c ≤ 0 → compare a c ≤ 0)%Z.

Lemma elem_of_insert x y l : y ∈ insert compare x l ↔ y = x ∨ y ∈ l.
Proof.
  clear Hanti Htrans.
  induction l as [|z l IH]; simpl; [set_solver|].
  destruct (compare x z <? 0)%Z; [set_solver|].
  rewrite !elem_of_cons, IH. tauto.
Qed.

Lemma elem_of_sort y l : y ∈ sort compare l ↔ y ∈ l.
Proof.
  clear Hanti Htrans. unfold sort.
  assert (∀ acc, y ∈ fold_left (λ sorted x, insert compare x sorted) l acc
                 ↔ y ∈ l ∨ y ∈ acc) as H.
  { induction l as [|x l IH]; intros acc; simpl; [set_solver|].
    rewrite IH, elem_of_insert, elem_of_cons. tauto. }
  rewrite H. set_solver.
Qed.

Lemma insert_sorted x l :
  StronglySorted (λ a b, (compare a b ≤ 0)%Z) l →
  StronglySorted (λ a b, (compare a b ≤ 0)%Z) (insert compare x l).
Proof.
  induction 1 as [|y l Hl IH Hy]; simpl.
  - repeat constructor.
  - destruct (compare x y <? 0)%Z eqn:E.
    + apply Z.ltb_lt in E. constructor; [by constructor|].
      constructor; [lia|]. rewrite Forall_forall in Hy |- *.
      intros z Hz. apply (Htrans x y z); [lia|by apply Hy].
    + apply Z.ltb_ge in E. constructor; [done|].
      rewrite Forall_forall in Hy |- *. intros z Hz.
      apply elem_of_insert in Hz as [->|Hz]; [by apply Hanti|by apply Hy].
Qed.

Lemma sort_sorted l :
  StronglySorted (λ a b, (compare a b ≤ 0)%Z) (sort compare l).
Proof.
  unfold sort.
  assert (∀ acc, StronglySorted (λ a b, (compare a b ≤ 0)%Z) acc →
            StronglySorted (λ a b, (compare a b ≤ 0)%Z)
              (fold_left (λ sorted x, insert compare x sorted) l acc)) as H.
  { induction l as [|x l IH]; intros acc Hacc; simpl; [done|].
    by apply IH, insert_sorted. }
  apply H. constructor.
Qed.

End Sort.

Section WithLibraries.
Variable path : PathModule.
Variable localeCompare : string → string → Z.
Hypothesis Hanti : ∀ a b, (0 ≤ localeCompare a b → localeCompare b a ≤ 0)%Z.
Hypothesis Htrans : ∀ a b c,
  (localeCompare a b ≤ 0 → localeCompare b c ≤ 0 → localeCompare a c ≤ 0)%Z.

Lemma compareChildren_anti a b :
  (0 ≤ compareChildren localeCompare a b →
   compareChildren localeCompare b a ≤ 0)%Z.
Proof.
  unfold compareChildren.
  destruct (isDirectory a), (isDirectory b); simpl; try lia; apply Hanti.
Qed.

Lemma compareChildren_trans a b c :
  (compareChildren localeCompare a b ≤ 0 →
   compareChildren localeCompare b c ≤ 0 →
   compareChildren localeCompare a c ≤ 0)%Z.
Proof.
  unfold compareChildren.
  destruct (isDirectory a), (isDirectory b), (isDirectory c); simpl;
    try lia; apply Htrans.
Qed.

Lemma sorted_ordered l :
  StronglySorted (λ a b, (compareChildren localeCompare a b ≤ 0)%Z) l →
  ordered localeCompare l.
Proof.
  clear Hanti Htrans.
  induction 1 as [|a l Hl (dirs & files & -> & Hd & Hf & Hsd & Hsf) Ha].
  - exists [], []. repeat split; constructor.
  - rewrite Forall_forall in Ha.
    destruct (isDirectory a) eqn:Ea.
    + exists (a :: dirs), files. split; [done|]. split; [by constructor|].
      split; [done|]. split; [|done]. constructor; [done|].
      rewrite Forall_forall in Hd |- *. intros z Hz.
      specialize (Ha z ltac:(set_solver)). unfold compareChildren in Ha.
      by rewrite Ea, (Hd z Hz) in Ha.
    + assert (dirs = []) as ->.
      { destruct dirs as [|z dirs]; [done|]. exfalso.
        apply Forall_cons in Hd as [Hz _].
        specialize (Ha z ltac:(set_solver)). unfold compareChildren in Ha.
        rewrite Ea, Hz in Ha. simpl in Ha. lia. }
      exists [], (a :: files). split; [done|]. split; [constructor|].
      split; [by constructor|]. split; [constructor|]. constructor; [done|].
      rewrite Forall_forall in Hf |- *. intros z Hz.
      specialize (Ha z ltac:(set_solver)). unfold compareChildren in Ha.
      by rewrite Ea, (Hf z Hz) in Ha.
Qed.

Lemma sort_ordered l : ordered localeCompare (sort (compareChildren localeCompare) l).
Proof.
  apply sorted_ordered, sort_sorted.
  - apply compareChildren_anti.
  - apply compareChildren_trans.
Qed.

Local Abbreviation all_ordered :=
  (λ n, ∀ d, d ∈ directories n → ordered localeCompare (childrenOf d)).

Lemma processEntries_elem dirPath entries nodes n :
  processEntries path localeCompare dirPath entries = Some nodes →
  n ∈ nodes →
  ∃ e pushed, e ∈ entries ∧
    processEntry path localeCompare dirPath e = Some pushed ∧ n ∈ pushed.
Proof.
  unfold processEntries.
  revert nodes. induction entries as [|e entries IH]; intros nodes; simpl.
  - intros [= <-] Hn. by apply elem_of_nil in Hn.
  - destruct (processEntry _ _ _ e) as [pushed|] eqn:He; [|done].
    destruct (processAll _ entries) as [others|]; [|done].
    intros [= <-] [Hn|Hn]%elem_of_app.
    + exists e, pushed. split; [by left|done].
    + destruct (IH others eq_refl Hn) as (e' & p' & ? & ? & ?).
      exists e', p'. split; [by right|done].
Qed.

Lemma processEntry_ordered e : ∀ dirPath nodes n,
  processEntry path localeCompare dirPath e = Some nodes → n ∈ nodes →
  all_ordered n.
Proof.
  induction e as [name size|name|name entries IH|name] using Dirent_ind';
    intros dirPath nodes n; simpl.
  - case_bool_decide; [|by intros [= <-] ?%elem_of_nil].
    destruct size; [|done]. intros [= <-] Hn%list_elem_of_singleton. subst.
    intros d Hd. by apply elem_of_nil in Hd.
  - case_bool_decide; [by intros [= <-] ?%elem_of_nil|done].
  - case_bool_decide; [by intros [= <-] ?%elem_of_nil|].
    fold (processEntries path localeCompare (join path dirPath name) entries).
    destruct (processEntries _ _ _ entries) as [children|] eqn:Hc; [|done].
    intros [= <-] Hn%list_elem_of_singleton. subst. simpl.
    intros d [->|Hd]%elem_of_cons; simpl; [apply sort_ordered|].
    apply list_elem_of_In, in_flat_map in Hd as (c & Hc' & Hd).
    apply list_elem_of_In, elem_of_sort in Hc'.
    destruct (processEntries_elem _ _ _ _ Hc Hc') as (e & pushed & He & Hp & Hin).
    rewrite Forall_forall in IH.
    apply (IH e He _ _ _ Hp Hin). by apply list_elem_of_In.
  - by intros [= <-] ?%elem_of_nil.
Qed.

Lemma scan_ordered projectRoot listing tree :
  scanProjectDirectory path localeCompare projectRoot listing = Some tree →
  all_ordered tree.
Proof.
  unfold scanProjectDirectory, buildDirectoryTree.
  destruct listing as [entries|]; [|done]. simpl.
  destruct (processEntries _ _ _ entries) as [children|] eqn:Hc; [|done].
  simpl. intros [= <-] d [->|Hd]%elem_of_cons; simpl; [apply sort_ordered|].
  apply list_elem_of_In, in_flat_map in Hd as (c & Hc' & Hd).
  apply list_elem_of_In, elem_of_sort in Hc'.
  destruct (processEntries_elem _ _ _ _ Hc Hc') as (e & pushed & He & Hp & Hin).
  apply (processEntry_ordered e _ _ _ Hp Hin). by apply list_elem_of_In.
Qed.

End WithLibraries.

Local Ltac lt_cycle :=
  exfalso; unfold String_as_OT.eq in *; subst;
  match goal with
  | H : String_as_OT.lt ?x ?x |- _ =>
      exact (irreflexivity String_as_OT.lt x H)
  | H1 : String_as_OT.lt ?x ?y, H2 : String_as_OT.lt ?y ?x |- _ =>
      exact (irreflexivity String_as_OT.lt x (transitivity H1 H2))
  | H1 : String_as_OT.lt ?x ?y, H2 : String_as_OT.lt ?y ?z,
    H3 : String_as_OT.lt ?z ?x |- _ =>
      exact (irreflexivity String_as_OT.lt x
               (transitivity H1 (transitivity H2 H3)))
  end.

Lemma lexCompare_anti a b :
  (0 ≤ Examples.lexCompare a b → Examples.lexCompare b a ≤ 0)%Z.
Proof.
  unfold Examples.lexCompare.
  destruct (String_as_OT.compare_spec a b) as [Hab|Hab|Hab];
    destruct (String_as_OT.compare_spec b a) as [Hba|Hba|Hba]; try lia;
    lt_cycle.
Qed.

Lemma lexCompare_trans a b c :
  (Examples.lexCompare a b ≤ 0 → Examples.lexCompare b c ≤ 0 →
   Examples.lexCompare a c ≤ 0)%Z.
Proof.
  unfold Examples.lexCompare.
  destruct (String_as_OT.compare_spec a b) as [Hab|Hab|Hab];
    destruct (String_as_OT.compare_spec b c) as [Hbc|Hbc|Hbc];
    destruct (String_as_OT.compare_spec a c) as [Hac|Hac|Hac]; try lia;
    lt_cycle.
Qed.

(** C5. In every tree that the scanner returns, the children of every
    directory list the directories before the files, each group in the
    order of the names under [localeCompare] (a consistent comparator). *)
Theorem C5_children_sorted (path : PathModule)
  (localeCompare : string → string → Z) (projectRoot : string)
  (listing : option (list Dirent)) (tree d : TreeNode) :
  (∀ a b, (0 ≤ localeCompare a b → localeCompare b a ≤ 0)%Z) →
  (∀ a b c, (localeCompare a b ≤ 0 → localeCompare b c ≤ 0 →
             localeCompare a c ≤ 0)%Z) →
  scanProjectDirectory path localeCompare projectRoot listing = Some tree →
  d ∈ directories tree →
  ordered localeCompare (childrenOf d).
Proof.
  intros Hanti Htrans Hscan. by eapply scan_ordered.
Qed.

Lemma C5_children_sorted_witness :
  ∃ tree,
    scanProjectDirectory Posix.path Examples.lexCompare "/proj"
      (Some Examples.projectListing) = Some tree ∧
    (nodeName <$> childrenOf tree) =
      ["docs"; "src"; "README.md"; "next.config.js"] ∧
    ordered Examples.lexCompare (childrenOf tree).
Proof.
  eexists. split; [vm_compute; reflexivity|]. split; [reflexivity|].
  eapply (C5_children_sorted Posix.path Examples.lexCompare "/proj"
            (Some Examples.projectListing)).
  - apply lexCompare_anti.
  - apply lexCompare_trans.
  - vm_compute. reflexivity.
  - left.
Defined.

End ScannerFacts.

(** ** Runs of the pipeline: what a run reads *)
Module PipelineFacts.
Import Js Files Pipeline ComponentFacts DfsFacts.

Lemma fold_left_agree {A B} (f g : A → B → A) l a :
  (∀ x, x ∈ l → ∀ a, f a x = g a x) → fold_left f l a = fold_left g l a.
Proof.
  revert a. induction l as [|x l IH]; intros a H; simpl; [done|].
  rewrite H by (by left). apply IH. intros y Hy. apply H. by right.
Qed.

Section Agreement.
Variable path : PathModule.
Variable log10 : float → float.
Variables world1 world2 : World.
Variable fileData : list FileNode.
Hypothesis Hagree :
  ∀ f, f ∈ fileData → isScriptFile f = true →
       world1 (file_path f) = world2 (file_path f).

Lemma scripts_agree f :
  f ∈ filter (λ f, isScriptFile f = true) fileData →
  world1 (file_path f) = world2 (file_path f).
Proof. intros [Hs Hf]%list_elem_of_filter. by apply Hagree. Qed.

Lemma analyzeComponents_agree :
  Components.analyzeComponents world1 fileData =
  Components.analyzeComponents world2 fileData.
Proof.
  unfold Components.analyzeComponents.
  rewrite (fold_left_agree
             (λ acc file, Components.firstPass world1 file acc)
             (λ acc file, Components.firstPass world2 file acc)); [done|].
  intros f Hf acc. unfold Components.firstPass. by rewrite scripts_agree.
Qed.

Lemma analyzeDependencies_agree :
  Dependency.analyzeDependencies path world1 fileData =
  Dependency.analyzeDependencies path world2 fileData.
Proof.
  unfold Dependency.analyzeDependencies, Dependency.firstPass.
  rewrite (fold_left_agree
             (λ acc file, Dependency.analyzeFile path world1 file acc)
             (λ acc file, Dependency.analyzeFile path world2 file acc));
    [done|].
  intros f Hf acc. unfold Dependency.analyzeFile. by rewrite scripts_agree.
Qed.

Lemma analyzeSolid_agree :
  Solid.analyzeSolid log10 world1 fileData =
  Solid.analyzeSolid log10 world2 fileData.
Proof.
  unfold Solid.analyzeSolid.
  rewrite (fold_left_agree
             (λ acc file, Solid.analyzeFile world1 file acc)
             (λ acc file, Solid.analyzeFile world2 file acc)); [done|].
  intros f Hf acc. unfold Solid.analyzeFile. by rewrite scripts_agree.
Qed.

End Agreement.

End PipelineFacts.

(** ** The dependency graph as a whole *)
Module DependencyFacts.
Import Js JsFacts Ast Files Parser Dependency Graph GraphFacts DfsFacts
  GraphMore.

(** *** Maps in insertion order *)

Lemma map_get_set {V} k k' (v : V) m :
  map_get k' (map_set k v m) =
  if bool_decide (k = k') then Some v else map_get k' m.
Proof.
  induction m as [|[k0 v0] m IH]; simpl.
  - repeat case_bool_decide; done.
  - repeat (case_bool_decide; simpl; simplify_eq); try done.
    all: rewrite IH; by repeat (case_bool_decide; simplify_eq).
Qed.

Lemma elem_of_map_keys_set {V} k k' (v : V) m :
  k' ∈ map_keys (map_set k v m) ↔ k' = k ∨ k' ∈ map_keys m.
Proof.
  unfold map_keys. induction m as [|[k0 v0] m IH]; simpl.
  - set_solver.
  - case_bool_decide; simpl; [set_solver|].
    rewrite !elem_of_cons, IH. tauto.
Qed.

Lemma map_keys_set_NoDup {V} k (v : V) m :
  NoDup (map_keys m) → NoDup (map_keys (map_set k v m)).
Proof.
  unfold map_keys. induction m as [|[k0 v0] m IH]; simpl; intros Hnd.
  - repeat constructor. by intros ?%elem_of_nil.
  - apply NoDup_cons in Hnd as [Hk0 Hnd].
    case_bool_decide; simpl; [by constructor|].
    constructor; [|by apply IH].
    intros Hin. apply (elem_of_map_keys_set k k0 v m) in Hin as [->|Hin]; done.
Qed.

Lemma map_set_Forall {V} (P : string * V → Prop) k v m :
  P (k, v) → Forall P m → Forall P (map_set k v m).
Proof.
  intros Hkv. induction 1 as [|[k0 v0] m H0 Hm IH]; simpl.
  - by repeat constructor.
  - case_bool_decide; simplify_eq; constructor; done.
Qed.

Lemma map_get_Some_elem {V} k (v : V) m : map_get k m = Some v → (k, v) ∈ m.
Proof.
  induction m as [|[k0 v0] m IH]; simpl; [done|].
  case_bool_decide; [intros [= <-]; subst; by left|right; auto].
Qed.

Lemma map_get_is_Some {V} k (m : list (string * V)) :
  is_Some (map_get k m) ↔ k ∈ map_keys m.
Proof.
  unfold map_keys. induction m as [|[k0 v0] m IH]; simpl.
  - split; [by intros [? ?]|by intros ?%elem_of_nil].
  - case_bool_decide; simplify_eq.
    + split; [by left|by eexists].
    + rewrite IH, elem_of_cons. naive_solver.
Qed.

(** *** The set of imports of one file *)

Lemma add_NoDup x s : NoDup s → NoDup (add x s).
Proof.
  intros H. unfold add. destruct (has x s) eqn:E; [done|].
  apply has_false in E. apply NoDup_app. split; [done|].
  split; [|apply NoDup_singleton].
  intros y Hy Hy'%list_elem_of_singleton. by subst.
Qed.

Section WithPath.
Variable path : PathModule.

Lemma collectImport_NoDup file spec acc :
  NoDup acc → NoDup (collectImport path file spec acc).
Proof.
  intros H. unfold collectImport.
  destruct (negb _); [done|]. destruct (resolveImportPath _ _ _); [|done].
  destruct (truthy _); [by apply add_NoDup|done].
Qed.

Lemma elem_of_collectImport file spec acc p :
  p ∈ collectImport path file spec acc ↔
  p ∈ acc ∨ (isLocalImport spec = true ∧
             resolveImportPath path file spec = Some p ∧ truthy p = true).
Proof.
  unfold collectImport. destruct (isLocalImport spec); simpl.
  2: { split; [by left|]. by intros [?|[? _]]. }
  destruct (resolveImportPath _ _ _) as [q|].
  2: { split; [by left|]. by intros [?|(_ & ? & _)]. }
  destruct (truthy q) eqn:Eq.
  - rewrite elem_of_add. split.
    + intros [->|?]; [by right|by left].
    + intros [?|(_ & [= ->] & _)]; [by right|by left].
  - split; [by left|]. intros [?|(_ & [= ->] & ?)]; [done|congruence].
Qed.

Lemma collectImports_fold file specs acc :
  (NoDup acc →
   NoDup (fold_left (λ acc s, collectImport path file s acc) specs acc)) ∧
  ∀ p, p ∈ fold_left (λ acc s, collectImport path file s acc) specs acc ↔
       p ∈ acc ∨ ∃ s, s ∈ specs ∧ isLocalImport s = true ∧
                      resolveImportPath path file s = Some p ∧
                      truthy p = true.
Proof.
  revert acc. induction specs as [|s specs IH]; intros acc; simpl.
  - split; [done|]. intros p. split; [by left|].
    intros [?|(s & Hs & _)]; [done|]. by apply elem_of_nil in Hs.
  - destruct (IH (collectImport path file s acc)) as [IH1 IH2].
    split; [intros H; by apply IH1, collectImport_NoDup|].
    intros p. rewrite IH2, elem_of_collectImport. split.
    + intros [[?|?]|(s' & Hs' & ?)]; [by left|right..].
      * exists s. split; [by left|done].
      * exists s'. split; [by right|done].
    + intros [?|(s' & [->|Hs']%elem_of_cons & ?)].
      * by left; left.
      * by left; right.
      * right. by exists s'.
Qed.

(** *** The first pass of [analyzeDependencies] *)

Local Abbreviation step world :=
  (λ acc file, analyzeFile path world file acc).

Local Abbreviation empty :=
  {| dependencyNodes := []; filePathToModuleName := []; dependencyMap := [] |}.

Lemma fold_nodes world files acc :
  dep_id <$> dependencyNodes (fold_left (step world) files acc) =
  (dep_id <$> dependencyNodes acc) ++
  (file_path <$> filter (λ f, is_Some (world (file_path f))) files).
Proof.
  revert acc. induction files as [|f files IH]; intros acc; simpl.
  - by rewrite app_nil_r.
  - rewrite IH. unfold analyzeFile.
    destruct (world (file_path f)) as [ast|] eqn:E.
    + rewrite filter_cons_True by (by rewrite E).
      simpl. by rewrite fmap_app, <-(assoc_L (++)).
    + rewrite filter_cons_False; [done|]. rewrite E. by intros [? ?].
Qed.

Lemma pass_ok_empty : pass_ok path empty.
Proof.
  split; simpl; try done.
  - constructor.
  - constructor.
  - intros k ?%elem_of_nil. done.
  - intros n ?%elem_of_nil. done.
Qed.

Lemma pass_ok_step world file acc :
  pass_ok path acc → pass_ok path (analyzeFile path world file acc).
Proof.
  intros [Hs Hk Hn Hnm Hi He]. unfold analyzeFile.
  destruct (world (file_path file)) as [ast|]; [|done].
  set (imports := collectImports path (file_path file) _).
  assert (NoDup imports) as Hnd.
  { by apply (collectImports_fold (file_path file) _ []), NoDup_nil. }
  split; simpl.
  - by apply map_set_Forall.
  - by apply map_keys_set_NoDup.
  - intros k. rewrite elem_of_map_keys_set, fmap_app, elem_of_app, Hn.
    simpl. rewrite list_elem_of_singleton. tauto.
  - intros k Hkin. rewrite map_get_set. case_bool_decide; [by subst|].
    apply Hnm. apply elem_of_map_keys_set in Hkin as [->|?]; done.
  - intros k v. rewrite map_get_set. case_bool_decide.
    + intros [= <-]. eexists. split; [apply elem_of_app; right; by left|].
      done.
    + intros (n & ? & ?)%Hi. exists n. split; [|done].
      apply elem_of_app. by left.
  - intros n [?|Hn'%list_elem_of_singleton]%elem_of_app; [by apply He|].
    by subst.
Qed.

Lemma firstPass_ok world fileData :
  pass_ok path (firstPass path world fileData).
Proof.
  unfold firstPass.
  apply (ComponentFacts.fold_left_invariant (pass_ok path));
    [intros; by apply pass_ok_step|apply pass_ok_empty].
Qed.

End WithPath.

(** *** Successors on a cycle *)

Lemma cycle_follows m c x :
  simple_cycle m c → x ∈ c → ∃ y, follows c x y ∧ y ∈ c ∧ edge m x y.
Proof.
  intros (Hne & _ & Hw & Hc) Hx.
  apply list_elem_of_lookup in Hx as [i Hi].
  destruct (c !! S i) as [y|] eqn:Hy.
  - exists y. split; [exists i; auto|].
    split; [by eapply list_elem_of_lookup_2|by eapply Hw].
  - destruct c as [|h c']; [done|]. exists h.
    apply lookup_ge_None in Hy. apply lookup_lt_Some in Hi as Hlt.
    split; [exists i; split; [done|right; split; [lia|done]]|].
    split; [by left|].
    apply Hc; [|done]. rewrite last_lookup.
    replace (pred (length (h :: c'))) with i by lia. done.
Qed.

(** The state in which the detector stops. *)
Lemma detect_final m names res :
  sets_ok m → detectCircularDependencies m names = Some res →
  ∃ st raw, Inv m names [] st raw ∧ res = mkCycle names <$> raw ∧
            ∀ k, k ∈ map_keys m → k ∈ visited st.
Proof.
  intros Hsets Hres. unfold detectCircularDependencies in Hres.
  destruct (forOf _ _ _) as [st'|] eqn:Hrun; [|done].
  simpl in Hres. injection Hres as <-.
  apply (toplevel_spec m names Hsets _ _ _ []) in Hrun
    as (new & _ & HI & _ & Hkeys); [|by apply Inv_init].
  simpl in HI. exists st', new. split; [done|].
  split; [apply (inv_out _ _ _ _ _ HI)|done].
Qed.

(** X1. Whatever the detector reports is there: every record lists the
    labels of the members of a simple cycle of the import graph, in
    import order, and no two records list the same set of members. *)
Theorem detect_reports_cycles (m : list (string * list string))
  (names : list (string * string)) (res : list CircularDependency) :
  sets_ok m →
  detectCircularDependencies m names = Some res →
  ∃ raw, res = mkCycle names <$> raw ∧
         (∀ r, r ∈ raw → simple_cycle m r) ∧
         (∀ i j r r', (i < j)%nat → raw !! i = Some r → raw !! j = Some r' →
                      ¬ same_members r r').
Proof.
  intros Hsets Hres.
  destruct (detect_final m names res Hsets Hres) as (st' & new & HI & -> & _).
  exists new. split; [done|].
  split; [apply (inv_sound _ _ _ _ _ HI)|].
  intros i j r r' Hij Hi Hj.
  apply list_elem_of_split_length in Hj as (l1 & l2 & -> & Hlen).
  apply (inv_distinct _ _ _ _ _ HI l1 r' l2 eq_refl r).
  rewrite lookup_app_l in Hi by lia. by eapply list_elem_of_lookup_2.
Qed.

Lemma detect_reports_cycles_witness :
  ∃ raw, [{| cd_path := ["b.ts"; "c.ts"; "a.ts"]; cd_severity := warning |}] =
         mkCycle Examples.cycleNames <$> raw ∧
         (∀ r, r ∈ raw → simple_cycle Examples.cycleMap r) ∧
         (∀ i j r r', (i < j)%nat → raw !! i = Some r → raw !! j = Some r' →
                      ¬ same_members r r').
Proof.
  apply (detect_reports_cycles Examples.cycleMap Examples.cycleNames).
  - apply (bool_decide_unpack _). vm_compute. exact I.
  - vm_compute. reflexivity.
Defined.

(** X2. Nothing is missed altogether: on every simple cycle of the
    import graph there is an import [x -> y] with which a reported cycle
    closes (the record runs from [y] to [x]); hence the detector reports
    nothing exactly when the graph has no cycle. *)
Theorem detect_misses_no_cycle (m : list (string * list string))
  (names : list (string * string)) :
  sets_ok m →
  ∃ raw, detectCircularDependencies m names = Some (mkCycle names <$> raw) ∧
         (∀ c, simple_cycle m c →
               ∃ r x y, r ∈ raw ∧ follows c x y ∧ edge m x y ∧
                        head r = Some y ∧ last r = Some x) ∧
         (raw = [] ↔ acyclic m).
Proof.
  intros Hsets.
  destruct (detect_total m names) as [res Hres]. rewrite Hres.
  destruct (detect_final m names res Hsets Hres)
    as (st' & new & HI & -> & Hkeys).
  exists new. split; [done|].
  assert (∀ c, simple_cycle m c →
               ∃ r x y, r ∈ new ∧ follows c x y ∧ edge m x y ∧
                        head r = Some y ∧ last r = Some x) as Hall.
  { intros c Hc.
    assert (∃ x, x ∈ c) as [x Hx].
    { destruct Hc as [Hne _]. destruct c as [|x ?]; [done|].
      exists x. by left. }
    assert (x ∈ visited st') as Hv.
    { destruct (cycle_follows m c x Hc Hx) as (y & _ & _ & He).
      by eapply Hkeys, edge_key. }
    destruct (first_member c (visited st') x Hv Hx)
      as (l1 & z & l2 & Heq & Hz & Hl1).
    destruct (cycle_follows m c z Hc Hz) as (y & Hf & Hy & He).
    destruct (inv_closed _ _ _ _ _ HI l1 z l2 Heq y He)
      as [Hin|(r & Hr & Hh & Hl)].
    - by apply Hl1 in Hin.
    - by exists r, z, y. }
  split; [done|]. split.
  - intros -> c Hc. destruct (Hall c Hc) as (r & _ & _ & Hr & _).
    by apply elem_of_nil in Hr.
  - intros Hacyc. destruct new as [|r new]; [done|].
    exfalso. apply (Hacyc r), (inv_sound _ _ _ _ _ HI). by left.
Qed.

Lemma detect_misses_no_cycle_witness :
  ∃ raw, detectCircularDependencies Examples.cycleMap Examples.cycleNames =
           Some (mkCycle Examples.cycleNames <$> raw) ∧
         (∀ c, simple_cycle Examples.cycleMap c →
               ∃ r x y, r ∈ raw ∧ follows c x y ∧
                        edge Examples.cycleMap x y ∧
                        head r = Some y ∧ last r = Some x) ∧
         (raw = [] ↔ acyclic Examples.cycleMap).
Proof.
  apply (detect_misses_no_cycle Examples.cycleMap Examples.cycleNames).
  apply (bool_decide_unpack _). vm_compute. exact I.
Defined.

(** X3. The set of imports recorded for a file has no duplicates and
    holds exactly the resolved paths of its local import specifiers
    (those that start with [.] or [/]); a package import never enters
    the graph. *)
Theorem collectImports_local (path : PathModule) (file : string)
  (specifiers : list string) :
  NoDup (collectImports path file specifiers) ∧
  ∀ p, p ∈ collectImports path file specifiers ↔
       ∃ s, s ∈ specifiers ∧
            (startsWith s "." = true ∨ startsWith s "/" = true) ∧
            resolveImportPath path file s = Some p ∧ p ≠ "".
Proof.
  destruct (collectImports_fold path file specifiers []) as [H1 H2].
  split; [apply H1, NoDup_nil_2|]. intros p. unfold collectImports.
  rewrite H2. split.
  - intros [?%elem_of_nil|(s & Hs & Hl & Hr & Ht)]; [done|].
    exists s. split; [done|]. unfold isLocalImport in Hl.
    apply orb_true_iff in Hl. split; [done|]. split; [done|].
    by intros ->.
  - intros (s & Hs & Hl & Hr & Hp). right. exists s. split; [done|].
    split; [by apply orb_true_iff|]. split; [done|]. by destruct p.
Qed.

(** X4. [analyzeDependencies] always returns a graph.  Its nodes are the
    script files that could be parsed, in the order of the file data;
    the adjacency map it hands to the cycle detector has one key per
    node identifier and duplicate-free values taken from the nodes; and
    each circular-dependency record lists, by file name, the members of
    a simple cycle of that map. *)
Theorem analyzeDependencies_graph (path : PathModule) (world : World)
  (fileData : list FileNode) :
  let pass := firstPass path world fileData in
  let label := λ p, if truthy (basename path p) then basename path p else p in
  ∃ raw,
    analyzeDependencies path world fileData =
      Some {| dependencies := dependencyNodes pass;
              graph_circularDependencies :=
                (λ r, {| cd_path := label <$> r;
                         cd_severity := severityOf r |}) <$> raw |} ∧
    dep_id <$> dependencyNodes pass =
      file_path <$> filter (λ f, is_Some (world (file_path f)))
                      (filter (λ f, isScriptFile f = true) fileData) ∧
    sets_ok (dependencyMap pass) ∧
    NoDup (map_keys (dependencyMap pass)) ∧
    (∀ x y, edge (dependencyMap pass) x y →
            ∃ n, n ∈ dependencyNodes pass ∧ dep_id n = x ∧
                 y ∈ dep_imports n) ∧
    (∀ r, r ∈ raw → simple_cycle (dependencyMap pass) r ∧
                    ∀ x, x ∈ r → x ∈ dep_id <$> dependencyNodes pass).
Proof.
  intros pass label.
  pose proof (firstPass_ok path world fileData) as [Hs Hk Hn Hnm Hi He].
  fold pass in Hs, Hk, Hn, Hnm, Hi, He.
  destruct (detect_total (dependencyMap pass) (filePathToModuleName pass))
    as [res Hres].
  destruct (detect_final (dependencyMap pass) (filePathToModuleName pass)
              res Hs Hres) as (st' & raw & HI & -> & _).
  pose proof (inv_sound _ _ _ _ _ HI) as Hraw.
  assert (∀ r x, r ∈ raw → x ∈ r → x ∈ map_keys (dependencyMap pass)) as Hin.
  { intros r x Hr Hx.
    destruct (cycle_follows _ r x (Hraw r Hr) Hx) as (y & _ & _ & Hxy).
    by eapply edge_key. }
  exists raw. split; [|split; [|split; [done|split; [done|split]]]].
  - unfold analyzeDependencies. fold pass. rewrite Hres. simpl.
    do 2 f_equal. apply Forall_fmap_ext, Forall_forall.
    intros r Hr. unfold mkCycle.
    assert (moduleName (filePathToModuleName pass) <$> r = label <$> r) as ->.
    { apply Forall_fmap_ext, Forall_forall. intros x Hx.
      unfold moduleName, label. by rewrite (Hnm x (Hin r x Hr Hx)). }
    unfold severityOf. by rewrite length_fmap.
  - unfold pass, firstPass. by rewrite fold_nodes.
  - intros x y Hxy. unfold edge, dependenciesOf in Hxy.
    destruct (map_get x (dependencyMap pass)) as [v|] eqn:E;
      [|by apply elem_of_nil in Hxy].
    destruct (Hi x v E) as (n & ? & ? & <-). by exists n.
  - intros r Hr. split; [by apply Hraw|]. intros x Hx. by eapply Hn, Hin.
Qed.

End DependencyFacts.

(** ** The dependency diagram *)
Module DiagramFacts.
Import Js JsFacts Dependency Diagram.

Lemma append_cons x (a b : string) : String x a +:+ b = String x (a +:+ b).
Proof. reflexivity. Qed.

Lemma append_assoc (a b c : string) : (a +:+ b) +:+ c = a +:+ b +:+ c.
Proof.
  induction a as [|x a IH]; [done|]. by rewrite !append_cons, IH.
Qed.

Lemma append_nil_r (a : string) : a +:+ "" = a.
Proof. induction a as [|x a IH]; [done|]. by rewrite append_cons, IH. Qed.

Lemma concatAll_cons x l : concatAll (x :: l) = x +:+ concatAll l.
Proof. reflexivity. Qed.

Lemma concatAll_app l1 l2 :
  concatAll (l1 ++ l2) = concatAll l1 +:+ concatAll l2.
Proof.
  induction l1 as [|x l1 IH]; [done|].
  by rewrite <-app_comm_cons, !concatAll_cons, IH, append_assoc.
Qed.

Lemma fold_lines {A} (f : A → string) l d :
  fold_left (λ d x, d +:+ f x) l d = d +:+ concatAll (f <$> l).
Proof.
  revert d. induction l as [|x l IH]; intros d.
  - apply eq_sym, append_nil_r.
  - rewrite fmap_cons, concatAll_cons. cbn [fold_left].
    by rewrite IH, append_assoc.
Qed.

Lemma isAlphanumeric_ascii u : isAlphanumeric u = true → (u < 128)%N.
Proof.
  unfold isAlphanumeric.
  rewrite !orb_true_iff, !andb_true_iff, !N.leb_le. lia.
Qed.

Lemma sanitizeUnit_ascii u : (N_of_ascii (sanitizeUnit u) < 128)%N.
Proof.
  unfold sanitizeUnit. destruct (isAlphanumeric u) eqn:E; [|by vm_compute].
  apply isAlphanumeric_ascii in E. rewrite N_ascii_embedding; lia.
Qed.

Lemma sanitizeUnit_again u :
  sanitizeUnit (N_of_ascii (sanitizeUnit u)) = sanitizeUnit u.
Proof.
  unfold sanitizeUnit at 2 3. destruct (isAlphanumeric u) eqn:E; [|done].
  pose proof (isAlphanumeric_ascii u E).
  rewrite N_ascii_embedding by lia. unfold sanitizeUnit. by rewrite E.
Qed.

(** A text of ASCII characters has one code unit per byte. *)
Lemma codeUnits_ascii (l : list ascii) :
  Forall (λ c, (N_of_ascii c < 128)%N) l →
  codeUnits (string_of_list_ascii l) = N_of_ascii <$> l.
Proof.
  induction 1 as [|c l Hc Hl IH]; [done|]. cbn [string_of_list_ascii codeUnits].
  rewrite (proj2 (N.ltb_lt _ _) Hc). by rewrite IH.
Qed.

Lemma get_of_list (l : list ascii) i :
  String.get i (string_of_list_ascii l) = l !! i.
Proof.
  revert i. induction l as [|c l IH]; intros [|i]; simpl; done.
Qed.

Lemma length_of_list (l : list ascii) :
  String.length (string_of_list_ascii l) = length l.
Proof. induction l as [|c l IH]; simpl; [done|]. by rewrite IH. Qed.

(** X5. The identifier that the diagram gives a node is made of letters,
    digits and underscores only, one character per UTF-16 code unit of
    the node's path: a letter or a digit stays, anything else becomes an
    underscore; replacing again changes nothing. *)
Theorem sanitize_identifier (id : string) :
  Forall (λ c, isAlphanumeric (N_of_ascii c) = true ∨ c = "_"%char)
    (chars (sanitize id)) ∧
  String.length (sanitize id) = length (codeUnits id) ∧
  (∀ i u, codeUnits id !! i = Some u →
          String.get i (sanitize id) =
          Some (if isAlphanumeric u then ascii_of_N u else "_"%char)) ∧
  sanitize (sanitize id) = sanitize id.
Proof.
  unfold sanitize, chars. rewrite list_ascii_of_string_of_list_ascii.
  split; [|split; [|split]].
  - apply Forall_fmap, Forall_forall. intros u _. simpl.
    unfold sanitizeUnit. destruct (isAlphanumeric u) eqn:E; [|by right].
    left. pose proof (isAlphanumeric_ascii u E).
    by rewrite N_ascii_embedding by lia.
  - by rewrite length_of_list, length_fmap.
  - intros i u Hu. by rewrite get_of_list, list_lookup_fmap, Hu.
  - rewrite codeUnits_ascii
      by (apply Forall_fmap, Forall_forall; intros u _; apply sanitizeUnit_ascii).
    rewrite <-!list_fmap_compose. apply (f_equal string_of_list_ascii).
    apply list_fmap_ext. intros i u _. apply sanitizeUnit_again.
Qed.

(** A path with a character outside ASCII: the [é] of [café], two bytes,
    is one code unit and gives one underscore. *)
Lemma sanitize_accented :
  nodeIdOf "/src/café.ts" = "node__src_caf__ts" ∧
  length (codeUnits "/src/café.ts") = 12%nat ∧
  String.length "/src/café.ts" = 13%nat.
Proof. by vm_compute. Qed.

(** *** The edges *)

Section WithGraph.
Variable graph : DependencyGraph.

Local Abbreviation target importPath :=
  (find (λ d, bool_decide (dep_id d = importPath)) (dependencies graph)).

Local Abbreviation ids es :=
  ((λ e : DependencyNode * DependencyNode, edgeIdOf e.1 e.2) <$> es).

Local Abbreviation lines es :=
  ((λ e : DependencyNode * DependencyNode, edgeLine graph e.1 e.2) <$> es).

(** The state after some edges [es] were drawn. *)
Local Abbreviation drawn d0 st es :=
  (diagram st = d0 +:+ concatAll (lines es) ∧
   processedEdges st = ids es ∧ NoDup (ids es)).

Lemma addEdge_drawn d0 node importPath st es :
  drawn d0 st es →
  ∃ es', drawn d0 (addEdge graph node importPath st) (es ++ es') ∧
         (∀ e, e ∈ es' → e.1 = node ∧ target importPath = Some e.2) ∧
         (∀ t, target importPath = Some t → edgeIdOf node t ∈ ids (es ++ es')).
Proof.
  intros (Hd & Hp & Hnd). unfold addEdge.
  destruct (target importPath) as [t|] eqn:Ht.
  - destruct (has _ _) eqn:Hhas.
    + exists []. rewrite app_nil_r. split; [done|].
      split; [by intros e ?%elem_of_nil|].
      intros t' [= <-]. apply has_true in Hhas. by rewrite <-Hp.
    + exists [(node, t)]. apply has_false in Hhas. rewrite Hp in Hhas.
      split; [|split].
      * simpl. rewrite !fmap_app, concatAll_app. simpl.
        rewrite Hd, Hp, append_assoc, append_nil_r.
        split; [done|]. split; [by apply add_fresh|].
        apply NoDup_app. split; [done|]. split; [|apply NoDup_singleton].
        intros x Hx Hx'%list_elem_of_singleton. by subst.
      * intros e He%list_elem_of_singleton. by subst.
      * intros t' [= <-]. rewrite fmap_app. apply elem_of_app. right.
        by left.
  - exists []. rewrite app_nil_r. split; [done|].
    split; [by intros e ?%elem_of_nil|done].
Qed.

Lemma imports_drawn d0 node imports : ∀ st es,
  drawn d0 st es →
  ∃ es', drawn d0 (fold_left (λ st importPath,
                     addEdge graph node importPath st) imports st)
           (es ++ es') ∧
         (∀ e, e ∈ es' → e.1 = node ∧
               ∃ p, p ∈ imports ∧ target p = Some e.2) ∧
         (∀ p t, p ∈ imports → target p = Some t →
                 edgeIdOf node t ∈ ids (es ++ es')).
Proof.
  induction imports as [|p imports IH]; intros st es Hdr; simpl.
  - exists []. rewrite app_nil_r. split; [done|].
    split; [by intros e ?%elem_of_nil|by intros p t ?%elem_of_nil].
  - destruct (addEdge_drawn d0 node p st es Hdr) as (es1 & Hdr1 & Hin1 & Hall1).
    destruct (IH _ _ Hdr1) as (es2 & Hdr2 & Hin2 & Hall2).
    exists (es1 ++ es2). rewrite (assoc_L (++)). split; [done|]. split.
    + intros e [He|He]%elem_of_app.
      * destruct (Hin1 e He) as [? ?]. split; [done|].
        exists p. split; [by left|done].
      * destruct (Hin2 e He) as (? & p' & ? & ?). split; [done|].
        exists p'. split; [by right|done].
    + intros p' t [->|Hp']%elem_of_cons Ht; [|by eapply Hall2].
      rewrite fmap_app. apply elem_of_app. left. by apply Hall1.
Qed.

Lemma nodes_drawn d0 nodes : ∀ st es,
  drawn d0 st es →
  ∃ es', drawn d0 (fold_left (λ st node,
                     fold_left (λ st importPath,
                       addEdge graph node importPath st)
                       (dep_imports node) st) nodes st)
           (es ++ es') ∧
         (∀ e, e ∈ es' → e.1 ∈ nodes ∧
               ∃ p, p ∈ dep_imports e.1 ∧ target p = Some e.2) ∧
         (∀ n p t, n ∈ nodes → p ∈ dep_imports n → target p = Some t →
                   edgeIdOf n t ∈ ids (es ++ es')).
Proof.
  induction nodes as [|n nodes IH]; intros st es Hdr; simpl.
  - exists []. rewrite app_nil_r. split; [done|].
    split; [by intros e ?%elem_of_nil|by intros n p t ?%elem_of_nil].
  - destruct (imports_drawn d0 n (dep_imports n) st es Hdr)
      as (es1 & Hdr1 & Hin1 & Hall1).
    destruct (IH _ _ Hdr1) as (es2 & Hdr2 & Hin2 & Hall2).
    exists (es1 ++ es2). rewrite (assoc_L (++)). split; [done|]. split.
    + intros e [He|He]%elem_of_app.
      * destruct (Hin1 e He) as [He1 Hp]. split; [rewrite He1; by left|].
        by rewrite He1.
      * destruct (Hin2 e He) as [? ?]. split; [by right|done].
    + intros n' p t [->|Hn']%elem_of_cons Hp Ht; [|by eapply Hall2].
      rewrite fmap_app. apply elem_of_app. left. by eapply Hall1.
Qed.

End WithGraph.

(** X6. The diagram is the header, one line per node, then one line per
    drawn edge.  An edge is drawn from a node to the first node whose
    identifier is one of its imports; an import that names no node is
    not drawn; no two drawn edges join the same pair of diagram
    identifiers, and every import that names a node has its edge. *)
Theorem diagram_structure (graph : DependencyGraph) :
  let target := λ p, find (λ d, bool_decide (dep_id d = p))
                       (dependencies graph) in
  ∃ es : list (DependencyNode * DependencyNode),
    generateDependencyDiagram graph =
      header +:+ concatAll (nodeLine <$> dependencies graph) +:+
      concatAll ((λ e, edgeLine graph e.1 e.2) <$> es) ∧
    NoDup ((λ e, edgeIdOf e.1 e.2) <$> es) ∧
    (∀ n t, (n, t) ∈ es →
            n ∈ dependencies graph ∧ t ∈ dependencies graph ∧
            dep_id t ∈ dep_imports n ∧ target (dep_id t) = Some t) ∧
    (∀ n p t, n ∈ dependencies graph → p ∈ dep_imports n →
              target p = Some t →
              edgeIdOf n t ∈ (λ e, edgeIdOf e.1 e.2) <$> es).
Proof.
  intros target. unfold generateDependencyDiagram.
  set (d0 := fold_left _ (dependencies graph) header).
  destruct (nodes_drawn graph d0 (dependencies graph)
              {| diagram := d0; processedEdges := [] |} [])
    as (es & (Hd & _ & Hnd) & Hin & Hall).
  { simpl. by rewrite append_nil_r, NoDup_nil. }
  simpl in *. exists es. split; [|split; [done|split; [|done]]].
  - rewrite Hd. unfold d0. by rewrite fold_lines, append_assoc.
  - intros n t Hnt. destruct (Hin _ Hnt) as (Hn & p & Hp & Ht). simpl in *.
    apply find_some in Ht as Hft. destruct Hft as [Ht1 Ht2].
    apply bool_decide_eq_true in Ht2. subst p.
    split; [done|]. split; [by apply list_elem_of_In|]. done.
Qed.

End DiagramFacts.

(** ** The component graph as a whole *)
Module ComponentGraphFacts.
Import Js JsFacts Ast Files Parser Components ComponentFacts.

Lemma fold_left_invariant_elem {A B} (P : A → Prop) (f : A → B → A) l a :
  (∀ a x, x ∈ l → P a → P (f a x)) → P a → P (fold_left f l a).
Proof.
  revert a. induction l as [|x l IH]; intros a Hf Ha; simpl; [done|].
  apply IH; [|apply Hf; [by left|done]].
  intros a' y Hy. apply Hf. by right.
Qed.

(** *** What never changes in a node once it is created *)

Local Abbreviation key :=
  (λ c : ComponentNodeData, (cid c, label c, filePath c, ctype c, props c)).

Lemma alter_key f i (nodes : list ComponentNodeData) :
  (∀ c, key (f c) = key c) → key <$> alter f i nodes = key <$> nodes.
Proof.
  intros Hf. revert i. induction nodes as [|c nodes IH]; intros [|i]; simpl.
  - done.
  - done.
  - f_equal. apply Hf.
  - f_equal. apply IH.
Qed.

Lemma relate_key s t acc : key <$> (relate s t acc).1 = key <$> acc.1.
Proof.
  unfold relate. destruct (acc.1 !! s); [|done]. destruct (acc.1 !! t); [|done].
  case_bool_decide; [done|]. simpl. by rewrite !alter_key.
Qed.

Lemma secondPass_key entry acc :
  key <$> (secondPass entry acc).1 = key <$> acc.1.
Proof.
  destruct entry as [p names]. unfold secondPass. case_bool_decide; [done|].
  apply (fold_left_invariant (λ a, key <$> a.1 = key <$> acc.1)); [|done].
  intros a1 nm H1.
  apply (fold_left_invariant (λ a, key <$> a.1 = key <$> acc.1)); [|done].
  intros a2 s H2.
  apply (fold_left_invariant (λ a, key <$> a.1 = key <$> acc.1)); [|done].
  intros a3 t H3. by rewrite relate_key.
Qed.

Lemma imap_key (h : nat → ComponentNodeData → ComponentNodeData) nodes :
  (∀ i c, key (h i c) = key c) → key <$> imap h nodes = key <$> nodes.
Proof.
  revert h. induction nodes as [|c nodes IH]; intros h Hh; simpl; [done|].
  f_equal; [apply Hh|]. apply IH. intros i c'. apply Hh.
Qed.

Lemma key_lookup (l1 l2 : list ComponentNodeData) i c :
  key <$> l1 = key <$> l2 → l1 !! i = Some c →
  ∃ c', l2 !! i = Some c' ∧ key c' = key c.
Proof.
  intros Heq Hc.
  assert ((key <$> l2) !! i = Some (key c)) as H.
  { by rewrite <-Heq, list_lookup_fmap, Hc. }
  rewrite list_lookup_fmap in H. destruct (l2 !! i) as [c'|]; [|done].
  exists c'. split; [done|]. simpl in H. congruence.
Qed.

Lemma key_elem (l1 l2 : list ComponentNodeData) c :
  key <$> l1 = key <$> l2 → c ∈ l1 → ∃ c', c' ∈ l2 ∧ key c' = key c.
Proof.
  intros Heq [i Hi]%list_elem_of_lookup.
  destruct (key_lookup l1 l2 i c Heq Hi) as (c' & Hc' & Hk).
  exists c'. split; [by eapply list_elem_of_lookup_2|done].
Qed.

(** *** The grid *)

Lemma ceilSqrt_spec n :
  (n ≤ ceilSqrt n * ceilSqrt n)%nat ∧ ((0 < n)%nat → (0 < ceilSqrt n)%nat).
Proof.
  unfold ceilSqrt. pose proof (Nat.sqrt_spec n (Nat.le_0_l n)) as [H1 H2].
  destruct (Nat.eqb_spec (Nat.sqrt n * Nat.sqrt n) n) as [E|E]; split;
    lia.
Qed.

(** X7. The layout puts the components of the graph on a square grid:
    the component at index [i] is at column [i mod gridSize] and row
    [i / gridSize], both below [gridSize], 150 units apart; no two
    components are put at the same place. *)
Theorem layout_grid (world : World) (fileData : list FileNode) :
  let graph := analyzeComponents world fileData in
  let gridSize := ceilSqrt (length (components graph)) in
  (∀ i c, components graph !! i = Some c →
          position c = Some ((i mod gridSize) * 150, (i / gridSize) * 150)%nat ∧
          (i mod gridSize < gridSize)%nat ∧ (i / gridSize < gridSize)%nat) ∧
  (∀ i j ci cj,
     components graph !! i = Some ci → components graph !! j = Some cj →
     position ci = position cj → i = j).
Proof.
  intros graph gridSize.
  assert (∃ nodes, components graph = imap (place gridSize) nodes) as [nodes Hg].
  { unfold gridSize, graph, analyzeComponents.
    destruct (fold_left _ _ ([], [])) as [componentNodes importMap].
    destruct (fold_left _ importMap _) as [nodes rels]. simpl.
    exists nodes. by rewrite length_imap. }
  assert (length (components graph) = length nodes) as Hlen
    by (by rewrite Hg, length_imap).
  destruct (ceilSqrt_spec (length (components graph))) as [Hsq Hpos].
  fold gridSize in Hsq, Hpos.
  assert (∀ i c, components graph !! i = Some c →
            (i < length nodes)%nat ∧ (0 < gridSize)%nat ∧
            position c =
              Some ((i mod gridSize) * 150, (i / gridSize) * 150)%nat) as Hat.
  { intros i c Hi. rewrite Hg, list_lookup_imap in Hi.
    destruct (nodes !! i) as [c'|] eqn:Hc'; [|done].
    apply lookup_lt_Some in Hc'. injection Hi as <-.
    split; [done|]. split; [apply Hpos; lia|done]. }
  split.
  - intros i c Hi. destruct (Hat i c Hi) as (Hlt & Hg0 & Hp).
    split; [done|]. split; [apply Nat.mod_upper_bound; lia|].
    apply Nat.Div0.div_lt_upper_bound. lia.
  - intros i j ci cj Hi Hj Heq.
    destruct (Hat i ci Hi) as (_ & Hg0 & Hpi).
    destruct (Hat j cj Hj) as (_ & _ & Hpj).
    rewrite Hpi, Hpj in Heq. injection Heq as Hc Hr.
    apply Nat.mul_cancel_r in Hc; [|done]. apply Nat.mul_cancel_r in Hr; [|done].
    rewrite (Nat.div_mod_eq i gridSize), (Nat.div_mod_eq j gridSize). lia.
Qed.

(** *** Counters *)

Lemma sum_alter_same (f : ComponentNodeData → nat) g i l :
  (∀ c, f (g c) = f c) → sum_list_with f (alter g i l) = sum_list_with f l.
Proof.
  intros H. revert i. induction l as [|c l IH]; intros [|i]; simpl;
    [done|done|by rewrite H|f_equal; apply IH].
Qed.

Lemma sum_alter_bump (f : ComponentNodeData → nat) g i l :
  (∀ c, f (g c) = S (f c)) → (i < length l)%nat →
  sum_list_with f (alter g i l) = S (sum_list_with f l).
Proof.
  intros H. revert i. induction l as [|c l IH]; intros [|i] Hi; simpl in *;
    try lia.
  - by rewrite H.
  - specialize (IH i ltac:(lia)). unfold alter in IH. lia.
Qed.

Local Abbreviation counted :=
  (λ acc : list ComponentNodeData * list ComponentRelationship,
     sum_list_with imports acc.1 = length acc.2 ∧
     sum_list_with exports acc.1 = length acc.2).

Lemma relate_counted s t acc : counted acc → counted (relate s t acc).
Proof.
  intros [Hi He]. unfold relate.
  destruct (acc.1 !! s) as [sc|] eqn:Hs; [|done].
  destruct (acc.1 !! t) as [tc|] eqn:Ht; [|done].
  case_bool_decide; [done|]. simpl.
  apply lookup_lt_Some in Hs, Ht. rewrite length_app. simpl. split.
  - rewrite sum_alter_same by done. rewrite sum_alter_bump; [lia| |done].
    intros c. simpl. lia.
  - rewrite sum_alter_bump; [|intros c; simpl; lia|by rewrite length_alter].
    rewrite sum_alter_same by done. lia.
Qed.

Lemma secondPass_counted entry acc : counted acc → counted (secondPass entry acc).
Proof.
  intros H. destruct entry as [p names]. unfold secondPass.
  case_bool_decide; [done|].
  apply (fold_left_invariant counted); [|done]. intros a1 nm H1.
  apply (fold_left_invariant counted); [|done]. intros a2 s H2.
  apply (fold_left_invariant counted); [|done]. intros a3 t H3.
  by apply relate_counted.
Qed.

(** *** The first pass *)

Lemma startsUpper_not_use s : startsUpper s = true → startsWith s "use" = false.
Proof.
  destruct s as [|c s]; [done|]. intros H. unfold startsWith.
  change (String.prefix "use" (String c s))
    with (if Ascii.ascii_dec "u" c then String.prefix "se" s else false).
  destruct (Ascii.ascii_dec "u" c) as [<-|]; [|done]. by vm_compute in H.
Qed.

Lemma component_named c :
  looksLikeComponent c = true →
  startsUpper (componentNameOf c) = true ∧ truthy (componentNameOf c) = true.
Proof.
  intros H. unfold looksLikeComponent in H.
  rewrite !orb_true_iff, !andb_true_iff in H.
  assert (idIsUpper c = true ∧
          ((typeIs c "FunctionDeclaration" || typeIs c "ClassDeclaration")
             = true ∨
           (typeIs c "VariableDeclarator" && typeAtIs c [K.id] "Identifier")
             = true)) as [Hup Hty].
  { destruct H as [[[H1 H2]|[[[H1 H2] H3] H4]]|[[H1 H2] H3]];
      (split; [done|]); rewrite ?H1, ?H2; simpl; auto using orb_true_r. }
  unfold idIsUpper in Hup.
  destruct (strOf (getPath c [K.id; K.name])) as [s|] eqn:Es; [|done].
  assert (componentNameOf c = s) as ->.
  { unfold componentNameOf. rewrite Es.
    destruct Hty as [->| ->]; [done|].
    by destruct (typeIs c "FunctionDeclaration" || typeIs c "ClassDeclaration"). }
  split; [done|]. by destruct s.
Qed.

(** A node as the first pass creates it from a component of a file. *)
Local Abbreviation fresh world :=
  (λ c : ComponentNodeData,
     imports c = 0%nat ∧ exports c = 0%nat ∧
     startsUpper (label c) = true ∧ props c ≠ Some [] ∧
     (ctype c = hook → includes (filePath c) "/hooks/" = true) ∧
     ∃ ast component, world (filePath c) = Some ast ∧
       component ∈ extractReactComponents ast ∧
       label c = componentNameOf component).

Lemma componentTypeOf_hook file nm :
  startsUpper nm = true → componentTypeOf file nm = hook →
  includes (file_path file) "/hooks/" = true.
Proof.
  intros Hu. unfold componentTypeOf. rewrite (startsUpper_not_use nm Hu).
  destruct (isPage file); [done|]. destruct (isLayout file); [done|].
  rewrite orb_false_r. destruct (includes _ "/hooks/"); [done|].
  by destruct (_ || _).
Qed.

Lemma addComponent_fresh world file ast c nodes :
  world (file_path file) = Some ast → c ∈ extractReactComponents ast →
  Forall (fresh world) nodes →
  Forall (fresh world) (addComponent file c nodes) ∧
  length (addComponent file c nodes) = S (length nodes).
Proof.
  intros Hw Hc Hn. unfold addComponent.
  pose proof Hc as [Hlooks _]%list_elem_of_filter.
  destruct (component_named c Hlooks) as [Hu Ht]. rewrite Ht.
  split; [|rewrite length_app; simpl; lia].
  apply Forall_app. split; [done|]. constructor; [|done]. simpl.
  split; [done|]. split; [done|]. split; [done|]. split.
  - destruct (0 <? length _)%nat eqn:E; [|done].
    apply Nat.ltb_lt in E. intros [= Heq]. rewrite Heq in E. simpl in E. lia.
  - split; [by apply componentTypeOf_hook|]. by exists ast, c.
Qed.

Local Abbreviation componentsIn world :=
  (λ file : FileNode,
     match world (file_path file) with
     | Some ast => length (extractReactComponents ast)
     | None => 0%nat
     end).

Local Abbreviation imported world :=
  (λ e : string * list string,
     ∃ ast, world e.1 = Some ast ∧
            e.2 = flat_map importedNames (extractImports ast)).

Lemma firstPass_fresh world file acc :
  Forall (fresh world) acc.1 → Forall (imported world) acc.2 →
  Forall (fresh world) (firstPass world file acc).1 ∧
  Forall (imported world) (firstPass world file acc).2 ∧
  length (firstPass world file acc).1 =
    (length acc.1 + componentsIn world file)%nat.
Proof.
  intros H1 H2. unfold firstPass.
  destruct (world (file_path file)) as [ast|] eqn:Hw;
    [|split; [done|split; [done|lia]]].
  simpl.
  assert (∀ comps nodes,
            (∀ c, c ∈ comps → c ∈ extractReactComponents ast) →
            Forall (fresh world) nodes →
            Forall (fresh world)
              (fold_left (λ nodes c, addComponent file c nodes) comps nodes) ∧
            length (fold_left (λ nodes c, addComponent file c nodes)
                      comps nodes) = (length nodes + length comps)%nat) as Hloop.
  { induction comps as [|c comps IH]; intros nodes Hin Hn; simpl;
      [split; [done|lia]|].
    destruct (addComponent_fresh world file ast c nodes Hw) as [Hf Hl];
      [apply Hin; by left|done|].
    destruct (IH (addComponent file c nodes)) as [IH1 IH2];
      [intros c' Hc'; apply Hin; by right|done|].
    split; [done|]. rewrite IH2, Hl. lia. }
  destruct (Hloop (extractReactComponents ast) acc.1) as [Hf Hl]; [done..|].
  split; [done|]. split; [|done].
  destruct (0 <? _)%nat; [|done].
  apply DependencyFacts.map_set_Forall; [|done]. by exists ast.
Qed.

Lemma firstPasses world files : ∀ acc,
  Forall (fresh world) acc.1 → Forall (imported world) acc.2 →
  let acc' := fold_left (λ acc file, firstPass world file acc) files acc in
  Forall (fresh world) acc'.1 ∧ Forall (imported world) acc'.2 ∧
  length acc'.1 = (length acc.1 + sum_list_with (componentsIn world) files)%nat.
Proof.
  induction files as [|f files IH]; intros acc H1 H2; simpl.
  - split; [done|]. split; [done|lia].
  - destruct (firstPass_fresh world f acc H1 H2) as (F1 & F2 & F3).
    destruct (IH _ F1 F2) as (G1 & G2 & G3).
    split; [done|]. split; [done|]. rewrite G3, F3. lia.
Qed.

(** The graph in terms of the two passes. *)
Lemma analyzeComponents_passes world fileData :
  ∃ nodes0 importMap nodes rels,
    fold_left (λ acc file, firstPass world file acc)
      (filter (λ f, isScriptFile f = true) fileData) ([], []) =
      (nodes0, importMap) ∧
    fold_left (λ acc entry, secondPass entry acc) importMap (nodes0, []) =
      (nodes, rels) ∧
    analyzeComponents world fileData =
      {| components := imap (place (ceilSqrt (length nodes))) nodes;
         relationships := rels |}.
Proof.
  unfold analyzeComponents.
  destruct (fold_left _ _ ([], [])) as [nodes0 importMap].
  destruct (fold_left _ importMap _) as [nodes rels] eqn:E.
  by exists nodes0, importMap, nodes, rels.
Qed.

(** X8. Each relationship is counted once as an import of its source and
    once as an export of its target: over the whole graph the [imports]
    counters add up to the number of relationships, and so do the
    [exports] counters. *)
Theorem relationship_counts (world : World) (fileData : list FileNode) :
  let graph := analyzeComponents world fileData in
  sum_list_with imports (components graph) = length (relationships graph) ∧
  sum_list_with exports (components graph) = length (relationships graph).
Proof.
  intros graph.
  destruct (analyzeComponents_passes world fileData)
    as (nodes0 & importMap & nodes & rels & H1 & H2 & Hg).
  unfold graph. rewrite Hg. simpl.
  destruct (firstPasses world (filter (λ f, isScriptFile f = true) fileData)
              ([], []) (Forall_nil_2 _) (Forall_nil_2 _))
    as (Hfresh & _ & _).
  rewrite H1 in Hfresh. simpl in Hfresh.
  assert (counted (nodes0, [])) as H0.
  { simpl. clear H1 H2. induction Hfresh as [|c l (Hi & He & _) _ [IH1 IH2]];
      simpl; [done|]. rewrite Hi, He, IH1, IH2. done. }
  pose proof (fold_left_invariant counted
                (λ acc entry, secondPass entry acc) importMap (nodes0, [])
                (λ acc entry, secondPass_counted entry acc) H0) as Hc.
  rewrite H2 in Hc. simpl in Hc. destruct Hc as [Hi He].
  generalize (ceilSqrt (length nodes)). intros g.
  assert (∀ (f : ComponentNodeData → nat)
            (h : nat → ComponentNodeData → ComponentNodeData) l,
            (∀ i c, f (h i c) = f c) →
            sum_list_with f (imap h l) = sum_list_with f l) as Himap.
  { intros f h l. revert h. induction l as [|c l IH]; intros h Hh; simpl;
      [done|]. rewrite Hh. f_equal. apply IH. intros i c'. apply Hh. }
  split; [rewrite <-Hi|rewrite <-He]; by apply Himap.
Qed.

(** *** The second pass *)

Lemma elem_of_indicesWhere p (nodes : list ComponentNodeData) i :
  i ∈ indicesWhere p nodes → ∃ c, nodes !! i = Some c ∧ p c = true.
Proof.
  unfold indicesWhere. intros ([j c] & -> & Hin)%list_elem_of_fmap.
  apply list_elem_of_filter in Hin as [Hp Hin]. simpl in *.
  apply list_elem_of_lookup in Hin as [k Hk].
  rewrite list_lookup_imap in Hk.
  destruct (nodes !! k) as [c'|] eqn:E; [|done]. injection Hk as <- <-.
  by exists c'.
Qed.

Section SecondPass.
Variable world : World.
Variable nodes0 : list ComponentNodeData.

(** Every relationship joins two nodes, the file of the first importing
    the name of the second. *)
Local Abbreviation joined :=
  (λ acc : list ComponentNodeData * list ComponentRelationship,
     key <$> acc.1 = key <$> nodes0 ∧
     ∀ r, r ∈ acc.2 →
       ∃ s t, s ∈ nodes0 ∧ t ∈ nodes0 ∧
              rsource r = cid s ∧ rtarget r = cid t ∧
              rid r = cid s +:+ "->" +:+ cid t ∧
              ∃ ast, world (filePath s) = Some ast ∧
                     label t ∈ flat_map importedNames (extractImports ast)).

Lemma secondPass_joined entry acc :
  (∃ ast, world entry.1 = Some ast ∧
          entry.2 = flat_map importedNames (extractImports ast)) →
  joined acc → joined (secondPass entry acc).
Proof.
  intros (ast & Hw & Hnames) HJ. destruct entry as [p names]. simpl in *.
  unfold secondPass. case_bool_decide; [done|].
  set (sources := indicesWhere _ acc.1).
  assert (∀ s, s ∈ sources →
            ∃ c, nodes0 !! s = Some c ∧ filePath c = p) as Hsrc.
  { intros s (c & Hc & Hp)%elem_of_indicesWhere.
    apply bool_decide_eq_true in Hp.
    destruct (key_lookup _ _ s c (proj1 HJ) Hc) as (c' & Hc' & Hk).
    exists c'. split; [done|]. simpl in Hk. congruence. }
  clearbody sources.
  apply (fold_left_invariant_elem joined); [|done].
  intros a1 nm Hnm H1.
  set (targets := indicesWhere _ a1.1).
  assert (∀ t, t ∈ targets →
            ∃ c, nodes0 !! t = Some c ∧ label c = nm) as Htgt.
  { intros t (c & Hc & Hp)%elem_of_indicesWhere.
    apply bool_decide_eq_true in Hp.
    destruct (key_lookup _ _ t c (proj1 H1) Hc) as (c' & Hc' & Hk).
    exists c'. split; [done|]. simpl in Hk. congruence. }
  clearbody targets.
  apply (fold_left_invariant_elem joined); [|done].
  intros a2 s Hs H2.
  apply (fold_left_invariant_elem joined); [|done].
  intros a3 t Ht [H3 H3r]. split; [by rewrite relate_key|].
  unfold relate.
  destruct (a3.1 !! s) as [sc|] eqn:Es; [|done].
  destruct (a3.1 !! t) as [tc|] eqn:Et; [|done].
  case_bool_decide; [done|]. simpl.
  intros r [Hr|Hr%list_elem_of_singleton]%elem_of_app; [by apply H3r|].
  subst r. simpl.
  destruct (key_lookup _ _ s sc H3 Es) as (s0 & Hs0 & Hks).
  destruct (key_lookup _ _ t tc H3 Et) as (t0 & Ht0 & Hkt).
  destruct (Hsrc s Hs) as (s1 & Hs1 & Hp1).
  destruct (Htgt t Ht) as (t1 & Ht1 & Hl1).
  assert (s1 = s0) as -> by congruence.
  assert (t1 = t0) as -> by congruence.
  assert (cid s0 = cid sc) as Hks1 by (simpl in Hks; congruence).
  assert (cid t0 = cid tc) as Hkt1 by (simpl in Hkt; congruence).
  exists s0, t0. split; [by eapply list_elem_of_lookup_2|].
  split; [by eapply list_elem_of_lookup_2|].
  rewrite Hks1, Hkt1. split; [done|]. split; [done|]. split; [done|].
  exists ast. rewrite Hp1, Hl1. split; [done|]. by rewrite <-Hnames.
Qed.

End SecondPass.

(** X9. Every relationship of the graph joins two of its components:
    its identifier is the two component identifiers around [->], and the
    file of the source component imports, from a local module, a
    capitalised name that is the label of the target component. *)
Theorem relationship_endpoints (world : World) (fileData : list FileNode)
  (r : ComponentRelationship) :
  let graph := analyzeComponents world fileData in
  r ∈ relationships graph →
  ∃ s t, s ∈ components graph ∧ t ∈ components graph ∧
         rsource r = cid s ∧ rtarget r = cid t ∧
         rid r = cid s +:+ "->" +:+ cid t ∧
         ∃ ast, world (filePath s) = Some ast ∧
                label t ∈ flat_map importedNames (extractImports ast).
Proof.
  intros graph.
  destruct (analyzeComponents_passes world fileData)
    as (nodes0 & importMap & nodes & rels & H1 & H2 & Hg).
  unfold graph. rewrite Hg. simpl.
  destruct (firstPasses world (filter (λ f, isScriptFile f = true) fileData)
              ([], []) (Forall_nil_2 _) (Forall_nil_2 _))
    as (_ & Himp & _).
  rewrite H1 in Himp. simpl in Himp. rewrite Forall_forall in Himp.
  pose proof (fold_left_invariant_elem
                (λ acc, key <$> acc.1 = key <$> nodes0 ∧
                   ∀ r, r ∈ acc.2 →
                     ∃ s t, s ∈ nodes0 ∧ t ∈ nodes0 ∧
                       rsource r = cid s ∧ rtarget r = cid t ∧
                       rid r = cid s +:+ "->" +:+ cid t ∧
                       ∃ ast, world (filePath s) = Some ast ∧
                         label t ∈ flat_map importedNames (extractImports ast))
                (λ acc entry, secondPass entry acc) importMap (nodes0, []))
    as HJ.
  rewrite H2 in HJ. simpl in HJ. destruct HJ as [Hk Hr].
  { intros acc entry He. apply secondPass_joined. by apply Himp. }
  { split; [done|]. by intros r' ?%elem_of_nil. }
  intros Hin. destruct (Hr r Hin) as (s & t & Hs & Ht & E1 & E2 & E3 & Hast).
  assert (key <$> imap (place (ceilSqrt (length nodes))) nodes = key <$> nodes0)
    as Hk'.
  { rewrite <-Hk. by apply imap_key. }
  destruct (key_elem nodes0 _ s (eq_sym Hk') Hs) as (s' & Hs' & Hks).
  destruct (key_elem nodes0 _ t (eq_sym Hk') Ht) as (t' & Ht' & Hkt).
  assert (cid s' = cid s ∧ filePath s' = filePath s) as [Hs1 Hs3]
    by (simpl in Hks; split; congruence).
  assert (cid t' = cid t ∧ label t' = label t) as [Ht1 Ht2]
    by (simpl in Hkt; split; congruence).
  exists s', t'. rewrite Hs1, Hs3, Ht1, Ht2. done.
Qed.

Lemma relationship_endpoints_witness :
  let graph := analyzeComponents (Examples.disk None) Examples.sources in
  ∃ s t, s ∈ components graph ∧ t ∈ components graph ∧
         "/src/App.tsx:App" = cid s ∧ "/src/Button.tsx:Button" = cid t ∧
         "/src/App.tsx:App->/src/Button.tsx:Button" =
           cid s +:+ "->" +:+ cid t ∧
         ∃ ast, Examples.disk None (filePath s) = Some ast ∧
                label t ∈ flat_map importedNames (extractImports ast).
Proof.
  apply (relationship_endpoints (Examples.disk None) Examples.sources
           {| rid := "/src/App.tsx:App->/src/Button.tsx:Button";
              rsource := "/src/App.tsx:App";
              rtarget := "/src/Button.tsx:Button" |}).
  vm_compute. left.
Defined.

(** The nodes of the graph are those of the first pass, up to counters
    and positions. *)
Lemma analyzeComponents_nodes world fileData :
  ∃ nodes0,
    Forall (fresh world) nodes0 ∧
    key <$> components (analyzeComponents world fileData) = key <$> nodes0 ∧
    length nodes0 =
      sum_list_with (componentsIn world)
        (filter (λ f, isScriptFile f = true) fileData).
Proof.
  destruct (analyzeComponents_passes world fileData)
    as (nodes0 & importMap & nodes & rels & H1 & H2 & Hg).
  rewrite Hg. simpl.
  destruct (firstPasses world (filter (λ f, isScriptFile f = true) fileData)
              ([], []) (Forall_nil_2 _) (Forall_nil_2 _))
    as (Hfresh & _ & Hlen).
  rewrite H1 in Hfresh, Hlen. simpl in Hfresh, Hlen.
  pose proof (fold_left_invariant (λ acc, key <$> acc.1 = key <$> nodes0)
                (λ acc entry, secondPass entry acc) importMap (nodes0, [])) as Hk.
  rewrite H2 in Hk. simpl in Hk.
  assert (key <$> nodes = key <$> nodes0) as Hk2.
  { apply Hk; [|done]. intros acc entry Ha. by rewrite secondPass_key. }
  exists nodes0. split; [done|]. split; [|done].
  rewrite <-Hk2. by apply imap_key.
Qed.

Lemma analyzeComponents_length world fileData :
  length (components (analyzeComponents world fileData)) =
  sum_list_with (componentsIn world)
    (filter (λ f, isScriptFile f = true) fileData).
Proof.
  destruct (analyzeComponents_nodes world fileData) as (nodes0 & _ & Hk & <-).
  apply (f_equal length) in Hk. by rewrite !length_fmap in Hk.
Qed.

(** X10. Every component of the graph comes from a declaration that
    [extractReactComponents] found in its file and carries its name,
    which starts with a capital letter; so the test on names that start
    with [use] never fires and a component has type [hook] only when its
    path goes through [/hooks/].  A list of props that is present is not
    empty.  The graph has one component per declaration found in the
    script files that could be parsed. *)
Theorem components_named (world : World) (fileData : list FileNode) :
  let graph := analyzeComponents world fileData in
  Forall (λ c,
    startsUpper (label c) = true ∧ startsWith (label c) "use" = false ∧
    props c ≠ Some [] ∧
    (ctype c = hook → includes (filePath c) "/hooks/" = true) ∧
    ∃ ast component, world (filePath c) = Some ast ∧
      component ∈ extractReactComponents ast ∧
      label c = componentNameOf component) (components graph) ∧
  length (components graph) =
    sum_list_with (λ file, match world (file_path file) with
                           | Some ast => length (extractReactComponents ast)
                           | None => 0%nat
                           end)
      (filter (λ f, isScriptFile f = true) fileData).
Proof.
  intros graph. split; [|apply analyzeComponents_length].
  destruct (analyzeComponents_nodes world fileData)
    as (nodes0 & Hfresh & Hk & _).
  rewrite Forall_forall in Hfresh. apply Forall_forall. intros c Hc.
  destruct (key_elem _ nodes0 c Hk Hc) as (c0 & Hc0 & Hkc).
  destruct (Hfresh c0 Hc0) as (_ & _ & Hu & Hp & Hh & Hast).
  assert (label c0 = label c ∧ filePath c0 = filePath c ∧
          ctype c0 = ctype c ∧ props c0 = props c) as (Hl & Hf & Ht & Hpr)
    by (simpl in Hkc; repeat split; congruence).
  rewrite <-Hl, <-Hf, <-Ht, <-Hpr.
  split; [done|]. split; [by apply startsUpper_not_use|]. done.
Qed.

End ComponentGraphFacts.

(** ** The walks of the SRP and DIP detectors *)
Module WalkFacts.
Import Js JsFacts Ast AstFacts Files Parser Solid Walks.

(** *** Walks that accumulate in a monoid *)
Section Monoid.
Context {S : Type} (op : S → S → S) (e : S).
Hypothesis op_assoc : ∀ a b c, op (op a b) c = op a (op b c).
Hypothesis op_e_r : ∀ a, op a e = a.
Hypothesis op_e_l : ∀ a, op e a = a.
Variable traverse : Node → S → S.
Variable sum : Node → S.

Local Abbreviation acts := (λ n : Node, ∀ s : S, traverse n s = op s (sum n)).

Lemma visit_op v s :
  match v with One x => acts x | Arr l => Forall acts l | _ => True end →
  visit traverse v s = op s (match v with One x => sum x | _ => e end).
Proof. clear op_e_l. destruct v; simpl; intros H; rewrite ?H, ?op_e_r; done. Qed.

Lemma visitEach_op l s :
  Forall acts l → visitEach traverse l s = op s (big op e sum l).
Proof.
  clear op_e_l. unfold visitEach, big. revert s.
  induction l as [|x l IH]; intros s Hl; simpl; [by rewrite op_e_r|].
  apply Forall_cons in Hl as [Hx Hl]. by rewrite IH, Hx, op_assoc.
Qed.

Lemma visitBody_op v s :
  match v with One x => acts x | Arr l => Forall acts l | _ => True end →
  visitBody traverse v s =
  op s (match v with One x => sum x | Arr l => big op e sum l | _ => e end).
Proof.
  clear op_e_l.
  destruct v; simpl; intros H; rewrite ?H, ?op_e_r; try done.
  by apply visitEach_op.
Qed.

Lemma big_cons (f : Node → S) x l :
  big op e f (x :: l) = op (f x) (big op e f l).
Proof. reflexivity. Qed.

Lemma big_app (f : Node → S) l1 l2 :
  big op e f (l1 ++ l2) = op (big op e f l1) (big op e f l2).
Proof.
  unfold big. induction l1 as [|x l1 IH]; simpl; [by rewrite op_e_l|].
  by rewrite IH, op_assoc.
Qed.

Lemma big_flat_map (f : Node → S) (g : Node → list Node) l :
  big op e f (flat_map g l) = big op e (λ x, big op e f (g x)) l.
Proof.
  induction l as [|x l IH]; simpl; [done|].
  by rewrite big_app, IH.
Qed.

Lemma big_one (f : Node → S) (g : Node → list Node) (v : Prop_ Node) :
  big op e f (match v with One c => g c | _ => [] end) =
  match v with One c => big op e f (g c) | _ => e end.
Proof. by destruct v. Qed.

Lemma big_body (f : Node → S) (g : Node → list Node) (v : Prop_ Node) :
  big op e f (match v with One c => g c | Arr l => flat_map g l | _ => [] end) =
  match v with
  | One c => big op e f (g c)
  | Arr l => big op e (λ x, big op e f (g x)) l
  | _ => e
  end.
Proof. destruct v; try done. apply big_flat_map. Qed.

End Monoid.

(** *** The three flags of [hasMixedConcerns] *)

Lemma both_assoc a b c :
  bothConcerns (bothConcerns a b) c = bothConcerns a (bothConcerns b c).
Proof. unfold bothConcerns. simpl. by rewrite !orb_assoc. Qed.

Lemma both_none_r a : bothConcerns a noConcerns = a.
Proof. destruct a. unfold bothConcerns. simpl. by rewrite !orb_false_r. Qed.

Lemma both_none_l a : bothConcerns noConcerns a = a.
Proof. by destruct a. Qed.

(** The walk at a node: its own contribution, then its children's. *)
Local Ltac walk Hprop Harr op e assoc unit_r unit_l own fields :=
  let sum := fresh "sum" in
  set (sum := λ n, big op e own (reached fields n)) in *;
  repeat first
    [ rewrite (visitEach_op op e assoc unit_r _ sum) by apply Harr
    | rewrite (visitBody_op op e assoc unit_r _ sum) by apply Hprop
    | rewrite (visit_op op e unit_r _ sum) by apply Hprop ];
  rewrite big_cons;
  rewrite ?(big_app op e assoc unit_l), ?big_one,
    ?(big_body op e assoc unit_l), ?(big_flat_map op e assoc unit_l);
  change (big op e own []) with e;
  rewrite ?unit_r, ?assoc; reflexivity.

Lemma mixedConcerns_traverse_spec : ∀ n s,
  mixedConcerns_traverse n s =
  bothConcerns s (big bothConcerns noConcerns concernsOf
                    (reached mixedFields n)).
Proof.
  intros n; induction n as [n Hprop Harr] using Node_ind'; intros s.
  destruct n as [ty lo pa pr ar].
  cbn [mixedConcerns_traverse reached flat_map mixedFields prop arr app].
  cbn [prop arr] in Hprop, Harr.
  change (Build_Concerns _ _ _)
    with (bothConcerns s (concernsOf (mkNode ty lo pa pr ar))).
  walk Hprop Harr bothConcerns noConcerns both_assoc both_none_r both_none_l concernsOf
    mixedFields.
Qed.

Lemma big_concerns l :
  big bothConcerns noConcerns concernsOf l =
  {| hasApiCalls := existsb isApiCall l;
     hasStateManagement := existsb isStateCall l;
     hasComplexLogic := existsb isBranching l |}.
Proof.
  induction l as [|x l IH]; [done|].
  rewrite big_cons, IH. reflexivity.
Qed.

(** X11. [hasMixedConcerns] holds exactly when, among the nodes that its
    walk reaches from the component (through body, consequent,
    alternate, block, declarations, init, expression and arguments), at
    least two of the three kinds occur: a network call, a state call, a
    branching or looping statement. *)
Theorem hasMixedConcerns_spec (component : Node) :
  let nodes := reached mixedFields component in
  let api := existsb isApiCall nodes in
  let state := existsb isStateCall nodes in
  let logic := existsb isBranching nodes in
  hasMixedConcerns component =
    (api && state) || (api && logic) || (state && logic).
Proof.
  unfold hasMixedConcerns.
  rewrite mixedConcerns_traverse_spec, big_concerns. reflexivity.
Qed.

(** *** The flag of [hasDirectExternalDependencies] *)

Lemma externalDependencies_traverse_spec : ∀ n s,
  externalDependencies_traverse n s =
  s || big orb false isExternalAccess (reached mixedFields n).
Proof.
  intros n; induction n as [n Hprop Harr] using Node_ind'; intros s.
  destruct n as [ty lo pa pr ar].
  cbn [externalDependencies_traverse reached flat_map mixedFields prop arr app].
  cbn [prop arr] in Hprop, Harr.
  walk Hprop Harr orb false (λ a b c, eq_sym (orb_assoc a b c)) orb_false_r orb_false_l
    isExternalAccess mixedFields.
Qed.

Lemma big_orb (f : Node → bool) l : big orb false f l = existsb f l.
Proof. induction l as [|x l IH]; [done|]. by rewrite big_cons, IH. Qed.

(** *** The two counters of [hasTightCoupling] *)

Lemma addPair_assoc a b c : addPair (addPair a b) c = addPair a (addPair b c).
Proof. unfold addPair. simpl. f_equal; lia. Qed.

Lemma addPair_0_r a : addPair a (0%nat, 0%nat) = a.
Proof. destruct a. unfold addPair. simpl. f_equal; lia. Qed.

Lemma addPair_0_l a : addPair (0%nat, 0%nat) a = a.
Proof. by destruct a. Qed.

Lemma tightCoupling_traverse_spec : ∀ n s,
  tightCoupling_traverse n s =
  addPair s (big addPair (0%nat, 0%nat) couplingOf
               (reached couplingFields n)).
Proof.
  intros n; induction n as [n Hprop Harr] using Node_ind'; intros s.
  destruct n as [ty lo pa pr ar].
  cbn [tightCoupling_traverse reached flat_map couplingFields prop arr app].
  cbn [prop arr] in Hprop, Harr.
  match goal with
  | |- context [pair ?a ?b] =>
      replace (pair a b)
        with (addPair s (couplingOf (mkNode ty lo pa pr ar)))
  end.
  2: { unfold addPair, couplingOf. cbn [fst snd].
       destruct (isComponentElement _); f_equal; lia. }
  walk Hprop Harr addPair (0%nat, 0%nat) addPair_assoc addPair_0_r addPair_0_l couplingOf
    couplingFields.
Qed.

Lemma big_coupling l :
  big addPair (0%nat, 0%nat) couplingOf l =
  (sum_list_with componentImports l,
   length (filter (λ x, isComponentElement x = true) l)).
Proof.
  induction l as [|x l IH]; [done|].
  rewrite big_cons, IH. unfold addPair, couplingOf. cbn [fst snd].
  rewrite filter_cons.
  destruct (isComponentElement x) eqn:E;
    [rewrite decide_True by done|rewrite decide_False by done];
    simpl; f_equal; lia.
Qed.

(** X12. The two DIP detectors in terms of the nodes that their walks
    reach.  [hasDirectExternalDependencies] holds exactly when one of
    the nodes reached through body, consequent, alternate, block,
    declarations, init, expression and arguments is a network call or an
    access to a database object.  [hasTightCoupling] holds exactly when
    the import declarations reached through body, consequent, alternate,
    block, declarations, init, expression and children bind more than 5
    capitalised names, or more than 7 of the nodes reached are JSX
    elements with a capitalised name. *)
Theorem dip_detectors_spec (component : Node) :
  hasDirectExternalDependencies component =
    existsb isExternalAccess (reached mixedFields component) ∧
  hasTightCoupling component =
    ((5 <? sum_list_with componentImports
             (reached couplingFields component))%nat ||
     (7 <? length (filter (λ x, isComponentElement x = true)
                     (reached couplingFields component)))%nat).
Proof.
  split.
  - unfold hasDirectExternalDependencies.
    by rewrite externalDependencies_traverse_spec, big_orb.
  - unfold hasTightCoupling.
    by rewrite tightCoupling_traverse_spec, big_coupling.
Qed.

End WalkFacts.

(** ** The SOLID report as a whole *)
Module ReportFacts.
Import Js JsFacts Ast Files Parser Solid ComponentFacts.

Lemma Forall_flat_map {A B} (P : B → Prop) (f : A → list B) l :
  (∀ x, x ∈ l → Forall P (f x)) → Forall P (flat_map f l).
Proof.
  induction l as [|x l IH]; intros H; simpl; [constructor|].
  apply Forall_app. split; [apply H; by left|].
  apply IH. intros y Hy. apply H. by right.
Qed.

(** Which severities each principle is reported with, and for which
    file. *)
Local Abbreviation tabled file :=
  (λ i : SolidIssue,
     (severity i = critical → principle i = SRP) ∧
     (severity i = info → principle i = OCP ∨ principle i = ISP) ∧
     (principle i = LSP ∨ principle i = DIP → severity i = warning) ∧
     issue_filePath i = file_path file).

Local Ltac table :=
  repeat first [apply Forall_nil_2 | apply Forall_cons_2];
  try (cbn [severity principle issue_filePath];
       split; [done|split; [first [done|intros _; auto]
                           |split; [by intros [?|?]|done]]]).

Local Ltac calm :=
  repeat first [apply Forall_nil_2 | apply Forall_cons_2];
  try (cbn [severity]; done).

Lemma srpIssues_tabled file c : Forall (tabled file) (srpIssues file c).
Proof.
  unfold srpIssues, sizeIssues, mixedConcernsIssues. apply Forall_app.
  split; repeat case_match; table.
Qed.

Lemma ocpIssues_tabled file c : Forall (tabled file) (ocpIssues file c).
Proof.
  unfold ocpIssues, conditionalIssues, hardcodedIssues. apply Forall_app.
  split; repeat case_match; table.
Qed.

Lemma lspIssues_tabled file t : Forall (tabled file) (lspIssues file t).
Proof. unfold lspIssues. repeat case_match; table. Qed.

Lemma ispIssues_tabled file t : Forall (tabled file) (ispIssues file t).
Proof.
  unfold ispIssues. case_match; [|constructor]. apply Forall_app.
  split; repeat case_match; table.
Qed.

Lemma dipIssues_tabled file c : Forall (tabled file) (dipIssues file c).
Proof.
  unfold dipIssues. apply Forall_app. split; repeat case_match; table.
Qed.

(** The issues found in one file. *)
Local Abbreviation fileIssues file ast :=
  (analyzeSRP file (extractReactComponents ast) ++
   analyzeOCP file (extractReactComponents ast) (extractTypeDefinitions ast) ++
   analyzeLSP file (extractReactComponents ast) (extractTypeDefinitions ast) ++
   analyzeISP file (extractTypeDefinitions ast) ++
   analyzeDIP file (extractReactComponents ast)).

Lemma fileIssues_tabled file ast : Forall (tabled file) (fileIssues file ast).
Proof.
  unfold analyzeSRP, analyzeOCP, analyzeLSP, analyzeISP, analyzeDIP.
  repeat (apply Forall_app; split); apply Forall_flat_map; intros x _.
  - apply srpIssues_tabled.
  - apply ocpIssues_tabled.
  - apply lspIssues_tabled.
  - apply ispIssues_tabled.
  - apply dipIssues_tabled.
Qed.

(** *** Critical issues *)

Local Abbreviation criticals l :=
  (length (filter (λ i : SolidIssue, severity i = critical) l)).

Lemma criticals_app l1 l2 :
  criticals (l1 ++ l2) = (criticals l1 + criticals l2)%nat.
Proof. by rewrite filter_app, length_app. Qed.

Lemma criticals_flat_map {A} (f : A → list SolidIssue) (g : A → nat) l :
  (∀ x, criticals (f x) = g x) →
  criticals (flat_map f l) = sum_list_with g l.
Proof.
  intros H. induction l as [|x l IH]; simpl; [done|].
  by rewrite criticals_app, H, IH.
Qed.

Lemma criticals_none {A} (f : A → list SolidIssue) l :
  (∀ x, Forall (λ i, severity i ≠ critical) (f x)) →
  criticals (flat_map f l) = 0%nat.
Proof.
  intros H. induction l as [|x l IH]; simpl; [done|].
  rewrite criticals_app, IH.
  specialize (H x). induction H as [|i l' Hi _ IH']; [done|].
  rewrite filter_cons_False by done. done.
Qed.

Local Abbreviation large :=
  (λ c : Node, if (200 <? getComponentSize c)%Z then 1%nat else 0%nat).

Lemma srpIssues_criticals file c : criticals (srpIssues file c) = large c.
Proof.
  unfold srpIssues, sizeIssues, mixedConcernsIssues.
  rewrite criticals_app.
  destruct (200 <? getComponentSize c)%Z;
    [|destruct (100 <? getComponentSize c)%Z];
    destruct (hasMixedConcerns c); reflexivity.
Qed.

Lemma fileIssues_criticals file ast :
  criticals (fileIssues file ast) =
  sum_list_with large (extractReactComponents ast).
Proof.
  rewrite !criticals_app.
  unfold analyzeSRP, analyzeOCP, analyzeLSP, analyzeISP, analyzeDIP.
  rewrite (criticals_flat_map _ large) by apply srpIssues_criticals.
  rewrite !criticals_none; [lia|..]; intros x.
  - unfold dipIssues. apply Forall_app. split; repeat case_match; calm.
  - unfold ispIssues. case_match; [|constructor]. apply Forall_app.
    split; repeat case_match; calm.
  - unfold lspIssues. repeat case_match; calm.
  - unfold ocpIssues, conditionalIssues, hardcodedIssues. apply Forall_app.
    split; repeat case_match; calm.
Qed.

(** *** The loop over the files *)

Local Abbreviation componentsIn world :=
  (λ file : FileNode,
     match world (file_path file) with
     | Some ast => length (extractReactComponents ast)
     | None => 0%nat
     end).

Local Abbreviation largeIn world :=
  (λ file : FileNode,
     match world (file_path file) with
     | Some ast => sum_list_with large (extractReactComponents ast)
     | None => 0%nat
     end).

Lemma analyzeFiles world (fileData : list FileNode) files : ∀ acc,
  (∀ f, f ∈ files → f ∈ fileData ∧ isScriptFile f = true) →
  let acc' := fold_left (λ acc file, analyzeFile world file acc) files acc in
  (∀ (P : SolidIssue → Prop),
     (∀ f ast, f ∈ fileData → isScriptFile f = true →
               world (file_path f) = Some ast →
               Forall P (fileIssues f ast)) →
     Forall P acc.1 → Forall P acc'.1) ∧
  acc'.2 = (acc.2 + sum_list_with (componentsIn world) files)%nat ∧
  criticals acc'.1 =
    (criticals acc.1 + sum_list_with (largeIn world) files)%nat.
Proof.
  induction files as [|f files IH]; intros acc Hin; simpl.
  - split; [done|]. split; lia.
  - destruct (IH (analyzeFile world f acc)) as (IH1 & IH2 & IH3).
    { intros f' Hf'. apply Hin. by right. }
    destruct (Hin f) as [Hf1 Hf2]; [by left|].
    split; [|split].
    + intros P HP Hacc. apply IH1; [done|]. unfold analyzeFile.
      destruct (world (file_path f)) as [ast|] eqn:Hw; [|done]. simpl.
      apply Forall_app. split; [done|].
      by apply HP.
    + rewrite IH2. unfold analyzeFile.
      destruct (world (file_path f)); simpl; lia.
    + rewrite IH3. unfold analyzeFile.
      destruct (world (file_path f)) as [ast|]; simpl; [|lia].
      rewrite criticals_app, fileIssues_criticals. lia.
Qed.

Lemma analyzeSolid_fold log10 world fileData :
  ∃ issues0 total,
    fold_left (λ acc file, analyzeFile world file acc)
      (filter (λ f, isScriptFile f = true) fileData) ([], 0%nat) =
      (issues0, total) ∧
    issues (analyzeSolid log10 world fileData) = issues0 ∧
    stats (analyzeSolid log10 world fileData) =
      {| filesAnalyzed :=
           length (filter (λ f, isScriptFile f = true) fileData);
         totalComponents := total;
         totalIssues := length issues0;
         criticalIssues := criticals issues0 |}.
Proof.
  unfold analyzeSolid.
  destruct (fold_left _ _ ([], 0%nat)) as [issues0 total].
  by exists issues0, total.
Qed.

(** A property of the issues of every parsed file holds of the issues
    of the report. *)
Lemma analyzeSolid_issues log10 world fileData (P : SolidIssue → Prop) :
  (∀ f ast, f ∈ fileData → isScriptFile f = true →
            world (file_path f) = Some ast → Forall P (fileIssues f ast)) →
  Forall P (issues (analyzeSolid log10 world fileData)).
Proof.
  intros HP.
  destruct (analyzeSolid_fold log10 world fileData)
    as (issues0 & total & Hfold & -> & _).
  destruct (analyzeFiles world fileData
              (filter (λ f, isScriptFile f = true) fileData) ([], 0%nat))
    as (H & _).
  { intros f [? ?]%list_elem_of_filter. done. }
  rewrite Hfold in H. simpl in H. apply H; [done|constructor].
Qed.

(** X13. Which issues a report can hold.  An issue of severity
    [critical] is an SRP issue (the size check is the only one that
    reports it), an issue of severity [info] is an OCP or an ISP issue,
    and LSP and DIP issues are warnings; every issue is filed under a
    script file of the file data that could be parsed. *)
Theorem issue_table (log10 : float → float) (world : World)
  (fileData : list FileNode) :
  Forall (λ i,
    (severity i = critical → principle i = SRP) ∧
    (severity i = info → principle i = OCP ∨ principle i = ISP) ∧
    (principle i = LSP ∨ principle i = DIP → severity i = warning) ∧
    ∃ file, file ∈ fileData ∧ isScriptFile file = true ∧
            is_Some (world (file_path file)) ∧
            issue_filePath i = file_path file)
    (issues (analyzeSolid log10 world fileData)).
Proof.
  apply analyzeSolid_issues. intros f ast Hf Hs Hw.
  eapply Forall_impl; [apply fileIssues_tabled|].
  intros i (H1 & H2 & H3 & H4). split; [done|]. split; [done|].
  split; [done|]. exists f. by rewrite Hw.
Qed.

(** X14. The statistics of a report.  [filesAnalyzed] counts every
    script file of the file data, parsed or not; [totalComponents] is
    the number of components of the component graph built from the same
    file data; [criticalIssues] is the number of components, in the
    files that could be parsed, whose estimated size exceeds 200 lines,
    so it never exceeds [totalComponents]. *)
Theorem report_stats (log10 : float → float) (world : World)
  (fileData : list FileNode) :
  let report := analyzeSolid log10 world fileData in
  let scripts := filter (λ f, isScriptFile f = true) fileData in
  filesAnalyzed (stats report) = length scripts ∧
  totalComponents (stats report) =
    length (Components.components
              (Components.analyzeComponents world fileData)) ∧
  totalIssues (stats report) = length (issues report) ∧
  criticalIssues (stats report) =
    sum_list_with (λ file,
      match world (file_path file) with
      | Some ast =>
          length (filter (λ c, (200 < getComponentSize c)%Z)
                    (extractReactComponents ast))
      | None => 0%nat
      end) scripts ∧
  (criticalIssues (stats report) ≤ totalComponents (stats report))%nat.
Proof.
  intros report scripts.
  destruct (analyzeSolid_fold log10 world fileData)
    as (issues0 & total & Hfold & Hi & Hs).
  destruct (analyzeFiles world fileData scripts ([], 0%nat))
    as (_ & Htotal & Hcrit).
  { intros f [? ?]%list_elem_of_filter. done. }
  fold scripts in Hfold. rewrite Hfold in Htotal, Hcrit.
  simpl in Htotal, Hcrit.
  assert (∀ l : list Node,
            sum_list_with large l =
            length (filter (λ c, (200 < getComponentSize c)%Z) l)) as Hlarge.
  { induction l as [|c l IH]; simpl; [done|]. rewrite filter_cons, IH.
    destruct (Z.ltb_spec 200 (getComponentSize c));
      [rewrite decide_True by done|rewrite decide_False by lia]; done. }
  assert (∀ l : list Node, (sum_list_with large l ≤ length l)%nat) as Hle.
  { induction l as [|c l IH]; simpl; [done|].
    destruct (200 <? getComponentSize c)%Z; lia. }
  unfold report. rewrite Hs, Hi. simpl.
  split; [done|]. split; [|split; [done|split]].
  - rewrite Htotal. symmetry.
    apply ComponentGraphFacts.analyzeComponents_length.
  - rewrite Hcrit. clear -Hlarge.
    induction scripts as [|f l IH]; simpl; [done|].
    rewrite IH. destruct (world (file_path f)); [|done]. by rewrite Hlarge.
  - rewrite Hcrit, Htotal. clear -Hle.
    induction scripts as [|f l IH]; simpl; [done|].
    destruct (world (file_path f)) as [ast|]; [|lia].
    specialize (Hle (extractReactComponents ast)). lia.
Qed.

End ReportFacts.

(** ** What a scan contains *)
Module ScanFacts.
Import Js JsFacts Files FileSystem ScannerFacts ScannerSpec.

Lemma TreeNode_ind' (P : TreeNode → Prop) :
  (∀ f, P (FileN f)) →
  (∀ name path children metadata,
     Forall P children → P (DirectoryN name path children metadata)) →
  ∀ n, P n.
Proof.
  intros HF HD. fix IH 1. intros [f|name path children metadata].
  - apply HF.
  - apply HD. induction children as [|c children IHc].
    + constructor.
    + constructor; [apply IH|apply IHc].
Qed.

Lemma countFiles_directory n :
  match n with
  | FileN _ => True
  | DirectoryN _ _ _ _ => countFiles n = length (files n)
  end.
Proof.
  induction n as [f|name path children metadata IH] using TreeNode_ind';
    [done|].
  simpl.
  assert (∀ count,
            fold_left (λ count child,
                         match child with
                         | FileN _ => S count
                         | DirectoryN _ _ _ _ => (count + countFiles child)%nat
                         end) children count =
            (count + length (flat_map files children))%nat) as H.
  { induction IH as [|c l Hc _ IHl]; intros count; simpl; [lia|].
    rewrite IHl, length_app. destruct c; simpl in *; lia. }
  by rewrite H.
Qed.

(** *** Sorting keeps the nodes *)

Lemma insert_Permutation {A} (compare : A → A → Z) x l :
  insert compare x l ≡ₚ x :: l.
Proof.
  induction l as [|y l IH]; simpl; [done|].
  destruct (compare x y <? 0)%Z; [done|].
  rewrite IH. apply Permutation_swap.
Qed.

Lemma sort_Permutation {A} (compare : A → A → Z) l : sort compare l ≡ₚ l.
Proof.
  unfold sort.
  assert (∀ acc, fold_left (λ sorted x, insert compare x sorted) l acc
                 ≡ₚ l ++ acc) as H.
  { induction l as [|x l IH]; intros acc; simpl; [done|].
    rewrite IH, insert_Permutation. by rewrite Permutation_middle. }
  by rewrite H, app_nil_r.
Qed.

Section WithLibraries.
Variable path : PathModule.
Variable localeCompare : string → string → Z.

Local Abbreviation node := (λ pz : string * Z, createFileNode path pz.1 pz.2).

(** What [processEntry] pushes for an entry. *)
Local Abbreviation pushed_ok dirPath e nodes :=
  (flat_map files nodes ≡ₚ (node <$> kept path dirPath e) ∧
   ∀ d, d ∈ flat_map directories nodes →
     (nodeName d ∉ EXCLUDE_DIRS) ∧
     metadataOf d =
       Some {| fileCount := Some (length (files d));
               isPages := bool_decide (nodeName d = "pages");
               isApp := bool_decide (nodeName d = "app");
               isComponents := bool_decide (nodeName d = "components") |}).

Lemma processAll_spec dirPath entries :
  Forall (λ e, ∀ dirPath,
            (is_Some (processEntry path localeCompare dirPath e) ↔
             readable path e = true) ∧
            ∀ nodes, processEntry path localeCompare dirPath e = Some nodes →
                     pushed_ok dirPath e nodes) entries →
  (is_Some (processEntries path localeCompare dirPath entries) ↔
   forallb (readable path) entries = true) ∧
  ∀ nodes, processEntries path localeCompare dirPath entries = Some nodes →
    flat_map files nodes ≡ₚ (node <$> flat_map (kept path dirPath) entries) ∧
    ∀ d, d ∈ flat_map directories nodes →
      (nodeName d ∉ EXCLUDE_DIRS) ∧
      metadataOf d =
        Some {| fileCount := Some (length (files d));
                isPages := bool_decide (nodeName d = "pages");
                isApp := bool_decide (nodeName d = "app");
                isComponents := bool_decide (nodeName d = "components") |}.
Proof.
  unfold processEntries.
  induction 1 as [|e entries He _ [IH1 IH2]]; simpl.
  - split; [split; [done|by eexists]|].
    intros nodes [= <-]. split; [done|]. by intros d ?%elem_of_nil.
  - destruct (He dirPath) as [He1 He2].
    destruct (processEntry path localeCompare dirPath e) as [pushed|] eqn:Ep.
    + assert (readable path e = true) as -> by (apply He1; by eexists).
      simpl. destruct (processAll _ entries) as [others|] eqn:Eo.
      * split; [split; [intros _; apply IH1; by eexists|by eexists]|].
        intros nodes [= <-].
        destruct (He2 pushed eq_refl) as [Hp1 Hp2].
        destruct (IH2 others eq_refl) as [Ho1 Ho2].
        rewrite !flat_map_app, fmap_app. split; [by rewrite Hp1, Ho1|].
        intros d [Hd|Hd]%elem_of_app; auto.
      * split; [|done]. split; [by intros [? ?]|].
        intros Hall. apply IH1 in Hall. by destruct Hall.
    + split; [|done]. split; [by intros [? ?]|].
      intros [Hr _]%andb_true_iff. apply He1 in Hr. by destruct Hr.
Qed.

Lemma processEntry_spec e : ∀ dirPath,
  (is_Some (processEntry path localeCompare dirPath e) ↔
   readable path e = true) ∧
  ∀ nodes, processEntry path localeCompare dirPath e = Some nodes →
           pushed_ok dirPath e nodes.
Proof.
  induction e as [name size|name|name entries IH|name] using Dirent_ind';
    intros dirPath; simpl.
  - case_bool_decide; simpl.
    + destruct size as [size|]; simpl.
      * split; [split; [done|by eexists]|]. intros nodes [= <-]. simpl.
        split; [done|]. by intros d ?%elem_of_nil.
      * split; [|done]. split; [by intros [? ?]|done].
    + split; [split; [done|by eexists]|]. intros nodes [= <-]. simpl.
      split; [done|]. by intros d ?%elem_of_nil.
  - case_bool_decide; simpl.
    + split; [split; [done|by eexists]|]. intros nodes [= <-]. simpl.
      split; [done|]. by intros d ?%elem_of_nil.
    + split; [|done]. split; [by intros [? ?]|done].
  - case_bool_decide as Hex; simpl.
    + split; [split; [done|by eexists]|]. intros nodes [= <-]. simpl.
      split; [done|]. by intros d ?%elem_of_nil.
    + fold (processEntries path localeCompare (join path dirPath name) entries).
      destruct (processAll_spec (join path dirPath name) entries IH)
        as [Hall1 Hall2].
      destruct (processEntries _ _ _ entries) as [children|] eqn:Hc.
      * split; [split; [intros _; apply Hall1; by eexists|by eexists]|].
        intros nodes [= <-].
        destruct (Hall2 children eq_refl) as [Hf Hd].
        set (sorted := sort (compareChildren localeCompare) children).
        assert (sorted ≡ₚ children) as Hperm by apply sort_Permutation.
        split.
        { simpl. rewrite app_nil_r. fold sorted. by rewrite Hperm. }
        simpl. rewrite app_nil_r. intros d [->|Hin]%elem_of_cons.
        { simpl. split; [done|]. do 3 f_equal.
          apply (countFiles_directory
                   (DirectoryN name (join path dirPath name) sorted None)). }
        apply Hd. apply list_elem_of_In.
        apply list_elem_of_In in Hin.
        eapply Permutation_in; [|exact Hin].
        by apply Permutation_flat_map.
      * split; [|done]. split; [by intros [? ?]|].
        intros Hr. apply Hall1 in Hr. by destruct Hr.
  - split; [split; [done|by eexists]|]. intros nodes [= <-]. simpl.
    split; [done|]. by intros d ?%elem_of_nil.
Qed.

Lemma processEntries_spec dirPath entries :
  (is_Some (processEntries path localeCompare dirPath entries) ↔
   forallb (readable path) entries = true) ∧
  ∀ nodes, processEntries path localeCompare dirPath entries = Some nodes →
    flat_map files nodes ≡ₚ (node <$> flat_map (kept path dirPath) entries) ∧
    ∀ d, d ∈ flat_map directories nodes →
      (nodeName d ∉ EXCLUDE_DIRS) ∧
      metadataOf d =
        Some {| fileCount := Some (length (files d));
                isPages := bool_decide (nodeName d = "pages");
                isApp := bool_decide (nodeName d = "app");
                isComponents := bool_decide (nodeName d = "components") |}.
Proof.
  apply processAll_spec, Forall_forall. intros e _. apply processEntry_spec.
Qed.

End WithLibraries.

(** X17. When a scan fails.  The scan of a project returns a tree
    exactly when the root can be listed and, below it, every directory
    outside the excluded ones can be listed and every file with an
    included extension can be measured; what lies inside an excluded
    directory, and files of other extensions, are never looked at. *)
Theorem scan_succeeds_iff (path : PathModule)
  (localeCompare : string → string → Z) (projectRoot : string)
  (listing : option (list Dirent)) :
  is_Some (scanProjectDirectory path localeCompare projectRoot listing) ↔
  ∃ entries, listing = Some entries ∧
             forallb (readable path) entries = true.
Proof.
  unfold scanProjectDirectory, buildDirectoryTree.
  destruct listing as [entries|]; simpl.
  - destruct (processEntries_spec path localeCompare projectRoot entries)
      as [H _].
    destruct (processEntries _ _ _ entries) as [nodes|]; simpl.
    + split; [|by eexists]. intros _. exists entries. split; [done|].
      apply H. by eexists.
    + split; [by intros [? ?]|]. intros (? & [= <-] & Hr).
      apply H in Hr. by destruct Hr.
  - split; [by intros [? ?]|]. by intros (? & ? & _).
Qed.

(** X18. What a scan holds.  The file nodes of the tree are, up to the
    order, the nodes of the files with an included extension that lie
    outside the excluded directories, each with the path obtained by
    joining the names from the root and with the metadata of
    [createFileNode]; below the root no directory bears an excluded
    name, and each directory carries in [fileCount] the number of files
    of its subtree and the flags for the names [pages], [app] and
    [components]; the root itself has no metadata. *)
Theorem scan_contents (path : PathModule)
  (localeCompare : string → string → Z) (projectRoot : string)
  (entries : list Dirent) (tree : TreeNode) :
  scanProjectDirectory path localeCompare projectRoot (Some entries)
    = Some tree →
  files tree ≡ₚ
    ((λ pz, createFileNode path pz.1 pz.2) <$>
       flat_map (kept path projectRoot) entries) ∧
  countFiles tree = length (flat_map (kept path projectRoot) entries) ∧
  metadataOf tree = None ∧
  ∀ d, d ∈ flat_map directories (childrenOf tree) →
    (nodeName d ∉ EXCLUDE_DIRS) ∧
    metadataOf d =
      Some {| fileCount := Some (length (files d));
              isPages := bool_decide (nodeName d = "pages");
              isApp := bool_decide (nodeName d = "app");
              isComponents := bool_decide (nodeName d = "components") |}.
Proof.
  unfold scanProjectDirectory, buildDirectoryTree. simpl.
  destruct (processEntries_spec path localeCompare projectRoot entries)
    as [_ H].
  destruct (processEntries _ _ _ entries) as [nodes|]; [|done].
  simpl. intros [= <-]. destruct (H nodes eq_refl) as [Hf Hd].
  set (sorted := sort (compareChildren localeCompare) nodes).
  assert (sorted ≡ₚ nodes) as Hperm by apply sort_Permutation.
  assert (flat_map files sorted ≡ₚ
          ((λ pz, createFileNode path pz.1 pz.2) <$>
             flat_map (kept path projectRoot) entries)) as Hfiles.
  { by rewrite Hperm. }
  split; [done|]. split; [|split; [done|]].
  - rewrite (countFiles_directory
               (DirectoryN (basename path projectRoot) projectRoot sorted None)).
    simpl. by rewrite Hfiles, length_fmap.
  - simpl. intros d Hin. apply Hd. apply list_elem_of_In.
    apply list_elem_of_In in Hin. eapply Permutation_in; [|exact Hin].
    by apply Permutation_flat_map.
Qed.

Lemma scan_contents_witness :
  ∃ tree,
    scanProjectDirectory Posix.path Examples.lexCompare "/proj"
      (Some Examples.projectListing) = Some tree ∧
    files tree ≡ₚ
      ((λ pz, createFileNode Posix.path pz.1 pz.2) <$>
         flat_map (kept Posix.path "/proj") Examples.projectListing) ∧
    countFiles tree =
      length (flat_map (kept Posix.path "/proj") Examples.projectListing) ∧
    metadataOf tree = None ∧
    ∀ d, d ∈ flat_map directories (childrenOf tree) →
      (nodeName d ∉ EXCLUDE_DIRS) ∧
      metadataOf d =
        Some {| fileCount := Some (length (files d));
                isPages := bool_decide (nodeName d = "pages");
                isApp := bool_decide (nodeName d = "app");
                isComponents := bool_decide (nodeName d = "components") |}.
Proof.
  eexists. split; [vm_compute; reflexivity|].
  apply (scan_contents Posix.path Examples.lexCompare "/proj"
           Examples.projectListing).
  vm_compute. reflexivity.
Defined.

Lemma normalizeSlashes_spec s :
  normalizeSlashes (normalizeSlashes s) = normalizeSlashes s ∧
  String.length (normalizeSlashes s) = String.length s ∧
  includes (normalizeSlashes s) (String "\"%char EmptyString) = false.
Proof.
  induction s as [|c s (IH1 & IH2 & IH3)]; [done|].
  cbn [normalizeSlashes]. split; [|split].
  - cbn [normalizeSlashes]. rewrite IH1. f_equal.
    destruct (decide (c = "\"%char)) as [->|E]; [done|].
    by rewrite !(bool_decide_false (c = _)) by done.
  - cbn [String.length]. by rewrite IH2.
  - cbn [includes]. rewrite IH3, orb_false_r.
    cbn [String.prefix]. case_bool_decide as E.
    + by destruct (Ascii.ascii_dec _ _).
    + destruct (Ascii.ascii_dec _ _) as [E'|]; [|done]. by destruct E.
Qed.

(** X19. The flags of a file node.  A file is flagged as a component
    only with the extension [.tsx] or [.jsx], and as a page only with a
    script extension, so every flagged file is read by the analyzers; a
    [.ts] or [.js] file is never flagged as a component.  In the page
    test backslashes count as slashes: the path is searched after a
    replacement that leaves no backslash and changes nothing else. *)
Theorem created_file_flags (path : PathModule) (filePath : string) (size : Z) :
  let file := createFileNode path filePath size in
  (isComponent file = true → file_extension file ∈ [".tsx"; ".jsx"]) ∧
  (isPage file = true → file_extension file ∈ [".tsx"; ".jsx"; ".js"; ".ts"]) ∧
  (isPage file = true ∨ isComponent file = true → isScriptFile file = true) ∧
  (file_extension file ∈ [".ts"; ".js"] → isComponent file = false) ∧
  (isPage file = true →
     includes (normalizeSlashes filePath) "/pages/" = true ∨
     includes (normalizeSlashes filePath) "/app/" = true) ∧
  includes (normalizeSlashes filePath) (String "\"%char EmptyString) = false.
Proof.
  intros file.
  assert (isComponent file = true → file_extension file ∈ [".tsx"; ".jsx"])
    as Hc.
  { unfold file, createFileNode, isReactComponent. simpl.
    case_bool_decide; [done|]. done. }
  assert (isPage file = true →
          file_extension file ∈ [".tsx"; ".jsx"; ".js"; ".ts"]) as Hp.
  { unfold file, createFileNode, isNextPage. simpl.
    case_bool_decide; [done|]. done. }
  split; [done|]. split; [done|]. split; [|split; [|split]].
  - unfold isScriptFile. intros [H|H]; apply bool_decide_eq_true.
    + apply Hp in H. set_solver.
    + apply Hc in H. set_solver.
  - intros Hext. destruct (isComponent file) eqn:E; [|done].
    specialize (Hc eq_refl). exfalso.
    repeat (apply elem_of_cons in Hext as [Hext|Hext];
            [rewrite Hext in Hc; set_solver|]).
    by apply elem_of_nil in Hext.
  - unfold file, createFileNode, isNextPage. simpl.
    case_bool_decide; [|done]. simpl.
    intros [Hin|[Hin _]%andb_true_iff]%orb_true_iff; auto.
  - apply normalizeSlashes_spec.
Qed.

End ScanFacts.

(** ** Usage statistics *)
Module StatsFacts.
Import Js JsFacts Components ComponentStats FileSystem ScannerFacts ScanFacts
  DependencyFacts.

Lemma insert_fmap {A B} (f : A → B) (cmpA : A → A → Z) (cmpB : B → B → Z) x l :
  (∀ a b, cmpB (f a) (f b) = cmpA a b) →
  insert cmpB (f x) (f <$> l) = f <$> insert cmpA x l.
Proof.
  intros H. induction l as [|y l IH]; simpl; [done|].
  rewrite H. destruct (cmpA x y <? 0)%Z; [done|]. simpl. f_equal. apply IH.
Qed.

Lemma sort_fmap {A B} (f : A → B) (cmpA : A → A → Z) (cmpB : B → B → Z) l :
  (∀ a b, cmpB (f a) (f b) = cmpA a b) →
  sort cmpB (f <$> l) = f <$> sort cmpA l.
Proof.
  intros H. unfold sort.
  assert (∀ acc, fold_left (λ sorted x, insert cmpB x sorted) (f <$> l)
                   (f <$> acc) =
                 f <$> fold_left (λ sorted x, insert cmpA x sorted) l acc) as Hf.
  { induction l as [|x l IH]; intros acc; simpl; [done|].
    rewrite <-IH. f_equal. by apply insert_fmap. }
  apply (Hf []).
Qed.

Lemma StronglySorted_weaken {A} (R R' : A → A → Prop) l :
  (∀ a b, R a b → R' a b) → StronglySorted R l → StronglySorted R' l.
Proof.
  intros H. induction 1 as [|x l Hl IH Hx]; constructor; [done|].
  eapply Forall_impl; [exact Hx|]. intros y. apply H.
Qed.

(** *** The usage map *)

Local Abbreviation used rels :=
  (λ id : string,
     length (filter (λ r : ComponentRelationship, rtarget r = id) rels)).

Local Abbreviation usage_ok m rels :=
  (NoDup (map_keys m) ∧
   ∀ id, map_get id m =
         if decide (used rels id = 0%nat) then None else Some (used rels id)).

Lemma countUsage_fold rels : ∀ m processed,
  usage_ok m processed →
  usage_ok (fold_left (λ componentUsage rel,
              map_set (rtarget rel)
                (default 0%nat (map_get (rtarget rel) componentUsage) + 1)%nat
                componentUsage) rels m) (processed ++ rels).
Proof.
  induction rels as [|r rels IH]; intros m processed [Hnd Hget]; simpl.
  - by rewrite app_nil_r.
  - rewrite (cons_middle r processed rels), (assoc_L (++)).
    apply IH. split; [by apply map_keys_set_NoDup|].
    intros id. rewrite map_get_set, filter_app, length_app, filter_cons.
    rewrite filter_nil.
    case_bool_decide as Hid.
    + subst id. rewrite (decide_True (P := rtarget r = rtarget r)) by done.
      simpl.
      rewrite Hget. repeat case_decide; simpl; try lia; f_equal; lia.
    + rewrite (decide_False (P := rtarget r = id)) by done. simpl.
      rewrite Nat.add_0_r. apply Hget.
Qed.

Lemma map_get_elem_of {V} k (v : V) m :
  NoDup (map_keys m) → (k, v) ∈ m ↔ map_get k m = Some v.
Proof.
  unfold map_keys. induction m as [|[k0 v0] m IH]; simpl; intros Hnd.
  - split; [by intros ?%elem_of_nil|done].
  - apply NoDup_cons in Hnd as [Hk0 Hnd]. rewrite elem_of_cons, IH by done.
    case_bool_decide as Hk.
    + subst k0. split.
      * intros [[= ->]|Hin]; [done|]. exfalso. apply Hk0.
        apply map_get_Some_elem in Hin.
        apply list_elem_of_fmap. by exists (k, v).
      * intros [= ->]. by left.
    + split; [intros [[= -> ->]|?]; done|by right].
Qed.

Lemma countUsage_spec rels :
  NoDup (countUsage rels).*1 ∧
  ∀ id n, (id, n) ∈ countUsage rels ↔ n = used rels id ∧ (0 < n)%nat.
Proof.
  destruct (countUsage_fold rels [] []) as [Hnd Hget].
  { split; [constructor|]. intros id. done. }
  simpl in Hget. fold (countUsage rels) in Hnd, Hget.
  split; [done|]. intros id n.
  rewrite (map_get_elem_of id n _ Hnd), Hget.
  case_decide; split; try done; try lia.
  - intros [= <-]. lia.
  - intros [-> _]. done.
Qed.

Lemma byUsage_anti a b : (0 ≤ byUsage a b → byUsage b a ≤ 0)%Z.
Proof. unfold byUsage. lia. Qed.

Lemma byUsage_trans a b c :
  (byUsage a b ≤ 0 → byUsage b c ≤ 0 → byUsage a c ≤ 0)%Z.
Proof. unfold byUsage. lia. Qed.

(** X20. The statistics of a component graph.  [totalComponents] is
    the number of components and [byType] counts them by type.
    [mostUsed] shows the first five entries of a ranking of the targets
    of the relationships: every target occurs once in the ranking, with
    the number of relationships that point to it, and the ranking is in
    non-increasing order of that number.  [mostProps] shows the first
    five entries of a ranking of the components that have props, in
    non-increasing order of their number of props. *)
Theorem getComponentStats_spec (graph : ComponentGraph) :
  let s := getComponentStats graph in
  totalComponents s = length (components graph) ∧
  (∀ t, typeCount t (byType s) =
        length (filter (λ c, ctype c = t) (components graph))) ∧
  (∃ ranked : list (string * nat),
     mostUsed s = usageOf (components graph) <$> take 5 ranked ∧
     NoDup ranked.*1 ∧
     (∀ id n, (id, n) ∈ ranked ↔
        n = length (filter (λ r, rtarget r = id) (relationships graph)) ∧
        (0 < n)%nat) ∧
     StronglySorted (λ a b, (b.2 ≤ a.2)%nat) ranked) ∧
  (∃ ranked : list ComponentNodeData,
     mostProps s = propCountOf <$> take 5 ranked ∧
     ranked ≡ₚ filter (λ c, hasProps c = true) (components graph) ∧
     Forall (λ c, (0 < propsLength c)%nat) ranked ∧
     StronglySorted (λ a b, (propsLength b ≤ propsLength a)%nat) ranked).
Proof.
  intros s. split; [done|]. split; [|split].
  - intros t. unfold s, getComponentStats. simpl.
    assert (∀ b, typeCount t (fold_left (λ b c, bumpType (ctype c) b)
                                (components graph) b) =
                 (typeCount t b +
                  length (filter (λ c, ctype c = t) (components graph)))%nat)
      as H.
    { induction (components graph) as [|c l IH]; intros b; simpl; [lia|].
      rewrite IH, filter_cons.
      destruct (decide (ctype c = t)) as [<-|Hne]; simpl.
      - destruct (ctype c); simpl; lia.
      - destruct (ctype c), t; simpl; try lia; done. }
    rewrite H. by destruct t.
  - set (cmp := λ a b : string * nat, (Z.of_nat b.2 - Z.of_nat a.2)%Z).
    exists (sort cmp (countUsage (relationships graph))).
    destruct (countUsage_spec (relationships graph)) as [Hnd Hin].
    pose proof (sort_Permutation cmp (countUsage (relationships graph)))
      as Hperm.
    split; [|split; [|split]].
    + unfold s, getComponentStats. simpl.
      by rewrite (sort_fmap (usageOf (components graph)) cmp byUsage),
        fmap_take.
    + by rewrite Hperm.
    + intros id n. by rewrite Hperm.
    + eapply StronglySorted_weaken; [|apply sort_sorted].
      * intros a b. unfold cmp. lia.
      * intros a b. unfold cmp. lia.
      * intros a b c. unfold cmp. lia.
  - set (cmp := λ a b : ComponentNodeData,
                  (Z.of_nat (propsLength b) - Z.of_nat (propsLength a))%Z).
    exists (sort cmp (filter (λ c, hasProps c = true) (components graph))).
    pose proof (sort_Permutation cmp
                  (filter (λ c, hasProps c = true) (components graph)))
      as Hperm.
    split; [|split; [done|split]].
    + unfold s, getComponentStats. simpl.
      by rewrite (sort_fmap propCountOf cmp byPropCount), fmap_take.
    + rewrite Hperm. apply Forall_forall.
      intros c [Hc _]%list_elem_of_filter. unfold hasProps, propsLength in *.
      destruct (props c); [by apply Nat.ltb_lt|done].
    + eapply StronglySorted_weaken; [|apply sort_sorted].
      * intros a b. unfold cmp. lia.
      * intros a b. unfold cmp. lia.
      * intros a b c. unfold cmp. lia.
Qed.

End StatsFacts.

(** ** Files of a scan by kind *)
Module StructureFacts.
Import Js Files FileSystem ScannerSpec ScanFacts Structure.

Lemma after_nil counts : after counts [] = counts.
Proof. destruct counts. unfold after. simpl. f_equal; lia. Qed.

Lemma countIf_filter (p : FileNode → bool) f l n :
  (countIf (p f) n + length (filter (λ f, p f = true) l))%nat =
  (n + length (filter (λ f, p f = true) (f :: l)))%nat.
Proof.
  rewrite filter_cons. unfold countIf.
  destruct (p f); [rewrite decide_True by done|rewrite decide_False by done];
    simpl; lia.
Qed.

Lemma after_cons counts f l : after (countFile f counts) l = after counts (f :: l).
Proof.
  unfold after, countFile.
  cbn [tc_components tc_pages tc_apis tc_layouts tc_styles tc_utils tc_total].
  rewrite !countIf_filter. simpl. f_equal. lia.
Qed.

Lemma after_app counts l1 l2 : after (after counts l1) l2 = after counts (l1 ++ l2).
Proof.
  unfold after.
  cbn [tc_components tc_pages tc_apis tc_layouts tc_styles tc_utils tc_total].
  rewrite !filter_app, !length_app. f_equal; lia.
Qed.

Lemma countRecursive_directory n :
  match n with
  | FileN _ => True
  | DirectoryN _ _ _ _ =>
      ∀ counts, countRecursive n counts = after counts (files n)
  end.
Proof.
  induction n as [f|name path children metadata IH] using TreeNode_ind';
    [done|].
  simpl. induction IH as [|c l Hc _ IHl]; intros counts.
  - simpl. by rewrite after_nil.
  - cbn [fold_left flat_map]. rewrite IHl. destruct c as [f|? ? ? ?].
    + cbn [files app]. apply after_cons.
    + rewrite Hc. apply after_app.
Qed.

(** X21. [countFilesByType] counts the file nodes of the whole tree of a
    directory: [total] is their number, which is also what [countFiles]
    returns, and each other counter is the number of files that pass its
    test, so none exceeds [total]. *)
Theorem countFilesByType_files (name path : string)
  (children : list TreeNode) (metadata : option DirectoryMetadata) :
  let structure := DirectoryN name path children metadata in
  let counts := countFilesByType structure in
  let number := λ p : FileNode → bool,
    length (filter (λ f, p f = true) (files structure)) in
  tc_total counts = length (files structure) ∧
  tc_total counts = countFiles structure ∧
  tc_components counts = number isComponent ∧
  tc_pages counts = number isPage ∧
  tc_apis counts = number isApiFile ∧
  tc_layouts counts = number isLayout ∧
  tc_styles counts = number isStyleFile ∧
  tc_utils counts = number isUtilFile ∧
  (tc_components counts ≤ tc_total counts)%nat ∧
  (tc_pages counts ≤ tc_total counts)%nat ∧
  (tc_apis counts ≤ tc_total counts)%nat ∧
  (tc_layouts counts ≤ tc_total counts)%nat ∧
  (tc_styles counts ≤ tc_total counts)%nat ∧
  (tc_utils counts ≤ tc_total counts)%nat.
Proof.
  intros structure counts number. unfold counts, countFilesByType.
  rewrite (countRecursive_directory structure noFiles). unfold after.
  cbn [tc_components tc_pages tc_apis tc_layouts tc_styles tc_utils tc_total
       noFiles Nat.add].
  rewrite (countFiles_directory structure).
  assert (∀ p : FileNode → bool, (number p ≤ length (files structure))%nat)
    as Hle by (intros p; apply length_filter).
  unfold number in *. repeat split; try done; apply Hle.
Qed.

End StructureFacts.

(** ** Refactoring suggestions *)
Module RefactorFacts.
Import Js Files Solid Dependency Refactor.

Lemma count_fmap {A B} (P : B → Prop) `{∀ x, Decision (P x)} (f : A → B) l :
  length (filter P (f <$> l)) = length (filter (λ x, P (f x)) l).
Proof.
  induction l as [|x l IH]; [done|].
  rewrite fmap_cons, !filter_cons.
  destruct (decide (P (f x))); cbn [length]; by rewrite IH.
Qed.

Lemma count_imap {A B} (P : B → Prop) `{∀ x, Decision (P x)}
  (Q : A → Prop) `{∀ x, Decision (Q x)} (h : nat → A → B) l :
  (∀ i x, P (h i x) ↔ Q x) →
  length (filter P (imap h l)) = length (filter Q l).
Proof.
  revert h. induction l as [|x l IH]; intros h Hh; [done|].
  rewrite imap_cons, !filter_cons.
  assert (length (filter P (imap (h ∘ S) l)) = length (filter Q l)) as IH'.
  { apply IH. intros i y. apply Hh. }
  destruct (decide (P (h 0%nat x))) as [HP|HP], (decide (Q x)) as [HQ|HQ];
    cbn [length]; rewrite ?IH'; try done.
  - exfalso. by apply HQ, (Hh 0%nat).
  - exfalso. by apply HP, (Hh 0%nat).
Qed.

Lemma count_none {A} (P : A → Prop) `{∀ x, Decision (P x)} l :
  Forall (λ x, ¬ P x) l → length (filter P l) = 0%nat.
Proof.
  induction 1 as [|x l Hx _ IH]; [done|].
  by rewrite filter_cons_False.
Qed.

Lemma calculateStats_counts l :
  totalSuggestions (calculateStats l) = length l ∧
  (∀ p, priorityCount p (byPriority (calculateStats l)) =
        length (filter (λ s, s_priority s = p) l)) ∧
  (∀ t, typeCount t (byType (calculateStats l)) =
        length (filter (λ s, s_type s = t) l)).
Proof.
  unfold calculateStats.
  set (step := λ (acc : ByPriority * ByType) (s : RefactorSuggestion),
                 (bumpPriority (s_priority s) acc.1,
                  bumpType (s_type s) acc.2)).
  assert (∀ acc,
            (∀ p, priorityCount p (fold_left step l acc).1 =
                  (priorityCount p acc.1 +
                   length (filter (λ s, s_priority s = p) l))%nat) ∧
            (∀ t, typeCount t (fold_left step l acc).2 =
                  (typeCount t acc.2 +
                   length (filter (λ s, s_type s = t) l))%nat)) as H.
  { induction l as [|s l IH]; intros acc; simpl.
    - split; intros; lia.
    - destruct (IH (step acc s)) as [IH1 IH2]. split.
      + intros p. rewrite IH1, filter_cons. simpl.
        destruct (decide (s_priority s = p)) as [<-|Hne]; simpl.
        * destruct (s_priority s); simpl; lia.
        * destruct (s_priority s), p; simpl; try lia; done.
      + intros t. rewrite IH2, filter_cons. simpl.
        destruct (decide (s_type s = t)) as [<-|Hne]; simpl.
        * destruct (s_type s); simpl; lia.
        * destruct (s_type s), t; simpl; try lia; done. }
  specialize (H ({| n_high := 0; n_medium := 0; n_low := 0 |},
                 {| n_performance := 0; n_maintainability := 0;
                    n_security := 0; n_accessibility := 0;
                    n_best_practice := 0 |})).
  destruct (fold_left step l _) as [bp bt]. destruct H as [H1 H2].
  simpl in *. split; [done|]. split.
  - intros p. rewrite H1. by destruct p.
  - intros t. rewrite H2. by destruct t.
Qed.

Lemma partition_priority (l : list RefactorSuggestion) :
  (length (filter (λ s, s_priority s = high) l) +
   length (filter (λ s, s_priority s = medium) l) +
   length (filter (λ s, s_priority s = low) l))%nat = length l.
Proof.
  induction l as [|s l IH]; [done|]. rewrite !filter_cons. simpl.
  destruct (s_priority s); simpl; lia.
Qed.

Lemma partition_type (l : list RefactorSuggestion) :
  Forall (λ s, s_type s = maintainability ∨ s_type s = best_practice) l →
  length (filter (λ s, s_type s = performance) l) = 0%nat ∧
  length (filter (λ s, s_type s = security) l) = 0%nat ∧
  length (filter (λ s, s_type s = accessibility) l) = 0%nat ∧
  (length (filter (λ s, s_type s = maintainability) l) +
   length (filter (λ s, s_type s = best_practice) l))%nat = length l.
Proof.
  induction 1 as [|s l Hs _ (IH1 & IH2 & IH3 & IH4)]; [done|].
  rewrite !filter_cons. destruct Hs as [-> | ->]; simpl; lia.
Qed.

Lemma suggestions_typed fileData solidIssues circularDependencies :
  Forall (λ s, s_type s = maintainability ∨ s_type s = best_practice)
    (suggestions (generateRefactorSuggestions fileData solidIssues
                    circularDependencies)).
Proof.
  unfold generateRefactorSuggestions. simpl.
  apply Forall_app; split; [|apply Forall_app; split; [|apply Forall_app; split]].
  - apply Forall_forall. intros s (i & -> & _)%list_elem_of_fmap. simpl.
    destruct (principle i); auto.
  - apply Forall_forall. intros s [k Hk]%list_elem_of_lookup.
    unfold generateCircularDependencySuggestions in Hk.
    rewrite list_lookup_imap in Hk.
    destruct (circularDependencies !! k); [|done]. injection Hk as <-. auto.
  - apply Forall_forall. intros s (f & -> & _)%list_elem_of_fmap. auto.
  - unfold analyzeFileOrganization. apply Forall_app.
    split; case_match;
      repeat first [apply Forall_nil_2 | apply Forall_cons_2]; simpl; auto.
Qed.

Lemma critical_high (l : list SolidIssue) :
  length (filter (λ x, s_priority (convertIssue x) = high) l) =
  length (filter (λ i, severity i = critical) l).
Proof.
  induction l as [|i l IH]; [done|]. rewrite !filter_cons.
  destruct (decide (severity i = critical)) as [E|E].
  - rewrite decide_True by (simpl; by rewrite E). cbn [length]. by rewrite IH.
  - rewrite decide_False; [done|]. simpl. by destruct (severity i).
Qed.

(** X22. The report of [generateRefactorSuggestions].  It holds one
    suggestion per SOLID issue, one per circular dependency, one per
    script file of more than 10000 bytes, and at most two on the
    organisation of the files.  Its statistics count every suggestion
    once by priority and once by type; no suggestion has type
    performance, security or accessibility; the suggestions of high
    priority are those of the critical issues and of the critical
    cycles. *)
Theorem refactor_report (fileData : list FileNode)
  (solidIssues : list SolidIssue)
  (circularDependencies : list CircularDependency) :
  let report :=
    generateRefactorSuggestions fileData solidIssues circularDependencies in
  let st := stats report in
  totalSuggestions st = length (suggestions report) ∧
  (∃ organisation,
     (organisation ≤ 2)%nat ∧
     length (suggestions report) =
       (length solidIssues + length circularDependencies +
        length (filter (λ f, isLargeFile f = true) fileData) +
        organisation)%nat) ∧
  (n_high (byPriority st) + n_medium (byPriority st) +
   n_low (byPriority st))%nat = totalSuggestions st ∧
  n_performance (byType st) = 0%nat ∧ n_security (byType st) = 0%nat ∧
  n_accessibility (byType st) = 0%nat ∧
  (n_maintainability (byType st) + n_best_practice (byType st))%nat =
    totalSuggestions st ∧
  n_high (byPriority st) =
    (length (filter (λ i, severity i = critical) solidIssues) +
     length (filter (λ c, cd_severity c = critical) circularDependencies))%nat.
Proof.
  intros report st.
  pose proof (suggestions_typed fileData solidIssues circularDependencies)
    as Htyped.
  fold report in Htyped.
  destruct (calculateStats_counts (suggestions report)) as (Ht & Hp & Hty).
  change (calculateStats (suggestions report)) with st in Ht, Hp, Hty.
  destruct (partition_type _ Htyped) as (T1 & T2 & T3 & T4).
  pose proof (partition_priority (suggestions report)) as P.
  pose proof (Hp high) as Hh. pose proof (Hp medium) as Hm.
  pose proof (Hp low) as Hl. cbn [priorityCount] in Hh, Hm, Hl.
  pose proof (Hty performance) as H1. pose proof (Hty security) as H2.
  pose proof (Hty accessibility) as H3. pose proof (Hty maintainability) as H4.
  pose proof (Hty best_practice) as H5. cbn [typeCount] in H1, H2, H3, H4, H5.
  split; [done|]. split; [|split; [lia|]].
  { unfold report, generateRefactorSuggestions. simpl.
    exists (length (analyzeFileOrganization fileData)). split.
    - unfold analyzeFileOrganization. rewrite length_app.
      repeat case_match; simpl; lia.
    - rewrite !length_app. unfold convertSolidIssuesToSuggestions,
        generateCircularDependencySuggestions, analyzeLargeFiles.
      rewrite !length_fmap, length_imap. lia. }
  split; [lia|]. split; [lia|]. split; [lia|]. split; [lia|].
  rewrite Hh. unfold report, generateRefactorSuggestions. simpl.
  rewrite !filter_app, !length_app.
  unfold convertSolidIssuesToSuggestions, generateCircularDependencySuggestions,
    analyzeLargeFiles.
  rewrite (count_fmap (λ s, s_priority s = high) convertIssue).
  rewrite (count_imap (λ s, s_priority s = high)
             (λ c, cd_severity c = critical) circularSuggestion).
  2: { intros i c. simpl. case_bool_decide; split; done. }
  rewrite (count_none (λ s, s_priority s = high) (largeFileSuggestion <$> _)).
  2: { apply Forall_forall. by intros s (f & -> & _)%list_elem_of_fmap. }
  rewrite (count_none (λ s, s_priority s = high) (analyzeFileOrganization _)).
  2: { unfold analyzeFileOrganization. apply Forall_app.
       split; case_match;
         repeat first [apply Forall_nil_2 | apply Forall_cons_2]; done. }
  rewrite critical_high. lia.
Qed.

(** X23. The suggestions drawn from a SOLID report.  The impact of such
    a suggestion is its priority.  A suggestion of high priority asks
    for a hard fix of type maintainability, since only the size check of
    SRP reports critical issues; a suggestion of low priority is an easy
    best-practice fix (ISP) or a moderate maintainability fix (OCP).
    Each suggestion bears the path of a script file of the file data
    that could be parsed. *)
Theorem report_suggestions (log10 : float → float) (world : World)
  (fileData : list FileNode) :
  Forall (λ s,
    s_impact s = s_priority s ∧
    (s_priority s = high → s_effort s = hard ∧ s_type s = maintainability) ∧
    (s_priority s = low →
       (s_effort s = easy ∧ s_type s = best_practice) ∨
       (s_effort s = moderate ∧ s_type s = maintainability)) ∧
    ∃ file, file ∈ fileData ∧ isScriptFile file = true ∧
            is_Some (world (file_path file)) ∧ s_filePath s = file_path file)
    (convertSolidIssuesToSuggestions
       (issues (analyzeSolid log10 world fileData))).
Proof.
  unfold convertSolidIssuesToSuggestions.
  apply Forall_fmap, ReportFacts.analyzeSolid_issues. intros f ast Hf Hs Hw.
  eapply Forall_impl; [apply ReportFacts.fileIssues_tabled|].
  intros i (Hc & Hi & _ & Hp). simpl. split; [done|]. split; [|split].
  - destruct (severity i); try done. intros _. rewrite (Hc eq_refl). done.
  - destruct (severity i); try done. intros _.
    destruct (Hi eq_refl) as [-> | ->]; auto.
  - exists f. by rewrite Hw.
Qed.

End RefactorFacts.

(** ** Routes *)
Module RouteFacts.
Import Js Files FileSystem ScannerSpec ScanFacts Routes.

Lemma head_filter_app {A} (P : A → Prop) `{∀ x, Decision (P x)} l1 l2 :
  head (filter P (l1 ++ l2)) =
  match head (filter P l1) with
  | Some x => Some x
  | None => head (filter P l2)
  end.
Proof.
  rewrite filter_app. by destruct (filter P l1).
Qed.

(** X24. [findDirectory] returns the first directory of the tree, in
    the order parent before children and children from first to last,
    that bears the name; it returns nothing exactly when no directory
    bears it. *)
Theorem findDirectory_first (node : TreeNode) (name : string) :
  findDirectory node name =
  head (filter (λ d, nodeName d = name) (directories node)).
Proof.
  induction node as [f|nm p children metadata IH] using TreeNode_ind';
    [done|].
  cbn [findDirectory directories]. rewrite filter_cons. cbn [nodeName].
  case_bool_decide as Hnm.
  { by rewrite decide_True. }
  rewrite decide_False by done.
  induction IH as [|c l Hc _ IHl]; [done|].
  cbn [flat_map]. rewrite head_filter_app, <-IHl.
  destruct c as [f|? ? ? ?]; [done|].
  rewrite <-Hc. by destruct (findDirectory _ name).
Qed.

Lemma findDirectory_directory node name d :
  findDirectory node name = Some d → isDirectory d = true.
Proof.
  induction node as [f|nm p children metadata IH] using TreeNode_ind';
    [done|].
  cbn [findDirectory]. case_bool_decide; [by intros [= <-]|].
  induction IH as [|c l Hc _ IHl]; [done|].
  destruct c as [f|? ? ? ?]; [done|].
  destruct (findDirectory _ name) as [found|] eqn:E; [|done].
  intros [= <-]. by apply Hc.
Qed.

Section WithPath.
Variable path : PathModule.

(** What holds of every route. *)
Local Abbreviation sound router :=
  (λ r : RouteInfo,
     routerType r = router ∧ route_isPage r = negb (isApi r) ∧
     (isDynamic r = true ↔ is_Some (params r)) ∧ params r ≠ Some []).

Lemma someParams_spec l :
  ((0 <? length l)%nat = true ↔ is_Some (someParams l)) ∧
  someParams l ≠ Some [].
Proof.
  unfold someParams. destruct l; simpl.
  - split; [split; [done|by intros [? ?]]|done].
  - split; [split; [by eexists|done]|done].
Qed.

Lemma processPageDirectory_spec dir :
  match dir with
  | FileN _ => True
  | DirectoryN _ _ _ _ =>
      ∀ basePath,
        Forall (sound pages) (processPageDirectory path dir basePath) ∧
        route_filePath <$> processPageDirectory path dir basePath =
          file_path <$> filter (λ f, isRouteFile path f = true) (files dir)
  end.
Proof.
  induction dir as [f|nm p children metadata IH] using TreeNode_ind';
    [done|]. intros basePath.
  cbn [processPageDirectory files].
  induction IH as [|c l Hc _ [IH1 IH2]]; [split; [apply Forall_nil_2|done]|].
  cbn [flat_map]. rewrite filter_app, !fmap_app, IH2.
  split; [apply Forall_app; split; [|done]|f_equal].
  - destruct c as [f|? ? ? ?]; [|apply Hc].
    destruct (isRouteFile path f); [|constructor].
    constructor; [|constructor]. simpl. split; [done|]. split; [done|].
    apply someParams_spec.
  - destruct c as [f|? ? ? ?]; [|apply Hc].
    cbn [files]. rewrite filter_cons, filter_nil.
    destruct (isRouteFile path f);
      [by rewrite decide_True|by rewrite decide_False].
Qed.

(** The directories that give a route of the app router. *)
Local Abbreviation hasRouteFile :=
  (λ d : TreeNode,
     hasFile path "page" (childrenOf d) || hasFile path "route" (childrenOf d)
     = true).

Lemma processAppDirectory_spec dir : ∀ basePath,
  Forall (sound app) (processAppDirectory path dir basePath) ∧
  route_filePath <$> processAppDirectory path dir basePath =
    nodePath <$> filter hasRouteFile (directories dir).
Proof.
  induction dir as [f|nm p children metadata IH] using TreeNode_ind';
    intros basePath; [split; [apply Forall_nil_2|done]|].
  cbn [processAppDirectory directories].
  assert (∀ base,
            Forall (sound app)
              (flat_map (λ child,
                 match child with
                 | FileN _ => []
                 | DirectoryN name _ _ _ =>
                     processAppDirectory path child (join path base name)
                 end) children) ∧
            route_filePath <$>
              flat_map (λ child,
                 match child with
                 | FileN _ => []
                 | DirectoryN name _ _ _ =>
                     processAppDirectory path child (join path base name)
                 end) children =
            nodePath <$> filter hasRouteFile (flat_map directories children))
    as Hloop.
  { intros base. induction IH as [|c l Hc _ [IH1 IH2]];
      [split; [apply Forall_nil_2|done]|].
    cbn [flat_map]. rewrite filter_app, !fmap_app, IH2.
    split; [apply Forall_app; split; [|done]|f_equal];
      (destruct c as [f|? ? ? ?]; [try constructor; done|apply Hc]). }
  destruct (Hloop basePath) as [H1 H2].
  rewrite filter_cons, fmap_app, H2. cbn [childrenOf].
  destruct (hasFile path "page" children || hasFile path "route" children)
    eqn:E.
  - rewrite decide_True by done. split; [|done].
    apply Forall_app. split; [|done]. constructor; [|constructor].
    simpl. split; [done|]. split; [done|]. apply someParams_spec.
  - rewrite decide_False by done. split; [|done].
    apply Forall_app. split; [apply Forall_nil_2|done].
Qed.

End WithPath.

(** X25. The route map of a scanned project.  The routes of the pages
    router come first, one per script file below the first [pages]
    directory whose name does not start with an underscore, in the
    order of the tree; the routes of the app router follow, one per
    directory from the first [app] directory down that holds a [page]
    or a [route] file.  A route is a page exactly when it is not an API
    route, and dynamic exactly when it has parameters.  The statistics
    count every route once by router and once as page or API route. *)
Theorem analyzeRoutes_spec (path : PathModule) (structure : TreeNode) :
  let map := analyzeRoutes path structure in
  let st := route_stats map in
  let under := λ name, match findDirectory structure name with
                       | Some d => [d]
                       | None => []
                       end in
  (∃ pagesRoutes appRoutes,
     routes map = pagesRoutes ++ appRoutes ∧
     Forall (λ r, routerType r = pages) pagesRoutes ∧
     Forall (λ r, routerType r = app) appRoutes ∧
     route_filePath <$> pagesRoutes =
       file_path <$> filter (λ f, isRouteFile path f = true)
                       (flat_map files (under "pages")) ∧
     route_filePath <$> appRoutes =
       nodePath <$>
         filter (λ d, hasFile path "page" (childrenOf d) ||
                      hasFile path "route" (childrenOf d) = true)
           (flat_map directories (under "app")) ∧
     pagesRouter st = length pagesRoutes ∧ appRouter st = length appRoutes) ∧
  Forall (λ r, route_isPage r = negb (isApi r) ∧
               (isDynamic r = true ↔ is_Some (params r)) ∧
               params r ≠ Some []) (routes map) ∧
  totalRoutes st = length (routes map) ∧
  (pagesRouter st + appRouter st)%nat = totalRoutes st ∧
  (pageRoutes st + apiRoutes st)%nat = totalRoutes st ∧
  apiRoutes st = length (filter (λ r, isApi r = true) (routes map)) ∧
  dynamicRoutes st = length (filter (λ r, isDynamic r = true) (routes map)).
Proof.
  intros map st under.
  set (pagesRoutes :=
         match findDirectory structure "pages" with
         | Some d => processPageDirectory path d ""
         | None => []
         end).
  set (appRoutes :=
         match findDirectory structure "app" with
         | Some d => processAppDirectory path d ""
         | None => []
         end).
  set (st0 := {| totalRoutes := 0; pageRoutes := 0; apiRoutes := 0;
                 dynamicRoutes := 0; pagesRouter := 0; appRouter := 0 |}).
  assert (routes map = pagesRoutes ++ appRoutes ∧
          st = addRoutes appRoutes (addRoutes pagesRoutes st0 pages) app)
    as [Hr Hs].
  { unfold st, map, analyzeRoutes, pagesRoutes, appRoutes. fold st0.
    destruct (findDirectory structure "pages") as [d1|],
      (findDirectory structure "app") as [d2|]; simpl;
      rewrite ?app_nil_r; (split; [done|]); unfold addRoutes; simpl;
      f_equal; lia. }
  assert (Forall ((λ r, routerType r = pages ∧ route_isPage r = negb (isApi r) ∧ (isDynamic r = true ↔ is_Some (params r)) ∧ params r ≠ Some [])) pagesRoutes ∧
          route_filePath <$> pagesRoutes =
            file_path <$> filter (λ f, isRouteFile path f = true)
                            (flat_map files (under "pages"))) as [Hp1 Hp2].
  { unfold pagesRoutes, under.
    destruct (findDirectory structure "pages") as [d|] eqn:E;
      [|split; [apply Forall_nil_2|done]].
    simpl. rewrite app_nil_r. apply findDirectory_directory in E.
    pose proof (processPageDirectory_spec path d) as Hd.
    destruct d; [done|]. apply Hd. }
  assert (Forall ((λ r, routerType r = app ∧ route_isPage r = negb (isApi r) ∧ (isDynamic r = true ↔ is_Some (params r)) ∧ params r ≠ Some [])) appRoutes ∧
          route_filePath <$> appRoutes =
            nodePath <$>
              filter (λ d, hasFile path "page" (childrenOf d) ||
                           hasFile path "route" (childrenOf d) = true)
                (flat_map directories (under "app"))) as [Ha1 Ha2].
  { unfold appRoutes, under.
    destruct (findDirectory structure "app") as [d|];
      [|split; [apply Forall_nil_2|done]].
    simpl. rewrite app_nil_r. apply processAppDirectory_spec. }
  assert (∀ l : list RouteInfo,
            (length (filter (λ r, isApi r = false) l) +
             length (filter (λ r, isApi r = true) l))%nat = length l) as Hpart.
  { induction l as [|r l IH]; [done|]. rewrite !filter_cons.
    destruct (isApi r); simpl; lia. }
  pose proof (Hpart pagesRoutes). pose proof (Hpart appRoutes).
  rewrite Hr, Hs. simpl. rewrite !filter_app, !length_app.
  split; [|split; [|repeat split; lia]].
  - exists pagesRoutes, appRoutes. split; [done|].
    split; [eapply Forall_impl; [exact Hp1|by intros r (? & _)]|].
    split; [eapply Forall_impl; [exact Ha1|by intros r (? & _)]|done].
  - apply Forall_app. split.
    + eapply Forall_impl; [exact Hp1|]. by intros r (_ & ? & ? & ?).
    + eapply Forall_impl; [exact Ha1|]. by intros r (_ & ? & ? & ?).
Qed.

(** X26. [findPageFiles] returns, in the order of the tree, the script
    files of the whole tree of a directory that are flagged as pages,
    lie under [/pages/], or are [page] files under [/app/]. *)
Theorem findPageFiles_files (path : PathModule) (name dirPath : string)
  (children : list TreeNode) (metadata : option DirectoryMetadata) :
  let structure := DirectoryN name dirPath children metadata in
  findPageFiles path structure =
  filter (λ f, isPageFile path f = true) (files structure).
Proof.
  intros structure. unfold findPageFiles.
  assert (∀ n, match n with
               | FileN _ => True
               | DirectoryN _ _ _ _ =>
                   ∀ acc, pageFiles_traverse path n acc =
                          acc ++ filter (λ f, isPageFile path f = true)
                                   (files n)
               end) as H.
  { induction n as [f|nm p cs md IH] using TreeNode_ind'; [done|].
    cbn [pageFiles_traverse files].
    induction IH as [|c l Hc _ IHl]; intros acc.
    - simpl. by rewrite app_nil_r.
    - cbn [fold_left flat_map]. rewrite IHl, filter_app, (assoc_L (++)).
      f_equal. destruct c as [f|? ? ? ?]; [|apply Hc].
      cbn [files]. rewrite filter_cons, filter_nil.
      destruct (isPageFile path f);
        [by rewrite decide_True|rewrite decide_False by done].
      by rewrite app_nil_r. }
  apply (H structure []).
Qed.

End RouteFacts.

(** ** Runs of the pipeline: what a run produces *)
Module PipelineRuns.
Import Js Files Parser Pipeline PipelineSpec PipelineFacts.

Lemma addComponents_cids file comps : ∀ nodes,
  Components.cid <$>
    fold_left (λ nodes c, Components.addComponent file c nodes) comps nodes =
  (Components.cid <$> nodes) ++
  ((λ c, file_path file +:+ ":" +:+ Components.componentNameOf c) <$>
     filter (λ c, truthy (Components.componentNameOf c) = true) comps).
Proof.
  induction comps as [|c comps IH]; intros nodes; simpl.
  - by rewrite app_nil_r.
  - rewrite IH, filter_cons. unfold Components.addComponent.
    destruct (truthy (Components.componentNameOf c)) eqn:E.
    + rewrite decide_True by done. rewrite fmap_app. simpl.
      by rewrite <-(assoc_L (++)).
    + rewrite decide_False by done. done.
Qed.

Lemma firstPasses_cids world files : ∀ acc,
  Components.cid <$>
    (fold_left (λ acc file, Components.firstPass world file acc) files acc).1 =
  (Components.cid <$> acc.1) ++ flat_map (componentIdsOf world) files.
Proof.
  induction files as [|f files IH]; intros acc; simpl.
  - by rewrite app_nil_r.
  - rewrite IH. unfold Components.firstPass, componentIdsOf.
    destruct (world (file_path f)) as [ast|]; simpl; [|done].
    by rewrite addComponents_cids, <-(assoc_L (++)).
Qed.

(** The identifiers of the component graph, in the order of its nodes. *)
Lemma analyzeComponents_cids world fileData :
  Components.cid <$>
    Components.components (Components.analyzeComponents world fileData) =
  flat_map (componentIdsOf world)
    (filter (λ f, isScriptFile f = true) fileData).
Proof.
  destruct (ComponentGraphFacts.analyzeComponents_passes world fileData)
    as (nodes0 & importMap & nodes & rels & H1 & H2 & ->).
  simpl.
  pose proof (firstPasses_cids world
                (filter (λ f, isScriptFile f = true) fileData) ([], []))
    as Hc.
  rewrite H1 in Hc. simpl in Hc. rewrite <-Hc.
  set (key := λ c : Components.ComponentNodeData,
         (Components.cid c, Components.label c, Components.filePath c,
          Components.ctype c, Components.props c)).
  assert (∀ l : list Components.ComponentNodeData,
            Components.cid <$> l = (λ k, k.1.1.1.1) <$> (key <$> l)) as Hk.
  { intros l. rewrite <-list_fmap_compose. done. }
  rewrite !Hk. f_equal.
  rewrite ComponentGraphFacts.imap_key by done.
  pose proof (ComponentFacts.fold_left_invariant
                (λ acc, key <$> acc.1 = key <$> nodes0)
                (λ acc entry, Components.secondPass entry acc) importMap
                (nodes0, [])) as Hinv.
  rewrite H2 in Hinv. apply Hinv; [|done].
  intros acc entry Ha. by rewrite ComponentGraphFacts.secondPass_key.
Qed.

(** C4. Two runs on the same file data that read the same content for
    every script file listed in it produce the same results: the same
    component graph, the same dependency graph with its
    circular-dependency records, and the same report with its scores.
    What a run produces is built from what it reads: the identifiers of
    the components are, in order, the path of each parsed script file
    followed by a colon and the name of a component it declares; the
    identifiers of the dependency nodes are the paths of the parsed script
    files; the circular-dependency records are those of the cycle detector
    on the adjacency map of these files; and the scores are those of the
    issues of the report and of the number of script files. *)
Theorem C4_deterministic (path : PathModule) (log10 : float → float)
  (world1 world2 : World) (fileData : list FileNode) :
  (∀ f, f ∈ fileData → isScriptFile f = true →
        world1 (file_path f) = world2 (file_path f)) →
  let run1 := run path log10 world1 fileData in
  let run2 := run path log10 world2 fileData in
  let pass := Dependency.firstPass path world1 fileData in
  run1 = run2 ∧
  Components.cid <$> Components.components (componentGraph run1) =
    flat_map (componentIdsOf world1)
      (filter (λ f, isScriptFile f = true) fileData) ∧
  (∃ g, dependencyGraph run1 = Some g ∧
        Dependency.dep_id <$> Dependency.dependencies g =
          file_path <$> parsedScripts world1 fileData ∧
        Dependency.detectCircularDependencies
          (Dependency.dependencyMap pass)
          (Dependency.filePathToModuleName pass) =
          Some (Dependency.graph_circularDependencies g)) ∧
  Solid.score (solidReport run1) =
    Solid.calculateScores log10 (Solid.issues (solidReport run1))
      (length (filter (λ f, isScriptFile f = true) fileData)).
Proof.
  intros Hagree run1 run2 pass. split; [|split; [|split]].
  - unfold run1, run2, run.
    by rewrite (analyzeComponents_agree world1 world2 fileData Hagree),
      (analyzeDependencies_agree path world1 world2 fileData Hagree),
      (analyzeSolid_agree log10 world1 world2 fileData Hagree).
  - apply analyzeComponents_cids.
  - unfold run1, run. simpl. unfold Dependency.analyzeDependencies.
    fold pass.
    destruct (DfsFacts.detect_total (Dependency.dependencyMap pass)
                (Dependency.filePathToModuleName pass)) as [res Hres].
    rewrite Hres. simpl. eexists. split; [done|]. simpl. split; [|done].
    unfold pass, Dependency.firstPass, parsedScripts.
    by rewrite DependencyFacts.fold_nodes.
  - unfold run1, run. simpl. unfold Solid.analyzeSolid.
    by destruct (fold_left _ _ ([], 0%nat)).
Qed.

Lemma C4_deterministic_witness :
  let run1 := run Posix.path (λ _, 0%float) (Examples.disk None)
                Examples.sources in
  let run2 := run Posix.path (λ _, 0%float)
                (Examples.disk (Some Examples.buttonProgram))
                Examples.sources in
  let pass := Dependency.firstPass Posix.path (Examples.disk None)
                Examples.sources in
  run1 = run2 ∧
  Components.cid <$> Components.components (componentGraph run1) =
    flat_map (componentIdsOf (Examples.disk None))
      (filter (λ f, isScriptFile f = true) Examples.sources) ∧
  (∃ g, dependencyGraph run1 = Some g ∧
        Dependency.dep_id <$> Dependency.dependencies g =
          file_path <$> parsedScripts (Examples.disk None) Examples.sources ∧
        Dependency.detectCircularDependencies
          (Dependency.dependencyMap pass)
          (Dependency.filePathToModuleName pass) =
          Some (Dependency.graph_circularDependencies g)) ∧
  Solid.score (solidReport run1) =
    Solid.calculateScores (λ _, 0%float) (Solid.issues (solidReport run1))
      (length (filter (λ f, isScriptFile f = true) Examples.sources)).
Proof.
  apply (C4_deterministic Posix.path (λ _, 0%float) (Examples.disk None)
           (Examples.disk (Some Examples.buttonProgram)) Examples.sources).
  intros f Hf _. unfold Examples.sources in Hf.
  apply elem_of_cons in Hf as [->|Hf]; [reflexivity|].
  apply elem_of_cons in Hf as [->|Hf]; [reflexivity|].
  by apply elem_of_nil in Hf.
Defined.

(** The identifiers of that run. *)
Lemma example_run_ids :
  let run1 := run Posix.path (λ _, 0%float) (Examples.disk None)
                Examples.sources in
  Components.cid <$> Components.components (componentGraph run1) =
    ["/src/App.tsx:App"; "/src/Button.tsx:Button"] ∧
  (λ g, Dependency.dep_id <$> Dependency.dependencies g) <$>
    dependencyGraph run1 = Some ["/src/App.tsx"; "/src/Button.tsx"].
Proof. by vm_compute. Qed.

End PipelineRuns.
